(** * Virtual-Memory-Manager: page-replacement simulators

    A shallow embedding of the two simulators of the repository,
    [global.cpp] (one frame pool shared by the four processes) and
    [local.cpp] (the pool split into four equal partitions), and the
    properties of their frame allocation and eviction policies.

    Conventions of the embedding.
    - A C++ [int] that the program keeps non-negative (frame indices, the
      fault counters, the loop index) is a [nat]; the sentinel [-1] of a frame
      index (the result of [allocateFrame], the initial [farthest_frame]) is
      [None] of an [option nat].  Process ids stay in [Z]: a free frame is
      marked by the process id [-1], and the trace may hold any [int].
    - A [uint64_t] page number is an [N].
    - [std::unordered_map] is a [gmap], [std::vector] and [std::list] are
      lists; [operator[]] out of range, [front()] of an empty list, [%] by
      zero and the other undefined behaviours are the [Err] results below.
    - [rand()] reads a sequence of draws [rand : nat -> nat]; the number of
      draws made so far is part of the manager's state.
    - [page_size] and [isEmpty] are never read by the access loop and are
      left out; parsing the trace file is out of scope, the trace is the
      vector that [loadMemoryTrace] returns. *)

From Stdlib Require Import ZArith NArith String Lia.
From stdpp Require Import gmap list sorting.

Local Open Scope string_scope.
Local Open Scope list_scope.

(* [set_solver] clears hypotheses that its earlier steps may have removed. *)
#[local] Set Warnings "-clear-no-such-hyp".

(** ** Undefined behaviour as explicit errors *)

Inductive error : Type :=
| OutOfBounds     (* a frame index outside its vector *)
| DivByZero       (* [%] with a zero modulus *)
| EmptyList       (* [front()] or [pop_front()] of an empty [std::list] *)
| BadProcess      (* [page_tables[pid]] with [pid] outside the four tables *)
| BadAlloc        (* a vector of negative size *)
| IndexOverflow.  (* the [int] loop index cannot reach [trace.size()] *)

Inductive result (A : Type) : Type :=
| Ok (a : A)
| Err (e : error).
Arguments Ok {A} a.
Arguments Err {A} e.

Definition bind {A B : Type} (m : result A) (k : A -> result B) : result B :=
  match m with
  | Ok a => k a
  | Err e => Err e
  end.

Notation "'let*' x ':=' m 'in' k" := (bind m (fun x => k))
  (at level 10, x pattern, m at level 100, k at level 200).

(** [v[i]] for reading and [v[i] = x] for writing, on a vector of frames. *)
Definition vec_get {A : Type} (v : list A) (i : nat) : result A :=
  match v !! i with
  | Some x => Ok x
  | None => Err OutOfBounds
  end.

Definition vec_set {A : Type} (v : list A) (i : nat) (x : A) : result (list A) :=
  if decide (i < length v) then Ok (<[i := x]> v) else Err OutOfBounds.

(** [l.remove(x)] of [std::list<int>]: every element equal to [x] goes. *)
Definition list_remove (x : nat) (l : list nat) : list nat :=
  filter (fun y => y <> x) l.

(** [l.front()] followed by [l.pop_front()]. *)
Definition pop_front (l : list nat) : result (nat * list nat) :=
  match l with
  | [] => Err EmptyList
  | x :: rest => Ok (x, rest)
  end.

(** [a % b] on non-negative [int]s. *)
Definition int_mod (a b : nat) : result nat :=
  if decide (b = 0) then Err DivByZero else Ok (a mod b).

Definition INT_MAX : Z := 2147483647.

(** The marker of a free frame, [{-1, 0}]. *)
Definition free_frame : Z * N := ((-1)%Z, 0%N).

Definition is_free (e : Z * N) : bool := (e.1 =? -1)%Z.

(** The inner loop of [optimalReplacement]:
    [for (int j = current_index + 1; j < trace.size(); ++j)], stopping at the
    first [j] whose record is [(frame_pid, frame_page)].  [find_from] walks the
    part of the trace that starts at index [j]. *)
Fixpoint find_from (rest : list (Z * N)) (j : nat) (frame_pid : Z) (frame_page : N)
  : option nat :=
  match rest with
  | [] => None
  | r :: rest' =>
      if ((r.1 =? frame_pid)%Z && (r.2 =? frame_page)%N)%bool then Some j
      else find_from rest' (S j) frame_pid frame_page
  end.

Definition next_use (trace : list (Z * N)) (current_index : nat)
    (frame_pid : Z) (frame_page : N) : option nat :=
  find_from (drop (S current_index) trace) (S current_index) frame_pid frame_page.

(** The locals of [optimalReplacement] that its outer loop updates. *)
Record opt_acc : Type := mk_opt_acc {
  farthest_frame : option nat;   (* -1 is None *)
  farthest_index : Z;
  old_pid : Z;
  old_page_no : N
}.

Definition opt_acc_init : opt_acc :=
  mk_opt_acc None (-1)%Z (-1)%Z (18446744073709551615)%N.

(** The outer loop of [optimalReplacement] over the frames [i, i+1, ...] of
    one region [mem]; [fuel] is the number of frames still to visit. *)
Fixpoint optimal_scan (mem : list (Z * N)) (trace : list (Z * N))
    (current_index : nat) (fuel i : nat) (acc : opt_acc) : result opt_acc :=
  match fuel with
  | 0 => Ok acc
  | S fuel' =>
      let* fr := vec_get mem i in
      match next_use trace current_index fr.1 fr.2 with
      | Some j =>
          let acc' :=
            if (farthest_index acc <? Z.of_nat j)%Z
            then mk_opt_acc (Some i) (Z.of_nat j) fr.1 fr.2
            else acc in
          optimal_scan mem trace current_index fuel' (S i) acc'
      | None =>
          Ok (mk_opt_acc (Some i) (farthest_index acc) fr.1 fr.2)
      end
  end.

(** ** Page tables

    The class [PageTable] and the vector of four tables are the same in the
    two simulators. *)

Record PageTable : Type := mkPageTable {
  page_to_frame : gmap N nat;
  process_id : Z;
  page_fault_count : nat
}.

(** [page_tables[pid]] *)
Definition table_get (pts : list PageTable) (pid : Z) : result PageTable :=
  if (pid <? 0)%Z then Err BadProcess
  else match pts !! Z.to_nat pid with
       | Some t => Ok t
       | None => Err BadProcess
       end.

(** [page_tables[pid] = t] *)
Definition table_set (pts : list PageTable) (pid : Z) (t : PageTable)
  : list PageTable :=
  <[Z.to_nat pid := t]> pts.

(** [page_tables[pid].page_to_frame.erase(page)] *)
Definition table_erase (pid : Z) (page : N) (pts : list PageTable)
  : result (list PageTable) :=
  let* t := table_get pts pid in
  Ok (table_set pts pid
        (mkPageTable (delete page (page_to_frame t)) (process_id t)
           (page_fault_count t))).

(** [page_tables[pid].page_to_frame[page] = frame] *)
Definition table_map (pid : Z) (page : N) (frame : nat) (pts : list PageTable)
  : result (list PageTable) :=
  let* t := table_get pts pid in
  Ok (table_set pts pid
        (mkPageTable (<[page := frame]> (page_to_frame t)) (process_id t)
           (page_fault_count t))).

(** [page_table.page_fault_count++] *)
Definition table_fault (pid : Z) (pts : list PageTable) : result (list PageTable) :=
  let* t := table_get pts pid in
  Ok (table_set pts pid
        (mkPageTable (page_to_frame t) (process_id t) (S (page_fault_count t)))).


(** ** Views of the page tables and of a region of frames *)

(** [PageTable[P]] maps page [p] to this frame, if to any. *)
Definition lookup_page (pts : list PageTable) (P : Z) (p : N) : option nat :=
  if (P <? 0)%Z then None
  else match pts !! Z.to_nat P with
       | Some t => page_to_frame t !! p
       | None => None
       end.

(** The fault counter of process [P]. *)
Definition faults_of (pts : list PageTable) (P : nat) : nat :=
  match pts !! P with
  | Some t => page_fault_count t
  | None => 0
  end.

(** Frame [f] of the region [mem] holds a page. *)
Definition occupied (mem : list (Z * N)) (f : nat) : Prop :=
  exists e, mem !! f = Some e /\ is_free e = false.

(** The region has no free frame. *)
Definition full (mem : list (Z * N)) : Prop :=
  forall f, f < length mem -> occupied mem f.

(** The sum of the per-process fault counters. *)
Definition fault_sum (pts : list PageTable) : nat :=
  sum_list (map page_fault_count pts).

(** The tables [pts'] are [pts] after one fault of process [pid]. *)
Definition faulted (pts pts' : list PageTable) (pid : Z) : Prop :=
  length pts' = length pts /\
  forall P, faults_of pts' P =
            faults_of pts P + (if decide (P = Z.to_nat pid) then 1 else 0).

(** The tables [pts'] are [pts] after [(pid, page)] entered frame [f] and the
    page [old], if any, left. *)
Definition installed (pts pts' : list PageTable) (pid : Z) (page : N) (f : nat)
    (old : option (Z * N)) : Prop :=
  forall P p,
    lookup_page pts' P p =
    if decide (P = pid /\ p = page) then Some f
    else if decide (old = Some (P, p)) then None
    else lookup_page pts P p.

(** The process id indexes one of the four page tables. *)
Definition valid_pid (pid : Z) : Prop := (0 <= pid < 4)%Z.

Definition known_policy (policy : string) : Prop :=
  policy = "fifo" \/ policy = "lru" \/ policy = "optimal" \/ policy = "random".

(** The effect of one access on the fault counters: none on a hit, one more
    fault of the process and one more in all on a miss. *)
Definition counted (pid : Z) (page : N) (pts pts' : list PageTable) (g g' : nat)
  : Prop :=
  length pts' = length pts /\ Z.to_nat pid < length pts /\
  match lookup_page pts pid page with
  | Some _ => g' = g /\ forall P, faults_of pts' P = faults_of pts P
  | None => g' = S g /\
            forall P, faults_of pts' P =
                      faults_of pts P + (if decide (P = Z.to_nat pid) then 1 else 0)
  end.

(** The pages held by the frames of the region. *)
Definition content (mem : list (Z * N)) : gset (Z * N) :=
  list_to_set (filter (fun e => is_free e = false) mem).

(** [f] is the first free frame of the region. *)
Definition first_free (mem : list (Z * N)) (f : nat) : Prop :=
  (exists e, mem !! f = Some e /\ is_free e = true) /\
  forall g, g < f -> occupied mem g.

(** ** The free frame that [allocate] is specified to return

    The frames of the region are looked at in ascending index from the
    rotation cursor [c], wrapping at the end of the region; the first free
    one is returned. *)
Definition scan_order (n c : nat) : list nat := seq c (n - c) ++ seq 0 c.

Definition free_at (mem : list (Z * N)) (f : nat) : bool :=
  match mem !! f with
  | Some e => is_free e
  | None => false
  end.

Definition allocate_spec (mem : list (Z * N)) (c : nat) : option nat :=
  List.find (free_at mem) (scan_order (length mem) c).

(** ** The age of the frames

    [before c f g]: frame [f] comes before frame [g] in the rotation that
    starts at the cursor [c]. *)
Definition before (c f g : nat) : Prop :=
  (c <= f /\ f < g) \/ (f < g /\ g < c) \/ (g < c /\ c <= f).

(** The frame in which an access installed its page, when it missed. *)
Definition installed_frame (pts pts' : list PageTable) (r : Z * N) : option nat :=
  match lookup_page pts r.1 r.2 with
  | Some _ => None
  | None => lookup_page pts' r.1 r.2
  end.

(** The frames that hold a page are stamped, each stamp is the index of an
    earlier record, and the stamps grow along the rotation from the cursor. *)
Definition aged (mem : list (Z * N)) (c n : nat) (times : list (option nat)) : Prop :=
  length times = length mem /\
  (forall f, occupied mem f <-> exists t, times !! f = Some (Some t)) /\
  (forall f t, times !! f = Some (Some t) -> t < n) /\
  (forall f g tf tg, times !! f = Some (Some tf) -> times !! g = Some (Some tg) ->
                     before c f g -> tf < tg).

(** ** The victim of the optimal policy, as the specification words it *)

(** The next future access to the page held by frame [f] of the region. *)
Definition reuse (mem : list (Z * N)) (trace : list (Z * N)) (current_index f : nat)
  : option nat :=
  match mem !! f with
  | Some e => next_use trace current_index e.1 e.2
  | None => None
  end.

(** [v] is the first frame, in index order, whose page is never accessed
    again. *)
Definition first_never_reused (mem trace : list (Z * N)) (current_index v : nat)
  : Prop :=
  v < length mem /\
  reuse mem trace current_index v = None /\
  forall f, f < v -> reuse mem trace current_index f <> None.

(** Every frame's page is accessed again, and the page of [v] the latest (of
    frames that tie, the first is taken). *)
Definition farthest_reused (mem trace : list (Z * N)) (current_index v : nat)
  : Prop :=
  v < length mem /\
  (forall f, f < length mem -> reuse mem trace current_index f <> None) /\
  exists j, reuse mem trace current_index v = Some j /\
    (forall f j', reuse mem trace current_index f = Some j' -> j' <= j) /\
    (forall f j', f < v -> reuse mem trace current_index f = Some j' -> j' < j).

Definition optimal_victim (mem trace : list (Z * N)) (current_index v : nat) : Prop :=
  first_never_reused mem trace current_index v \/
  farthest_reused mem trace current_index v.

(** The invariant of the outer loop of [optimalReplacement] when it reaches
    frame [i]: every earlier frame is reused, and the accumulator holds the
    first of those reused the latest. *)
Definition scan_inv (mem trace : list (Z * N)) (current_index i : nat)
    (acc : opt_acc) : Prop :=
  (forall f, f < i -> reuse mem trace current_index f <> None) /\
  match farthest_frame acc with
  | None => i = 0 /\ farthest_index acc = (-1)%Z
  | Some v =>
      v < i /\
      exists e j,
        mem !! v = Some e /\ old_pid acc = e.1 /\ old_page_no acc = e.2 /\
        reuse mem trace current_index v = Some j /\
        farthest_index acc = Z.of_nat j /\
        (forall f j', f < i -> reuse mem trace current_index f = Some j' -> j' <= j) /\
        (forall f j', f < v -> reuse mem trace current_index f = Some j' -> j' < j)
  end.

(** What the loop leaves in the accumulator: the victim and its page. *)
Definition scan_result (mem trace : list (Z * N)) (current_index : nat)
    (acc : opt_acc) : Prop :=
  exists v e,
    farthest_frame acc = Some v /\ mem !! v = Some e /\
    old_pid acc = e.1 /\ old_page_no acc = e.2 /\
    optimal_victim mem trace current_index v.

(** ** The shared-pool simulator, [global.cpp] *)

Module Global.

Record FrameStatus : Type := mkFrameStatus {
  memoryFrames : nat;
  memory : list (Z * N);
  nextFrame : nat;
  lru_list : list nat
}.

Definition FrameStatus_new (memoryF : Z) : result FrameStatus :=
  if (memoryF <? 0)%Z then Err BadAlloc
  else Ok (mkFrameStatus (Z.to_nat memoryF)
             (replicate (Z.to_nat memoryF) free_frame) 0 []).

Definition allocateFrame (pid : Z) (page_number : N) (fs : FrameStatus)
  : result (FrameStatus * option nat) :=
  let* fr := vec_get (memory fs) (nextFrame fs) in
  if is_free fr then
    let* mem := vec_set (memory fs) (nextFrame fs) (pid, page_number) in
    let temp := nextFrame fs in
    let* next := int_mod (nextFrame fs + 1) (memoryFrames fs) in
    Ok (mkFrameStatus (memoryFrames fs) mem next (lru_list fs ++ [nextFrame fs]),
        Some temp)
  else Ok (fs, None).

Definition releaseFrame (frame_id : nat) (fs : FrameStatus) : result FrameStatus :=
  let* mem := vec_set (memory fs) frame_id free_frame in
  Ok (mkFrameStatus (memoryFrames fs) mem (nextFrame fs)
        (list_remove frame_id (lru_list fs))).

(** [memory[frame_id] = {process_id, page_number}] *)
Definition assign (frame_id : nat) (pid : Z) (page_number : N) (fs : FrameStatus)
  : result FrameStatus :=
  let* mem := vec_set (memory fs) frame_id (pid, page_number) in
  Ok (mkFrameStatus (memoryFrames fs) mem (nextFrame fs) (lru_list fs)).

Definition fifoReplacement (pid : Z) (page_number : N) (fs : FrameStatus)
  : result (FrameStatus * (Z * N * nat)) :=
  let frame_id := nextFrame fs in
  let* old := vec_get (memory fs) frame_id in
  let* fs1 := releaseFrame frame_id fs in
  let* next := int_mod (nextFrame fs1 + 1) (memoryFrames fs1) in
  let fs2 := mkFrameStatus (memoryFrames fs1) (memory fs1) next (lru_list fs1) in
  let* fs3 := assign frame_id pid page_number fs2 in
  Ok (fs3, (old.1, old.2, frame_id)).

Definition lruReplacement (pid : Z) (page_number : N) (fs : FrameStatus)
  : result (FrameStatus * (Z * N * nat)) :=
  let* (frame_id, rest) := pop_front (lru_list fs) in
  let fs0 := mkFrameStatus (memoryFrames fs) (memory fs) (nextFrame fs) rest in
  let* old := vec_get (memory fs0) frame_id in
  let* fs1 := releaseFrame frame_id fs0 in
  let* fs2 := assign frame_id pid page_number fs1 in
  Ok (mkFrameStatus (memoryFrames fs2) (memory fs2) (nextFrame fs2)
        (lru_list fs2 ++ [frame_id]),
      (old.1, old.2, frame_id)).

Definition optimalReplacement (pid : Z) (page_number : N)
    (trace : list (Z * N)) (current_index : nat) (fs : FrameStatus)
  : result (FrameStatus * (Z * N * nat)) :=
  let* acc := optimal_scan (memory fs) trace current_index (memoryFrames fs) 0
                opt_acc_init in
  match farthest_frame acc with
  | None => Err OutOfBounds
  | Some victim =>
      let* fs1 := releaseFrame victim fs in
      let* fs2 := assign victim pid page_number fs1 in
      Ok (fs2, (old_pid acc, old_page_no acc, victim))
  end.

Definition randomReplacement (draw : nat) (pid : Z) (page_number : N)
    (fs : FrameStatus) : result (FrameStatus * (Z * N * nat)) :=
  let* random_frame := int_mod draw (memoryFrames fs) in
  let* old := vec_get (memory fs) random_frame in
  let* fs1 := releaseFrame random_frame fs in
  let* fs2 := assign random_frame pid page_number fs1 in
  Ok (fs2, (old.1, old.2, random_frame)).

Definition updateLRU (frame_id : nat) (fs : FrameStatus) : FrameStatus :=
  mkFrameStatus (memoryFrames fs) (memory fs) (nextFrame fs)
    (list_remove frame_id (lru_list fs) ++ [frame_id]).

Record VirtualMemoryManager : Type := mkVMM {
  num_frames : Z;
  replacement_policy : string;
  page_tables : list PageTable;
  frame_status : FrameStatus;
  global_page_fault_count : nat;
  rand_calls : nat
}.

Definition VirtualMemoryManager_new (nf : Z) (policy : string)
  : result VirtualMemoryManager :=
  let* fs := FrameStatus_new nf in
  Ok (mkVMM nf policy (map (fun i => mkPageTable ∅ i 0) [0; 1; 2; 3]%Z) fs 0 0).

(** The two statements that follow each replacement call in [handleAccess]:
    the displaced page leaves its owner's table and the new page enters the
    table of [pid]. *)
Definition remap (vm : VirtualMemoryManager) (pid : Z) (page_number : N)
    (calls : nat) (r : FrameStatus * (Z * N * nat)) : result VirtualMemoryManager :=
  let '(fs, (old_pid, old_page_no, evicted_frame)) := r in
  let* pts1 := table_erase old_pid old_page_no (page_tables vm) in
  let* pts2 := table_map pid page_number evicted_frame pts1 in
  Ok (mkVMM (num_frames vm) (replacement_policy vm) pts2 fs
        (global_page_fault_count vm) calls).

Section WithRand.
Variable rand : nat -> nat.

Definition handleAccess (pid : Z) (page_number : N) (trace : list (Z * N))
    (current_index : nat) (vm : VirtualMemoryManager) : result VirtualMemoryManager :=
  let* page_table := table_get (page_tables vm) pid in
  match page_to_frame page_table !! page_number with
  | Some frame_id =>
      if String.eqb (replacement_policy vm) "lru"
      then Ok (mkVMM (num_frames vm) (replacement_policy vm) (page_tables vm)
                 (updateLRU frame_id (frame_status vm))
                 (global_page_fault_count vm) (rand_calls vm))
      else Ok vm
  | None =>
      let* pts := table_fault pid (page_tables vm) in
      let vm1 := mkVMM (num_frames vm) (replacement_policy vm) pts (frame_status vm)
                   (S (global_page_fault_count vm)) (rand_calls vm) in
      let* (fs, frame) := allocateFrame pid page_number (frame_status vm1) in
      match frame with
      | None =>
          if String.eqb (replacement_policy vm1) "fifo" then
            let* r := fifoReplacement pid page_number fs in
            remap vm1 pid page_number (rand_calls vm1) r
          else if String.eqb (replacement_policy vm1) "lru" then
            let* r := lruReplacement pid page_number fs in
            remap vm1 pid page_number (rand_calls vm1) r
          else if String.eqb (replacement_policy vm1) "optimal" then
            let* r := optimalReplacement pid page_number trace current_index fs in
            remap vm1 pid page_number (rand_calls vm1) r
          else if String.eqb (replacement_policy vm1) "random" then
            let* r := randomReplacement (rand (rand_calls vm1)) pid page_number fs in
            remap vm1 pid page_number (S (rand_calls vm1)) r
          else
            Ok (mkVMM (num_frames vm1) (replacement_policy vm1) (page_tables vm1) fs
                  (global_page_fault_count vm1) (rand_calls vm1))
      | Some f =>
          let* pts2 := table_map pid page_number f (page_tables vm1) in
          Ok (mkVMM (num_frames vm1) (replacement_policy vm1) pts2 fs
                (global_page_fault_count vm1) (rand_calls vm1))
      end
  end.

(** The loop of [runSimulation], started at index [i]; [fuel] bounds the
    number of records handled. *)
Fixpoint access_loop (trace : list (Z * N)) (fuel i : nat)
    (vm : VirtualMemoryManager) : result VirtualMemoryManager :=
  match fuel with
  | 0 => Ok vm
  | S fuel' =>
      match trace !! i with
      | None => Ok vm
      | Some r =>
          let* vm' := handleAccess r.1 r.2 trace i vm in
          access_loop trace fuel' (S i) vm'
      end
  end.

(** The manager after the first [n] records of the trace. *)
Definition after (nf : Z) (policy : string) (trace : list (Z * N)) (n : nat)
  : result VirtualMemoryManager :=
  let* vm := VirtualMemoryManager_new nf policy in
  access_loop trace n 0 vm.

(** [runSimulation]: the global fault count and the four per-process counts
    that it prints. *)
Definition runSimulation (nf : Z) (policy : string) (trace : list (Z * N))
  : result (nat * list nat) :=
  if (INT_MAX <? Z.of_nat (length trace))%Z then Err IndexOverflow
  else
    let* vm := after nf policy trace (length trace) in
    Ok (global_page_fault_count vm, map page_fault_count (page_tables vm)).

End WithRand.


(** *** Views of the manager's state and its consistency *)

(** The occupancy bijection between the page tables and the pool. *)
Definition bijection (vm : VirtualMemoryManager) : Prop :=
  forall P p f,
    lookup_page (page_tables vm) P p = Some f <->
    memory (frame_status vm) !! f = Some (P, p) /\ P <> (-1)%Z.

(** No frame is referenced by two entries of the page tables. *)
Definition exclusive (vm : VirtualMemoryManager) : Prop :=
  forall P p P' p' f,
    lookup_page (page_tables vm) P p = Some f ->
    lookup_page (page_tables vm) P' p' = Some f ->
    P = P' /\ p = p'.

(** What every state of a run satisfies. *)
Record consistent (vm : VirtualMemoryManager) : Prop := mk_consistent {
  cons_tables : length (page_tables vm) = 4;
  cons_size : length (memory (frame_status vm)) = memoryFrames (frame_status vm);
  cons_cursor : nextFrame (frame_status vm) < memoryFrames (frame_status vm);
  cons_bij : bijection vm;
  cons_shape :
    full (memory (frame_status vm)) \/
    (forall f, f < memoryFrames (frame_status vm) ->
       (occupied (memory (frame_status vm)) f <-> f < nextFrame (frame_status vm)));
  cons_lru :
    replacement_policy vm = "lru" ->
    NoDup (lru_list (frame_status vm)) /\
    forall f, f ∈ lru_list (frame_status vm) <-> occupied (memory (frame_status vm)) f
}.

(** The frame [f] that each policy reclaims from the full pool [fs], with the
    cursor, the recency list and the number of draws that it leaves. *)
Inductive chooses (rand : nat -> nat) (trace : list (Z * N)) (ci : nat)
    (policy : string) (fs : FrameStatus) (calls : nat)
  : nat -> nat -> list nat -> nat -> Prop :=
| chooses_fifo :
    policy = "fifo" ->
    chooses rand trace ci policy fs calls
      (nextFrame fs) ((nextFrame fs + 1) mod memoryFrames fs)
      (list_remove (nextFrame fs) (lru_list fs)) calls
| chooses_lru f rest :
    policy = "lru" -> lru_list fs = f :: rest ->
    chooses rand trace ci policy fs calls
      f (nextFrame fs) (list_remove f rest ++ [f]) calls
| chooses_optimal f :
    policy = "optimal" -> optimal_victim (memory fs) trace ci f ->
    chooses rand trace ci policy fs calls
      f (nextFrame fs) (list_remove f (lru_list fs)) calls
| chooses_random :
    policy = "random" ->
    chooses rand trace ci policy fs calls
      (rand calls mod memoryFrames fs) (nextFrame fs)
      (list_remove (rand calls mod memoryFrames fs) (lru_list fs)) (S calls).

(** One access, by cases: a hit, a fault served by the free frame at the
    cursor, a fault served by an eviction, and a fault on a full pool that no
    policy serves. *)
Inductive step (rand : nat -> nat) (pid : Z) (page : N) (trace : list (Z * N))
    (ci : nat) (vm : VirtualMemoryManager) : VirtualMemoryManager -> Prop :=
| step_hit f :
    lookup_page (page_tables vm) pid page = Some f ->
    step rand pid page trace ci vm
      (if String.eqb (replacement_policy vm) "lru"
       then mkVMM (num_frames vm) (replacement_policy vm) (page_tables vm)
              (updateLRU f (frame_status vm))
              (global_page_fault_count vm) (rand_calls vm)
       else vm)
| step_free e pts' :
    lookup_page (page_tables vm) pid page = None ->
    memory (frame_status vm) !! nextFrame (frame_status vm) = Some e ->
    is_free e = true ->
    faulted (page_tables vm) pts' pid ->
    installed (page_tables vm) pts' pid page (nextFrame (frame_status vm)) None ->
    step rand pid page trace ci vm
      (mkVMM (num_frames vm) (replacement_policy vm) pts'
         (mkFrameStatus (memoryFrames (frame_status vm))
            (<[nextFrame (frame_status vm) := (pid, page)]> (memory (frame_status vm)))
            ((nextFrame (frame_status vm) + 1) mod memoryFrames (frame_status vm))
            (lru_list (frame_status vm) ++ [nextFrame (frame_status vm)]))
         (S (global_page_fault_count vm)) (rand_calls vm))
| step_evict f old next lru calls pts' :
    lookup_page (page_tables vm) pid page = None ->
    full (memory (frame_status vm)) ->
    chooses rand trace ci (replacement_policy vm) (frame_status vm) (rand_calls vm)
      f next lru calls ->
    memory (frame_status vm) !! f = Some old ->
    faulted (page_tables vm) pts' pid ->
    installed (page_tables vm) pts' pid page f (Some old) ->
    step rand pid page trace ci vm
      (mkVMM (num_frames vm) (replacement_policy vm) pts'
         (mkFrameStatus (memoryFrames (frame_status vm))
            (<[f := (pid, page)]> (memory (frame_status vm))) next lru)
         (S (global_page_fault_count vm)) calls)
| step_dropped pts' :
    lookup_page (page_tables vm) pid page = None ->
    full (memory (frame_status vm)) ->
    ~ known_policy (replacement_policy vm) ->
    faulted (page_tables vm) pts' pid ->
    (forall P p, lookup_page pts' P p = lookup_page (page_tables vm) P p) ->
    step rand pid page trace ci vm
      (mkVMM (num_frames vm) (replacement_policy vm) pts' (frame_status vm)
         (S (global_page_fault_count vm)) (rand_calls vm)).

(** The states that a run of the simulator goes through. *)
Definition reachable (vm : VirtualMemoryManager) : Prop :=
  exists rand nf policy trace n,
    (1 <= nf)%Z /\ after rand nf policy trace n = Ok vm.

(** For each frame of the pool, the index of the record whose access last
    assigned a page to it, among the first [n] records of the trace. *)
Fixpoint assignment_times (rand : nat -> nat) (nf : Z) (policy : string)
    (trace : list (Z * N)) (n : nat) : list (option nat) :=
  match n with
  | 0 => replicate (Z.to_nat nf) None
  | S m =>
      let times := assignment_times rand nf policy trace m in
      match after rand nf policy trace m, after rand nf policy trace (S m),
            trace !! m with
      | Ok vm, Ok vm', Some r =>
          match installed_frame (page_tables vm) (page_tables vm') r with
          | Some f => <[f := Some m]> times
          | None => times
          end
      | _, _, _ => times
      end
  end.

End Global.

(** ** The partitioned simulator, [local.cpp] *)

Module Local.

Record FrameStatus : Type := mkFrameStatus {
  memoryFramesPerProcess : nat;
  memory : list (list (Z * N));
  nextFrame : list nat;
  lru_list : list (list nat)
}.

(** [memoryF / num_processes] truncates towards zero, as [Z.quot] does. *)
Definition FrameStatus_new (memoryF : Z) (num_processes : nat) : result FrameStatus :=
  if decide (num_processes = 0) then Err DivByZero
  else
    let per := (memoryF ÷ Z.of_nat num_processes)%Z in
    if (per <? 0)%Z then Err BadAlloc
    else Ok (mkFrameStatus (Z.to_nat per)
               (replicate num_processes (replicate (Z.to_nat per) free_frame))
               (replicate num_processes 0)
               (replicate num_processes [])).

(** [v[process_id]] on one of the per-process vectors. *)
Definition row_get {A : Type} (v : list A) (pid : Z) : result A :=
  if (pid <? 0)%Z then Err BadProcess
  else match v !! Z.to_nat pid with
       | Some x => Ok x
       | None => Err BadProcess
       end.

Definition row_set {A : Type} (v : list A) (pid : Z) (x : A) : list A :=
  <[Z.to_nat pid := x]> v.

(** The loop of [allocateFrame] over the frames [i, i+1, ...] of the
    partition of [pid]; [fuel] is the number of frames still to visit. *)
Fixpoint alloc_scan (mem : list (list (Z * N))) (pid : Z) (fuel i : nat)
  : result (option nat) :=
  match fuel with
  | 0 => Ok None
  | S fuel' =>
      let* row := row_get mem pid in
      let* fr := vec_get row i in
      if is_free fr then Ok (Some i) else alloc_scan mem pid fuel' (S i)
  end.

Definition allocateFrame (pid : Z) (page_number : N) (fs : FrameStatus)
  : result (FrameStatus * option nat) :=
  let* found := alloc_scan (memory fs) pid (memoryFramesPerProcess fs) 0 in
  match found with
  | Some i =>
      let* row := row_get (memory fs) pid in
      let* row' := vec_set row i (pid, page_number) in
      let* lru := row_get (lru_list fs) pid in
      Ok (mkFrameStatus (memoryFramesPerProcess fs)
            (row_set (memory fs) pid row') (nextFrame fs)
            (row_set (lru_list fs) pid (lru ++ [i])),
          Some i)
  | None => Ok (fs, None)
  end.

Definition releaseFrame (pid : Z) (frame_id : nat) (fs : FrameStatus)
  : result FrameStatus :=
  let* row := row_get (memory fs) pid in
  let* row' := vec_set row frame_id free_frame in
  let* lru := row_get (lru_list fs) pid in
  Ok (mkFrameStatus (memoryFramesPerProcess fs)
        (row_set (memory fs) pid row') (nextFrame fs)
        (row_set (lru_list fs) pid (list_remove frame_id lru))).

(** [memory[process_id][frame_id] = {process_id, page_number}] *)
Definition assign (pid : Z) (frame_id : nat) (page_number : N) (fs : FrameStatus)
  : result FrameStatus :=
  let* row := row_get (memory fs) pid in
  let* row' := vec_set row frame_id (pid, page_number) in
  Ok (mkFrameStatus (memoryFramesPerProcess fs)
        (row_set (memory fs) pid row') (nextFrame fs) (lru_list fs)).

Definition fifoReplacement (pid : Z) (page_number : N) (fs : FrameStatus)
  : result (FrameStatus * (Z * N * nat)) :=
  let* frame_id := row_get (nextFrame fs) pid in
  let* row := row_get (memory fs) pid in
  let* old := vec_get row frame_id in
  let* fs1 := releaseFrame pid frame_id fs in
  let* next := int_mod (frame_id + 1) (memoryFramesPerProcess fs1) in
  let fs2 := mkFrameStatus (memoryFramesPerProcess fs1) (memory fs1)
               (row_set (nextFrame fs1) pid next) (lru_list fs1) in
  let* fs3 := assign pid frame_id page_number fs2 in
  Ok (fs3, (old.1, old.2, frame_id)).

Definition lruReplacement (pid : Z) (page_number : N) (fs : FrameStatus)
  : result (FrameStatus * (Z * N * nat)) :=
  let* lru := row_get (lru_list fs) pid in
  let* (frame_id, rest) := pop_front lru in
  let fs0 := mkFrameStatus (memoryFramesPerProcess fs) (memory fs) (nextFrame fs)
               (row_set (lru_list fs) pid rest) in
  let* row := row_get (memory fs0) pid in
  let* old := vec_get row frame_id in
  let* fs1 := releaseFrame pid frame_id fs0 in
  let* fs2 := assign pid frame_id page_number fs1 in
  let* lru2 := row_get (lru_list fs2) pid in
  Ok (mkFrameStatus (memoryFramesPerProcess fs2) (memory fs2) (nextFrame fs2)
        (row_set (lru_list fs2) pid (lru2 ++ [frame_id])),
      (old.1, old.2, frame_id)).

Definition optimalReplacement (pid : Z) (page_number : N)
    (trace : list (Z * N)) (current_index : nat) (fs : FrameStatus)
  : result (FrameStatus * (Z * N * nat)) :=
  let* row := row_get (memory fs) pid in
  let* acc := optimal_scan row trace current_index (memoryFramesPerProcess fs) 0
                opt_acc_init in
  match farthest_frame acc with
  | None => Err OutOfBounds
  | Some victim =>
      let* fs1 := releaseFrame pid victim fs in
      let* fs2 := assign pid victim page_number fs1 in
      Ok (fs2, (old_pid acc, old_page_no acc, victim))
  end.

Definition randomReplacement (draw : nat) (pid : Z) (page_number : N)
    (fs : FrameStatus) : result (FrameStatus * (Z * N * nat)) :=
  let* random_frame := int_mod draw (memoryFramesPerProcess fs) in
  let* row := row_get (memory fs) pid in
  let* old := vec_get row random_frame in
  let* fs1 := releaseFrame pid random_frame fs in
  let* fs2 := assign pid random_frame page_number fs1 in
  Ok (fs2, (old.1, old.2, random_frame)).

Record VirtualMemoryManager : Type := mkVMM {
  num_frames : Z;
  replacement_policy : string;
  page_tables : list PageTable;
  frame_status : FrameStatus;
  global_page_fault_count : nat;
  rand_calls : nat
}.

Definition VirtualMemoryManager_new (nf : Z) (policy : string)
  : result VirtualMemoryManager :=
  let* fs := FrameStatus_new nf 4 in
  Ok (mkVMM nf policy (map (fun i => mkPageTable ∅ i 0) [0; 1; 2; 3]%Z) fs 0 0).

(** The two statements that follow each replacement call in [handleAccess]. *)
Definition remap (vm : VirtualMemoryManager) (pid : Z) (page_number : N)
    (calls : nat) (r : FrameStatus * (Z * N * nat)) : result VirtualMemoryManager :=
  let '(fs, (old_pid, old_page_no, evicted_frame)) := r in
  let* pts1 := table_erase old_pid old_page_no (page_tables vm) in
  let* pts2 := table_map pid page_number evicted_frame pts1 in
  Ok (mkVMM (num_frames vm) (replacement_policy vm) pts2 fs
        (global_page_fault_count vm) calls).

Section WithRand.
Variable rand : nat -> nat.

Definition handleAccess (pid : Z) (page_number : N) (trace : list (Z * N))
    (current_index : nat) (vm : VirtualMemoryManager) : result VirtualMemoryManager :=
  let* page_table := table_get (page_tables vm) pid in
  match page_to_frame page_table !! page_number with
  | Some frame_id =>
      if String.eqb (replacement_policy vm) "lru" then
        let fs := frame_status vm in
        let* lru := row_get (lru_list fs) pid in
        Ok (mkVMM (num_frames vm) (replacement_policy vm) (page_tables vm)
              (mkFrameStatus (memoryFramesPerProcess fs) (memory fs) (nextFrame fs)
                 (row_set (lru_list fs) pid (list_remove frame_id lru ++ [frame_id])))
              (global_page_fault_count vm) (rand_calls vm))
      else Ok vm
  | None =>
      let* pts := table_fault pid (page_tables vm) in
      let vm1 := mkVMM (num_frames vm) (replacement_policy vm) pts (frame_status vm)
                   (S (global_page_fault_count vm)) (rand_calls vm) in
      let* (fs, frame) := allocateFrame pid page_number (frame_status vm1) in
      match frame with
      | None =>
          if String.eqb (replacement_policy vm1) "fifo" then
            let* r := fifoReplacement pid page_number fs in
            remap vm1 pid page_number (rand_calls vm1) r
          else if String.eqb (replacement_policy vm1) "lru" then
            let* r := lruReplacement pid page_number fs in
            remap vm1 pid page_number (rand_calls vm1) r
          else if String.eqb (replacement_policy vm1) "optimal" then
            let* r := optimalReplacement pid page_number trace current_index fs in
            remap vm1 pid page_number (rand_calls vm1) r
          else if String.eqb (replacement_policy vm1) "random" then
            let* r := randomReplacement (rand (rand_calls vm1)) pid page_number fs in
            remap vm1 pid page_number (S (rand_calls vm1)) r
          else
            Ok (mkVMM (num_frames vm1) (replacement_policy vm1) (page_tables vm1) fs
                  (global_page_fault_count vm1) (rand_calls vm1))
      | Some f =>
          let* pts2 := table_map pid page_number f (page_tables vm1) in
          Ok (mkVMM (num_frames vm1) (replacement_policy vm1) pts2 fs
                (global_page_fault_count vm1) (rand_calls vm1))
      end
  end.

Fixpoint access_loop (trace : list (Z * N)) (fuel i : nat)
    (vm : VirtualMemoryManager) : result VirtualMemoryManager :=
  match fuel with
  | 0 => Ok vm
  | S fuel' =>
      match trace !! i with
      | None => Ok vm
      | Some r =>
          let* vm' := handleAccess r.1 r.2 trace i vm in
          access_loop trace fuel' (S i) vm'
      end
  end.

Definition after (nf : Z) (policy : string) (trace : list (Z * N)) (n : nat)
  : result VirtualMemoryManager :=
  let* vm := VirtualMemoryManager_new nf policy in
  access_loop trace n 0 vm.

Definition runSimulation (nf : Z) (policy : string) (trace : list (Z * N))
  : result (nat * list nat) :=
  if (INT_MAX <? Z.of_nat (length trace))%Z then Err IndexOverflow
  else
    let* vm := after nf policy trace (length trace) in
    Ok (global_page_fault_count vm, map page_fault_count (page_tables vm)).

End WithRand.


(** *** Views of the manager's state and its consistency *)

(** The partition of process [pid], its cursor and its recency list. *)
Definition partition (fs : FrameStatus) (pid : Z) : list (Z * N) :=
  default [] (memory fs !! Z.to_nat pid).

Definition cursor (fs : FrameStatus) (pid : Z) : nat :=
  default 0 (nextFrame fs !! Z.to_nat pid).

Definition recency (fs : FrameStatus) (pid : Z) : list nat :=
  default [] (lru_list fs !! Z.to_nat pid).

(** The occupancy bijection between the page table of each process and its
    partition. *)
Definition bijection (vm : VirtualMemoryManager) : Prop :=
  forall P p f,
    lookup_page (page_tables vm) P p = Some f <->
    valid_pid P /\ partition (frame_status vm) P !! f = Some (P, p).

(** No frame is referenced by two entries of the page tables; a frame is a
    partition and an index in it. *)
Definition exclusive (vm : VirtualMemoryManager) : Prop :=
  forall P p P' p' f,
    lookup_page (page_tables vm) P p = Some f ->
    lookup_page (page_tables vm) P' p' = Some f ->
    P = P' -> p = p'.

(** What every state of a run satisfies. *)
Record consistent (vm : VirtualMemoryManager) : Prop := mk_consistent {
  cons_tables : length (page_tables vm) = 4;
  cons_rows : length (memory (frame_status vm)) = 4;
  cons_cursors : length (nextFrame (frame_status vm)) = 4;
  cons_lists : length (lru_list (frame_status vm)) = 4;
  cons_positive : 1 <= memoryFramesPerProcess (frame_status vm);
  cons_size : forall P, valid_pid P ->
    length (partition (frame_status vm) P) = memoryFramesPerProcess (frame_status vm);
  cons_cursor : forall P, valid_pid P ->
    cursor (frame_status vm) P < memoryFramesPerProcess (frame_status vm);
  cons_bij : bijection vm;
  cons_own : forall P f e, valid_pid P ->
    partition (frame_status vm) P !! f = Some e -> is_free e = false -> e.1 = P;
  cons_shape : forall P, valid_pid P ->
    full (partition (frame_status vm) P) \/
    (cursor (frame_status vm) P = 0 /\
     exists m, forall f, f < memoryFramesPerProcess (frame_status vm) ->
       (occupied (partition (frame_status vm) P) f <-> f < m));
  cons_lru : replacement_policy vm = "lru" -> forall P, valid_pid P ->
    NoDup (recency (frame_status vm) P) /\
    forall f, f ∈ recency (frame_status vm) P <->
              occupied (partition (frame_status vm) P) f
}.

(** The frame status after frame [f] of the partition of [pid] received
    [(pid, page)], with the new cursor and recency list of that partition. *)
Definition placed (fs : FrameStatus) (pid : Z) (page : N) (f next : nat)
    (lru : list nat) : FrameStatus :=
  mkFrameStatus (memoryFramesPerProcess fs)
    (row_set (memory fs) pid (<[f := (pid, page)]> (partition fs pid)))
    (row_set (nextFrame fs) pid next)
    (row_set (lru_list fs) pid lru).

(** The frame [f] that each policy reclaims from the full partition of
    [pid], with the cursor, the recency list and the number of draws that it
    leaves. *)
Inductive chooses (rand : nat -> nat) (trace : list (Z * N)) (ci : nat)
    (policy : string) (fs : FrameStatus) (pid : Z) (calls : nat)
  : nat -> nat -> list nat -> nat -> Prop :=
| chooses_fifo :
    policy = "fifo" ->
    chooses rand trace ci policy fs pid calls
      (cursor fs pid) ((cursor fs pid + 1) mod memoryFramesPerProcess fs)
      (list_remove (cursor fs pid) (recency fs pid)) calls
| chooses_lru f rest :
    policy = "lru" -> recency fs pid = f :: rest ->
    chooses rand trace ci policy fs pid calls
      f (cursor fs pid) (list_remove f rest ++ [f]) calls
| chooses_optimal f :
    policy = "optimal" -> optimal_victim (partition fs pid) trace ci f ->
    chooses rand trace ci policy fs pid calls
      f (cursor fs pid) (list_remove f (recency fs pid)) calls
| chooses_random :
    policy = "random" ->
    chooses rand trace ci policy fs pid calls
      (rand calls mod memoryFramesPerProcess fs) (cursor fs pid)
      (list_remove (rand calls mod memoryFramesPerProcess fs) (recency fs pid))
      (S calls).

(** One access, by cases: a hit, a fault served by the first free frame of
    the partition, a fault served by an eviction, and a fault on a full
    partition that no policy serves. *)
Inductive step (rand : nat -> nat) (pid : Z) (page : N) (trace : list (Z * N))
    (ci : nat) (vm : VirtualMemoryManager) : VirtualMemoryManager -> Prop :=
| step_hit f :
    lookup_page (page_tables vm) pid page = Some f ->
    step rand pid page trace ci vm
      (if String.eqb (replacement_policy vm) "lru"
       then mkVMM (num_frames vm) (replacement_policy vm) (page_tables vm)
              (mkFrameStatus (memoryFramesPerProcess (frame_status vm))
                 (memory (frame_status vm)) (nextFrame (frame_status vm))
                 (row_set (lru_list (frame_status vm)) pid
                    (list_remove f (recency (frame_status vm) pid) ++ [f])))
              (global_page_fault_count vm) (rand_calls vm)
       else vm)
| step_free f pts' :
    lookup_page (page_tables vm) pid page = None ->
    first_free (partition (frame_status vm) pid) f ->
    faulted (page_tables vm) pts' pid ->
    installed (page_tables vm) pts' pid page f None ->
    step rand pid page trace ci vm
      (mkVMM (num_frames vm) (replacement_policy vm) pts'
         (placed (frame_status vm) pid page f (cursor (frame_status vm) pid)
            (recency (frame_status vm) pid ++ [f]))
         (S (global_page_fault_count vm)) (rand_calls vm))
| step_evict f old next lru calls pts' :
    lookup_page (page_tables vm) pid page = None ->
    full (partition (frame_status vm) pid) ->
    chooses rand trace ci (replacement_policy vm) (frame_status vm) pid (rand_calls vm)
      f next lru calls ->
    partition (frame_status vm) pid !! f = Some old ->
    faulted (page_tables vm) pts' pid ->
    installed (page_tables vm) pts' pid page f (Some old) ->
    step rand pid page trace ci vm
      (mkVMM (num_frames vm) (replacement_policy vm) pts'
         (placed (frame_status vm) pid page f next lru)
         (S (global_page_fault_count vm)) calls)
| step_dropped pts' :
    lookup_page (page_tables vm) pid page = None ->
    full (partition (frame_status vm) pid) ->
    ~ known_policy (replacement_policy vm) ->
    faulted (page_tables vm) pts' pid ->
    (forall P p, lookup_page pts' P p = lookup_page (page_tables vm) P p) ->
    step rand pid page trace ci vm
      (mkVMM (num_frames vm) (replacement_policy vm) pts' (frame_status vm)
         (S (global_page_fault_count vm)) (rand_calls vm)).

(** The pages held by the four partitions together. *)
Definition resident (fs : FrameStatus) : gset (Z * N) :=
  content (partition fs 0) ∪ content (partition fs 1) ∪
  content (partition fs 2) ∪ content (partition fs 3).

(** The states that a run of the simulator goes through. *)
Definition reachable (vm : VirtualMemoryManager) : Prop :=
  exists rand nf policy trace n,
    (4 <= nf)%Z /\ after rand nf policy trace n = Ok vm.

(** For each frame of the partition of [P], the index of the record whose
    access last assigned a page to it, among the first [n] records. *)
Fixpoint assignment_times (rand : nat -> nat) (nf : Z) (policy : string)
    (trace : list (Z * N)) (P : Z) (n : nat) : list (option nat) :=
  match n with
  | 0 => replicate (Z.to_nat (nf ÷ 4)) None
  | S m =>
      let times := assignment_times rand nf policy trace P m in
      match after rand nf policy trace m, after rand nf policy trace (S m),
            trace !! m with
      | Ok vm, Ok vm', Some r =>
          if decide (r.1 = P) then
            match installed_frame (page_tables vm) (page_tables vm') r with
            | Some f => <[f := Some m]> times
            | None => times
            end
          else times
      | _, _, _ => times
      end
  end.

End Local.

(** ** Cache schedules

    A cache of [capacity] entries serves a sequence of requests; [S] is the
    set of cached keys.  Requests for keys that are not [mine] belong to other
    caches and are passed over.  [schedule] is any way of serving the
    requests that loads the requested key on a miss, and may drop any keys to
    make room; [clairvoyant] always loads into free room when there is some,
    and otherwise drops a key whose next request is the farthest. *)

Section Cache.
Context {K : Type} {EqK : EqDecision K} {CntK : Countable K}.
Variable mine : K -> Prop.
Variable capacity : nat.

(** No key of [S] is requested later in [t] than [y] is. *)
Definition farthest (y : K) (S : gset K) (t : list K) : Prop :=
  forall n z, y ∈ take n t -> z ∈ S -> z ∈ take n t.

Inductive schedule : gset K -> list K -> nat -> Prop :=
| schedule_nil S : schedule S [] 0
| schedule_skip S x t c :
    ~ mine x -> schedule S t c -> schedule S (x :: t) c
| schedule_hit S x t c :
    mine x -> x ∈ S -> schedule S t c -> schedule S (x :: t) c
| schedule_miss S S' x t c :
    mine x -> x ∉ S -> S' ⊆ S ∪ {[x]} -> x ∈ S' -> size S' <= capacity ->
    schedule S' t c -> schedule S (x :: t) (Datatypes.S c).

Inductive clairvoyant : gset K -> list K -> nat -> Prop :=
| clairvoyant_nil S : clairvoyant S [] 0
| clairvoyant_skip S x t c :
    ~ mine x -> clairvoyant S t c -> clairvoyant S (x :: t) c
| clairvoyant_hit S x t c :
    mine x -> x ∈ S -> clairvoyant S t c -> clairvoyant S (x :: t) c
| clairvoyant_load S x t c :
    mine x -> x ∉ S ->
    clairvoyant (S ∪ {[x]}) t c -> clairvoyant S (x :: t) (Datatypes.S c)
| clairvoyant_evict S x y t c :
    mine x -> x ∉ S -> size S = capacity -> y ∈ S -> farthest y S t ->
    clairvoyant ((S ∖ {[y]}) ∪ {[x]}) t c -> clairvoyant S (x :: t) (Datatypes.S c).

(** The number of keys of [S] requested among the next [n] requests. *)
Definition seen (n : nat) (t : list K) (S : gset K) : nat :=
  size (filter (fun y => y ∈ take n t) S).

(** Up to [d] keys, the cache [SM] holds as many keys needed soon as [SA]
    does, however soon. *)
Definition ahead (d : nat) (SM SA : gset K) (t : list K) : Prop :=
  forall n, seen n t SA <= seen n t SM + d.

End Cache.

(** The requests that a cache serves: all of them, for the shared pool, and
    those of one process, for its partition. *)
Definition everyone (x : Z * N) : Prop := True.

Definition owned_by (P : Z) (x : Z * N) : Prop := x.1 = P.

(** ** Traces *)

(** Every record of the trace names one of the four processes. *)
Definition valid_trace (trace : list (Z * N)) : Prop :=
  Forall (fun r => valid_pid r.1) trace.

Definition valid_traceb (trace : list (Z * N)) : bool :=
  forallb (fun r => (0 <=? r.1)%Z && (r.1 <? 4)%Z) trace.

(** The reference string of Belady's anomaly, as the accesses of one process. *)
Definition belady_pages : list N := [1; 2; 3; 4; 1; 2; 5; 1; 2; 3; 4; 5]%N.

Definition single_process (pid : Z) (pages : list N) : list (Z * N) :=
  map (fun p => (pid, p)) pages.

(** Process 0 comes back to its page after process 1 went through four
    pages. *)
Definition crowding_trace : list (Z * N) :=
  [(0%Z, 7%N); (1%Z, 1%N); (1%Z, 2%N); (1%Z, 3%N); (1%Z, 4%N); (0%Z, 7%N)].

(** ** The recency of the frames

    For each frame of the shared pool, the index of the record whose access
    last touched it, among the first [n] records of the trace: the access
    hit the page that the frame holds, or installed its page there. *)
Fixpoint g_use_times (rand : nat -> nat) (nf : Z) (policy : string)
    (trace : list (Z * N)) (n : nat) : list (option nat) :=
  match n with
  | 0 => replicate (Z.to_nat nf) None
  | S m =>
      let times := g_use_times rand nf policy trace m in
      match Global.after rand nf policy trace m, Global.after rand nf policy trace (S m),
            trace !! m with
      | Ok vm, Ok vm', Some r =>
          match lookup_page (Global.page_tables vm') r.1 r.2 with
          | Some f => <[f := Some m]> times
          | None => times
          end
      | _, _, _ => times
      end
  end.

(** The same for the frames of the partition of [P]. *)
Fixpoint l_use_times (rand : nat -> nat) (nf : Z) (policy : string)
    (trace : list (Z * N)) (P : Z) (n : nat) : list (option nat) :=
  match n with
  | 0 => replicate (Z.to_nat (nf ÷ 4)) None
  | S m =>
      let times := l_use_times rand nf policy trace P m in
      match Local.after rand nf policy trace m, Local.after rand nf policy trace (S m),
            trace !! m with
      | Ok vm, Ok vm', Some r =>
          if decide (r.1 = P) then
            match lookup_page (Local.page_tables vm') r.1 r.2 with
            | Some f => <[f := Some m]> times
            | None => times
            end
          else times
      | _, _, _ => times
      end
  end.

(** Frame [f] was last touched before frame [g]. *)
Definition older (times : list (option nat)) (f g : nat) : Prop :=
  forall tf tg, times !! f = Some (Some tf) -> times !! g = Some (Some tg) -> tf < tg.

(** The recency list holds the stamped frames, the least recently touched
    first. *)
Definition recent (lru : list nat) (n : nat) (times : list (option nat)) : Prop :=
  (forall f, f ∈ lru <-> exists t, times !! f = Some (Some t)) /\
  (forall f t, times !! f = Some (Some t) -> t < n) /\
  StronglySorted (older times) lru.

(** ** The order in which a region fills

    The occupied frames of the region are the first [count] ones, or all of
    them when [count] exceeds the size of the region. *)
Definition filled (mem : list (Z * N)) (count : nat) : Prop :=
  forall f, occupied mem f <-> f < min count (length mem).

(** ** The pages that a prefix of the trace names *)

(** The distinct pages among the first [n] records, and those of process
    [P] among them. *)
Definition accessed (trace : list (Z * N)) (n : nat) : gset (Z * N) :=
  list_to_set (take n trace).

Definition accessed_by (P : Z) (trace : list (Z * N)) (n : nat) : gset (Z * N) :=
  list_to_set (filter (fun r => r.1 = P) (take n trace)).

(** A cache of [cap] entries holds [S] after [n] requests that named the
    keys [A] and missed [g] times: it holds requested keys only, every key
    missed at least once, and while the keys fit the cache holds them all
    and each missed once. *)
Definition compulsory (S A : gset (Z * N)) (g n cap : nat) : Prop :=
  S ⊆ A /\ size A <= g /\ g <= n /\ (size A <= cap -> g = size A /\ S = A).

(** ** A reference LRU cache

    The pages of a cache of [cap] entries, the least recently used first.  A
    request moves its page to the back; a page that is not cached enters at
    the back, and the page at the front leaves when the cache is full. *)
Definition lru_touch (cap : nat) (s : list (Z * N)) (x : Z * N) : list (Z * N) :=
  if decide (x ∈ s) then filter (fun y => y <> x) s ++ [x]
  else if decide (length s < cap) then s ++ [x]
  else drop 1 s ++ [x].

(** All requests, and those of process [P]. *)
Definition everyoneb (x : Z * N) : bool := true.

Definition owned_byb (P : Z) (x : Z * N) : bool := (x.1 =? P)%Z.

(** The misses of the cache on the requests [t] that are [mine]; the other
    requests are passed over. *)
Fixpoint lru_misses (mine : Z * N -> bool) (cap : nat) (s : list (Z * N))
    (t : list (Z * N)) : nat :=
  match t with
  | [] => 0
  | x :: t' =>
      if mine x then
        (if decide (x ∈ s) then 0 else 1) + lru_misses mine cap (lru_touch cap s x) t'
      else lru_misses mine cap s t'
  end.

(** The unbounded stack of all pages requested so far, the least recently
    used first, and its [n] most recently used pages. *)
Definition stack_touch (s : list (Z * N)) (x : Z * N) : list (Z * N) :=
  filter (fun y => y <> x) s ++ [x].

Definition lastn (n : nat) (s : list (Z * N)) : list (Z * N) :=
  drop (length s - n) s.

Fixpoint stack_misses (mine : Z * N -> bool) (n : nat) (s : list (Z * N))
    (t : list (Z * N)) : nat :=
  match t with
  | [] => 0
  | x :: t' =>
      if mine x then
        (if decide (x ∈ lastn n s) then 0 else 1) + stack_misses mine n (stack_touch s x) t'
      else stack_misses mine n s t'
  end.

(** The pages that the listed frames of a region hold. *)
Definition pages_of (mem : list (Z * N)) (lru : list nat) : list (Z * N) :=
  (fun f => default free_frame (mem !! f)) <$> lru.

(** ** The configured frame count of the partitioned manager *)

(** The manager [vm] with [nf] recorded as its total frame count. *)
Definition renumber (nf : Z) (vm : Local.VirtualMemoryManager)
  : Local.VirtualMemoryManager :=
  Local.mkVMM nf (Local.replacement_policy vm) (Local.page_tables vm)
    (Local.frame_status vm) (Local.global_page_fault_count vm) (Local.rand_calls vm).

Definition renumbered (nf : Z) (r : result Local.VirtualMemoryManager)
  : result Local.VirtualMemoryManager :=
  match r with
  | Ok vm => Ok (renumber nf vm)
  | Err e => Err e
  end.

(** ** One process alone

    The shared-pool manager [g] and the partition of [P] in the partitioned
    manager [l] hold the same pages in the same frames, with the same
    recency list, counters and page-table mappings; the cursors agree once
    the region is full. *)
Definition mirrors (P : Z) (g : Global.VirtualMemoryManager)
    (l : Local.VirtualMemoryManager) : Prop :=
  Global.replacement_policy g = Local.replacement_policy l /\
  Global.memoryFrames (Global.frame_status g)
  = Local.memoryFramesPerProcess (Local.frame_status l) /\
  Global.memory (Global.frame_status g) = Local.partition (Local.frame_status l) P /\
  Global.lru_list (Global.frame_status g) = Local.recency (Local.frame_status l) P /\
  (full (Global.memory (Global.frame_status g)) ->
   Global.nextFrame (Global.frame_status g) = Local.cursor (Local.frame_status l) P) /\
  Global.global_page_fault_count g = Local.global_page_fault_count l /\
  Global.rand_calls g = Local.rand_calls l /\
  (forall Q p, lookup_page (Global.page_tables g) Q p
               = lookup_page (Local.page_tables l) Q p) /\
  length (Global.page_tables g) = length (Local.page_tables l) /\
  (forall Q, faults_of (Global.page_tables g) Q = faults_of (Local.page_tables l) Q).

(** The FIFO cursor of a region of [k] frames after [faults] faults: it
    rests at frame 0 while the region fills and then goes round. *)
Definition turning (cursor faults k : nat) : Prop :=
  cursor = if Nat.ltb faults k then 0 else faults mod k.

(** The number of the [records] whose page the tables [pts] do not map. *)
Definition misses_in (pts : list PageTable) (records : list (Z * N)) : nat :=
  length (filter (fun r => lookup_page pts r.1 r.2 = None) records).

(** * Properties *)

(** ** The error monad and the vector operations *)

Lemma bind_Ok {A B : Type} (m : result A) (k : A -> result B) (b : B) :
  bind m k = Ok b -> exists a, m = Ok a /\ k a = Ok b.
Proof. destruct m as [a|e]; simpl; [eauto | discriminate]. Qed.

Lemma bind_Err {A B : Type} (m : result A) (k : A -> result B) (e : error) :
  bind m k = Err e -> m = Err e \/ exists a, m = Ok a /\ k a = Err e.
Proof. destruct m as [a|e']; simpl; [right; eauto | intros [= ->]; left; reflexivity]. Qed.

Lemma vec_get_some {A : Type} (v : list A) (i : nat) (x : A) :
  v !! i = Some x -> vec_get v i = Ok x.
Proof. unfold vec_get. intros ->. reflexivity. Qed.

Lemma vec_get_Ok {A : Type} (v : list A) (i : nat) (x : A) :
  vec_get v i = Ok x -> v !! i = Some x.
Proof. unfold vec_get. destruct (v !! i); congruence. Qed.

Lemma vec_set_lt {A : Type} (v : list A) (i : nat) (x : A) :
  i < length v -> vec_set v i x = Ok (<[i := x]> v).
Proof. unfold vec_set. intros H. destruct (decide (i < length v)); [reflexivity | lia]. Qed.

Lemma vec_set_Ok {A : Type} (v v' : list A) (i : nat) (x : A) :
  vec_set v i x = Ok v' -> i < length v /\ v' = <[i := x]> v.
Proof. unfold vec_set. destruct (decide (i < length v)); [|discriminate]. intros [= <-]. auto. Qed.

Lemma int_mod_pos (a b : nat) : b <> 0 -> int_mod a b = Ok (a mod b).
Proof. unfold int_mod. intros H. destruct (decide (b = 0)); [contradiction | reflexivity]. Qed.

Lemma int_mod_Ok (a b r : nat) : int_mod a b = Ok r -> b <> 0 /\ r = a mod b.
Proof. unfold int_mod. destruct (decide (b = 0)); [discriminate|]. intros [= <-]. auto. Qed.

Lemma list_remove_elem (x y : nat) (l : list nat) :
  y ∈ list_remove x l <-> y <> x /\ y ∈ l.
Proof. unfold list_remove. rewrite list_elem_of_filter. tauto. Qed.

Lemma list_remove_NoDup (x : nat) (l : list nat) : NoDup l -> NoDup (list_remove x l).
Proof. unfold list_remove. apply NoDup_filter. Qed.

Lemma list_remove_absent (x : nat) (l : list nat) : x ∉ l -> list_remove x l = l.
Proof.
  unfold list_remove. induction l as [|y l IH]; intros Hx; [reflexivity|].
  rewrite not_elem_of_cons in Hx. destruct Hx as [Hne Hx].
  rewrite filter_cons_True by congruence. f_equal. auto.
Qed.

Lemma is_free_false (e : Z * N) : is_free e = false <-> e.1 <> (-1)%Z.
Proof. unfold is_free. rewrite Z.eqb_neq. reflexivity. Qed.

Lemma is_free_true (e : Z * N) : is_free e = true <-> e.1 = (-1)%Z.
Proof. unfold is_free. rewrite Z.eqb_eq. reflexivity. Qed.

(** ** The search for the next use of a page *)

Lemma find_from_Some (rest : list (Z * N)) (j m : nat) (a : Z) (b : N) :
  find_from rest j a b = Some m ->
  j <= m /\ rest !! (m - j) = Some (a, b) /\
  forall k, k < m - j -> rest !! k <> Some (a, b).
Proof.
  revert j. induction rest as [|r rest IH]; intros j; simpl; [discriminate|].
  destruct ((r.1 =? a)%Z && (r.2 =? b)%N) eqn:E.
  - intros [= <-]. rewrite Nat.sub_diag. split; [lia|]. split.
    + apply andb_true_iff in E. destruct E as [E1 E2].
      apply Z.eqb_eq in E1. apply N.eqb_eq in E2. destruct r; simpl in *; subst. reflexivity.
    + intros k Hk. lia.
  - intros H. apply IH in H. destruct H as (Hle & Hat & Hbefore).
    split; [lia|]. replace (m - j) with (S (m - S j)) by lia. split; [exact Hat|].
    intros [|k] Hk; simpl.
    + intros [= ->]. simpl in E. rewrite Z.eqb_refl, N.eqb_refl in E. discriminate.
    + apply Hbefore. lia.
Qed.

Lemma find_from_None (rest : list (Z * N)) (j : nat) (a : Z) (b : N) :
  find_from rest j a b = None <-> (a, b) ∉ rest.
Proof.
  revert j. induction rest as [|r rest IH]; intros j; simpl.
  - split; [intros _; apply not_elem_of_nil | reflexivity].
  - destruct ((r.1 =? a)%Z && (r.2 =? b)%N) eqn:E.
    + apply andb_true_iff in E. destruct E as [E1 E2].
      apply Z.eqb_eq in E1. apply N.eqb_eq in E2. destruct r; simpl in *; subst.
      split; [discriminate|]. intros H. exfalso. apply H. left.
    + rewrite IH, not_elem_of_cons. split; [|tauto]. intros H. split; [|exact H].
      intros Heq. subst r. simpl in E. rewrite Z.eqb_refl, N.eqb_refl in E. discriminate.
Qed.

(** The page is accessed among the next [n] records exactly when its next use
    is one of them. *)
Lemma next_use_take (trace : list (Z * N)) (i n : nat) (a : Z) (b : N) :
  (a, b) ∈ take n (drop (S i) trace) <->
  exists m, next_use trace i a b = Some m /\ m < S i + n.
Proof.
  unfold next_use. split.
  - intros Hin. destruct (find_from (drop (S i) trace) (S i) a b) as [m|] eqn:E.
    + exists m. split; [reflexivity|].
      apply find_from_Some in E. destruct E as (Hle & Hat & Hbefore).
      apply list_elem_of_lookup in Hin. destruct Hin as [k Hk].
      apply lookup_take_Some in Hk. destruct Hk as [Hk Hlt].
      destruct (decide (k < m - S i)) as [Hc|Hc]; [exfalso; eapply Hbefore; eauto|]. lia.
    + apply find_from_None in E. exfalso. apply E.
      eapply subseteq_take; eauto.
  - intros (m & E & Hlt). apply find_from_Some in E. destruct E as (Hle & Hat & _).
    apply list_elem_of_lookup. exists (m - S i).
    apply lookup_take_Some. split; [exact Hat | lia].
Qed.

(** ** The scan of the optimal policy *)

Lemma reuse_Some_lt (mem trace : list (Z * N)) (ci f j : nat) :
  reuse mem trace ci f = Some j -> f < length mem.
Proof.
  unfold reuse. destruct (mem !! f) eqn:E; [|discriminate].
  intros _. eapply lookup_lt_Some; eauto.
Qed.

Lemma optimal_scan_spec (mem trace : list (Z * N)) (ci fuel i : nat) (acc : opt_acc) :
  i + fuel = length mem ->
  scan_inv mem trace ci i acc ->
  exists acc',
    optimal_scan mem trace ci fuel i acc = Ok acc' /\
    ((length mem = 0 /\ acc' = acc) \/ scan_result mem trace ci acc').
Proof.
  revert i acc. induction fuel as [|fuel IH]; intros i acc Hlen [Hall Hacc]; simpl.
  - exists acc. split; [reflexivity|].
    destruct (farthest_frame acc) as [v|] eqn:Ev.
    + right. destruct Hacc as (Hv & e & j & He & Hp & Hg & Hr & _ & Hmax & Hfirst).
      exists v, e. repeat split; try assumption.
      right. split; [lia|]. split; [intros f Hf; apply Hall; lia|].
      exists j. split; [exact Hr|]. split; [|exact Hfirst].
      intros f j' Hf. apply (Hmax f j'); [|exact Hf].
      apply reuse_Some_lt in Hf. lia.
    + left. destruct Hacc as [-> _]. split; [lia | reflexivity].
  - destruct (lookup_lt_is_Some_2 mem i) as [fr Hfr]; [lia|].
    rewrite (vec_get_some _ _ _ Hfr). simpl.
    assert (Hri : reuse mem trace ci i = next_use trace ci fr.1 fr.2).
    { unfold reuse. rewrite Hfr. reflexivity. }
    destruct (next_use trace ci fr.1 fr.2) as [j|] eqn:Ej.
    + match goal with |- context [optimal_scan _ _ _ _ _ ?a] => set (acc1 := a) end.
      cut (scan_inv mem trace ci (S i) acc1).
      { intros Hinv. destruct (IH (S i) acc1) as (acc' & E & H); [lia | exact Hinv |].
        exists acc'. split; [exact E|]. destruct H as [[H0 _]|H]; [lia | right; exact H]. }
      subst acc1. split.
      { intros f Hf. destruct (decide (f = i)) as [->|]; [congruence | apply Hall; lia]. }
      destruct (farthest_index acc <? Z.of_nat j)%Z eqn:Elt; simpl.
      * apply Z.ltb_lt in Elt. split; [lia|]. exists fr, j.
        repeat split; try assumption; try reflexivity.
        -- intros f j' Hf Hr.
           destruct (decide (f = i)) as [->|Hne]; [assert (j' = j) by congruence; lia|].
           destruct (farthest_frame acc) as [v|] eqn:Ev.
           ++ destruct Hacc as (Hv & e & j0 & _ & _ & _ & _ & Hidx & Hmax & _).
              assert (j' <= j0) by (apply (Hmax f); [lia | exact Hr]). lia.
           ++ destruct Hacc as [-> _]. lia.
        -- intros f j' Hf Hr.
           destruct (farthest_frame acc) as [v|] eqn:Ev.
           ++ destruct Hacc as (Hv & e & j0 & _ & _ & _ & _ & Hidx & Hmax & _).
              assert (j' <= j0) by (apply (Hmax f); [lia | exact Hr]). lia.
           ++ destruct Hacc as [-> _]. lia.
      * apply Z.ltb_ge in Elt.
        destruct (farthest_frame acc) as [v|] eqn:Ev.
        -- destruct Hacc as (Hv & e & j0 & He & Hp & Hg & Hr0 & Hidx & Hmax & Hfirst).
           split; [lia|]. exists e, j0. repeat split; try assumption.
           intros f j' Hf Hr. destruct (decide (f = i)) as [->|Hne].
           ++ assert (j' = j) by congruence. lia.
           ++ apply (Hmax f); [lia | exact Hr].
        -- destruct Hacc as [_ Hidx]. lia.
    + eexists. split; [reflexivity|]. right. exists i, fr. simpl.
      repeat split; try assumption; try reflexivity.
      left. split; [lia|]. split; [congruence|]. exact Hall.
Qed.

Lemma optimal_scan_ok (mem trace : list (Z * N)) (ci : nat) :
  0 < length mem ->
  exists acc,
    optimal_scan mem trace ci (length mem) 0 opt_acc_init = Ok acc /\
    scan_result mem trace ci acc.
Proof.
  intros Hpos.
  destruct (optimal_scan_spec mem trace ci (length mem) 0 opt_acc_init) as (acc & E & H).
  - reflexivity.
  - split; [intros f Hf; lia|]. simpl. auto.
  - exists acc. split; [exact E|]. destruct H as [[H0 _]|H]; [lia | exact H].
Qed.

(** The victim is a function of the region and the trace. *)
Lemma optimal_victim_unique (mem trace : list (Z * N)) (ci v w : nat) :
  optimal_victim mem trace ci v -> optimal_victim mem trace ci w -> v = w.
Proof.
  intros [Hv|Hv] [Hw|Hw].
  - destruct Hv as (Hv1 & Hv2 & Hv3), Hw as (Hw1 & Hw2 & Hw3).
    destruct (Nat.lt_trichotomy v w) as [H|[H|H]]; [|exact H|].
    + exfalso. apply (Hw3 v H). exact Hv2.
    + exfalso. apply (Hv3 w H). exact Hw2.
  - destruct Hv as (Hv1 & Hv2 & _), Hw as (_ & Hw2 & _). exfalso. apply (Hw2 v Hv1 Hv2).
  - destruct Hw as (Hw1 & Hw2 & _), Hv as (_ & Hv2 & _). exfalso. apply (Hv2 w Hw1 Hw2).
  - destruct Hv as (Hv1 & _ & jv & Hrv & Hmv & Hfv), Hw as (Hw1 & _ & jw & Hrw & Hmw & Hfw).
    destruct (Nat.lt_trichotomy v w) as [H|[H|H]]; [|exact H|].
    + specialize (Hfw v jv H Hrv). specialize (Hmv w jw Hrw). lia.
    + specialize (Hfv w jw H Hrw). specialize (Hmw v jv Hrv). lia.
Qed.

(** ** Regions of frames and recency lists *)

Lemma occupied_insert (mem : list (Z * N)) (f f' : nat) (new : Z * N) :
  f < length mem -> is_free new = false ->
  occupied (<[f := new]> mem) f' <-> f' = f \/ occupied mem f'.
Proof.
  intros Hlt Hnew. unfold occupied. destruct (decide (f' = f)) as [->|Hne].
  - rewrite list_lookup_insert_eq by exact Hlt. split; [auto|]. intros _. eauto.
  - rewrite list_lookup_insert_ne by congruence. split; [auto|]. intros [?|?]; [contradiction|auto].
Qed.

Lemma full_insert (mem : list (Z * N)) (f : nat) (new : Z * N) :
  full mem -> f < length mem -> is_free new = false -> full (<[f := new]> mem).
Proof.
  intros Hfull Hlt Hnew f' Hf'. rewrite length_insert in Hf'.
  apply occupied_insert; [assumption..|]. right. apply Hfull. exact Hf'.
Qed.

Lemma full_lookup (mem : list (Z * N)) (f : nat) :
  full mem -> f < length mem -> exists old, mem !! f = Some old /\ is_free old = false.
Proof. intros Hfull Hlt. apply Hfull. exact Hlt. Qed.

Lemma policy_cases (policy : string) :
  (String.eqb policy "fifo" = false /\ String.eqb policy "lru" = false /\
   String.eqb policy "optimal" = false /\ String.eqb policy "random" = false) ->
  ~ known_policy policy.
Proof.
  intros (H1 & H2 & H3 & H4) [ -> | [ -> | [ -> | -> ] ] ]; discriminate.
Qed.

Lemma optimal_victim_lt (mem trace : list (Z * N)) (ci v : nat) :
  optimal_victim mem trace ci v -> v < length mem.
Proof. intros [[H _]|[H _]]; exact H. Qed.

Lemma valid_pid_occupies (pid : Z) (page : N) : valid_pid pid -> is_free (pid, page) = false.
Proof. intros [H0 _]. apply is_free_false. simpl. lia. Qed.

Lemma list_remove_requeue_NoDup (f : nat) (l : list nat) :
  NoDup l -> NoDup (list_remove f l ++ [f]).
Proof.
  intros Hnd. apply NoDup_app. split; [apply list_remove_NoDup; exact Hnd|]. split.
  - intros x Hx Hx'. apply list_remove_elem in Hx. apply list_elem_of_singleton in Hx'. tauto.
  - apply NoDup_singleton.
Qed.

Lemma list_remove_requeue_elem (f x : nat) (l : list nat) :
  x ∈ list_remove f l ++ [f] <-> x = f \/ x ∈ l.
Proof.
  rewrite elem_of_app, list_remove_elem, list_elem_of_singleton.
  destruct (decide (x = f)); tauto.
Qed.


(** ** The specification of [allocate] *)

Lemma find_skip {A : Type} (p : A -> bool) (l1 l2 : list A) :
  (forall x, x ∈ l1 -> p x = false) -> List.find p (l1 ++ l2) = List.find p l2.
Proof.
  induction l1 as [|x l1 IH]; intros Hall; simpl; [reflexivity|].
  rewrite (Hall x) by left. apply IH. intros y Hy. apply Hall. right. exact Hy.
Qed.

Lemma find_none {A : Type} (p : A -> bool) (l : list A) :
  (forall x, x ∈ l -> p x = false) -> List.find p l = None.
Proof.
  intros Hall. rewrite <- (app_nil_r l). rewrite find_skip by exact Hall. reflexivity.
Qed.

Lemma free_at_occupied (mem : list (Z * N)) (f : nat) :
  occupied mem f -> free_at mem f = false.
Proof. intros (e & He & Hocc). unfold free_at. rewrite He. exact Hocc. Qed.

Lemma free_at_true (mem : list (Z * N)) (f : nat) :
  free_at mem f = true <-> exists e, mem !! f = Some e /\ is_free e = true.
Proof.
  unfold free_at. destruct (mem !! f) as [e|].
  - split; [eauto|]. intros (e' & [= <-] & H). exact H.
  - split; [discriminate|]. intros (e' & [=] & _).
Qed.

Lemma scan_order_bound (n c f : nat) : c <= n -> f ∈ scan_order n c -> f < n.
Proof.
  intros Hc. unfold scan_order. rewrite elem_of_app, !elem_of_seq. lia.
Qed.

Lemma allocate_spec_full (mem : list (Z * N)) (c : nat) :
  c <= length mem -> full mem -> allocate_spec mem c = None.
Proof.
  intros Hc Hfull. unfold allocate_spec. apply find_none. intros f Hf.
  apply free_at_occupied. apply Hfull. eapply scan_order_bound; eauto.
Qed.

Lemma allocate_spec_None (mem : list (Z * N)) (c : nat) :
  c <= length mem -> allocate_spec mem c = None -> full mem.
Proof.
  intros Hc Hnone f Hf. unfold allocate_spec in Hnone.
  assert (Hin : In f (scan_order (length mem) c)).
  { apply list_elem_of_In. unfold scan_order. rewrite elem_of_app, !elem_of_seq. lia. }
  pose proof (List.find_none _ _ Hnone f Hin) as Hocc. unfold free_at in Hocc.
  destruct (lookup_lt_is_Some_2 mem f Hf) as [e He]. rewrite He in Hocc.
  exists e. auto.
Qed.

Lemma allocate_spec_cursor (mem : list (Z * N)) (c : nat) (e : Z * N) :
  mem !! c = Some e -> is_free e = true -> allocate_spec mem c = Some c.
Proof.
  intros He Hfree. pose proof (lookup_lt_Some _ _ _ He) as Hlt.
  unfold allocate_spec, scan_order.
  replace (length mem - c) with (S (length mem - c - 1)) by lia. simpl.
  unfold free_at at 1. rewrite He, Hfree. reflexivity.
Qed.

Lemma allocate_spec_first_free (mem : list (Z * N)) (f : nat) :
  first_free mem f -> allocate_spec mem 0 = Some f.
Proof.
  intros [(e & He & Hfree) Hbefore]. pose proof (lookup_lt_Some _ _ _ He) as Hlt.
  unfold allocate_spec, scan_order. simpl. rewrite app_nil_r, Nat.sub_0_r.
  replace (length mem) with (f + S (length mem - f - 1)) by lia.
  rewrite seq_app. rewrite find_skip.
  - simpl. unfold free_at at 1. rewrite He, Hfree. reflexivity.
  - intros g Hg. apply elem_of_seq in Hg. apply free_at_occupied. apply Hbefore. lia.
Qed.


(** ** The page tables *)


Lemma table_get_some (pts : list PageTable) (pid : Z) (t : PageTable) :
  (0 <= pid)%Z -> pts !! Z.to_nat pid = Some t -> table_get pts pid = Ok t.
Proof.
  intros Hpid Ht. unfold table_get.
  destruct (pid <? 0)%Z eqn:E; [apply Z.ltb_lt in E; lia|]. rewrite Ht. reflexivity.
Qed.

Lemma table_get_Ok (pts : list PageTable) (pid : Z) (t : PageTable) :
  table_get pts pid = Ok t -> (0 <= pid)%Z /\ pts !! Z.to_nat pid = Some t.
Proof.
  unfold table_get. destruct (pid <? 0)%Z eqn:E; [discriminate|].
  apply Z.ltb_ge in E. destruct (pts !! Z.to_nat pid); [|discriminate].
  intros [= ->]. auto.
Qed.

Lemma table_get_Err (pts : list PageTable) (pid : Z) (e : error) :
  table_get pts pid = Err e -> e = BadProcess.
Proof.
  unfold table_get. destruct (pid <? 0)%Z; [congruence|].
  destruct (pts !! Z.to_nat pid); congruence.
Qed.

Lemma table_get_valid (pts : list PageTable) (pid : Z) :
  length pts = 4 -> valid_pid pid -> exists t, table_get pts pid = Ok t.
Proof.
  intros Hlen [H0 H4]. destruct (lookup_lt_is_Some_2 pts (Z.to_nat pid)) as [t Ht]; [lia|].
  exists t. apply table_get_some; assumption.
Qed.

Lemma table_get_invalid (pts : list PageTable) (pid : Z) :
  length pts = 4 -> ~ valid_pid pid -> table_get pts pid = Err BadProcess.
Proof.
  intros Hlen Hbad. unfold table_get. destruct (pid <? 0)%Z eqn:E; [reflexivity|].
  apply Z.ltb_ge in E. destruct (pts !! Z.to_nat pid) eqn:Ht; [|reflexivity].
  apply lookup_lt_Some in Ht. exfalso. apply Hbad. unfold valid_pid. lia.
Qed.

Lemma lookup_page_valid (pts : list PageTable) (P : Z) (p : N) (f : nat) :
  length pts = 4 -> lookup_page pts P p = Some f -> valid_pid P.
Proof.
  unfold lookup_page, valid_pid. intros Hlen.
  destruct (P <? 0)%Z eqn:E; [discriminate|]. apply Z.ltb_ge in E.
  destruct (pts !! Z.to_nat P) eqn:Ht; [|discriminate].
  apply lookup_lt_Some in Ht. intros _. lia.
Qed.

Lemma lookup_page_get (pts : list PageTable) (pid : Z) (t : PageTable) :
  table_get pts pid = Ok t -> forall p, lookup_page pts pid p = page_to_frame t !! p.
Proof.
  intros H p. apply table_get_Ok in H. destruct H as [H0 Ht].
  unfold lookup_page. destruct (pid <? 0)%Z eqn:E; [apply Z.ltb_lt in E; lia|].
  rewrite Ht. reflexivity.
Qed.

Lemma lookup_page_set (pts : list PageTable) (pid : Z) (t : PageTable) (P : Z) (p : N) :
  (0 <= pid)%Z -> Z.to_nat pid < length pts ->
  lookup_page (table_set pts pid t) P p =
  if decide (P = pid) then page_to_frame t !! p else lookup_page pts P p.
Proof.
  intros H0 Hlt. unfold lookup_page, table_set.
  destruct (P <? 0)%Z eqn:E.
  - apply Z.ltb_lt in E. destruct (decide (P = pid)); [lia | reflexivity].
  - apply Z.ltb_ge in E. destruct (decide (P = pid)) as [->|Hne].
    + rewrite list_lookup_insert_eq by exact Hlt. reflexivity.
    + rewrite list_lookup_insert_ne by lia. reflexivity.
Qed.

Lemma faults_of_set (pts : list PageTable) (pid : Z) (t : PageTable) (P : nat) :
  Z.to_nat pid < length pts ->
  faults_of (table_set pts pid t) P =
  if decide (P = Z.to_nat pid) then page_fault_count t else faults_of pts P.
Proof.
  intros Hlt. unfold faults_of, table_set.
  destruct (decide (P = Z.to_nat pid)) as [->|Hne].
  - rewrite list_lookup_insert_eq by exact Hlt. reflexivity.
  - rewrite list_lookup_insert_ne by lia. reflexivity.
Qed.

Lemma table_fault_Ok (pid : Z) (pts pts' : list PageTable) :
  table_fault pid pts = Ok pts' ->
  faulted pts pts' pid /\
  forall P p, lookup_page pts' P p = lookup_page pts P p.
Proof.
  unfold table_fault. intros H. apply bind_Ok in H. destruct H as (t & Ht & [= <-]).
  pose proof (lookup_page_get _ _ _ Ht) as Hl.
  apply table_get_Ok in Ht. destruct Ht as [H0 Ht].
  pose proof (lookup_lt_Some _ _ _ Ht) as Hlt.
  split; [split|].
  - unfold table_set. apply length_insert.
  - intros P. rewrite faults_of_set by exact Hlt.
    destruct (decide (P = Z.to_nat pid)) as [->|]; simpl.
    + unfold faults_of. rewrite Ht. lia.
    + lia.
  - intros P p. rewrite lookup_page_set by assumption.
    destruct (decide (P = pid)) as [->|]; [|reflexivity]. simpl. symmetry. apply Hl.
Qed.

Lemma table_erase_Ok (pid : Z) (page : N) (pts pts' : list PageTable) :
  table_erase pid page pts = Ok pts' ->
  length pts' = length pts /\
  (forall P, faults_of pts' P = faults_of pts P) /\
  forall P p, lookup_page pts' P p =
              if decide (P = pid /\ p = page) then None else lookup_page pts P p.
Proof.
  unfold table_erase. intros H. apply bind_Ok in H. destruct H as (t & Ht & [= <-]).
  pose proof (lookup_page_get _ _ _ Ht) as Hl.
  apply table_get_Ok in Ht. destruct Ht as [H0 Ht].
  pose proof (lookup_lt_Some _ _ _ Ht) as Hlt.
  split; [|split].
  - unfold table_set. apply length_insert.
  - intros P. rewrite faults_of_set by exact Hlt.
    destruct (decide (P = Z.to_nat pid)) as [->|]; simpl; [|reflexivity].
    unfold faults_of. rewrite Ht. reflexivity.
  - intros P p. rewrite lookup_page_set by assumption.
    destruct (decide (P = pid)) as [->|Hne]; simpl.
    + destruct (decide (pid = pid /\ p = page)) as [[_ ->]|Hn].
      * apply lookup_delete_eq.
      * rewrite lookup_delete_ne by (intros ->; apply Hn; auto). symmetry. apply Hl.
    + destruct (decide (P = pid /\ p = page)) as [[? _]|]; [contradiction | reflexivity].
Qed.

Lemma table_map_Ok (pid : Z) (page : N) (f : nat) (pts pts' : list PageTable) :
  table_map pid page f pts = Ok pts' ->
  length pts' = length pts /\
  (forall P, faults_of pts' P = faults_of pts P) /\
  forall P p, lookup_page pts' P p =
              if decide (P = pid /\ p = page) then Some f else lookup_page pts P p.
Proof.
  unfold table_map. intros H. apply bind_Ok in H. destruct H as (t & Ht & [= <-]).
  pose proof (lookup_page_get _ _ _ Ht) as Hl.
  apply table_get_Ok in Ht. destruct Ht as [H0 Ht].
  pose proof (lookup_lt_Some _ _ _ Ht) as Hlt.
  split; [|split].
  - unfold table_set. apply length_insert.
  - intros P. rewrite faults_of_set by exact Hlt.
    destruct (decide (P = Z.to_nat pid)) as [->|]; simpl; [|reflexivity].
    unfold faults_of. rewrite Ht. reflexivity.
  - intros P p. rewrite lookup_page_set by assumption.
    destruct (decide (P = pid)) as [->|Hne]; simpl.
    + destruct (decide (pid = pid /\ p = page)) as [[_ ->]|Hn].
      * apply lookup_insert_eq.
      * rewrite lookup_insert_ne by (intros ->; apply Hn; auto). symmetry. apply Hl.
    + destruct (decide (P = pid /\ p = page)) as [[? _]|]; [contradiction | reflexivity].
Qed.

Lemma table_fault_valid (pid : Z) (pts : list PageTable) :
  length pts = 4 -> valid_pid pid -> exists pts', table_fault pid pts = Ok pts'.
Proof.
  intros Hlen Hv. destruct (table_get_valid pts pid Hlen Hv) as [t Ht].
  unfold table_fault. rewrite Ht. simpl. eauto.
Qed.

Lemma table_erase_valid (pid : Z) (page : N) (pts : list PageTable) :
  length pts = 4 -> valid_pid pid -> exists pts', table_erase pid page pts = Ok pts'.
Proof.
  intros Hlen Hv. destruct (table_get_valid pts pid Hlen Hv) as [t Ht].
  unfold table_erase. rewrite Ht. simpl. eauto.
Qed.

Lemma table_map_valid (pid : Z) (page : N) (f : nat) (pts : list PageTable) :
  length pts = 4 -> valid_pid pid -> exists pts', table_map pid page f pts = Ok pts'.
Proof.
  intros Hlen Hv. destruct (table_get_valid pts pid Hlen Hv) as [t Ht].
  unfold table_map. rewrite Ht. simpl. eauto.
Qed.

(** The tables after a fault that installs a page in a free frame. *)
Lemma tables_free (pid : Z) (page : N) (f : nat) (pts : list PageTable) :
  length pts = 4 -> valid_pid pid ->
  exists pts1 pts2,
    table_fault pid pts = Ok pts1 /\ table_map pid page f pts1 = Ok pts2 /\
    faulted pts pts2 pid /\ installed pts pts2 pid page f None.
Proof.
  intros Hlen Hv.
  destruct (table_fault_valid pid pts Hlen Hv) as [pts1 H1].
  pose proof (table_fault_Ok _ _ _ H1) as [[Hl1 Hf1] Hp1].
  destruct (table_map_valid pid page f pts1) as [pts2 H2]; [congruence | exact Hv |].
  pose proof (table_map_Ok _ _ _ _ _ H2) as (Hl2 & Hf2 & Hp2).
  exists pts1, pts2. repeat split; try assumption.
  - congruence.
  - intros P. rewrite Hf2. apply Hf1.
  - intros P p. rewrite Hp2, Hp1. destruct (decide (P = pid /\ p = page)); [reflexivity|].
    destruct (decide (None = Some (P, p))); [discriminate | reflexivity].
Qed.

(** The tables after a fault that displaces the page [old]. *)
Lemma tables_evict (pid : Z) (page : N) (f : nat) (old : Z * N) (pts pts1 : list PageTable) :
  length pts = 4 -> valid_pid pid -> valid_pid old.1 ->
  table_fault pid pts = Ok pts1 ->
  exists pts2 pts3,
    table_erase old.1 old.2 pts1 = Ok pts2 /\ table_map pid page f pts2 = Ok pts3 /\
    faulted pts pts3 pid /\ installed pts pts3 pid page f (Some old).
Proof.
  intros Hlen Hv Hvo H1.
  pose proof (table_fault_Ok _ _ _ H1) as [[Hl1 Hf1] Hp1].
  destruct (table_erase_valid old.1 old.2 pts1) as [pts2 H2]; [congruence | exact Hvo |].
  pose proof (table_erase_Ok _ _ _ _ H2) as (Hl2 & Hf2 & Hp2).
  destruct (table_map_valid pid page f pts2) as [pts3 H3]; [congruence | exact Hv |].
  pose proof (table_map_Ok _ _ _ _ _ H3) as (Hl3 & Hf3 & Hp3).
  exists pts2, pts3. repeat split; try assumption.
  - congruence.
  - intros P. rewrite Hf3, Hf2. apply Hf1.
  - intros P p. rewrite Hp3, Hp2, Hp1. destruct (decide (P = pid /\ p = page)); [reflexivity|].
    destruct old as [op og]. simpl.
    destruct (decide (P = op /\ p = og)) as [[-> ->]|Hn].
    + destruct (decide (Some (op, og) = Some (op, og))); [reflexivity | congruence].
    + destruct (decide (Some (op, og) = Some (P, p))) as [[= -> ->]|]; [|reflexivity].
      exfalso. apply Hn. auto.
Qed.


(** ** The shared-pool simulator: one access *)

Module GlobalSteps.
Import Global.

Lemma g_allocate_free (pid : Z) (page : N) (fs : FrameStatus) (e : Z * N) :
  memory fs !! nextFrame fs = Some e -> is_free e = true -> memoryFrames fs <> 0 ->
  allocateFrame pid page fs =
  Ok (mkFrameStatus (memoryFrames fs) (<[nextFrame fs := (pid, page)]> (memory fs))
        ((nextFrame fs + 1) mod memoryFrames fs) (lru_list fs ++ [nextFrame fs]),
      Some (nextFrame fs)).
Proof.
  intros He Hfree Hn. unfold allocateFrame.
  rewrite (vec_get_some _ _ _ He). simpl. rewrite Hfree.
  rewrite vec_set_lt by (eapply lookup_lt_Some; eauto). simpl.
  rewrite int_mod_pos by exact Hn. reflexivity.
Qed.

Lemma g_allocate_full (pid : Z) (page : N) (fs : FrameStatus) (e : Z * N) :
  memory fs !! nextFrame fs = Some e -> is_free e = false ->
  allocateFrame pid page fs = Ok (fs, None).
Proof.
  intros He Hocc. unfold allocateFrame.
  rewrite (vec_get_some _ _ _ He). simpl. rewrite Hocc. reflexivity.
Qed.

Lemma g_fifo_eq (pid : Z) (page : N) (fs : FrameStatus) (old : Z * N) :
  memory fs !! nextFrame fs = Some old -> memoryFrames fs <> 0 ->
  fifoReplacement pid page fs =
  Ok (mkFrameStatus (memoryFrames fs) (<[nextFrame fs := (pid, page)]> (memory fs))
        ((nextFrame fs + 1) mod memoryFrames fs)
        (list_remove (nextFrame fs) (lru_list fs)),
      (old.1, old.2, nextFrame fs)).
Proof.
  intros He Hn. pose proof (lookup_lt_Some _ _ _ He) as Hlt.
  unfold fifoReplacement, releaseFrame, assign.
  rewrite (vec_get_some _ _ _ He). simpl.
  rewrite vec_set_lt by exact Hlt. simpl.
  rewrite int_mod_pos by exact Hn. simpl.
  rewrite vec_set_lt by (rewrite length_insert; exact Hlt). simpl.
  rewrite list_insert_insert_eq. reflexivity.
Qed.

Lemma g_lru_eq (pid : Z) (page : N) (fs : FrameStatus) (f : nat) (rest : list nat)
    (old : Z * N) :
  lru_list fs = f :: rest -> memory fs !! f = Some old ->
  lruReplacement pid page fs =
  Ok (mkFrameStatus (memoryFrames fs) (<[f := (pid, page)]> (memory fs))
        (nextFrame fs) (list_remove f rest ++ [f]),
      (old.1, old.2, f)).
Proof.
  intros Hl He. pose proof (lookup_lt_Some _ _ _ He) as Hlt.
  unfold lruReplacement, releaseFrame, assign. rewrite Hl. simpl.
  rewrite (vec_get_some _ _ _ He). simpl.
  rewrite vec_set_lt by exact Hlt. simpl.
  rewrite vec_set_lt by (rewrite length_insert; exact Hlt). simpl.
  rewrite list_insert_insert_eq. reflexivity.
Qed.

Lemma g_random_eq (draw : nat) (pid : Z) (page : N) (fs : FrameStatus) (old : Z * N) :
  memoryFrames fs <> 0 -> memory fs !! (draw mod memoryFrames fs) = Some old ->
  randomReplacement draw pid page fs =
  Ok (mkFrameStatus (memoryFrames fs)
        (<[draw mod memoryFrames fs := (pid, page)]> (memory fs))
        (nextFrame fs) (list_remove (draw mod memoryFrames fs) (lru_list fs)),
      (old.1, old.2, draw mod memoryFrames fs)).
Proof.
  intros Hn He. pose proof (lookup_lt_Some _ _ _ He) as Hlt.
  unfold randomReplacement, releaseFrame, assign.
  rewrite int_mod_pos by exact Hn. simpl.
  rewrite (vec_get_some _ _ _ He). simpl.
  rewrite vec_set_lt by exact Hlt. simpl.
  rewrite vec_set_lt by (rewrite length_insert; exact Hlt). simpl.
  rewrite list_insert_insert_eq. reflexivity.
Qed.

Lemma g_optimal_eq (pid : Z) (page : N) (trace : list (Z * N)) (ci : nat)
    (fs : FrameStatus) (acc : opt_acc) (v : nat) :
  optimal_scan (memory fs) trace ci (memoryFrames fs) 0 opt_acc_init = Ok acc ->
  farthest_frame acc = Some v -> v < length (memory fs) ->
  optimalReplacement pid page trace ci fs =
  Ok (mkFrameStatus (memoryFrames fs) (<[v := (pid, page)]> (memory fs))
        (nextFrame fs) (list_remove v (lru_list fs)),
      (old_pid acc, old_page_no acc, v)).
Proof.
  intros Hscan Hv Hlt. unfold optimalReplacement, releaseFrame, assign.
  rewrite Hscan. simpl. rewrite Hv.
  rewrite vec_set_lt by exact Hlt. simpl.
  rewrite vec_set_lt by (rewrite length_insert; exact Hlt). simpl.
  rewrite list_insert_insert_eq. reflexivity.
Qed.

(** *** The five ways an access ends *)

Section Access.
Variable rand : nat -> nat.
Variables (pid : Z) (page : N) (trace : list (Z * N)) (ci : nat).
Variable vm : VirtualMemoryManager.

Local Abbreviation fs := (frame_status vm).
Local Abbreviation pts := (page_tables vm).

Lemma g_access_bad_pid :
  length pts = 4 -> ~ valid_pid pid ->
  handleAccess rand pid page trace ci vm = Err BadProcess.
Proof.
  intros Hlen Hbad. unfold handleAccess.
  rewrite (table_get_invalid _ _ Hlen Hbad). reflexivity.
Qed.

Lemma g_access_hit (f : nat) :
  lookup_page pts pid page = Some f ->
  handleAccess rand pid page trace ci vm =
  Ok (if String.eqb (replacement_policy vm) "lru"
      then mkVMM (num_frames vm) (replacement_policy vm) pts (updateLRU f fs)
             (global_page_fault_count vm) (rand_calls vm)
      else vm).
Proof.
  intros Hhit. unfold handleAccess.
  destruct (table_get (page_tables vm) pid) as [t|e] eqn:Ht.
  - simpl. rewrite <- (lookup_page_get _ _ _ Ht). rewrite Hhit.
    destruct (String.eqb (replacement_policy vm) "lru"); reflexivity.
  - exfalso. unfold lookup_page, table_get in *.
    destruct (pid <? 0)%Z; [discriminate|].
    destruct (page_tables vm !! Z.to_nat pid); discriminate.
Qed.

Lemma g_access_free (e : Z * N) :
  length pts = 4 -> valid_pid pid ->
  lookup_page pts pid page = None ->
  memory fs !! nextFrame fs = Some e -> is_free e = true -> memoryFrames fs <> 0 ->
  exists pts',
    handleAccess rand pid page trace ci vm =
    Ok (mkVMM (num_frames vm) (replacement_policy vm) pts'
          (mkFrameStatus (memoryFrames fs) (<[nextFrame fs := (pid, page)]> (memory fs))
             ((nextFrame fs + 1) mod memoryFrames fs) (lru_list fs ++ [nextFrame fs]))
          (S (global_page_fault_count vm)) (rand_calls vm)) /\
    faulted pts pts' pid /\ installed pts pts' pid page (nextFrame fs) None.
Proof.
  intros Hlen Hv Hmiss He Hfree Hn.
  destruct (tables_free pid page (nextFrame fs) pts Hlen Hv)
    as (pts1 & pts2 & H1 & H2 & Hf & Hi).
  exists pts2. split; [|auto]. unfold handleAccess.
  destruct (table_get_valid pts pid Hlen Hv) as [t Ht]. rewrite Ht. simpl.
  rewrite <- (lookup_page_get _ _ _ Ht), Hmiss.
  rewrite H1. simpl.
  rewrite (g_allocate_free pid page fs e He Hfree Hn). simpl.
  rewrite H2. reflexivity.
Qed.

(** The shape of the access that evicts: [r] is what the policy returned. *)
Lemma g_access_remap (old : Z * N) (calls : nat) (fs' : FrameStatus) (f : nat)
    (pts1 : list PageTable) :
  length pts = 4 -> valid_pid pid -> valid_pid old.1 ->
  table_fault pid pts = Ok pts1 ->
  exists pts',
    remap (mkVMM (num_frames vm) (replacement_policy vm) pts1 fs
             (S (global_page_fault_count vm)) (rand_calls vm))
      pid page calls (fs', (old.1, old.2, f)) =
    Ok (mkVMM (num_frames vm) (replacement_policy vm) pts' fs'
          (S (global_page_fault_count vm)) calls) /\
    faulted pts pts' pid /\ installed pts pts' pid page f (Some old).
Proof.
  intros Hlen Hv Hvo H1.
  destruct (tables_evict pid page f old pts pts1 Hlen Hv Hvo H1)
    as (pts2 & pts3 & H2 & H3 & Hf & Hi).
  exists pts3. split; [|auto]. unfold remap. simpl. rewrite H2. simpl. rewrite H3.
  reflexivity.
Qed.

(** The access up to the choice of the policy, when the frame at the cursor
    is taken. *)
Lemma g_access_full (e : Z * N) :
  length pts = 4 -> valid_pid pid ->
  lookup_page pts pid page = None ->
  memory fs !! nextFrame fs = Some e -> is_free e = false ->
  exists pts1,
    table_fault pid pts = Ok pts1 /\
    let vm1 := mkVMM (num_frames vm) (replacement_policy vm) pts1 fs
                 (S (global_page_fault_count vm)) (rand_calls vm) in
    handleAccess rand pid page trace ci vm =
    if String.eqb (replacement_policy vm) "fifo" then
      let* r := fifoReplacement pid page fs in
      remap vm1 pid page (rand_calls vm) r
    else if String.eqb (replacement_policy vm) "lru" then
      let* r := lruReplacement pid page fs in
      remap vm1 pid page (rand_calls vm) r
    else if String.eqb (replacement_policy vm) "optimal" then
      let* r := optimalReplacement pid page trace ci fs in
      remap vm1 pid page (rand_calls vm) r
    else if String.eqb (replacement_policy vm) "random" then
      let* r := randomReplacement (rand (rand_calls vm)) pid page fs in
      remap vm1 pid page (S (rand_calls vm)) r
    else Ok vm1.
Proof.
  intros Hlen Hv Hmiss He Hocc.
  destruct (table_fault_valid pid pts Hlen Hv) as [pts1 H1].
  exists pts1. split; [exact H1|]. unfold handleAccess.
  destruct (table_get_valid pts pid Hlen Hv) as [t Ht]. rewrite Ht. simpl.
  rewrite <- (lookup_page_get _ _ _ Ht), Hmiss.
  rewrite H1. simpl.
  rewrite (g_allocate_full pid page fs e He Hocc). simpl. reflexivity.
Qed.

End Access.

End GlobalSteps.

(** ** The shared-pool simulator: every access is one step *)

Module GlobalInv.
Import Global GlobalSteps.

Lemma g_occupant_valid (vm : VirtualMemoryManager) (f : nat) (old : Z * N) :
  consistent vm ->
  memory (frame_status vm) !! f = Some old -> is_free old = false ->
  valid_pid old.1.
Proof.
  intros Hc Hf Hocc. apply is_free_false in Hocc.
  eapply lookup_page_valid; [apply (cons_tables vm Hc)|].
  apply (cons_bij vm Hc old.1 old.2 f). split; [|exact Hocc].
  rewrite Hf. destruct old; reflexivity.
Qed.

Lemma g_full_at_cursor (vm : VirtualMemoryManager) (e : Z * N) :
  consistent vm ->
  memory (frame_status vm) !! nextFrame (frame_status vm) = Some e ->
  is_free e = false ->
  full (memory (frame_status vm)).
Proof.
  intros Hc He Hocc. destruct (cons_shape vm Hc) as [Hfull|Hpre]; [exact Hfull|].
  exfalso. pose proof (cons_cursor vm Hc) as Hlt.
  apply (Nat.lt_irrefl (nextFrame (frame_status vm))).
  apply (Hpre _ Hlt). exists e. auto.
Qed.

Theorem g_handleAccess_step (rand : nat -> nat) (pid : Z) (page : N)
    (trace : list (Z * N)) (ci : nat) (vm : VirtualMemoryManager) :
  consistent vm -> valid_pid pid ->
  exists vm', handleAccess rand pid page trace ci vm = Ok vm' /\
              step rand pid page trace ci vm vm'.
Proof.
  intros Hc Hv.
  pose proof (cons_tables vm Hc) as Hlen.
  pose proof (cons_size vm Hc) as Hsize.
  pose proof (cons_cursor vm Hc) as Hcur.
  destruct (lookup_page (page_tables vm) pid page) as [f|] eqn:Hlook.
  { eexists. split; [apply g_access_hit; exact Hlook | apply step_hit; exact Hlook]. }
  destruct (lookup_lt_is_Some_2 (memory (frame_status vm)) (nextFrame (frame_status vm)))
    as [e He]; [lia|].
  destruct (is_free e) eqn:Hfree.
  { destruct (g_access_free rand pid page trace ci vm e Hlen Hv Hlook He Hfree)
      as (pts' & Heq & Hf & Hi); [lia|].
    eexists. split; [exact Heq|]. eapply step_free; eauto. }
  pose proof (g_full_at_cursor vm e Hc He Hfree) as Hfull.
  destruct (g_access_full rand pid page trace ci vm e Hlen Hv Hlook He Hfree)
    as (pts1 & H1 & Heq).
  simpl in Heq. rewrite Heq. clear Heq.
  destruct (String.eqb (replacement_policy vm) "fifo") eqn:Efifo.
  { apply String.eqb_eq in Efifo.
    rewrite (g_fifo_eq pid page _ e He) by lia. simpl.
    destruct (g_access_remap pid page vm e (rand_calls vm)
                (mkFrameStatus (memoryFrames (frame_status vm))
                   (<[nextFrame (frame_status vm) := (pid, page)]> (memory (frame_status vm)))
                   ((nextFrame (frame_status vm) + 1) mod memoryFrames (frame_status vm))
                   (list_remove (nextFrame (frame_status vm)) (lru_list (frame_status vm))))
                (nextFrame (frame_status vm)) pts1 Hlen Hv)
      as (pts' & Heq & Hf & Hi); [eapply g_occupant_valid; eauto | exact H1 |].
    eexists. split; [exact Heq|].
    eapply step_evict; eauto. apply chooses_fifo. exact Efifo. }
  destruct (String.eqb (replacement_policy vm) "lru") eqn:Elru.
  { apply String.eqb_eq in Elru.
    destruct (cons_lru vm Hc Elru) as [Hnd Hmem].
    destruct (lru_list (frame_status vm)) as [|f rest] eqn:El.
    { exfalso. apply (not_elem_of_nil (nextFrame (frame_status vm))).
      apply Hmem. exists e. auto. }
    assert (Hf : occupied (memory (frame_status vm)) f) by (apply Hmem; left).
    destruct Hf as (old & Hold & Hocc).
    rewrite (g_lru_eq pid page _ f rest old El Hold). simpl.
    destruct (g_access_remap pid page vm old (rand_calls vm)
                (mkFrameStatus (memoryFrames (frame_status vm))
                   (<[f := (pid, page)]> (memory (frame_status vm)))
                   (nextFrame (frame_status vm)) (list_remove f rest ++ [f]))
                f pts1 Hlen Hv)
      as (pts' & Heq & Hf & Hi); [eapply g_occupant_valid; eauto | exact H1 |].
    eexists. split; [exact Heq|].
    eapply step_evict; eauto. eapply chooses_lru; eauto. }
  destruct (String.eqb (replacement_policy vm) "optimal") eqn:Eopt.
  { apply String.eqb_eq in Eopt.
    destruct (optimal_scan_ok (memory (frame_status vm)) trace ci)
      as (acc & Hscan & v & old & Hv1 & Hold & Hop & Hog & Hvict); [lia|].
    pose proof (optimal_victim_lt _ _ _ _ Hvict) as Hvlt.
    rewrite Hsize in Hscan.
    rewrite (g_optimal_eq pid page trace ci _ acc v Hscan Hv1 Hvlt). simpl.
    rewrite Hop, Hog.
    destruct (full_lookup _ v Hfull Hvlt) as (old' & Hold' & Hocc).
    assert (old' = old) by congruence. subst old'.
    destruct (g_access_remap pid page vm old (rand_calls vm)
                (mkFrameStatus (memoryFrames (frame_status vm))
                   (<[v := (pid, page)]> (memory (frame_status vm)))
                   (nextFrame (frame_status vm))
                   (list_remove v (lru_list (frame_status vm))))
                v pts1 Hlen Hv)
      as (pts' & Heq & Hf & Hi); [eapply g_occupant_valid; eauto | exact H1 |].
    eexists. split; [exact Heq|].
    eapply step_evict; eauto. eapply chooses_optimal; eauto. }
  destruct (String.eqb (replacement_policy vm) "random") eqn:Ernd.
  { apply String.eqb_eq in Ernd.
    set (f := rand (rand_calls vm) mod memoryFrames (frame_status vm)).
    assert (Hflt : f < length (memory (frame_status vm))).
    { rewrite Hsize. apply Nat.mod_upper_bound. lia. }
    destruct (full_lookup _ f Hfull Hflt) as (old & Hold & Hocc).
    rewrite (g_random_eq _ pid page _ old) by (try exact Hold; lia). simpl.
    destruct (g_access_remap pid page vm old (S (rand_calls vm))
                (mkFrameStatus (memoryFrames (frame_status vm))
                   (<[f := (pid, page)]> (memory (frame_status vm)))
                   (nextFrame (frame_status vm))
                   (list_remove f (lru_list (frame_status vm))))
                f pts1 Hlen Hv)
      as (pts' & Heq & Hf & Hi); [eapply g_occupant_valid; eauto | exact H1 |].
    eexists. split; [exact Heq|].
    eapply step_evict; eauto. apply chooses_random. exact Ernd. }
  eexists. split; [reflexivity|].
  pose proof (table_fault_Ok _ _ _ H1) as [Hf Hp].
  apply step_dropped; auto. apply policy_cases. auto.
Qed.

Lemma g_bij_install (pts pts' : list PageTable) (mem : list (Z * N)) (pid : Z) (page : N)
    (f : nat) (e : Z * N) (old : option (Z * N)) :
  (forall P p f', lookup_page pts P p = Some f' <-> mem !! f' = Some (P, p) /\ P <> (-1)%Z) ->
  installed pts pts' pid page f old ->
  mem !! f = Some e ->
  old = (if is_free e then None else Some e) ->
  lookup_page pts pid page = None -> pid <> (-1)%Z ->
  forall P p f', lookup_page pts' P p = Some f' <->
                 <[f := (pid, page)]> mem !! f' = Some (P, p) /\ P <> (-1)%Z.
Proof.
  intros Hbij Hinst He Hold Hmiss Hpid P p f'.
  pose proof (lookup_lt_Some _ _ _ He) as Hlt.
  rewrite (Hinst P p).
  destruct (decide (P = pid /\ p = page)) as [[-> ->]|Hnew].
  { split.
    - intros [= <-]. rewrite list_lookup_insert_eq by exact Hlt. auto.
    - intros [Hf' _]. destruct (decide (f' = f)) as [->|Hne]; [reflexivity|].
      rewrite list_lookup_insert_ne in Hf' by congruence.
      assert (lookup_page pts pid page = Some f') by (apply Hbij; auto). congruence. }
  assert (Hne_new : forall g, <[f := (pid, page)]> mem !! g = Some (P, p) -> g <> f).
  { intros g Hg ->. rewrite list_lookup_insert_eq in Hg by exact Hlt.
    apply Hnew. injection Hg as -> ->. auto. }
  destruct (decide (old = Some (P, p))) as [Hev|Hkeep].
  { split; [discriminate|]. intros [Hf' HP]. exfalso.
    pose proof (Hne_new _ Hf') as Hne.
    rewrite list_lookup_insert_ne in Hf' by congruence.
    destruct (is_free e); [congruence|].
    assert (e = (P, p)) by congruence. subst e.
    assert (Ha : lookup_page pts P p = Some f') by (apply Hbij; auto).
    assert (Hb : lookup_page pts P p = Some f) by (apply Hbij; auto).
    congruence. }
  rewrite Hbij. split.
  - intros [Hf' HP]. split; [|exact HP].
    rewrite list_lookup_insert_ne; [exact Hf'|].
    intros <-. assert (e = (P, p)) by congruence. subst e.
    unfold is_free in Hold. simpl in Hold.
    destruct (P =? -1)%Z eqn:E; [apply Z.eqb_eq in E; contradiction|]. contradiction.
  - intros [Hf' HP]. split; [|exact HP].
    pose proof (Hne_new _ Hf') as Hne.
    rewrite list_lookup_insert_ne in Hf' by congruence. exact Hf'.
Qed.

Theorem g_step_consistent (rand : nat -> nat) (pid : Z) (page : N)
    (trace : list (Z * N)) (ci : nat) (vm vm' : VirtualMemoryManager) :
  consistent vm -> valid_pid pid ->
  step rand pid page trace ci vm vm' -> consistent vm'.
Proof.
  intros Hc Hv Hstep.
  pose proof (cons_tables vm Hc) as Hlen.
  pose proof (cons_size vm Hc) as Hsize.
  pose proof (cons_cursor vm Hc) as Hcur.
  pose proof (cons_bij vm Hc) as Hbij.
  pose proof (valid_pid_occupies pid page Hv) as Hnew.
  assert (Hpid : pid <> (-1)%Z) by (destruct Hv; lia).
  destruct Hstep as [f Hlook | e pts' Hlook He Hfree [Hl Hf] Hi
                    | f old next lru calls pts' Hlook Hfull Hch Hold [Hl Hf] Hi
                    | pts' Hlook Hfull Hunk [Hl Hf] Hsame].
  - (* hit *)
    destruct (String.eqb (replacement_policy vm) "lru") eqn:Elru; [|exact Hc].
    apply String.eqb_eq in Elru. destruct (cons_lru vm Hc Elru) as [Hnd Hmem].
    constructor; simpl; try assumption.
    + apply (cons_shape vm Hc).
    + intros _. split; [apply list_remove_requeue_NoDup; exact Hnd|].
      intros x. rewrite list_remove_requeue_elem, Hmem. split; [|auto].
      intros [->|H]; [|exact H]. apply Hbij in Hlook. destruct Hlook as [Hm HP].
      exists (pid, page). split; [exact Hm | apply is_free_false; exact HP].
  - (* a free frame *)
    pose proof (lookup_lt_Some _ _ _ He) as Hlt.
    assert (Hpre : forall g, g < memoryFrames (frame_status vm) ->
              (occupied (memory (frame_status vm)) g <-> g < nextFrame (frame_status vm))).
    { destruct (cons_shape vm Hc) as [Hfull|Hpre]; [|exact Hpre].
      exfalso. destruct (Hfull _ Hlt) as (e' & He' & Hocc). congruence. }
    constructor; simpl.
    + congruence.
    + rewrite length_insert. exact Hsize.
    + apply Nat.mod_upper_bound. lia.
    + unfold bijection. simpl.
      eapply g_bij_install; eauto. rewrite Hfree. reflexivity.
    + destruct (decide (nextFrame (frame_status vm) + 1 = memoryFrames (frame_status vm)))
        as [Hlast|Hmore].
      * left. intros g Hg. rewrite length_insert in Hg.
        apply occupied_insert; [assumption..|].
        destruct (decide (g = nextFrame (frame_status vm))); [auto|].
        right. apply Hpre; lia.
      * right. intros g Hg. rewrite Nat.mod_small by lia.
        rewrite occupied_insert by assumption. rewrite (Hpre g Hg). lia.
    + intros Elru. destruct (cons_lru vm Hc Elru) as [Hnd Hmem]. split.
      * apply NoDup_app. split; [exact Hnd|]. split; [|apply NoDup_singleton].
        intros x Hx Hx'. apply list_elem_of_singleton in Hx'. subst x.
        apply Hmem in Hx. apply (Hpre _ Hcur) in Hx. lia.
      * intros x. rewrite elem_of_app, list_elem_of_singleton, Hmem.
        rewrite occupied_insert by assumption. tauto.
  - (* an eviction *)
    pose proof (lookup_lt_Some _ _ _ Hold) as Hlt.
    destruct (Hfull _ Hlt) as (old' & Hold' & Hocc).
    assert (old' = old) by congruence. subst old'.
    constructor; simpl.
    + congruence.
    + rewrite length_insert. exact Hsize.
    + destruct Hch; try assumption. apply Nat.mod_upper_bound. lia.
    + unfold bijection. simpl.
      eapply g_bij_install; eauto. rewrite Hocc. reflexivity.
    + left. apply full_insert; assumption.
    + intros Elru. destruct (cons_lru vm Hc Elru) as [Hnd Hmem].
      destruct Hch as [E|g rest E Hl'|g E _|E]; try congruence.
      rewrite Hl' in Hnd, Hmem. apply NoDup_cons in Hnd. destruct Hnd as [Hg Hnd].
      rewrite (list_remove_absent _ _ Hg). split.
      * apply NoDup_app. split; [exact Hnd|]. split; [|apply NoDup_singleton].
        intros x Hx Hx'. apply list_elem_of_singleton in Hx'. subst x. contradiction.
      * intros x. rewrite elem_of_app, list_elem_of_singleton.
        rewrite occupied_insert by assumption. rewrite <- Hmem, elem_of_cons. tauto.
  - (* no policy *)
    constructor; simpl; try assumption.
    + congruence.
    + unfold bijection. simpl. intros P p g. rewrite Hsame. apply Hbij.
    + apply (cons_shape vm Hc).
    + apply (cons_lru vm Hc).
Qed.

End GlobalInv.

(** ** The shared-pool simulator: runs *)

Module GlobalRuns.
Import Global GlobalSteps GlobalInv.

Lemma valid_pid_dec (pid : Z) : {valid_pid pid} + {~ valid_pid pid}.
Proof. unfold valid_pid. destruct (decide (0 <= pid < 4)%Z); [left | right]; assumption. Qed.

Lemma g_handleAccess_Ok (rand : nat -> nat) (pid : Z) (page : N)
    (trace : list (Z * N)) (ci : nat) (vm vm' : VirtualMemoryManager) :
  consistent vm -> handleAccess rand pid page trace ci vm = Ok vm' ->
  valid_pid pid /\ step rand pid page trace ci vm vm'.
Proof.
  intros Hc Heq. destruct (valid_pid_dec pid) as [Hv|Hbad].
  - split; [exact Hv|].
    destruct (g_handleAccess_step rand pid page trace ci vm Hc Hv) as (vm'' & Heq' & Hstep).
    congruence.
  - rewrite g_access_bad_pid in Heq; [discriminate | apply (cons_tables vm Hc) | exact Hbad].
Qed.

Lemma g_handleAccess_Err (rand : nat -> nat) (pid : Z) (page : N)
    (trace : list (Z * N)) (ci : nat) (vm : VirtualMemoryManager) (e : error) :
  consistent vm -> handleAccess rand pid page trace ci vm = Err e ->
  e = BadProcess /\ ~ valid_pid pid.
Proof.
  intros Hc Heq. destruct (valid_pid_dec pid) as [Hv|Hbad].
  - destruct (g_handleAccess_step rand pid page trace ci vm Hc Hv) as (vm'' & Heq' & _).
    congruence.
  - rewrite g_access_bad_pid in Heq; [| apply (cons_tables vm Hc) | exact Hbad].
    split; [congruence | exact Hbad].
Qed.

Lemma g_step_fixed (rand : nat -> nat) (pid : Z) (page : N)
    (trace : list (Z * N)) (ci : nat) (vm vm' : VirtualMemoryManager) :
  step rand pid page trace ci vm vm' ->
  replacement_policy vm' = replacement_policy vm /\
  num_frames vm' = num_frames vm /\
  memoryFrames (frame_status vm') = memoryFrames (frame_status vm).
Proof.
  intros [f Hlook | | |]; simpl; auto.
  destruct (String.eqb (replacement_policy vm) "lru"); simpl; auto.
Qed.

Lemma g_new_consistent (nf : Z) (policy : string) :
  (1 <= nf)%Z ->
  exists vm, VirtualMemoryManager_new nf policy = Ok vm /\ consistent vm /\
             replacement_policy vm = policy /\ num_frames vm = nf /\
             memoryFrames (frame_status vm) = Z.to_nat nf /\
             global_page_fault_count vm = 0 /\
             (forall P, faults_of (page_tables vm) P = 0) /\
             (forall P p, lookup_page (page_tables vm) P p = None).
Proof.
  intros Hnf. unfold VirtualMemoryManager_new, FrameStatus_new.
  destruct (nf <? 0)%Z eqn:E; [apply Z.ltb_lt in E; lia|]. simpl.
  eexists. split; [reflexivity|].
  assert (Hempty : forall P p,
    lookup_page (map (fun i => mkPageTable ∅ i 0) [0; 1; 2; 3]%Z) P p = None).
  { intros P p. unfold lookup_page. destruct (P <? 0)%Z; [reflexivity|].
    destruct (Z.to_nat P) as [|[|[|[|k]]]]; simpl; try apply lookup_empty. reflexivity. }
  split; [|repeat split; simpl; auto].
  - constructor; simpl.
    + reflexivity.
    + apply length_replicate.
    + lia.
    + unfold bijection. simpl. intros P p f. rewrite Hempty. split; [discriminate|].
      intros [Hf HP]. apply lookup_replicate in Hf. destruct Hf as [Hf _].
      unfold free_frame in Hf. congruence.
    + right. intros f Hf. split; [|lia]. intros (e & He & Hocc).
      apply lookup_replicate in He. destruct He as [-> _]. discriminate.
    + intros _. split; [apply NoDup_nil_2|]. intros f. split.
      * intros H. exfalso. eapply not_elem_of_nil; eauto.
      * intros (e & He & Hocc). apply lookup_replicate in He. destruct He as [-> _]. discriminate.
  - intros P. unfold faults_of. destruct P as [|[|[|[|k]]]]; reflexivity.
Qed.

Lemma g_loop_Ok (rand : nat -> nat) (trace : list (Z * N)) (fuel i : nat)
    (vm vm' : VirtualMemoryManager) :
  consistent vm -> access_loop rand trace fuel i vm = Ok vm' ->
  consistent vm' /\ replacement_policy vm' = replacement_policy vm /\
  memoryFrames (frame_status vm') = memoryFrames (frame_status vm).
Proof.
  revert i vm. induction fuel as [|fuel IH]; intros i vm Hc; simpl.
  - intros [= <-]. auto.
  - destruct (trace !! i) as [r|]; [|intros [= <-]; auto].
    intros H. apply bind_Ok in H. destruct H as (vm1 & H1 & H2).
    apply g_handleAccess_Ok in H1; [|exact Hc]. destruct H1 as [Hv Hstep].
    pose proof (g_step_consistent _ _ _ _ _ _ _ Hc Hv Hstep) as Hc1.
    pose proof (g_step_fixed _ _ _ _ _ _ _ Hstep) as (Hp & _ & Hn).
    destruct (IH _ _ Hc1 H2) as (Hc' & Hp' & Hn'). split; [exact Hc'|]. split; congruence.
Qed.

Lemma g_loop_Err (rand : nat -> nat) (trace : list (Z * N)) (fuel i : nat)
    (vm : VirtualMemoryManager) (e : error) :
  consistent vm -> access_loop rand trace fuel i vm = Err e -> e = BadProcess.
Proof.
  revert i vm. induction fuel as [|fuel IH]; intros i vm Hc; simpl; [discriminate|].
  destruct (trace !! i) as [r|]; [|discriminate].
  intros H. apply bind_Err in H. destruct H as [H|(vm1 & H1 & H2)].
  - apply g_handleAccess_Err in H; [tauto | exact Hc].
  - apply g_handleAccess_Ok in H1; [|exact Hc]. destruct H1 as [Hv Hstep].
    eapply IH; [|exact H2]. eapply g_step_consistent; eauto.
Qed.

Lemma g_loop_total (rand : nat -> nat) (trace : list (Z * N)) (fuel i : nat)
    (vm : VirtualMemoryManager) :
  consistent vm -> valid_trace trace ->
  exists vm', access_loop rand trace fuel i vm = Ok vm'.
Proof.
  intros Hc Hall. revert i vm Hc. induction fuel as [|fuel IH]; intros i vm Hc; simpl.
  - eauto.
  - destruct (trace !! i) as [r|] eqn:Hr; [|eauto].
    assert (Hv : valid_pid r.1).
    { unfold valid_trace in Hall. rewrite Forall_forall in Hall. apply Hall. eapply list_elem_of_lookup_2; eauto. }
    destruct (g_handleAccess_step rand r.1 r.2 trace i vm Hc Hv) as (vm1 & H1 & Hstep).
    rewrite H1. simpl. apply IH. eapply g_step_consistent; eauto.
Qed.

Lemma g_loop_S (rand : nat -> nat) (trace : list (Z * N)) (fuel i : nat)
    (vm : VirtualMemoryManager) :
  access_loop rand trace (S fuel) i vm =
  match trace !! i with
  | None => Ok vm
  | Some r => let* vm' := handleAccess rand r.1 r.2 trace i vm in
              access_loop rand trace fuel (S i) vm'
  end.
Proof. reflexivity. Qed.

(** The loop, one record at a time. *)
Lemma g_loop_snoc (rand : nat -> nat) (trace : list (Z * N)) (fuel i : nat)
    (vm : VirtualMemoryManager) :
  access_loop rand trace (S fuel) i vm =
  let* vm' := access_loop rand trace fuel i vm in
  match trace !! (i + fuel) with
  | None => Ok vm'
  | Some r => handleAccess rand r.1 r.2 trace (i + fuel) vm'
  end.
Proof.
  revert i vm. induction fuel as [|fuel IH]; intros i vm.
  - simpl. rewrite Nat.add_0_r. destruct (trace !! i) as [r|]; [|reflexivity].
    destruct (handleAccess rand r.1 r.2 trace i vm); reflexivity.
  - rewrite (g_loop_S rand trace (S fuel) i vm), (g_loop_S rand trace fuel i vm).
    destruct (trace !! i) as [r|] eqn:Hr.
    + destruct (handleAccess rand r.1 r.2 trace i vm) as [vm1|e]; [|reflexivity].
      unfold bind at 1. unfold bind at 2. rewrite IH.
      replace (S i + fuel) with (i + S fuel) by lia. reflexivity.
    + simpl. rewrite lookup_ge_None_2; [reflexivity|].
      apply lookup_ge_None in Hr. lia.
Qed.

Lemma g_reachable_consistent (vm : VirtualMemoryManager) :
  reachable vm -> consistent vm.
Proof.
  intros (rand & nf & policy & trace & n & Hnf & Hrun). unfold after in Hrun.
  destruct (g_new_consistent nf policy Hnf) as (vm0 & H0 & Hc0 & _).
  rewrite H0 in Hrun. simpl in Hrun.
  eapply g_loop_Ok; eauto.
Qed.

End GlobalRuns.

(** ** The partitioned simulator: one access *)

Module LocalSteps.
Import Local.

Lemma row_get_some {A : Type} (v : list A) (pid : Z) (x : A) :
  (0 <= pid)%Z -> v !! Z.to_nat pid = Some x -> row_get v pid = Ok x.
Proof.
  intros H0 Hx. unfold row_get.
  destruct (pid <? 0)%Z eqn:E; [apply Z.ltb_lt in E; lia|]. rewrite Hx. reflexivity.
Qed.

Lemma row_get_set {A : Type} (v : list A) (pid : Z) (x : A) :
  (0 <= pid)%Z -> Z.to_nat pid < length v -> row_get (row_set v pid x) pid = Ok x.
Proof.
  intros H0 Hlt. apply row_get_some; [exact H0|].
  unfold row_set. apply list_lookup_insert_eq. exact Hlt.
Qed.

Lemma row_set_set {A : Type} (v : list A) (pid : Z) (x y : A) :
  row_set (row_set v pid x) pid y = row_set v pid y.
Proof. unfold row_set. apply list_insert_insert_eq. Qed.

Lemma row_set_id {A : Type} (v : list A) (pid : Z) (x : A) :
  v !! Z.to_nat pid = Some x -> row_set v pid x = v.
Proof. unfold row_set. apply list_insert_id. Qed.

Lemma valid_pid_lt (pid : Z) : valid_pid pid -> (0 <= pid)%Z /\ Z.to_nat pid < 4.
Proof. unfold valid_pid. lia. Qed.

Section Rows.
Variables (fs : FrameStatus) (pid : Z).
Hypothesis Hv : valid_pid pid.
Hypothesis Hrows : length (memory fs) = 4.
Hypothesis Hcursors : length (nextFrame fs) = 4.
Hypothesis Hlists : length (lru_list fs) = 4.

Lemma l_partition_lookup : memory fs !! Z.to_nat pid = Some (partition fs pid).
Proof.
  destruct (valid_pid_lt pid Hv) as [_ Hlt]. unfold partition.
  destruct (lookup_lt_is_Some_2 (memory fs) (Z.to_nat pid)) as [x ->]; [lia | reflexivity].
Qed.

Lemma l_cursor_lookup : nextFrame fs !! Z.to_nat pid = Some (cursor fs pid).
Proof.
  destruct (valid_pid_lt pid Hv) as [_ Hlt]. unfold cursor.
  destruct (lookup_lt_is_Some_2 (nextFrame fs) (Z.to_nat pid)) as [x ->]; [lia | reflexivity].
Qed.

Lemma l_recency_lookup : lru_list fs !! Z.to_nat pid = Some (recency fs pid).
Proof.
  destruct (valid_pid_lt pid Hv) as [_ Hlt]. unfold recency.
  destruct (lookup_lt_is_Some_2 (lru_list fs) (Z.to_nat pid)) as [x ->]; [lia | reflexivity].
Qed.

Lemma l_partition_get : row_get (memory fs) pid = Ok (partition fs pid).
Proof. apply row_get_some; [apply Hv | apply l_partition_lookup]. Qed.

Lemma l_cursor_get : row_get (nextFrame fs) pid = Ok (cursor fs pid).
Proof. apply row_get_some; [apply Hv | apply l_cursor_lookup]. Qed.

Lemma l_recency_get : row_get (lru_list fs) pid = Ok (recency fs pid).
Proof. apply row_get_some; [apply Hv | apply l_recency_lookup]. Qed.

Lemma l_placed_same (page : N) (f : nat) (mem' : list (list (Z * N))) (lru' : list (list nat))
    (lru : list nat) :
  mem' = row_set (memory fs) pid (<[f := (pid, page)]> (partition fs pid)) ->
  lru' = row_set (lru_list fs) pid lru ->
  mkFrameStatus (memoryFramesPerProcess fs) mem' (nextFrame fs) lru' =
  placed fs pid page f (cursor fs pid) lru.
Proof.
  intros -> ->. unfold placed. f_equal. symmetry. apply row_set_id, l_cursor_lookup.
Qed.

Lemma l_release (f : nat) :
  f < length (partition fs pid) ->
  releaseFrame pid f fs =
  Ok (mkFrameStatus (memoryFramesPerProcess fs)
        (row_set (memory fs) pid (<[f := free_frame]> (partition fs pid)))
        (nextFrame fs)
        (row_set (lru_list fs) pid (list_remove f (recency fs pid)))).
Proof.
  intros Hlt. unfold releaseFrame. rewrite l_partition_get. simpl.
  rewrite vec_set_lt by exact Hlt. simpl. rewrite l_recency_get. reflexivity.
Qed.

End Rows.

Lemma l_assign_after (fs : FrameStatus) (pid : Z) (page : N) (f : nat)
    (row : list (Z * N)) (next : list nat) (lru : list (list nat)) :
  valid_pid pid -> length (memory fs) = 4 -> f < length row ->
  assign pid f page
    (mkFrameStatus (memoryFramesPerProcess fs) (row_set (memory fs) pid row) next lru) =
  Ok (mkFrameStatus (memoryFramesPerProcess fs)
        (row_set (memory fs) pid (<[f := (pid, page)]> row)) next lru).
Proof.
  intros Hv Hrows Hlt. destruct (valid_pid_lt pid Hv) as [H0 Hq].
  unfold assign. simpl. rewrite row_get_set by (try exact H0; lia). simpl.
  rewrite vec_set_lt by exact Hlt. simpl. rewrite row_set_set. reflexivity.
Qed.

Lemma alloc_scan_spec (mem : list (list (Z * N))) (pid : Z) (row : list (Z * N))
    (fuel i : nat) :
  row_get mem pid = Ok row ->
  i + fuel = length row -> (forall g, g < i -> occupied row g) ->
  (exists f, alloc_scan mem pid fuel i = Ok (Some f) /\ first_free row f) \/
  (alloc_scan mem pid fuel i = Ok None /\ full row).
Proof.
  intros Hrow. revert i. induction fuel as [|fuel IH]; intros i Hlen Hocc; simpl.
  - right. split; [reflexivity|]. intros g Hg. apply Hocc. lia.
  - rewrite Hrow. simpl. destruct (lookup_lt_is_Some_2 row i) as [e He]; [lia|].
    rewrite (vec_get_some _ _ _ He). simpl. destruct (is_free e) eqn:Hfree.
    + left. exists i. split; [reflexivity|]. split; [eauto | exact Hocc].
    + apply IH; [lia|]. intros g Hg. destruct (decide (g = i)) as [->|].
      * exists e. auto.
      * apply Hocc. lia.
Qed.

(** A region has a first free frame or is full. *)
Lemma first_free_or_full (row : list (Z * N)) :
  (exists f, first_free row f) \/ full row.
Proof.
  assert (H : forall fuel i, i + fuel = length row -> (forall g, g < i -> occupied row g) ->
            (exists f, first_free row f) \/ full row).
  { induction fuel as [|fuel IH]; intros i Hlen Hocc.
    - right. intros g Hg. apply Hocc. lia.
    - destruct (lookup_lt_is_Some_2 row i) as [e He]; [lia|].
      destruct (is_free e) eqn:Hfree.
      + left. exists i. split; [eauto | exact Hocc].
      + apply (IH (S i)); [lia|]. intros g Hg. destruct (decide (g = i)) as [->|].
        * exists e. auto.
        * apply Hocc. lia. }
  apply (H (length row) 0); [reflexivity | intros ? ?; lia].
Qed.

Lemma first_free_lt (row : list (Z * N)) (f : nat) : first_free row f -> f < length row.
Proof. intros [(e & He & _) _]. eapply lookup_lt_Some; eauto. Qed.

Lemma first_free_not_full (row : list (Z * N)) (f : nat) : first_free row f -> ~ full row.
Proof.
  intros Hff Hfull. pose proof (first_free_lt row f Hff) as Hlt.
  destruct Hff as [(e & He & Hfree) _]. destruct (Hfull f Hlt) as (e' & He' & Hocc). congruence.
Qed.

Lemma first_free_unique (row : list (Z * N)) (f g : nat) :
  first_free row f -> first_free row g -> f = g.
Proof.
  intros [(e & He & Hfree) Hf] [(e' & He' & Hfree') Hg].
  destruct (Nat.lt_trichotomy f g) as [Hlt|[Heq|Hlt]]; [|exact Heq|].
  - destruct (Hg f Hlt) as (e2 & He2 & Hocc). congruence.
  - destruct (Hf g Hlt) as (e2 & He2 & Hocc). congruence.
Qed.

Section Frames.
Variables (fs : FrameStatus) (pid : Z) (page : N).
Hypothesis Hv : valid_pid pid.
Hypothesis Hrows : length (memory fs) = 4.
Hypothesis Hcursors : length (nextFrame fs) = 4.
Hypothesis Hlists : length (lru_list fs) = 4.
Hypothesis Hsize : length (partition fs pid) = memoryFramesPerProcess fs.

Lemma l_allocate_free (f : nat) :
  first_free (partition fs pid) f ->
  allocateFrame pid page fs =
  Ok (placed fs pid page f (cursor fs pid) (recency fs pid ++ [f]), Some f).
Proof.
  intros Hff. unfold allocateFrame.
  destruct (alloc_scan_spec (memory fs) pid (partition fs pid) (memoryFramesPerProcess fs) 0)
    as [(g & -> & Hg)|[_ Hfull]];
    [apply l_partition_get; assumption | lia | intros ? ?; lia | | ].
  - rewrite (first_free_unique _ _ _ Hg Hff). simpl.
    rewrite l_partition_get by assumption. simpl.
    rewrite vec_set_lt by (apply first_free_lt; exact Hff). simpl.
    rewrite l_recency_get by assumption. simpl. f_equal. f_equal.
    apply l_placed_same; auto.
  - exfalso. eapply first_free_not_full; eauto.
Qed.

Lemma l_allocate_full :
  full (partition fs pid) -> allocateFrame pid page fs = Ok (fs, None).
Proof.
  intros Hfull. unfold allocateFrame.
  destruct (alloc_scan_spec (memory fs) pid (partition fs pid) (memoryFramesPerProcess fs) 0)
    as [(g & _ & Hg)|[-> _]];
    [apply l_partition_get; assumption | lia | intros ? ?; lia | | reflexivity].
  exfalso. eapply first_free_not_full; eauto.
Qed.

Lemma l_fifo_eq (old : Z * N) :
  partition fs pid !! cursor fs pid = Some old -> memoryFramesPerProcess fs <> 0 ->
  fifoReplacement pid page fs =
  Ok (placed fs pid page (cursor fs pid)
        ((cursor fs pid + 1) mod memoryFramesPerProcess fs)
        (list_remove (cursor fs pid) (recency fs pid)),
      (old.1, old.2, cursor fs pid)).
Proof.
  intros He Hn. pose proof (lookup_lt_Some _ _ _ He) as Hlt.
  unfold fifoReplacement. rewrite l_cursor_get by assumption. simpl.
  rewrite l_partition_get by assumption. simpl.
  rewrite (vec_get_some _ _ _ He). simpl.
  rewrite l_release by assumption. simpl.
  rewrite int_mod_pos by exact Hn. simpl.
  rewrite l_assign_after by (try assumption; rewrite length_insert; exact Hlt). simpl.
  rewrite list_insert_insert_eq. reflexivity.
Qed.

Lemma l_lru_eq (f : nat) (rest : list nat) (old : Z * N) :
  recency fs pid = f :: rest -> partition fs pid !! f = Some old ->
  lruReplacement pid page fs =
  Ok (placed fs pid page f (cursor fs pid) (list_remove f rest ++ [f]),
      (old.1, old.2, f)).
Proof.
  intros Hl He. pose proof (lookup_lt_Some _ _ _ He) as Hlt.
  destruct (valid_pid_lt pid Hv) as [H0 Hq].
  unfold lruReplacement. rewrite l_recency_get by assumption. simpl. rewrite Hl. simpl.
  rewrite l_partition_get by assumption. simpl.
  rewrite (vec_get_some _ _ _ He). simpl.
  unfold releaseFrame. simpl. rewrite l_partition_get by assumption. simpl.
  rewrite vec_set_lt by exact Hlt. simpl.
  rewrite row_get_set by (try exact H0; lia). simpl.
  rewrite l_assign_after by (try assumption; rewrite length_insert; exact Hlt). simpl.
  rewrite !row_set_set.
  rewrite row_get_set by (try exact H0; lia). simpl. rewrite row_set_set.
  rewrite list_insert_insert_eq. f_equal. f_equal.
  apply l_placed_same; auto.
Qed.

Lemma l_random_eq (draw : nat) (old : Z * N) :
  memoryFramesPerProcess fs <> 0 ->
  partition fs pid !! (draw mod memoryFramesPerProcess fs) = Some old ->
  randomReplacement draw pid page fs =
  Ok (placed fs pid page (draw mod memoryFramesPerProcess fs) (cursor fs pid)
        (list_remove (draw mod memoryFramesPerProcess fs) (recency fs pid)),
      (old.1, old.2, draw mod memoryFramesPerProcess fs)).
Proof.
  intros Hn He. pose proof (lookup_lt_Some _ _ _ He) as Hlt.
  unfold randomReplacement. rewrite int_mod_pos by exact Hn. simpl.
  rewrite l_partition_get by assumption. simpl.
  rewrite (vec_get_some _ _ _ He). simpl.
  rewrite l_release by assumption. simpl.
  rewrite l_assign_after by (try assumption; rewrite length_insert; exact Hlt). simpl.
  rewrite list_insert_insert_eq. f_equal. f_equal.
  apply l_placed_same; auto.
Qed.

Lemma l_optimal_eq (trace : list (Z * N)) (ci : nat) (acc : opt_acc) (v : nat) :
  optimal_scan (partition fs pid) trace ci (memoryFramesPerProcess fs) 0 opt_acc_init
    = Ok acc ->
  farthest_frame acc = Some v -> v < length (partition fs pid) ->
  optimalReplacement pid page trace ci fs =
  Ok (placed fs pid page v (cursor fs pid) (list_remove v (recency fs pid)),
      (old_pid acc, old_page_no acc, v)).
Proof.
  intros Hscan Hacc Hlt. unfold optimalReplacement.
  rewrite l_partition_get by assumption. simpl. rewrite Hscan. simpl. rewrite Hacc.
  rewrite l_release by assumption. simpl.
  rewrite l_assign_after by (try assumption; rewrite length_insert; exact Hlt). simpl.
  rewrite list_insert_insert_eq. f_equal. f_equal.
  apply l_placed_same; auto.
Qed.

End Frames.

(** *** The ways an access ends *)

Section Access.
Variable rand : nat -> nat.
Variables (pid : Z) (page : N) (trace : list (Z * N)) (ci : nat).
Variable vm : VirtualMemoryManager.

Local Abbreviation fs := (frame_status vm).
Local Abbreviation pts := (page_tables vm).

Hypothesis Hv : valid_pid pid.
Hypothesis Hlen : length pts = 4.
Hypothesis Hrows : length (memory fs) = 4.
Hypothesis Hcursors : length (nextFrame fs) = 4.
Hypothesis Hlists : length (lru_list fs) = 4.
Hypothesis Hsize : length (partition fs pid) = memoryFramesPerProcess fs.

Lemma l_access_hit (f : nat) :
  lookup_page pts pid page = Some f ->
  handleAccess rand pid page trace ci vm =
  Ok (if String.eqb (replacement_policy vm) "lru"
      then mkVMM (num_frames vm) (replacement_policy vm) pts
             (mkFrameStatus (memoryFramesPerProcess fs) (memory fs) (nextFrame fs)
                (row_set (lru_list fs) pid (list_remove f (recency fs pid) ++ [f])))
             (global_page_fault_count vm) (rand_calls vm)
      else vm).
Proof.
  intros Hhit. unfold handleAccess.
  destruct (table_get_valid pts pid Hlen Hv) as [t Ht]. rewrite Ht. simpl.
  rewrite <- (lookup_page_get _ _ _ Ht), Hhit.
  destruct (String.eqb (replacement_policy vm) "lru"); [|reflexivity].
  rewrite l_recency_get by assumption. reflexivity.
Qed.

Lemma l_access_free (f : nat) :
  lookup_page pts pid page = None ->
  first_free (partition fs pid) f ->
  exists pts',
    handleAccess rand pid page trace ci vm =
    Ok (mkVMM (num_frames vm) (replacement_policy vm) pts'
          (placed fs pid page f (cursor fs pid) (recency fs pid ++ [f]))
          (S (global_page_fault_count vm)) (rand_calls vm)) /\
    faulted pts pts' pid /\ installed pts pts' pid page f None.
Proof.
  intros Hmiss Hff.
  destruct (tables_free pid page f pts Hlen Hv) as (pts1 & pts2 & H1 & H2 & Hf & Hi).
  exists pts2. split; [|auto]. unfold handleAccess.
  destruct (table_get_valid pts pid Hlen Hv) as [t Ht]. rewrite Ht. simpl.
  rewrite <- (lookup_page_get _ _ _ Ht), Hmiss.
  rewrite H1. simpl.
  rewrite (l_allocate_free fs pid page) with (f := f) by assumption. simpl.
  rewrite H2. reflexivity.
Qed.

Lemma l_access_remap (old : Z * N) (calls : nat) (fs' : FrameStatus) (f : nat)
    (pts1 : list PageTable) :
  valid_pid old.1 ->
  table_fault pid pts = Ok pts1 ->
  exists pts',
    remap (mkVMM (num_frames vm) (replacement_policy vm) pts1 fs
             (S (global_page_fault_count vm)) (rand_calls vm))
      pid page calls (fs', (old.1, old.2, f)) =
    Ok (mkVMM (num_frames vm) (replacement_policy vm) pts' fs'
          (S (global_page_fault_count vm)) calls) /\
    faulted pts pts' pid /\ installed pts pts' pid page f (Some old).
Proof.
  intros Hvo H1.
  destruct (tables_evict pid page f old pts pts1 Hlen Hv Hvo H1)
    as (pts2 & pts3 & H2 & H3 & Hf & Hi).
  exists pts3. split; [|auto]. unfold remap. simpl. rewrite H2. simpl. rewrite H3.
  reflexivity.
Qed.

Lemma l_access_full :
  lookup_page pts pid page = None ->
  full (partition fs pid) ->
  exists pts1,
    table_fault pid pts = Ok pts1 /\
    let vm1 := mkVMM (num_frames vm) (replacement_policy vm) pts1 fs
                 (S (global_page_fault_count vm)) (rand_calls vm) in
    handleAccess rand pid page trace ci vm =
    if String.eqb (replacement_policy vm) "fifo" then
      let* r := fifoReplacement pid page fs in
      remap vm1 pid page (rand_calls vm) r
    else if String.eqb (replacement_policy vm) "lru" then
      let* r := lruReplacement pid page fs in
      remap vm1 pid page (rand_calls vm) r
    else if String.eqb (replacement_policy vm) "optimal" then
      let* r := optimalReplacement pid page trace ci fs in
      remap vm1 pid page (rand_calls vm) r
    else if String.eqb (replacement_policy vm) "random" then
      let* r := randomReplacement (rand (rand_calls vm)) pid page fs in
      remap vm1 pid page (S (rand_calls vm)) r
    else Ok vm1.
Proof.
  intros Hmiss Hfull.
  destruct (table_fault_valid pid pts Hlen Hv) as [pts1 H1].
  exists pts1. split; [exact H1|]. unfold handleAccess.
  destruct (table_get_valid pts pid Hlen Hv) as [t Ht]. rewrite Ht. simpl.
  rewrite <- (lookup_page_get _ _ _ Ht), Hmiss.
  rewrite H1. simpl.
  rewrite l_allocate_full by assumption. simpl. reflexivity.
Qed.

End Access.

Lemma l_access_bad_pid (rand : nat -> nat) (pid : Z) (page : N) (trace : list (Z * N))
    (ci : nat) (vm : VirtualMemoryManager) :
  length (page_tables vm) = 4 -> ~ valid_pid pid ->
  handleAccess rand pid page trace ci vm = Err BadProcess.
Proof.
  intros Hlen Hbad. unfold handleAccess.
  rewrite (table_get_invalid _ _ Hlen Hbad). reflexivity.
Qed.

End LocalSteps.

(** ** The partitioned simulator: every access is one step *)

Module LocalInv.
Import Local LocalSteps.

Lemma valid_pid_inj (P Q : Z) :
  valid_pid P -> valid_pid Q -> Z.to_nat P = Z.to_nat Q -> P = Q.
Proof. unfold valid_pid. lia. Qed.

Lemma l_partition_placed (fs : FrameStatus) (pid : Z) (page : N) (f next : nat)
    (lru : list nat) (P : Z) :
  valid_pid pid -> length (memory fs) = 4 -> valid_pid P ->
  partition (placed fs pid page f next lru) P =
  if decide (P = pid) then <[f := (pid, page)]> (partition fs pid) else partition fs P.
Proof.
  intros Hv Hrows HP. destruct (valid_pid_lt pid Hv) as [_ Hq].
  unfold partition, placed, row_set. simpl. destruct (decide (P = pid)) as [->|Hne].
  - rewrite list_lookup_insert_eq by lia. reflexivity.
  - rewrite list_lookup_insert_ne; [reflexivity|].
    intros Heq. apply Hne. symmetry. apply valid_pid_inj; assumption.
Qed.

Lemma l_cursor_placed (fs : FrameStatus) (pid : Z) (page : N) (f next : nat)
    (lru : list nat) (P : Z) :
  valid_pid pid -> length (nextFrame fs) = 4 -> valid_pid P ->
  cursor (placed fs pid page f next lru) P =
  if decide (P = pid) then next else cursor fs P.
Proof.
  intros Hv Hcursors HP. destruct (valid_pid_lt pid Hv) as [_ Hq].
  unfold cursor, placed, row_set. simpl. destruct (decide (P = pid)) as [->|Hne].
  - rewrite list_lookup_insert_eq by lia. reflexivity.
  - rewrite list_lookup_insert_ne; [reflexivity|].
    intros Heq. apply Hne. symmetry. apply valid_pid_inj; assumption.
Qed.

Lemma l_recency_placed (fs : FrameStatus) (pid : Z) (page : N) (f next : nat)
    (lru : list nat) (P : Z) :
  valid_pid pid -> length (lru_list fs) = 4 -> valid_pid P ->
  recency (placed fs pid page f next lru) P =
  if decide (P = pid) then lru else recency fs P.
Proof.
  intros Hv Hlists HP. destruct (valid_pid_lt pid Hv) as [_ Hq].
  unfold recency, placed, row_set. simpl. destruct (decide (P = pid)) as [->|Hne].
  - rewrite list_lookup_insert_eq by lia. reflexivity.
  - rewrite list_lookup_insert_ne; [reflexivity|].
    intros Heq. apply Hne. symmetry. apply valid_pid_inj; assumption.
Qed.

Lemma l_occupant_own (vm : VirtualMemoryManager) (pid : Z) (f : nat) (old : Z * N) :
  consistent vm -> valid_pid pid ->
  partition (frame_status vm) pid !! f = Some old -> is_free old = false ->
  valid_pid old.1.
Proof.
  intros Hc Hv Hf Hocc. rewrite (cons_own vm Hc pid f old Hv Hf Hocc). exact Hv.
Qed.

Theorem l_handleAccess_step (rand : nat -> nat) (pid : Z) (page : N)
    (trace : list (Z * N)) (ci : nat) (vm : VirtualMemoryManager) :
  consistent vm -> valid_pid pid ->
  exists vm', handleAccess rand pid page trace ci vm = Ok vm' /\
              step rand pid page trace ci vm vm'.
Proof.
  intros Hc Hv.
  pose proof (cons_tables vm Hc) as Hlen.
  pose proof (cons_rows vm Hc) as Hrows.
  pose proof (cons_cursors vm Hc) as Hcursors.
  pose proof (cons_lists vm Hc) as Hlists.
  pose proof (cons_positive vm Hc) as Hpos.
  pose proof (cons_size vm Hc pid Hv) as Hsize.
  pose proof (cons_cursor vm Hc pid Hv) as Hcur.
  destruct (lookup_page (page_tables vm) pid page) as [f|] eqn:Hlook.
  { eexists. split; [eapply l_access_hit; eassumption | apply step_hit; exact Hlook]. }
  destruct (first_free_or_full (partition (frame_status vm) pid)) as [[f Hff]|Hfull].
  { destruct (l_access_free rand pid page trace ci vm) with (f := f)
      as (pts' & Heq & Hf & Hi); try assumption.
    eexists. split; [exact Heq|]. eapply step_free; eauto. }
  destruct (l_access_full rand pid page trace ci vm) as (pts1 & H1 & Heq); try assumption.
  simpl in Heq. rewrite Heq. clear Heq.
  destruct (String.eqb (replacement_policy vm) "fifo") eqn:Efifo.
  { apply String.eqb_eq in Efifo.
    destruct (full_lookup _ (cursor (frame_status vm) pid) Hfull) as (old & Hold & Hocc); [lia|].
    rewrite (l_fifo_eq (frame_status vm) pid page) with (old := old) by (assumption || lia).
    simpl.
    destruct (l_access_remap pid page vm) with (old := old) (calls := (rand_calls vm))
                (fs' := (placed (frame_status vm) pid page (cursor (frame_status vm) pid)
                   ((cursor (frame_status vm) pid + 1)
                      mod memoryFramesPerProcess (frame_status vm))
                   (list_remove (cursor (frame_status vm) pid)
                      (recency (frame_status vm) pid))))
                (f := (cursor (frame_status vm) pid)) (pts1 := pts1)
      as (pts' & Heq & Hf & Hi);
      [assumption | assumption | eapply l_occupant_own; eauto | exact H1 |].
    eexists. split; [exact Heq|].
    eapply step_evict; eauto. apply chooses_fifo. exact Efifo. }
  destruct (String.eqb (replacement_policy vm) "lru") eqn:Elru.
  { apply String.eqb_eq in Elru.
    destruct (cons_lru vm Hc Elru pid Hv) as [Hnd Hmem].
    destruct (recency (frame_status vm) pid) as [|f rest] eqn:El.
    { exfalso. apply (not_elem_of_nil 0). apply Hmem. apply Hfull. lia. }
    assert (Hf : occupied (partition (frame_status vm) pid) f) by (apply Hmem; left).
    destruct Hf as (old & Hold & Hocc).
    rewrite (l_lru_eq (frame_status vm) pid page) with (f := f) (rest := rest) (old := old)
      by assumption.
    simpl.
    destruct (l_access_remap pid page vm) with (old := old) (calls := (rand_calls vm))
                (fs' := (placed (frame_status vm) pid page f (cursor (frame_status vm) pid)
                   (list_remove f rest ++ [f])))
                (f := f) (pts1 := pts1)
      as (pts' & Heq & Hf & Hi);
      [assumption | assumption | eapply l_occupant_own; eauto | exact H1 |].
    eexists. split; [exact Heq|].
    eapply step_evict; eauto. eapply chooses_lru; eauto. }
  destruct (String.eqb (replacement_policy vm) "optimal") eqn:Eopt.
  { apply String.eqb_eq in Eopt.
    destruct (optimal_scan_ok (partition (frame_status vm) pid) trace ci)
      as (acc & Hscan & v & old & Hv1 & Hold & Hop & Hog & Hvict); [lia|].
    pose proof (optimal_victim_lt _ _ _ _ Hvict) as Hvlt.
    rewrite Hsize in Hscan.
    rewrite (l_optimal_eq (frame_status vm) pid page) with (acc := acc) (v := v)
      by assumption.
    simpl. rewrite Hop, Hog.
    destruct (full_lookup _ v Hfull Hvlt) as (old' & Hold' & Hocc).
    assert (old' = old) by congruence. subst old'.
    destruct (l_access_remap pid page vm) with (old := old) (calls := (rand_calls vm))
                (fs' := (placed (frame_status vm) pid page v (cursor (frame_status vm) pid)
                   (list_remove v (recency (frame_status vm) pid))))
                (f := v) (pts1 := pts1)
      as (pts' & Heq & Hf & Hi);
      [assumption | assumption | eapply l_occupant_own; eauto | exact H1 |].
    eexists. split; [exact Heq|].
    eapply step_evict; eauto. eapply chooses_optimal; eauto. }
  destruct (String.eqb (replacement_policy vm) "random") eqn:Ernd.
  { apply String.eqb_eq in Ernd.
    set (f := rand (rand_calls vm) mod memoryFramesPerProcess (frame_status vm)).
    assert (Hflt : f < length (partition (frame_status vm) pid)).
    { rewrite Hsize. apply Nat.mod_upper_bound. lia. }
    destruct (full_lookup _ f Hfull Hflt) as (old & Hold & Hocc).
    rewrite (l_random_eq (frame_status vm) pid page) with (old := old)
      by (assumption || lia).
    simpl.
    destruct (l_access_remap pid page vm) with (old := old) (calls := (S (rand_calls vm)))
                (fs' := (placed (frame_status vm) pid page f (cursor (frame_status vm) pid)
                   (list_remove f (recency (frame_status vm) pid))))
                (f := f) (pts1 := pts1)
      as (pts' & Heq & Hf & Hi);
      [assumption | assumption | eapply l_occupant_own; eauto | exact H1 |].
    eexists. split; [exact Heq|].
    eapply step_evict; eauto. apply chooses_random. exact Ernd. }
  eexists. split; [reflexivity|].
  pose proof (table_fault_Ok _ _ _ H1) as [Hf Hp].
  apply step_dropped; auto. apply policy_cases. auto.
Qed.

Lemma l_bij_install (pts pts' : list PageTable) (fs : FrameStatus) (pid : Z) (page : N)
    (f next : nat) (lru : list nat) (e : Z * N) (old : option (Z * N)) :
  valid_pid pid -> length (memory fs) = 4 ->
  (forall P p f', lookup_page pts P p = Some f' <->
                  valid_pid P /\ partition fs P !! f' = Some (P, p)) ->
  (is_free e = false -> e.1 = pid) ->
  installed pts pts' pid page f old ->
  partition fs pid !! f = Some e ->
  old = (if is_free e then None else Some e) ->
  lookup_page pts pid page = None ->
  forall P p f', lookup_page pts' P p = Some f' <->
                 valid_pid P /\
                 partition (placed fs pid page f next lru) P !! f' = Some (P, p).
Proof.
  intros Hv Hrows Hbij Hown Hinst He Hold Hmiss P p f'.
  pose proof (lookup_lt_Some _ _ _ He) as Hlt.
  rewrite (Hinst P p).
  destruct (decide (P = pid /\ p = page)) as [[-> ->]|Hnew].
  { rewrite l_partition_placed by assumption.
    destruct (decide (pid = pid)) as [_|]; [|contradiction]. split.
    - intros [= <-]. rewrite list_lookup_insert_eq by exact Hlt. auto.
    - intros [_ Hf']. destruct (decide (f' = f)) as [->|Hne]; [reflexivity|].
      rewrite list_lookup_insert_ne in Hf' by congruence.
      assert (lookup_page pts pid page = Some f') by (apply Hbij; auto). congruence. }
  destruct (decide (old = Some (P, p))) as [Hev|Hkeep].
  { split; [discriminate|]. intros [HP Hf']. exfalso.
    destruct (is_free e) eqn:Hfree; [congruence|].
    assert (e = (P, p)) by congruence. subst e.
    assert (P = pid) by (apply Hown; reflexivity). subst P.
    rewrite l_partition_placed in Hf' by assumption.
    destruct (decide (pid = pid)) as [_|]; [|contradiction].
    destruct (decide (f' = f)) as [->|Hne].
    - rewrite list_lookup_insert_eq in Hf' by exact Hlt.
      apply Hnew. injection Hf' as ->. auto.
    - rewrite list_lookup_insert_ne in Hf' by congruence.
      assert (Ha : lookup_page pts pid p = Some f') by (apply Hbij; auto).
      assert (Hb : lookup_page pts pid p = Some f) by (apply Hbij; auto).
      congruence. }
  rewrite Hbij. split.
  - intros [HP Hf']. split; [exact HP|].
    rewrite l_partition_placed by assumption.
    destruct (decide (P = pid)) as [->|Hne]; [|exact Hf'].
    rewrite list_lookup_insert_ne; [exact Hf'|].
    intros <-. assert (e = (pid, p)) by congruence. subst e.
    destruct (is_free (pid, p)) eqn:Hfree.
    + apply is_free_true in Hfree. simpl in Hfree. destruct Hv. lia.
    + congruence.
  - intros [HP Hf']. split; [exact HP|].
    rewrite l_partition_placed in Hf' by assumption.
    destruct (decide (P = pid)) as [->|Hne]; [|exact Hf'].
    destruct (decide (f' = f)) as [->|Hnf].
    + rewrite list_lookup_insert_eq in Hf' by exact Hlt.
      exfalso. apply Hnew. injection Hf' as ->. auto.
    + rewrite list_lookup_insert_ne in Hf' by congruence. exact Hf'.
Qed.

(** A partition with a free frame is filled up to that frame. *)
Lemma l_filling (vm : VirtualMemoryManager) (pid : Z) (f : nat) :
  consistent vm -> valid_pid pid ->
  first_free (partition (frame_status vm) pid) f ->
  cursor (frame_status vm) pid = 0 /\
  forall g, g < memoryFramesPerProcess (frame_status vm) ->
    (occupied (partition (frame_status vm) pid) g <-> g < f).
Proof.
  intros Hc Hv Hff. pose proof (first_free_lt _ _ Hff) as Hlt.
  rewrite (cons_size vm Hc pid Hv) in Hlt.
  destruct (cons_shape vm Hc pid Hv) as [Hfull|[Hcur [m Hm]]].
  { exfalso. eapply first_free_not_full; eauto. }
  split; [exact Hcur|]. destruct Hff as [(e & He & Hfree) Hbefore].
  assert (f = m); [|subst m; exact Hm].
  destruct (Nat.lt_trichotomy f m) as [H|[H|H]]; [|exact H|].
  - exfalso. apply (Hm f Hlt) in H. destruct H as (e' & He' & Hocc). congruence.
  - exfalso. assert (Hmk : m < memoryFramesPerProcess (frame_status vm)) by lia.
    pose proof (Hbefore m H) as Ho. apply (Hm m Hmk) in Ho. lia.
Qed.

Theorem l_step_consistent (rand : nat -> nat) (pid : Z) (page : N)
    (trace : list (Z * N)) (ci : nat) (vm vm' : VirtualMemoryManager) :
  consistent vm -> valid_pid pid ->
  step rand pid page trace ci vm vm' -> consistent vm'.
Proof.
  intros Hc Hv Hstep.
  pose proof (cons_tables vm Hc) as Hlen.
  pose proof (cons_rows vm Hc) as Hrows.
  pose proof (cons_cursors vm Hc) as Hcursors.
  pose proof (cons_lists vm Hc) as Hlists.
  pose proof (cons_positive vm Hc) as Hpos.
  pose proof (cons_size vm Hc) as Hsize.
  pose proof (cons_cursor vm Hc) as Hcur.
  pose proof (cons_bij vm Hc) as Hbij.
  pose proof (cons_own vm Hc) as Hown.
  pose proof (valid_pid_occupies pid page Hv) as Hnew.
  destruct Hstep as [f Hlook | f pts' Hlook Hff [Hl Hf] Hi
                    | f old next lru calls pts' Hlook Hfull Hch Hold [Hl Hf] Hi
                    | pts' Hlook Hfull Hunk [Hl Hf] Hsame].
  - (* hit *)
    destruct (String.eqb (replacement_policy vm) "lru") eqn:Elru; [|exact Hc].
    apply String.eqb_eq in Elru.
    assert (Hrec : forall P, valid_pid P ->
      recency (mkFrameStatus (memoryFramesPerProcess (frame_status vm))
                 (memory (frame_status vm)) (nextFrame (frame_status vm))
                 (row_set (lru_list (frame_status vm)) pid
                    (list_remove f (recency (frame_status vm) pid) ++ [f]))) P =
      if decide (P = pid) then list_remove f (recency (frame_status vm) pid) ++ [f]
      else recency (frame_status vm) P).
    { intros P HP. destruct (valid_pid_lt pid Hv) as [_ Hq].
      unfold recency, row_set. simpl. destruct (decide (P = pid)) as [->|Hne].
      - rewrite list_lookup_insert_eq by lia. reflexivity.
      - rewrite list_lookup_insert_ne; [reflexivity|].
        intros Heq. apply Hne. symmetry. apply valid_pid_inj; assumption. }
    constructor; simpl; try assumption.
    + unfold row_set. rewrite length_insert. exact Hlists.
    + apply (cons_shape vm Hc).
    + intros _ P HP. rewrite (Hrec P HP).
      destruct (cons_lru vm Hc Elru P HP) as [Hnd Hmem].
      destruct (decide (P = pid)) as [->|Hne]; [|auto].
      split; [apply list_remove_requeue_NoDup; exact Hnd|].
      intros x. rewrite list_remove_requeue_elem, Hmem. split; [|auto].
      intros [->|H]; [|exact H]. apply Hbij in Hlook. destruct Hlook as [_ Hm].
      exists (pid, page). split; [exact Hm | exact Hnew].
  - (* a free frame *)
    pose proof (first_free_lt _ _ Hff) as Hlt.
    destruct (l_filling vm pid f Hc Hv Hff) as [Hc0 Hpre].
    destruct Hff as [(e & He & Hfree) Hbefore].
    constructor; simpl.
    + congruence.
    + unfold row_set. rewrite length_insert. exact Hrows.
    + unfold row_set. rewrite length_insert. exact Hcursors.
    + unfold row_set. rewrite length_insert. exact Hlists.
    + exact Hpos.
    + intros P HP. rewrite l_partition_placed by assumption.
      destruct (decide (P = pid)) as [->|]; [rewrite length_insert|]; auto.
    + intros P HP. rewrite l_cursor_placed by assumption.
      destruct (decide (P = pid)) as [->|]; auto.
    + unfold bijection. simpl.
      apply (l_bij_install (page_tables vm) pts' (frame_status vm) pid page f _ _ e None);
        [assumption | assumption | exact Hbij | intros Hocc; congruence | exact Hi
        | exact He | rewrite Hfree; reflexivity | exact Hlook].
    + intros P g e' HP. rewrite l_partition_placed by assumption.
      destruct (decide (P = pid)) as [->|]; [|apply Hown; exact HP].
      destruct (decide (g = f)) as [->|Hne].
      * rewrite list_lookup_insert_eq by exact Hlt. intros [= <-] _. reflexivity.
      * rewrite list_lookup_insert_ne by congruence. apply Hown. exact HP.
    + intros P HP. rewrite l_partition_placed, l_cursor_placed by assumption.
      destruct (decide (P = pid)) as [->|]; [|apply (cons_shape vm Hc P HP)].
      right. split; [exact Hc0|]. exists (S f). intros g Hg.
      rewrite occupied_insert by assumption. rewrite (Hpre g Hg). lia.
    + intros Elru P HP. rewrite l_partition_placed, l_recency_placed by assumption.
      destruct (cons_lru vm Hc Elru P HP) as [Hnd Hmem].
      destruct (decide (P = pid)) as [->|]; [|auto]. split.
      * apply NoDup_app. split; [exact Hnd|]. split; [|apply NoDup_singleton].
        intros x Hx Hx'. apply list_elem_of_singleton in Hx'. subst x.
        apply Hmem in Hx. destruct Hx as (e' & He' & Hocc). congruence.
      * intros x. rewrite elem_of_app, list_elem_of_singleton, Hmem.
        rewrite occupied_insert by assumption. tauto.
  - (* an eviction *)
    pose proof (lookup_lt_Some _ _ _ Hold) as Hlt.
    destruct (Hfull _ Hlt) as (old' & Hold' & Hocc).
    assert (old' = old) by congruence. subst old'.
    constructor; simpl.
    + congruence.
    + unfold row_set. rewrite length_insert. exact Hrows.
    + unfold row_set. rewrite length_insert. exact Hcursors.
    + unfold row_set. rewrite length_insert. exact Hlists.
    + exact Hpos.
    + intros P HP. rewrite l_partition_placed by assumption.
      destruct (decide (P = pid)) as [->|]; [rewrite length_insert|]; auto.
    + intros P HP. rewrite l_cursor_placed by assumption.
      destruct (decide (P = pid)) as [->|]; [|auto].
      destruct Hch; auto. apply Nat.mod_upper_bound. lia.
    + unfold bijection. simpl.
      apply (l_bij_install (page_tables vm) pts' (frame_status vm) pid page f _ _ old
               (Some old));
        [assumption | assumption | exact Hbij | intros _; eapply Hown; eauto | exact Hi
        | exact Hold | rewrite Hocc; reflexivity | exact Hlook].
    + intros P g e' HP. rewrite l_partition_placed by assumption.
      destruct (decide (P = pid)) as [->|]; [|apply Hown; exact HP].
      destruct (decide (g = f)) as [->|Hne].
      * rewrite list_lookup_insert_eq by exact Hlt. intros [= <-] _. reflexivity.
      * rewrite list_lookup_insert_ne by congruence. apply Hown. exact HP.
    + intros P HP. rewrite l_partition_placed by assumption.
      destruct (decide (P = pid)) as [->|Hne].
      * left. apply full_insert; assumption.
      * rewrite l_cursor_placed by assumption.
        destruct (decide (P = pid)); [contradiction|]. apply (cons_shape vm Hc P HP).
    + intros Elru P HP. rewrite l_partition_placed, l_recency_placed by assumption.
      destruct (cons_lru vm Hc Elru P HP) as [Hnd Hmem].
      destruct (decide (P = pid)) as [->|]; [|auto].
      destruct Hch as [E|g rest E Hl'|g E _|E]; try congruence.
      rewrite Hl' in Hnd, Hmem. apply NoDup_cons in Hnd. destruct Hnd as [Hg Hnd].
      rewrite (list_remove_absent _ _ Hg). split.
      * apply NoDup_app. split; [exact Hnd|]. split; [|apply NoDup_singleton].
        intros x Hx Hx'. apply list_elem_of_singleton in Hx'. subst x. contradiction.
      * intros x. rewrite elem_of_app, list_elem_of_singleton.
        rewrite occupied_insert by assumption. rewrite <- Hmem, elem_of_cons. tauto.
  - (* no policy *)
    constructor; simpl; try assumption.
    + congruence.
    + unfold bijection. simpl. intros P p g. rewrite Hsame. apply Hbij.
    + apply (cons_shape vm Hc).
    + apply (cons_lru vm Hc).
Qed.

End LocalInv.

(** ** The partitioned simulator: runs *)

Module LocalRuns.
Import Local LocalSteps LocalInv GlobalRuns.

Lemma l_handleAccess_Ok (rand : nat -> nat) (pid : Z) (page : N)
    (trace : list (Z * N)) (ci : nat) (vm vm' : VirtualMemoryManager) :
  consistent vm -> handleAccess rand pid page trace ci vm = Ok vm' ->
  valid_pid pid /\ step rand pid page trace ci vm vm'.
Proof.
  intros Hc Heq. destruct (valid_pid_dec pid) as [Hv|Hbad].
  - split; [exact Hv|].
    destruct (l_handleAccess_step rand pid page trace ci vm Hc Hv) as (vm'' & Heq' & Hstep).
    congruence.
  - rewrite l_access_bad_pid in Heq; [discriminate | apply (cons_tables vm Hc) | exact Hbad].
Qed.

Lemma l_handleAccess_Err (rand : nat -> nat) (pid : Z) (page : N)
    (trace : list (Z * N)) (ci : nat) (vm : VirtualMemoryManager) (e : error) :
  consistent vm -> handleAccess rand pid page trace ci vm = Err e ->
  e = BadProcess /\ ~ valid_pid pid.
Proof.
  intros Hc Heq. destruct (valid_pid_dec pid) as [Hv|Hbad].
  - destruct (l_handleAccess_step rand pid page trace ci vm Hc Hv) as (vm'' & Heq' & _).
    congruence.
  - rewrite l_access_bad_pid in Heq; [| apply (cons_tables vm Hc) | exact Hbad].
    split; [congruence | exact Hbad].
Qed.

Lemma l_step_fixed (rand : nat -> nat) (pid : Z) (page : N)
    (trace : list (Z * N)) (ci : nat) (vm vm' : VirtualMemoryManager) :
  step rand pid page trace ci vm vm' ->
  replacement_policy vm' = replacement_policy vm /\
  num_frames vm' = num_frames vm /\
  memoryFramesPerProcess (frame_status vm') = memoryFramesPerProcess (frame_status vm).
Proof.
  intros [f Hlook | | |]; simpl; auto.
  destruct (String.eqb (replacement_policy vm) "lru"); simpl; auto.
Qed.

Lemma l_new_consistent (nf : Z) (policy : string) :
  (4 <= nf)%Z ->
  exists vm, VirtualMemoryManager_new nf policy = Ok vm /\ consistent vm /\
             replacement_policy vm = policy /\ num_frames vm = nf /\
             memoryFramesPerProcess (frame_status vm) = Z.to_nat (nf ÷ 4) /\
             global_page_fault_count vm = 0 /\
             (forall P, faults_of (page_tables vm) P = 0) /\
             (forall P p, lookup_page (page_tables vm) P p = None) /\
             (forall P, valid_pid P ->
                partition (frame_status vm) P =
                replicate (Z.to_nat (nf ÷ 4)) free_frame).
Proof.
  intros Hnf. unfold VirtualMemoryManager_new, FrameStatus_new.
  destruct (decide (4 = 0)) as [|_]; [lia|].
  assert (Hq : (1 <= nf ÷ 4)%Z) by (apply Z.quot_le_lower_bound; lia).
  change (Z.of_nat 4) with 4%Z.
  destruct (nf ÷ 4 <? 0)%Z eqn:E; [apply Z.ltb_lt in E; lia|]. simpl.
  assert (Hempty : forall P p,
    lookup_page (map (fun i => mkPageTable ∅ i 0) [0; 1; 2; 3]%Z) P p = None).
  { intros P p. unfold lookup_page. destruct (P <? 0)%Z; [reflexivity|].
    destruct (Z.to_nat P) as [|[|[|[|k]]]]; simpl; try apply lookup_empty. reflexivity. }
  set (k := Z.to_nat (nf ÷ 4)).
  assert (Hk : 1 <= k) by (subst k; lia).
  remember (mkFrameStatus k (replicate 4 (replicate k free_frame)) (replicate 4 0)
              (replicate 4 [])) as fs0 eqn:Efs0.
  assert (Hpart : forall P, valid_pid P -> partition fs0 P = replicate k free_frame).
  { intros P HP. destruct (valid_pid_lt P HP) as [_ Hlt]. subst fs0. unfold partition. simpl.
    destruct (Z.to_nat P) as [|[|[|[|j]]]]; try reflexivity. lia. }
  assert (Hcur : forall P, valid_pid P -> cursor fs0 P = 0).
  { intros P HP. destruct (valid_pid_lt P HP) as [_ Hlt]. subst fs0. unfold cursor. simpl.
    destruct (Z.to_nat P) as [|[|[|[|j]]]]; try reflexivity. }
  assert (Hrec : forall P, valid_pid P -> recency fs0 P = []).
  { intros P HP. destruct (valid_pid_lt P HP) as [_ Hlt]. subst fs0. unfold recency. simpl.
    destruct (Z.to_nat P) as [|[|[|[|j]]]]; try reflexivity. }
  assert (Hfree : forall P f, valid_pid P -> ~ occupied (partition fs0 P) f).
  { intros P f HP (e & He & Hocc). rewrite (Hpart P HP) in He.
    apply lookup_replicate in He. destruct He as [-> _]. discriminate. }
  assert (Hper : memoryFramesPerProcess fs0 = k) by (subst fs0; reflexivity).
  exists (mkVMM nf policy (map (fun i => mkPageTable ∅ i 0) [0; 1; 2; 3]%Z) fs0 0 0).
  split; [rewrite Efs0; reflexivity|].
  split; [|repeat split; cbn [replacement_policy num_frames frame_status page_tables
                              global_page_fault_count]; auto].
  - constructor; cbn [replacement_policy num_frames frame_status page_tables
                      global_page_fault_count].
    + reflexivity.
    + subst fs0. reflexivity.
    + subst fs0. reflexivity.
    + subst fs0. reflexivity.
    + lia.
    + intros P HP. rewrite (Hpart P HP), Hper. apply length_replicate.
    + intros P HP. rewrite (Hcur P HP). lia.
    + unfold bijection. cbn [frame_status page_tables]. intros P p f. rewrite Hempty.
      split; [discriminate|]. intros [HP Hf]. exfalso. apply (Hfree P f HP).
      exists (P, p). split; [exact Hf | apply valid_pid_occupies; exact HP].
    + intros P f e HP He Hocc. exfalso. apply (Hfree P f HP). exists e. auto.
    + intros P HP. right. split; [apply Hcur; exact HP|]. exists 0. intros f Hf.
      split; [|lia]. intros Ho. exfalso. apply (Hfree P f HP Ho).
    + intros _ P HP. rewrite (Hrec P HP). split; [apply NoDup_nil_2|]. intros f. split.
      * intros H. exfalso. eapply not_elem_of_nil; eauto.
      * intros Ho. exfalso. apply (Hfree P f HP Ho).
  - intros P. unfold faults_of. destruct P as [|[|[|[|j]]]]; reflexivity.
Qed.

Lemma l_loop_Ok (rand : nat -> nat) (trace : list (Z * N)) (fuel i : nat)
    (vm vm' : VirtualMemoryManager) :
  consistent vm -> access_loop rand trace fuel i vm = Ok vm' ->
  consistent vm' /\ replacement_policy vm' = replacement_policy vm /\
  memoryFramesPerProcess (frame_status vm') = memoryFramesPerProcess (frame_status vm).
Proof.
  revert i vm. induction fuel as [|fuel IH]; intros i vm Hc; simpl.
  - intros [= <-]. auto.
  - destruct (trace !! i) as [r|]; [|intros [= <-]; auto].
    intros H. apply bind_Ok in H. destruct H as (vm1 & H1 & H2).
    apply l_handleAccess_Ok in H1; [|exact Hc]. destruct H1 as [Hv Hstep].
    pose proof (l_step_consistent _ _ _ _ _ _ _ Hc Hv Hstep) as Hc1.
    pose proof (l_step_fixed _ _ _ _ _ _ _ Hstep) as (Hp & _ & Hn).
    destruct (IH _ _ Hc1 H2) as (Hc' & Hp' & Hn'). split; [exact Hc'|]. split; congruence.
Qed.

Lemma l_loop_Err (rand : nat -> nat) (trace : list (Z * N)) (fuel i : nat)
    (vm : VirtualMemoryManager) (e : error) :
  consistent vm -> access_loop rand trace fuel i vm = Err e -> e = BadProcess.
Proof.
  revert i vm. induction fuel as [|fuel IH]; intros i vm Hc; simpl; [discriminate|].
  destruct (trace !! i) as [r|]; [|discriminate].
  intros H. apply bind_Err in H. destruct H as [H|(vm1 & H1 & H2)].
  - apply l_handleAccess_Err in H; [tauto | exact Hc].
  - apply l_handleAccess_Ok in H1; [|exact Hc]. destruct H1 as [Hv Hstep].
    eapply IH; [|exact H2]. eapply l_step_consistent; eauto.
Qed.

Lemma l_loop_total (rand : nat -> nat) (trace : list (Z * N)) (fuel i : nat)
    (vm : VirtualMemoryManager) :
  consistent vm -> valid_trace trace ->
  exists vm', access_loop rand trace fuel i vm = Ok vm'.
Proof.
  intros Hc Hall. revert i vm Hc. induction fuel as [|fuel IH]; intros i vm Hc; simpl.
  - eauto.
  - destruct (trace !! i) as [r|] eqn:Hr; [|eauto].
    assert (Hv : valid_pid r.1).
    { unfold valid_trace in Hall. rewrite Forall_forall in Hall. apply Hall. eapply list_elem_of_lookup_2; eauto. }
    destruct (l_handleAccess_step rand r.1 r.2 trace i vm Hc Hv) as (vm1 & H1 & Hstep).
    rewrite H1. simpl. apply IH. eapply l_step_consistent; eauto.
Qed.

Lemma l_loop_S (rand : nat -> nat) (trace : list (Z * N)) (fuel i : nat)
    (vm : VirtualMemoryManager) :
  access_loop rand trace (S fuel) i vm =
  match trace !! i with
  | None => Ok vm
  | Some r => let* vm' := handleAccess rand r.1 r.2 trace i vm in
              access_loop rand trace fuel (S i) vm'
  end.
Proof. reflexivity. Qed.

(** The loop, one record at a time. *)
Lemma l_loop_snoc (rand : nat -> nat) (trace : list (Z * N)) (fuel i : nat)
    (vm : VirtualMemoryManager) :
  access_loop rand trace (S fuel) i vm =
  let* vm' := access_loop rand trace fuel i vm in
  match trace !! (i + fuel) with
  | None => Ok vm'
  | Some r => handleAccess rand r.1 r.2 trace (i + fuel) vm'
  end.
Proof.
  revert i vm. induction fuel as [|fuel IH]; intros i vm.
  - simpl. rewrite Nat.add_0_r. destruct (trace !! i) as [r|]; [|reflexivity].
    destruct (handleAccess rand r.1 r.2 trace i vm); reflexivity.
  - rewrite (l_loop_S rand trace (S fuel) i vm), (l_loop_S rand trace fuel i vm).
    destruct (trace !! i) as [r|] eqn:Hr.
    + destruct (handleAccess rand r.1 r.2 trace i vm) as [vm1|e]; [|reflexivity].
      unfold bind at 1. unfold bind at 2. rewrite IH.
      replace (S i + fuel) with (i + S fuel) by lia. reflexivity.
    + simpl. rewrite lookup_ge_None_2; [reflexivity|].
      apply lookup_ge_None in Hr. lia.
Qed.

Lemma l_reachable_consistent (vm : VirtualMemoryManager) :
  reachable vm -> consistent vm.
Proof.
  intros (rand & nf & policy & trace & n & Hnf & Hrun). unfold after in Hrun.
  destruct (l_new_consistent nf policy Hnf) as (vm0 & H0 & Hc0 & _).
  rewrite H0 in Hrun. simpl in Hrun.
  eapply l_loop_Ok; eauto.
Qed.

End LocalRuns.

(** ** The fault counters *)

Lemma table_get_lt (pts : list PageTable) (pid : Z) (t : PageTable) :
  table_get pts pid = Ok t -> Z.to_nat pid < length pts.
Proof. intros H. apply table_get_Ok in H. destruct H as [_ H]. eapply lookup_lt_Some; eauto. Qed.

Lemma faults_of_sum (l l' : list PageTable) (k : nat) :
  length l' = length l -> k < length l ->
  (forall P, faults_of l' P = faults_of l P + (if decide (P = k) then 1 else 0)) ->
  fault_sum l' = S (fault_sum l).
Proof.
  unfold fault_sum. revert l' k. induction l as [|t l IH]; intros l' k Hlen Hk Hf; [simpl in Hk; lia|].
  destruct l' as [|t' l']; [discriminate|]. simpl in *.
  destruct k as [|k].
  - pose proof (Hf 0) as H0. unfold faults_of in H0. simpl in H0.
    assert (Hrest : map page_fault_count l' = map page_fault_count l).
    { apply list_eq. intros i. rewrite !list_lookup_fmap.
      pose proof (Hf (S i)) as Hi. unfold faults_of in Hi. simpl in Hi.
      destruct (decide (S i = 0)); [lia|].
      destruct (l' !! i) eqn:E1, (l !! i) eqn:E2; simpl; try (f_equal; lia).
      - apply lookup_lt_Some in E1. apply lookup_ge_None in E2. lia.
      - apply lookup_lt_Some in E2. apply lookup_ge_None in E1. lia. }
    rewrite Hrest. lia.
  - pose proof (Hf 0) as H0. unfold faults_of in H0. simpl in H0.
    rewrite (IH l' k); [lia | lia | lia |].
    intros P. pose proof (Hf (S P)) as HP. unfold faults_of in *. simpl in HP.
    destruct (decide (S P = S k)), (decide (P = k)); try lia.
Qed.

Lemma faults_of_same_sum (l l' : list PageTable) :
  length l' = length l -> (forall P, faults_of l' P = faults_of l P) ->
  fault_sum l' = fault_sum l.
Proof.
  intros Hlen Hf. unfold fault_sum. f_equal. apply list_eq. intros i.
  rewrite !list_lookup_fmap. pose proof (Hf i) as Hi. unfold faults_of in Hi.
  destruct (l' !! i) eqn:E1, (l !! i) eqn:E2; simpl; try (f_equal; lia).
  - apply lookup_lt_Some in E1. apply lookup_ge_None in E2. lia.
  - apply lookup_lt_Some in E2. apply lookup_ge_None in E1. lia.
Qed.

(** Conservation carries over an access. *)
Lemma counted_sum (pid : Z) (page : N) (pts pts' : list PageTable) (g g' : nat) :
  counted pid page pts pts' g g' -> g = fault_sum pts -> g' = fault_sum pts'.
Proof.
  intros (Hlen & Hlt & Hc) ->. destruct (lookup_page pts pid page).
  - destruct Hc as [-> Hf]. symmetry. apply faults_of_same_sum; assumption.
  - destruct Hc as [-> Hf]. symmetry. eapply faults_of_sum; eauto.
Qed.

(** No counter decreases. *)
Lemma counted_le (pid : Z) (page : N) (pts pts' : list PageTable) (g g' : nat) :
  counted pid page pts pts' g g' ->
  g <= g' /\ forall P, faults_of pts P <= faults_of pts' P.
Proof.
  intros (Hlen & Hlt & Hc). destruct (lookup_page pts pid page).
  - destruct Hc as [-> Hf]. split; [lia|]. intros P. rewrite Hf. lia.
  - destruct Hc as [-> Hf]. split; [lia|]. intros P. rewrite Hf. lia.
Qed.

Lemma counted_miss (pid : Z) (page : N) (pts pts1 pts' : list PageTable) (g : nat)
    (t : PageTable) :
  table_get pts pid = Ok t -> lookup_page pts pid page = None ->
  table_fault pid pts = Ok pts1 ->
  length pts' = length pts1 -> (forall P, faults_of pts' P = faults_of pts1 P) ->
  counted pid page pts pts' g (S g).
Proof.
  intros Ht Hmiss H1 Hlen Hf. apply table_fault_Ok in H1. destruct H1 as [[Hl1 Hf1] _].
  split; [congruence|]. split; [eapply table_get_lt; eauto|]. rewrite Hmiss.
  split; [reflexivity|]. intros P. rewrite Hf. apply Hf1.
Qed.

Ltac inv_bind H :=
  let a := fresh "a" in
  let E := fresh "E" in
  apply bind_Ok in H; destruct H as (a & E & H).

Module GlobalCounts.
Import Global.

Lemma g_remap_tables (vm vm' : VirtualMemoryManager) (pid : Z) (page : N) (calls : nat)
    (r : FrameStatus * (Z * N * nat)) :
  remap vm pid page calls r = Ok vm' ->
  global_page_fault_count vm' = global_page_fault_count vm /\
  length (page_tables vm') = length (page_tables vm) /\
  forall P, faults_of (page_tables vm') P = faults_of (page_tables vm) P.
Proof.
  destruct r as [fs [[op og] ef]]. unfold remap. intros H.
  inv_bind H. inv_bind H. injection H as <-. simpl.
  apply table_erase_Ok in E. destruct E as (Hl1 & Hf1 & _).
  apply table_map_Ok in E0. destruct E0 as (Hl2 & Hf2 & _).
  split; [reflexivity|]. split; [congruence|]. intros P. rewrite Hf2. apply Hf1.
Qed.

Lemma g_handleAccess_counted (rand : nat -> nat) (pid : Z) (page : N)
    (trace : list (Z * N)) (ci : nat) (vm vm' : VirtualMemoryManager) :
  handleAccess rand pid page trace ci vm = Ok vm' ->
  counted pid page (page_tables vm) (page_tables vm')
    (global_page_fault_count vm) (global_page_fault_count vm').
Proof.
  unfold handleAccess. intros H. inv_bind H. rename a into t. rename E into Ht.
  pose proof (lookup_page_get _ _ _ Ht page) as Hl.
  destruct (page_to_frame t !! page) as [f|] eqn:Hlook.
  { assert (page_tables vm' = page_tables vm /\
            global_page_fault_count vm' = global_page_fault_count vm) as [-> ->].
    { destruct (String.eqb (replacement_policy vm) "lru"); injection H as <-; auto. }
    split; [reflexivity|]. split; [eapply table_get_lt; eauto|]. rewrite Hl. auto. }
  inv_bind H. rename a into pts1. rename E into H1. simpl in H.
  inv_bind H. destruct a as [fs frame]. destruct frame as [f|].
  { inv_bind H. injection H as <-. simpl.
    apply table_map_Ok in E0. destruct E0 as (Hl2 & Hf2 & _).
    eapply counted_miss; eauto. }
  repeat match type of H with
         | (if ?b then _ else _) = _ => destruct b
         end;
    try (inv_bind H; apply g_remap_tables in H; simpl in H; destruct H as (-> & Hl2 & Hf2);
         eapply counted_miss; eauto).
  injection H as <-. simpl. eapply counted_miss; eauto.
Qed.

End GlobalCounts.

Module LocalCounts.
Import Local.

Lemma l_remap_tables (vm vm' : VirtualMemoryManager) (pid : Z) (page : N) (calls : nat)
    (r : FrameStatus * (Z * N * nat)) :
  remap vm pid page calls r = Ok vm' ->
  global_page_fault_count vm' = global_page_fault_count vm /\
  length (page_tables vm') = length (page_tables vm) /\
  forall P, faults_of (page_tables vm') P = faults_of (page_tables vm) P.
Proof.
  destruct r as [fs [[op og] ef]]. unfold remap. intros H.
  inv_bind H. inv_bind H. injection H as <-. simpl.
  apply table_erase_Ok in E. destruct E as (Hl1 & Hf1 & _).
  apply table_map_Ok in E0. destruct E0 as (Hl2 & Hf2 & _).
  split; [reflexivity|]. split; [congruence|]. intros P. rewrite Hf2. apply Hf1.
Qed.

Lemma l_handleAccess_counted (rand : nat -> nat) (pid : Z) (page : N)
    (trace : list (Z * N)) (ci : nat) (vm vm' : VirtualMemoryManager) :
  handleAccess rand pid page trace ci vm = Ok vm' ->
  counted pid page (page_tables vm) (page_tables vm')
    (global_page_fault_count vm) (global_page_fault_count vm').
Proof.
  unfold handleAccess. intros H. inv_bind H. rename a into t. rename E into Ht.
  pose proof (lookup_page_get _ _ _ Ht page) as Hl.
  destruct (page_to_frame t !! page) as [f|] eqn:Hlook.
  { assert (page_tables vm' = page_tables vm /\
            global_page_fault_count vm' = global_page_fault_count vm) as [-> ->].
    { destruct (String.eqb (replacement_policy vm) "lru").
      - inv_bind H. injection H as <-; auto.
      - injection H as <-; auto. }
    split; [reflexivity|]. split; [eapply table_get_lt; eauto|]. rewrite Hl. auto. }
  inv_bind H. rename a into pts1. rename E into H1. simpl in H.
  inv_bind H. destruct a as [fs frame]. destruct frame as [f|].
  { inv_bind H. injection H as <-. simpl.
    apply table_map_Ok in E0. destruct E0 as (Hl2 & Hf2 & _).
    eapply counted_miss; eauto. }
  repeat match type of H with
         | (if ?b then _ else _) = _ => destruct b
         end;
    try (inv_bind H; apply l_remap_tables in H; simpl in H; destruct H as (-> & Hl2 & Hf2);
         eapply counted_miss; eauto).
  injection H as <-. simpl. eapply counted_miss; eauto.
Qed.

End LocalCounts.

(** ** The clairvoyant schedule makes the fewest misses *)

Section CacheFacts.
Context {K : Type} {EqK : EqDecision K} {CntK : Countable K}.
Variable mine : K -> Prop.
Variable capacity : nat.

Implicit Types (S T : gset K) (t : list K) (x y : K).

Lemma seen_mono n t S T : S ⊆ T -> seen n t S <= seen n t T.
Proof. intros Hsub. unfold seen. apply subseteq_size. set_solver. Qed.

Lemma seen_le_size n t S : seen n t S <= size S.
Proof. unfold seen. apply subseteq_size. set_solver. Qed.

Lemma seen_all n t S : (forall z, z ∈ S -> z ∈ take n t) -> seen n t S = size S.
Proof.
  intros Hall. unfold seen. f_equal. apply set_eq. intros z.
  rewrite elem_of_filter. split; [tauto|]. intros Hz. split; [apply Hall; exact Hz | exact Hz].
Qed.

Lemma seen_cons_absent n t S x : x ∉ S -> seen (Datatypes.S n) (x :: t) S = seen n t S.
Proof.
  intros Hx. unfold seen. f_equal. apply set_eq. intros z.
  rewrite !elem_of_filter. simpl. rewrite elem_of_cons.
  split; [|tauto]. intros [[->|Hz] HS]; [contradiction | auto].
Qed.

Lemma seen_cons_le n t S x : seen n t S <= seen (Datatypes.S n) (x :: t) S.
Proof.
  unfold seen. apply subseteq_size. intros z. rewrite !elem_of_filter. simpl.
  rewrite elem_of_cons. tauto.
Qed.

Lemma seen_remove n t S x :
  x ∈ S ->
  seen n t S = seen n t (S ∖ {[x]}) + (if decide (x ∈ take n t) then 1 else 0).
Proof.
  intros Hx. unfold seen. destruct (decide (x ∈ take n t)) as [Hin|Hout].
  - replace (filter (fun y => y ∈ take n t) S)
      with (filter (fun y => y ∈ take n t) (S ∖ {[x]}) ∪ {[x]}).
    + rewrite size_union by set_solver. rewrite size_singleton. reflexivity.
    + apply set_eq. intros z. rewrite elem_of_union, !elem_of_filter, elem_of_difference,
        elem_of_singleton. destruct (decide (z = x)) as [->|]; [tauto|]. tauto.
  - rewrite Nat.add_0_r. f_equal. apply set_eq. intros z.
    rewrite !elem_of_filter, elem_of_difference, elem_of_singleton.
    split; [|tauto]. intros [Hz HS]. repeat split; auto. intros ->. contradiction.
Qed.

Lemma size_remove S x : x ∈ S -> size S = Datatypes.S (size (S ∖ {[x]})).
Proof.
  intros Hx. replace S with ((S ∖ {[x]}) ∪ {[x]}) at 1.
  - rewrite size_union by set_solver. rewrite size_singleton. lia.
  - apply set_eq. intros z. rewrite elem_of_union, elem_of_difference, elem_of_singleton.
    destruct (decide (z = x)) as [->|]; tauto.
Qed.

(** After the request [x], which both caches now hold, the comparison of what
    they hold besides [x] carries over to the rest of the requests. *)
Lemma ahead_step d SM SA x t :
  x ∈ SM -> x ∈ SA ->
  (forall n, seen (Datatypes.S n) (x :: t) (SA ∖ {[x]})
             <= seen (Datatypes.S n) (x :: t) (SM ∖ {[x]}) + d) ->
  ahead d SM SA t.
Proof.
  intros HM HA Hrest n. specialize (Hrest n).
  rewrite !seen_cons_absent in Hrest by set_solver.
  rewrite (seen_remove n t SA x HA), (seen_remove n t SM x HM). lia.
Qed.

Lemma ahead_skip d SM SA x t :
  x ∉ SM -> ahead d SM SA (x :: t) -> ahead d SM SA t.
Proof.
  intros HM Hah n. specialize (Hah (Datatypes.S n)).
  rewrite (seen_cons_absent n t SM x HM) in Hah.
  pose proof (seen_cons_le n t SA x). lia.
Qed.

(** A cache that misses while the other hits is behind by at least one. *)
Lemma ahead_behind d SM SA x t :
  x ∉ SM -> x ∈ SA -> ahead d SM SA (x :: t) -> 1 <= d.
Proof.
  intros HM HA Hah. specialize (Hah 1).
  assert (H0 : seen 1 (x :: t) SM = 0).
  { unfold seen. apply size_empty_iff. apply set_equiv. intros z.
    rewrite elem_of_filter. simpl. rewrite elem_of_cons.
    split; [|set_solver]. intros [[->|Hz] HS]; [contradiction|].
    exfalso. eapply not_elem_of_nil; eauto. }
  assert (H1 : 1 <= seen 1 (x :: t) SA).
  { rewrite (seen_remove 1 (x :: t) SA x HA).
    destruct (decide (x ∈ take 1 (x :: t))) as [|Hn]; [lia|].
    exfalso. apply Hn. simpl. left. }
  lia.
Qed.

Lemma seen_hit n t S x :
  x ∈ S ->
  seen (Datatypes.S n) (x :: t) S = Datatypes.S (seen (Datatypes.S n) (x :: t) (S ∖ {[x]})).
Proof.
  intros Hx. rewrite (seen_remove (Datatypes.S n) (x :: t) S x Hx).
  destruct (decide (x ∈ take (Datatypes.S n) (x :: t))) as [|Hn]; [lia|].
  exfalso. apply Hn. simpl. left.
Qed.

(** What is left of the clairvoyant cache after it dropped [y]. *)
Lemma seen_evict n t S x y :
  x ∉ S -> y ∈ S -> farthest y S t ->
  seen (Datatypes.S n) (x :: t) (S ∖ {[y]}) = seen (Datatypes.S n) (x :: t) S \/
  seen (Datatypes.S n) (x :: t) (S ∖ {[y]}) = size S - 1.
Proof.
  intros Hx Hy Hfar.
  destruct (decide (y ∈ take n t)) as [Hin|Hout].
  - right. rewrite seen_all.
    + rewrite (size_remove S y Hy). lia.
    + intros z Hz. simpl. right. apply (Hfar n z Hin). set_solver.
  - left. rewrite (seen_remove (Datatypes.S n) (x :: t) S y Hy).
    destruct (decide (y ∈ take (Datatypes.S n) (x :: t))) as [Hin|]; [|lia].
    exfalso. simpl in Hin. apply elem_of_cons in Hin. destruct Hin as [->|Hin]; contradiction.
Qed.

Theorem clairvoyant_ahead t :
  forall SM SA cM cA d,
    clairvoyant mine capacity SM t cM -> schedule mine capacity SA t cA ->
    ahead d SM SA t -> size SA <= capacity ->
    (forall y, y ∈ SM -> mine y) ->
    cM <= cA + d.
Proof.
  induction t as [|x t IH]; intros SM SA cM cA d HM HA Hah HsA Hmine.
  { inversion HM; inversion HA; subst. lia. }
  inversion HM as [ | ? ? ? ? Hnm HM' | ? ? ? ? Hm HxM HM' | ? ? ? cM' Hm HxM HM'
                  | ? ? y ? cM' Hm HxM Hfull Hy Hfar HM' ]; subst;
  inversion HA as [ | ? ? ? ? Hnm' HA' | ? ? ? ? Hm' HxA HA'
                  | ? SA' ? ? cA' Hm' HxA Hsub HxA' Hsize HA' ]; subst;
  try contradiction.
  - (* neither cache is asked *)
    apply (IH SM SA cM cA d); auto.
    apply (ahead_skip d SM SA x t); [|exact Hah]. intros Hx. apply Hnm. auto.
  - (* both hit *)
    apply (IH SM SA cM cA d); auto.
    apply (ahead_step d SM SA x t HxM HxA). intros n. specialize (Hah (S n)).
    rewrite (seen_hit n t SA x HxA), (seen_hit n t SM x HxM) in Hah. lia.
  - (* the clairvoyant cache hits, the other misses *)
    assert (cM <= cA' + S d); [|lia].
    apply (IH SM SA' cM cA' (S d)); auto.
    apply (ahead_step (S d) SM SA' x t HxM HxA'). intros n. specialize (Hah (S n)).
    rewrite (seen_hit n t SM x HxM) in Hah.
    assert (seen (S n) (x :: t) (SA' ∖ {[x]}) <= seen (S n) (x :: t) SA)
      by (apply seen_mono; set_solver).
    lia.
  - (* the clairvoyant cache loads, the other hits *)
    pose proof (ahead_behind d SM SA x t HxM HxA Hah) as Hd.
    assert (cM' <= cA + (d - 1)); [|lia].
    apply (IH (SM ∪ {[x]}) SA cM' cA (d - 1)); auto.
    + apply (ahead_step (d - 1) (SM ∪ {[x]}) SA x t); [set_solver | exact HxA |].
      intros n. specialize (Hah (S n)).
      rewrite (seen_hit n t SA x HxA) in Hah.
      replace ((SM ∪ {[x]}) ∖ {[x]}) with SM by set_solver. lia.
    + intros y Hy. apply elem_of_union in Hy. destruct Hy as [Hy|Hy]; [auto|].
      apply elem_of_singleton in Hy. subst y. exact Hm.
  - (* both miss, the clairvoyant cache has room *)
    assert (cM' <= cA' + d); [|lia].
    apply (IH (SM ∪ {[x]}) SA' cM' cA' d); auto.
    + apply (ahead_step d (SM ∪ {[x]}) SA' x t); [set_solver | exact HxA' |].
      intros n. specialize (Hah (S n)).
      replace ((SM ∪ {[x]}) ∖ {[x]}) with SM by set_solver.
      assert (seen (S n) (x :: t) (SA' ∖ {[x]}) <= seen (S n) (x :: t) SA)
        by (apply seen_mono; set_solver).
      lia.
    + intros y Hy. apply elem_of_union in Hy. destruct Hy as [Hy|Hy]; [auto|].
      apply elem_of_singleton in Hy. subst y. exact Hm.
  - (* the clairvoyant cache evicts, the other hits *)
    pose proof (ahead_behind d SM SA x t HxM HxA Hah) as Hd.
    assert (cM' <= cA + (d - 1)); [|lia].
    apply (IH ((SM ∖ {[y]}) ∪ {[x]}) SA cM' cA (d - 1)); auto.
    + apply (ahead_step (d - 1) ((SM ∖ {[y]}) ∪ {[x]}) SA x t); [set_solver | exact HxA |].
      intros n. specialize (Hah (S n)).
      rewrite (seen_hit n t SA x HxA) in Hah.
      replace (((SM ∖ {[y]}) ∪ {[x]}) ∖ {[x]}) with (SM ∖ {[y]}) by set_solver.
      pose proof (seen_le_size (S n) (x :: t) (SA ∖ {[x]})) as Hle.
      pose proof (size_remove SA x HxA) as HsA'.
      destruct (seen_evict n t SM x y HxM Hy Hfar) as [-> | ->]; lia.
    + intros z Hz. apply elem_of_union in Hz. destruct Hz as [Hz|Hz]; [apply Hmine; set_solver|].
      apply elem_of_singleton in Hz. subst z. exact Hm.
  - (* both miss, the clairvoyant cache evicts *)
    assert (cM' <= cA' + d); [|lia].
    apply (IH ((SM ∖ {[y]}) ∪ {[x]}) SA' cM' cA' d); auto.
    + apply (ahead_step d ((SM ∖ {[y]}) ∪ {[x]}) SA' x t); [set_solver | exact HxA' |].
      intros n. specialize (Hah (S n)).
      replace (((SM ∖ {[y]}) ∪ {[x]}) ∖ {[x]}) with (SM ∖ {[y]}) by set_solver.
      assert (seen (S n) (x :: t) (SA' ∖ {[x]}) <= seen (S n) (x :: t) SA)
        by (apply seen_mono; set_solver).
      pose proof (seen_le_size (S n) (x :: t) (SA' ∖ {[x]})) as Hle.
      pose proof (size_remove SA' x HxA') as HsA'.
      destruct (seen_evict n t SM x y HxM Hy Hfar) as [-> | ->]; lia.
    + intros z Hz. apply elem_of_union in Hz. destruct Hz as [Hz|Hz]; [apply Hmine; set_solver|].
      apply elem_of_singleton in Hz. subst z. exact Hm.
Qed.

(** From the same cache, the clairvoyant schedule misses no more often than
    any other schedule. *)
Corollary clairvoyant_least S t cM cA :
  clairvoyant mine capacity S t cM -> schedule mine capacity S t cA ->
  size S <= capacity -> (forall y, y ∈ S -> mine y) ->
  cM <= cA.
Proof.
  intros HM HA Hsize Hmine.
  pose proof (clairvoyant_ahead t S S cM cA 0 HM HA) as Hle.
  rewrite Nat.add_0_r in Hle. apply Hle; auto. intros n. lia.
Qed.

End CacheFacts.

(** ** The pages held by a region *)

Lemma elem_of_content (mem : list (Z * N)) (x : Z * N) :
  x ∈ content mem <-> exists f, mem !! f = Some x /\ is_free x = false.
Proof.
  unfold content. rewrite elem_of_list_to_set, list_elem_of_filter, list_elem_of_lookup.
  split.
  - intros [Hx [f Hf]]. eauto.
  - intros (f & Hf & Hx). eauto.
Qed.

Lemma content_insert (mem : list (Z * N)) (f : nat) (x y : Z * N) :
  f < length mem -> is_free x = false ->
  y ∈ content (<[f := x]> mem) <->
  y = x \/ exists g, g <> f /\ mem !! g = Some y /\ is_free y = false.
Proof.
  intros Hlt Hx. rewrite elem_of_content. split.
  - intros (g & Hg & Hy). destruct (decide (g = f)) as [->|Hne].
    + rewrite list_lookup_insert_eq in Hg by exact Hlt. left. congruence.
    + rewrite list_lookup_insert_ne in Hg by congruence. right. eauto.
  - intros [->|(g & Hne & Hg & Hy)].
    + exists f. rewrite list_lookup_insert_eq by exact Hlt. auto.
    + exists g. rewrite list_lookup_insert_ne by congruence. auto.
Qed.

Lemma content_insert_sub (mem : list (Z * N)) (f : nat) (x : Z * N) :
  f < length mem -> is_free x = false ->
  content (<[f := x]> mem) ⊆ content mem ∪ {[x]}.
Proof.
  intros Hlt Hx y Hy. apply (content_insert mem f x y Hlt Hx) in Hy.
  apply elem_of_union. destruct Hy as [->|(g & _ & Hg & Hy)].
  - right. apply elem_of_singleton. reflexivity.
  - left. apply elem_of_content. eauto.
Qed.

Lemma content_insert_in (mem : list (Z * N)) (f : nat) (x : Z * N) :
  f < length mem -> is_free x = false -> x ∈ content (<[f := x]> mem).
Proof. intros Hlt Hx. apply content_insert; auto. Qed.

Lemma content_insert_free (mem : list (Z * N)) (f : nat) (e x : Z * N) :
  mem !! f = Some e -> is_free e = true -> is_free x = false ->
  content (<[f := x]> mem) = content mem ∪ {[x]}.
Proof.
  intros He Hfree Hx. pose proof (lookup_lt_Some _ _ _ He) as Hlt.
  apply set_eq. intros y. rewrite (content_insert mem f x y Hlt Hx).
  rewrite elem_of_union, elem_of_singleton, elem_of_content. split.
  - intros [->|(g & _ & Hg & Hy)]; eauto.
  - intros [(g & Hg & Hy) | -> ]; [|auto]. right. exists g. split; [|auto].
    intros ->. congruence.
Qed.

Lemma content_insert_evict (mem : list (Z * N)) (f : nat) (old x : Z * N) :
  mem !! f = Some old -> (forall g, mem !! g = Some old -> g = f) ->
  is_free x = false ->
  content (<[f := x]> mem) = (content mem ∖ {[old]}) ∪ {[x]}.
Proof.
  intros Hold Hinj Hx. pose proof (lookup_lt_Some _ _ _ Hold) as Hlt.
  apply set_eq. intros y. rewrite (content_insert mem f x y Hlt Hx).
  rewrite elem_of_union, elem_of_difference, !elem_of_singleton, elem_of_content. split.
  - intros [->|(g & Hne & Hg & Hy)]; [auto|]. left. split; [eauto|].
    intros ->. apply Hne. apply Hinj. exact Hg.
  - intros [[(g & Hg & Hy) Hne] | -> ]; [|auto]. right. exists g. split; [|auto].
    intros ->. congruence.
Qed.

Lemma size_list_to_set_le (l : list (Z * N)) :
  size (list_to_set l : gset (Z * N)) <= length l.
Proof.
  induction l as [|e l IH].
  - rewrite list_to_set_nil, size_empty. simpl. lia.
  - rewrite list_to_set_cons, size_union_alt, size_singleton. simpl.
    assert (size ((list_to_set l : gset (Z * N)) ∖ {[e]}) <= size (list_to_set l : gset (Z * N)))
      by (apply subseteq_size; set_solver).
    lia.
Qed.

Lemma content_size_le (mem : list (Z * N)) : size (content mem) <= length mem.
Proof.
  unfold content.
  pose proof (size_list_to_set_le (filter (fun e => is_free e = false) mem)).
  pose proof (length_filter (fun e => is_free e = false) mem). lia.
Qed.

Lemma content_size_full (mem : list (Z * N)) :
  full mem -> NoDup mem -> size (content mem) = length mem.
Proof.
  intros Hfull Hnd. unfold content.
  assert (Hall : filter (fun e => is_free e = false) mem = mem).
  { assert (Hocc : Forall (fun e => is_free e = false) mem).
    { apply Forall_forall. intros e He.
      apply list_elem_of_lookup in He. destruct He as [f Hf].
      destruct (Hfull f) as (e' & He' & Hocc); [eapply lookup_lt_Some; eauto|]. congruence. }
    clear Hfull Hnd. induction Hocc as [|e l He _ IH]; [reflexivity|].
    rewrite filter_cons_True by exact He. f_equal. exact IH. }
  rewrite Hall. apply size_list_to_set. exact Hnd.
Qed.

Lemma drop_lookup_cons {A : Type} (l : list A) (i : nat) (x : A) :
  l !! i = Some x -> drop i l = x :: drop (S i) l.
Proof. intros H. apply drop_S. exact H. Qed.

Lemma drop_ge_nil {A : Type} (l : list A) (i : nat) : length l <= i -> drop i l = [].
Proof. intros H. apply drop_ge. exact H. Qed.

(** The victim of the optimal policy holds the page needed the farthest. *)
Lemma optimal_victim_farthest (mem trace : list (Z * N)) (ci v : nat) (old : Z * N) :
  optimal_victim mem trace ci v -> mem !! v = Some old ->
  farthest old (content mem) (drop (S ci) trace).
Proof.
  intros Hvict Hold n z Hin Hz. destruct old as [a b], z as [a' b'].
  apply next_use_take in Hin. destruct Hin as (m & Hm & Hlt).
  assert (Hrv : reuse mem trace ci v = Some m).
  { unfold reuse. rewrite Hold. exact Hm. }
  destruct Hvict as [(_ & Hnone & _)|(_ & Hall & j & Hj & Hmax & _)]; [congruence|].
  assert (j = m) by congruence. subst j.
  apply elem_of_content in Hz. destruct Hz as (g & Hg & _).
  pose proof (lookup_lt_Some _ _ _ Hg) as Hglt.
  destruct (reuse mem trace ci g) as [j'|] eqn:Hrg; [|exfalso; apply (Hall g Hglt Hrg)].
  pose proof (Hmax g j' Hrg) as Hle.
  apply next_use_take. exists j'. split; [|lia].
  unfold reuse in Hrg. rewrite Hg in Hrg. exact Hrg.
Qed.

(** ** The shared-pool simulator as a cache *)

Module GlobalCache.
Import Global GlobalSteps GlobalInv GlobalRuns.

Lemma g_resident_content (vm : VirtualMemoryManager) (pid : Z) (page : N) :
  consistent vm ->
  (pid, page) ∈ content (memory (frame_status vm)) <->
  exists f, lookup_page (page_tables vm) pid page = Some f.
Proof.
  intros Hc. rewrite elem_of_content. split.
  - intros (f & Hf & Hocc). exists f. apply (cons_bij vm Hc). split; [exact Hf|].
    apply is_free_false in Hocc. exact Hocc.
  - intros (f & Hf). apply (cons_bij vm Hc) in Hf. destruct Hf as [Hf HP].
    exists f. split; [exact Hf | apply is_free_false; exact HP].
Qed.

Lemma g_memory_injective (vm : VirtualMemoryManager) (f g : nat) (e : Z * N) :
  consistent vm -> is_free e = false ->
  memory (frame_status vm) !! f = Some e -> memory (frame_status vm) !! g = Some e ->
  g = f.
Proof.
  intros Hc Hocc Hf Hg. apply is_free_false in Hocc. destruct e as [P p].
  assert (Ha : lookup_page (page_tables vm) P p = Some f) by (apply (cons_bij vm Hc); auto).
  assert (Hb : lookup_page (page_tables vm) P p = Some g) by (apply (cons_bij vm Hc); auto).
  congruence.
Qed.

Lemma g_full_size (vm : VirtualMemoryManager) :
  consistent vm -> full (memory (frame_status vm)) ->
  size (content (memory (frame_status vm))) = memoryFrames (frame_status vm).
Proof.
  intros Hc Hfull. rewrite <- (cons_size vm Hc). apply content_size_full; [exact Hfull|].
  apply NoDup_alt. intros f g e Hf Hg.
  destruct (Hfull f) as (e' & He' & Hocc); [eapply lookup_lt_Some; eauto|].
  assert (e' = e) by congruence. subst e'. symmetry.
  eapply g_memory_injective; eauto.
Qed.

(** One access seen as a request to a cache: a hit, or a miss that loads the
    page. *)
Lemma g_step_request (rand : nat -> nat) (pid : Z) (page : N) (trace : list (Z * N))
    (ci : nat) (vm vm' : VirtualMemoryManager) :
  consistent vm -> valid_pid pid -> known_policy (replacement_policy vm) ->
  step rand pid page trace ci vm vm' ->
  let S := content (memory (frame_status vm)) in
  let S' := content (memory (frame_status vm')) in
  ((pid, page) ∈ S /\ S' = S /\
   global_page_fault_count vm' = global_page_fault_count vm) \/
  (((pid, page) ∉ S) /\ S' ⊆ S ∪ {[(pid, page)]} /\ (pid, page) ∈ S' /\
   size S' <= memoryFrames (frame_status vm) /\
   global_page_fault_count vm' = Datatypes.S (global_page_fault_count vm)).
Proof.
  intros Hc Hv Hknown Hstep.
  pose proof (valid_pid_occupies pid page Hv) as Hnew.
  pose proof (cons_size vm Hc) as Hsize.
  assert (Hmiss : lookup_page (page_tables vm) pid page = None ->
                  (pid, page) ∉ content (memory (frame_status vm))).
  { intros Hl Hin. apply (g_resident_content vm pid page Hc) in Hin.
    destruct Hin as [f Hf]. congruence. }
  destruct Hstep as [f Hlook | e pts' Hlook He Hfree _ _
                    | f old next lru calls pts' Hlook Hfull Hch Hold _ _
                    | pts' Hlook Hfull Hunk _ _]; simpl.
  - left. split; [apply (g_resident_content vm pid page Hc); eauto|].
    destruct (String.eqb (replacement_policy vm) "lru"); simpl; auto.
  - right. pose proof (lookup_lt_Some _ _ _ He) as Hlt.
    split; [auto|]. split; [apply content_insert_sub; assumption|].
    split; [apply content_insert_in; assumption|]. split; [|reflexivity].
    rewrite <- Hsize, <- (length_insert (memory (frame_status vm))
                            (nextFrame (frame_status vm)) (pid, page)).
    apply content_size_le.
  - right. pose proof (lookup_lt_Some _ _ _ Hold) as Hlt.
    split; [auto|]. split; [apply content_insert_sub; assumption|].
    split; [apply content_insert_in; assumption|]. split; [|reflexivity].
    rewrite <- Hsize, <- (length_insert (memory (frame_status vm)) f (pid, page)).
    apply content_size_le.
  - contradiction.
Qed.

(** The same access under the optimal policy. *)
Lemma g_step_optimal (rand : nat -> nat) (pid : Z) (page : N) (trace : list (Z * N))
    (ci : nat) (vm vm' : VirtualMemoryManager) :
  consistent vm -> valid_pid pid -> replacement_policy vm = "optimal" ->
  step rand pid page trace ci vm vm' ->
  let S := content (memory (frame_status vm)) in
  let S' := content (memory (frame_status vm')) in
  ((pid, page) ∈ S /\ S' = S /\
   global_page_fault_count vm' = global_page_fault_count vm) \/
  (((pid, page) ∉ S) /\ S' = S ∪ {[(pid, page)]} /\
   global_page_fault_count vm' = Datatypes.S (global_page_fault_count vm)) \/
  (((pid, page) ∉ S) /\ size S = memoryFrames (frame_status vm) /\
   exists y, y ∈ S /\ farthest y S (drop (Datatypes.S ci) trace) /\
             S' = (S ∖ {[y]}) ∪ {[(pid, page)]} /\
   global_page_fault_count vm' = Datatypes.S (global_page_fault_count vm)).
Proof.
  intros Hc Hv Hopt Hstep.
  pose proof (valid_pid_occupies pid page Hv) as Hnew.
  assert (Hmiss : lookup_page (page_tables vm) pid page = None ->
                  (pid, page) ∉ content (memory (frame_status vm))).
  { intros Hl Hin. apply (g_resident_content vm pid page Hc) in Hin.
    destruct Hin as [f Hf]. congruence. }
  destruct Hstep as [f Hlook | e pts' Hlook He Hfree _ _
                    | f old next lru calls pts' Hlook Hfull Hch Hold _ _
                    | pts' Hlook Hfull Hunk _ _]; simpl.
  - left. split; [apply (g_resident_content vm pid page Hc); eauto|].
    rewrite Hopt. simpl. auto.
  - right. left. split; [auto|]. split; [|reflexivity].
    eapply content_insert_free; eauto.
  - right. right. split; [auto|]. split; [apply g_full_size; assumption|].
    pose proof (lookup_lt_Some _ _ _ Hold) as Hlt.
    destruct (Hfull f Hlt) as (old' & Hold' & Hocc).
    assert (old' = old) by congruence. subst old'.
    exists old. split; [apply elem_of_content; eauto|].
    destruct Hch as [E|g rest E Hl'|g E Hvict|E]; try congruence.
    split; [eapply optimal_victim_farthest; eauto|]. split; [|reflexivity].
    apply content_insert_evict; [exact Hold | | exact Hnew].
    intros g' Hg'. eapply g_memory_injective; eauto.
  - exfalso. apply Hunk. right. right. left. exact Hopt.
Qed.

Theorem g_loop_schedule (rand : nat -> nat) (trace : list (Z * N)) (fuel i : nat)
    (vm vm' : VirtualMemoryManager) :
  consistent vm -> known_policy (replacement_policy vm) ->
  access_loop rand trace fuel i vm = Ok vm' -> length trace <= i + fuel ->
  exists c,
    global_page_fault_count vm' = global_page_fault_count vm + c /\
    schedule everyone (memoryFrames (frame_status vm))
      (content (memory (frame_status vm))) (drop i trace) c.
Proof.
  revert i vm. induction fuel as [|fuel IH]; intros i vm Hc Hknown Hrun Hlen.
  { simpl in Hrun. injection Hrun as <-. exists 0. split; [lia|].
    rewrite drop_ge_nil by lia. constructor. }
  rewrite g_loop_S in Hrun. destruct (trace !! i) as [[pid page]|] eqn:Hr.
  2:{ injection Hrun as <-. exists 0. split; [lia|].
      rewrite drop_ge_nil by (apply lookup_ge_None; exact Hr). constructor. }
  apply bind_Ok in Hrun. destruct Hrun as (vm1 & H1 & Hrest). simpl in H1.
  apply g_handleAccess_Ok in H1; [|exact Hc]. destruct H1 as [Hv Hstep].
  pose proof (g_step_consistent _ _ _ _ _ _ _ Hc Hv Hstep) as Hc1.
  pose proof (g_step_fixed _ _ _ _ _ _ _ Hstep) as (Hp & _ & Hn).
  destruct (IH (S i) vm1 Hc1) as (c1 & Hg1 & Hs1); [congruence | exact Hrest | lia |].
  rewrite Hn in Hs1. rewrite (drop_lookup_cons _ _ _ Hr).
  destruct (g_step_request _ _ _ _ _ _ _ Hc Hv Hknown Hstep)
    as [(Hin & HS & Hg)|(Hout & Hsub & Hin & Hsz & Hg)].
  - exists c1. split; [lia|]. apply schedule_hit; [exact I | exact Hin |].
    rewrite <- HS. exact Hs1.
  - exists (S c1). split; [lia|].
    eapply schedule_miss; eauto. exact I.
Qed.

Theorem g_loop_clairvoyant (rand : nat -> nat) (trace : list (Z * N)) (fuel i : nat)
    (vm vm' : VirtualMemoryManager) :
  consistent vm -> replacement_policy vm = "optimal" ->
  access_loop rand trace fuel i vm = Ok vm' -> length trace <= i + fuel ->
  exists c,
    global_page_fault_count vm' = global_page_fault_count vm + c /\
    clairvoyant everyone (memoryFrames (frame_status vm))
      (content (memory (frame_status vm))) (drop i trace) c.
Proof.
  revert i vm. induction fuel as [|fuel IH]; intros i vm Hc Hopt Hrun Hlen.
  { simpl in Hrun. injection Hrun as <-. exists 0. split; [lia|].
    rewrite drop_ge_nil by lia. constructor. }
  rewrite g_loop_S in Hrun. destruct (trace !! i) as [[pid page]|] eqn:Hr.
  2:{ injection Hrun as <-. exists 0. split; [lia|].
      rewrite drop_ge_nil by (apply lookup_ge_None; exact Hr). constructor. }
  apply bind_Ok in Hrun. destruct Hrun as (vm1 & H1 & Hrest). simpl in H1.
  apply g_handleAccess_Ok in H1; [|exact Hc]. destruct H1 as [Hv Hstep].
  pose proof (g_step_consistent _ _ _ _ _ _ _ Hc Hv Hstep) as Hc1.
  pose proof (g_step_fixed _ _ _ _ _ _ _ Hstep) as (Hp & _ & Hn).
  destruct (IH (S i) vm1 Hc1) as (c1 & Hg1 & Hs1); [congruence | exact Hrest | lia |].
  rewrite Hn in Hs1. rewrite (drop_lookup_cons _ _ _ Hr).
  destruct (g_step_optimal _ _ _ _ _ _ _ Hc Hv Hopt Hstep)
    as [(Hin & HS & Hg)|[(Hout & HS & Hg)|(Hout & Hsz & y & Hy & Hfar & HS & Hg)]].
  - exists c1. split; [lia|]. apply clairvoyant_hit; [exact I | exact Hin |].
    rewrite <- HS. exact Hs1.
  - exists (S c1). split; [lia|]. apply clairvoyant_load; [exact I | exact Hout |].
    rewrite <- HS. exact Hs1.
  - exists (S c1). split; [lia|].
    apply (clairvoyant_evict everyone _ _ _ y); try assumption; [exact I|].
    rewrite <- HS. exact Hs1.
Qed.

End GlobalCache.

(** ** The partitioned simulator as four caches *)

Module LocalCache.
Import Local LocalSteps LocalInv LocalRuns.

Lemma l_resident_content (vm : VirtualMemoryManager) (pid : Z) (page : N) :
  consistent vm -> valid_pid pid ->
  (pid, page) ∈ content (partition (frame_status vm) pid) <->
  exists f, lookup_page (page_tables vm) pid page = Some f.
Proof.
  intros Hc Hv. rewrite elem_of_content. split.
  - intros (f & Hf & Hocc). exists f. apply (cons_bij vm Hc). auto.
  - intros (f & Hf). apply (cons_bij vm Hc) in Hf. destruct Hf as [_ Hf].
    exists f. split; [exact Hf | apply valid_pid_occupies; exact Hv].
Qed.

Lemma l_content_own (vm : VirtualMemoryManager) (P : Z) (y : Z * N) :
  consistent vm -> valid_pid P ->
  y ∈ content (partition (frame_status vm) P) -> y.1 = P.
Proof.
  intros Hc HP Hy. apply elem_of_content in Hy. destruct Hy as (f & Hf & Hocc).
  eapply (cons_own vm Hc); eauto.
Qed.

Lemma l_partition_injective (vm : VirtualMemoryManager) (pid : Z) (f g : nat) (e : Z * N) :
  consistent vm -> valid_pid pid -> is_free e = false ->
  partition (frame_status vm) pid !! f = Some e ->
  partition (frame_status vm) pid !! g = Some e ->
  g = f.
Proof.
  intros Hc Hv Hocc Hf Hg.
  pose proof (cons_own vm Hc pid f e Hv Hf Hocc) as Ho. destruct e as [P p]. simpl in Ho.
  subst P.
  assert (Ha : lookup_page (page_tables vm) pid p = Some f) by (apply (cons_bij vm Hc); auto).
  assert (Hb : lookup_page (page_tables vm) pid p = Some g) by (apply (cons_bij vm Hc); auto).
  congruence.
Qed.

Lemma l_full_size (vm : VirtualMemoryManager) (pid : Z) :
  consistent vm -> valid_pid pid -> full (partition (frame_status vm) pid) ->
  size (content (partition (frame_status vm) pid)) =
  memoryFramesPerProcess (frame_status vm).
Proof.
  intros Hc Hv Hfull. rewrite <- (cons_size vm Hc pid Hv).
  apply content_size_full; [exact Hfull|].
  apply NoDup_alt. intros f g e Hf Hg.
  destruct (Hfull f) as (e' & He' & Hocc); [eapply lookup_lt_Some; eauto|].
  assert (e' = e) by congruence. subst e'. symmetry.
  eapply l_partition_injective; eauto.
Qed.

(** An access of one process leaves the partitions and the counters of the
    others as they are. *)
Lemma l_step_other (rand : nat -> nat) (pid : Z) (page : N) (trace : list (Z * N))
    (ci : nat) (vm vm' : VirtualMemoryManager) (P : Z) :
  consistent vm -> valid_pid pid -> valid_pid P -> P <> pid ->
  step rand pid page trace ci vm vm' ->
  partition (frame_status vm') P = partition (frame_status vm) P /\
  faults_of (page_tables vm') (Z.to_nat P) = faults_of (page_tables vm) (Z.to_nat P).
Proof.
  intros Hc Hv HP Hne Hstep.
  pose proof (cons_rows vm Hc) as Hrows.
  assert (Hq : Z.to_nat P <> Z.to_nat pid).
  { intros Heq. apply Hne. apply valid_pid_inj; assumption. }
  destruct Hstep as [f Hlook | f pts' Hlook Hff [Hl Hf] Hi
                    | f old next lru calls pts' Hlook Hfull Hch Hold [Hl Hf] Hi
                    | pts' Hlook Hfull Hunk [Hl Hf] Hsame]; simpl.
  - destruct (String.eqb (replacement_policy vm) "lru"); simpl; auto.
  - rewrite l_partition_placed by assumption.
    destruct (decide (P = pid)); [contradiction|]. split; [reflexivity|].
    rewrite Hf. destruct (decide (Z.to_nat P = Z.to_nat pid)); [contradiction | lia].
  - rewrite l_partition_placed by assumption.
    destruct (decide (P = pid)); [contradiction|]. split; [reflexivity|].
    rewrite Hf. destruct (decide (Z.to_nat P = Z.to_nat pid)); [contradiction | lia].
  - split; [reflexivity|].
    rewrite Hf. destruct (decide (Z.to_nat P = Z.to_nat pid)); [contradiction | lia].
Qed.

Lemma faulted_self (pts pts' : list PageTable) (pid : Z) :
  faulted pts pts' pid ->
  faults_of pts' (Z.to_nat pid) = S (faults_of pts (Z.to_nat pid)).
Proof.
  intros [_ Hf]. rewrite Hf. destruct (decide (Z.to_nat pid = Z.to_nat pid)); [lia | contradiction].
Qed.

(** An access seen as a request to the cache of its process. *)
Lemma l_step_request (rand : nat -> nat) (pid : Z) (page : N) (trace : list (Z * N))
    (ci : nat) (vm vm' : VirtualMemoryManager) :
  consistent vm -> valid_pid pid -> known_policy (replacement_policy vm) ->
  step rand pid page trace ci vm vm' ->
  let S := content (partition (frame_status vm) pid) in
  let S' := content (partition (frame_status vm') pid) in
  ((pid, page) ∈ S /\ S' = S /\
   global_page_fault_count vm' = global_page_fault_count vm /\
   faults_of (page_tables vm') (Z.to_nat pid) = faults_of (page_tables vm) (Z.to_nat pid)) \/
  (((pid, page) ∉ S) /\ S' ⊆ S ∪ {[(pid, page)]} /\ (pid, page) ∈ S' /\
   size S' <= memoryFramesPerProcess (frame_status vm) /\
   global_page_fault_count vm' = Datatypes.S (global_page_fault_count vm) /\
   faults_of (page_tables vm') (Z.to_nat pid) =
   Datatypes.S (faults_of (page_tables vm) (Z.to_nat pid))).
Proof.
  intros Hc Hv Hknown Hstep.
  pose proof (valid_pid_occupies pid page Hv) as Hnew.
  pose proof (cons_rows vm Hc) as Hrows.
  pose proof (cons_size vm Hc pid Hv) as Hsize.
  assert (Hmiss : lookup_page (page_tables vm) pid page = None ->
                  (pid, page) ∉ content (partition (frame_status vm) pid)).
  { intros Hl Hin. apply (l_resident_content vm pid page Hc Hv) in Hin.
    destruct Hin as [f Hf]. congruence. }
  destruct Hstep as [f Hlook | f pts' Hlook Hff Hfl Hi
                    | f old next lru calls pts' Hlook Hfull Hch Hold Hfl Hi
                    | pts' Hlook Hfull Hunk Hfl Hsame]; simpl.
  - left. split; [apply (l_resident_content vm pid page Hc Hv); eauto|].
    destruct (String.eqb (replacement_policy vm) "lru"); simpl; auto.
  - right. pose proof (first_free_lt _ _ Hff) as Hlt.
    rewrite l_partition_placed by assumption.
    destruct (decide (pid = pid)) as [_|]; [|contradiction].
    split; [auto|]. split; [apply content_insert_sub; assumption|].
    split; [apply content_insert_in; assumption|].
    split; [|split; [reflexivity | apply faulted_self; exact Hfl]].
    rewrite <- Hsize, <- (length_insert (partition (frame_status vm) pid) f (pid, page)).
    apply content_size_le.
  - right. pose proof (lookup_lt_Some _ _ _ Hold) as Hlt.
    rewrite l_partition_placed by assumption.
    destruct (decide (pid = pid)) as [_|]; [|contradiction].
    split; [auto|]. split; [apply content_insert_sub; assumption|].
    split; [apply content_insert_in; assumption|].
    split; [|split; [reflexivity | apply faulted_self; exact Hfl]].
    rewrite <- Hsize, <- (length_insert (partition (frame_status vm) pid) f (pid, page)).
    apply content_size_le.
  - contradiction.
Qed.

Lemma l_step_optimal (rand : nat -> nat) (pid : Z) (page : N) (trace : list (Z * N))
    (ci : nat) (vm vm' : VirtualMemoryManager) :
  consistent vm -> valid_pid pid -> replacement_policy vm = "optimal" ->
  step rand pid page trace ci vm vm' ->
  let S := content (partition (frame_status vm) pid) in
  let S' := content (partition (frame_status vm') pid) in
  ((pid, page) ∈ S /\ S' = S /\
   faults_of (page_tables vm') (Z.to_nat pid) = faults_of (page_tables vm) (Z.to_nat pid)) \/
  (((pid, page) ∉ S) /\ S' = S ∪ {[(pid, page)]} /\
   faults_of (page_tables vm') (Z.to_nat pid) =
   Datatypes.S (faults_of (page_tables vm) (Z.to_nat pid))) \/
  (((pid, page) ∉ S) /\ size S = memoryFramesPerProcess (frame_status vm) /\
   exists y, y ∈ S /\ farthest y S (drop (Datatypes.S ci) trace) /\
             S' = (S ∖ {[y]}) ∪ {[(pid, page)]} /\
   faults_of (page_tables vm') (Z.to_nat pid) =
   Datatypes.S (faults_of (page_tables vm) (Z.to_nat pid))).
Proof.
  intros Hc Hv Hopt Hstep.
  pose proof (valid_pid_occupies pid page Hv) as Hnew.
  pose proof (cons_rows vm Hc) as Hrows.
  assert (Hmiss : lookup_page (page_tables vm) pid page = None ->
                  (pid, page) ∉ content (partition (frame_status vm) pid)).
  { intros Hl Hin. apply (l_resident_content vm pid page Hc Hv) in Hin.
    destruct Hin as [f Hf]. congruence. }
  destruct Hstep as [f Hlook | f pts' Hlook Hff Hfl Hi
                    | f old next lru calls pts' Hlook Hfull Hch Hold Hfl Hi
                    | pts' Hlook Hfull Hunk Hfl Hsame]; simpl.
  - left. split; [apply (l_resident_content vm pid page Hc Hv); eauto|].
    rewrite Hopt. simpl. auto.
  - right. left. rewrite l_partition_placed by assumption.
    destruct (decide (pid = pid)) as [_|]; [|contradiction].
    split; [auto|]. split; [|apply faulted_self; exact Hfl].
    destruct Hff as [(e & He & Hfree) _]. eapply content_insert_free; eauto.
  - right. right. rewrite l_partition_placed by assumption.
    destruct (decide (pid = pid)) as [_|]; [|contradiction].
    split; [auto|]. split; [apply l_full_size; assumption|].
    pose proof (lookup_lt_Some _ _ _ Hold) as Hlt.
    destruct (Hfull f Hlt) as (old' & Hold' & Hocc).
    assert (old' = old) by congruence. subst old'.
    exists old. split; [apply elem_of_content; eauto|].
    destruct Hch as [E|g rest E Hl'|g E Hvict|E]; try congruence.
    split; [eapply optimal_victim_farthest; eauto|].
    split; [|apply faulted_self; exact Hfl].
    apply content_insert_evict; [exact Hold | | exact Hnew].
    intros g' Hg'. eapply l_partition_injective; eauto.
  - exfalso. apply Hunk. right. right. left. exact Hopt.
Qed.

Theorem l_loop_schedule (rand : nat -> nat) (trace : list (Z * N)) (P : Z)
    (fuel i : nat) (vm vm' : VirtualMemoryManager) :
  consistent vm -> valid_pid P -> known_policy (replacement_policy vm) ->
  access_loop rand trace fuel i vm = Ok vm' -> length trace <= i + fuel ->
  exists c,
    faults_of (page_tables vm') (Z.to_nat P) = faults_of (page_tables vm) (Z.to_nat P) + c /\
    schedule (owned_by P) (memoryFramesPerProcess (frame_status vm))
      (content (partition (frame_status vm) P)) (drop i trace) c.
Proof.
  intros Hc HP. revert i vm Hc.
  induction fuel as [|fuel IH]; intros i vm Hc Hknown Hrun Hlen.
  { simpl in Hrun. injection Hrun as <-. exists 0. split; [lia|].
    rewrite drop_ge_nil by lia. constructor. }
  rewrite l_loop_S in Hrun. destruct (trace !! i) as [[pid page]|] eqn:Hr.
  2:{ injection Hrun as <-. exists 0. split; [lia|].
      rewrite drop_ge_nil by (apply lookup_ge_None; exact Hr). constructor. }
  apply bind_Ok in Hrun. destruct Hrun as (vm1 & H1 & Hrest). simpl in H1.
  apply l_handleAccess_Ok in H1; [|exact Hc]. destruct H1 as [Hv Hstep].
  pose proof (l_step_consistent _ _ _ _ _ _ _ Hc Hv Hstep) as Hc1.
  pose proof (l_step_fixed _ _ _ _ _ _ _ Hstep) as (Hp & _ & Hn).
  destruct (IH (S i) vm1 Hc1) as (c1 & Hg1 & Hs1); [congruence | exact Hrest | lia |].
  rewrite Hn in Hs1. rewrite (drop_lookup_cons _ _ _ Hr).
  destruct (decide (P = pid)) as [->|Hne].
  - destruct (l_step_request _ _ _ _ _ _ _ Hc Hv Hknown Hstep)
      as [(Hin & HS & _ & Hg)|(Hout & Hsub & Hin & Hsz & _ & Hg)].
    + exists c1. split; [lia|]. apply schedule_hit; [reflexivity | exact Hin |].
      rewrite <- HS. exact Hs1.
    + exists (S c1). split; [lia|].
      eapply schedule_miss; eauto. reflexivity.
  - destruct (l_step_other _ _ _ _ _ _ _ P Hc Hv HP Hne Hstep) as [Hpart Hf].
    exists c1. split; [lia|]. apply schedule_skip.
    + unfold owned_by. simpl. congruence.
    + rewrite <- Hpart. exact Hs1.
Qed.

Theorem l_loop_clairvoyant (rand : nat -> nat) (trace : list (Z * N)) (P : Z)
    (fuel i : nat) (vm vm' : VirtualMemoryManager) :
  consistent vm -> valid_pid P -> replacement_policy vm = "optimal" ->
  access_loop rand trace fuel i vm = Ok vm' -> length trace <= i + fuel ->
  exists c,
    faults_of (page_tables vm') (Z.to_nat P) = faults_of (page_tables vm) (Z.to_nat P) + c /\
    clairvoyant (owned_by P) (memoryFramesPerProcess (frame_status vm))
      (content (partition (frame_status vm) P)) (drop i trace) c.
Proof.
  intros Hc HP. revert i vm Hc.
  induction fuel as [|fuel IH]; intros i vm Hc Hopt Hrun Hlen.
  { simpl in Hrun. injection Hrun as <-. exists 0. split; [lia|].
    rewrite drop_ge_nil by lia. constructor. }
  rewrite l_loop_S in Hrun. destruct (trace !! i) as [[pid page]|] eqn:Hr.
  2:{ injection Hrun as <-. exists 0. split; [lia|].
      rewrite drop_ge_nil by (apply lookup_ge_None; exact Hr). constructor. }
  apply bind_Ok in Hrun. destruct Hrun as (vm1 & H1 & Hrest). simpl in H1.
  apply l_handleAccess_Ok in H1; [|exact Hc]. destruct H1 as [Hv Hstep].
  pose proof (l_step_consistent _ _ _ _ _ _ _ Hc Hv Hstep) as Hc1.
  pose proof (l_step_fixed _ _ _ _ _ _ _ Hstep) as (Hp & _ & Hn).
  destruct (IH (S i) vm1 Hc1) as (c1 & Hg1 & Hs1); [congruence | exact Hrest | lia |].
  rewrite Hn in Hs1. rewrite (drop_lookup_cons _ _ _ Hr).
  destruct (decide (P = pid)) as [->|Hne].
  - destruct (l_step_optimal _ _ _ _ _ _ _ Hc Hv Hopt Hstep)
      as [(Hin & HS & Hg)|[(Hout & HS & Hg)|(Hout & Hsz & y & Hy & Hfar & HS & Hg)]].
    + exists c1. split; [lia|]. apply clairvoyant_hit; [reflexivity | exact Hin |].
      rewrite <- HS. exact Hs1.
    + exists (S c1). split; [lia|]. apply clairvoyant_load; [reflexivity | exact Hout |].
      rewrite <- HS. exact Hs1.
    + exists (S c1). split; [lia|].
      apply (clairvoyant_evict (owned_by pid) _ _ _ y); try assumption; [reflexivity|].
      rewrite <- HS. exact Hs1.
  - destruct (l_step_other _ _ _ _ _ _ _ P Hc Hv HP Hne Hstep) as [Hpart Hf].
    exists c1. split; [lia|]. apply clairvoyant_skip.
    + unfold owned_by. simpl. congruence.
    + rewrite <- Hpart. exact Hs1.
Qed.

(** *** The four partitions together *)

Lemma size_union_le (A B : gset (Z * N)) : size (A ∪ B) <= size A + size B.
Proof.
  rewrite size_union_alt.
  assert (size (B ∖ A) <= size B) by (apply subseteq_size; set_solver). lia.
Qed.

Lemma l_resident_size (vm : VirtualMemoryManager) :
  consistent vm ->
  size (resident (frame_status vm)) <= 4 * memoryFramesPerProcess (frame_status vm).
Proof.
  intros Hc. unfold resident.
  assert (Hk : forall P, valid_pid P ->
            size (content (partition (frame_status vm) P))
            <= memoryFramesPerProcess (frame_status vm)).
  { intros P HP. rewrite <- (cons_size vm Hc P HP). apply content_size_le. }
  pose proof (Hk 0%Z ltac:(unfold valid_pid; lia)).
  pose proof (Hk 1%Z ltac:(unfold valid_pid; lia)).
  pose proof (Hk 2%Z ltac:(unfold valid_pid; lia)).
  pose proof (Hk 3%Z ltac:(unfold valid_pid; lia)).
  set (A := content (partition (frame_status vm) 0)) in *.
  set (B := content (partition (frame_status vm) 1)) in *.
  set (C := content (partition (frame_status vm) 2)) in *.
  set (D := content (partition (frame_status vm) 3)) in *.
  pose proof (size_union_le (A ∪ B ∪ C) D).
  pose proof (size_union_le (A ∪ B) C).
  pose proof (size_union_le A B).
  lia.
Qed.

Lemma l_resident_elem (fs : FrameStatus) (x : Z * N) :
  x ∈ resident fs <-> exists P, valid_pid P /\ x ∈ content (partition fs P).
Proof.
  unfold resident. rewrite !elem_of_union. split.
  - intros [[[H|H]|H]|H]; eexists; (split; [|exact H]); unfold valid_pid; lia.
  - intros (P & HP & H).
    assert (P = 0 \/ P = 1 \/ P = 2 \/ P = 3)%Z as [-> | [-> | [-> | ->]]]
      by (unfold valid_pid in HP; lia); auto.
Qed.

Lemma l_step_union (rand : nat -> nat) (pid : Z) (page : N) (trace : list (Z * N))
    (ci : nat) (vm vm' : VirtualMemoryManager) :
  consistent vm -> valid_pid pid -> known_policy (replacement_policy vm) ->
  step rand pid page trace ci vm vm' ->
  let U := resident (frame_status vm) in
  let U' := resident (frame_status vm') in
  ((pid, page) ∈ U /\ U' = U /\
   global_page_fault_count vm' = global_page_fault_count vm) \/
  (((pid, page) ∉ U) /\ U' ⊆ U ∪ {[(pid, page)]} /\ (pid, page) ∈ U' /\
   size U' <= 4 * memoryFramesPerProcess (frame_status vm) /\
   global_page_fault_count vm' = Datatypes.S (global_page_fault_count vm)).
Proof.
  intros Hc Hv Hknown Hstep. simpl.
  pose proof (l_step_consistent _ _ _ _ _ _ _ Hc Hv Hstep) as Hc'.
  pose proof (l_step_fixed _ _ _ _ _ _ _ Hstep) as (_ & _ & Hn).
  assert (Hother : forall P, valid_pid P -> P <> pid ->
            partition (frame_status vm') P = partition (frame_status vm) P).
  { intros P HP Hne.
    destruct (l_step_other _ _ _ _ _ _ _ P Hc Hv HP Hne Hstep) as [H _]. exact H. }
  assert (Hmine : forall P y, valid_pid P -> P <> pid ->
            y ∈ content (partition (frame_status vm) P) -> y <> (pid, page)).
  { intros P y HP Hne Hy ->. apply (l_content_own vm P _ Hc HP) in Hy. simpl in Hy.
    congruence. }
  destruct (l_step_request _ _ _ _ _ _ _ Hc Hv Hknown Hstep)
    as [(Hin & HS & Hg & _)|(Hout & Hsub & Hin & _ & Hg & _)].
  - left. split; [apply l_resident_elem; eauto|]. split; [|exact Hg].
    apply set_eq. intros y. rewrite !l_resident_elem. split.
    + intros (P & HP & Hy). exists P. split; [exact HP|].
      destruct (decide (P = pid)) as [->|Hne]; [rewrite <- HS; exact Hy|].
      rewrite <- (Hother P HP Hne). exact Hy.
    + intros (P & HP & Hy). exists P. split; [exact HP|].
      destruct (decide (P = pid)) as [->|Hne]; [rewrite HS; exact Hy|].
      rewrite (Hother P HP Hne). exact Hy.
  - right. split; [|split; [|split; [|split; [|exact Hg]]]].
    + intros Hx. apply l_resident_elem in Hx. destruct Hx as (P & HP & Hx).
      destruct (decide (P = pid)) as [->|Hne]; [contradiction|].
      apply (Hmine P _ HP Hne Hx). reflexivity.
    + intros y Hy. apply l_resident_elem in Hy. destruct Hy as (P & HP & Hy).
      destruct (decide (P = pid)) as [->|Hne].
      * apply Hsub in Hy. apply elem_of_union in Hy. apply elem_of_union.
        destruct Hy as [Hy|Hy]; [left; apply l_resident_elem; eauto | right; exact Hy].
      * rewrite (Hother P HP Hne) in Hy. apply elem_of_union. left.
        apply l_resident_elem; eauto.
    + apply l_resident_elem. eauto.
    + rewrite <- Hn. apply l_resident_size. exact Hc'.
Qed.

Theorem l_loop_union (rand : nat -> nat) (trace : list (Z * N)) (fuel i : nat)
    (vm vm' : VirtualMemoryManager) :
  consistent vm -> known_policy (replacement_policy vm) ->
  access_loop rand trace fuel i vm = Ok vm' -> length trace <= i + fuel ->
  exists c,
    global_page_fault_count vm' = global_page_fault_count vm + c /\
    schedule everyone (4 * memoryFramesPerProcess (frame_status vm))
      (resident (frame_status vm)) (drop i trace) c.
Proof.
  revert i vm. induction fuel as [|fuel IH]; intros i vm Hc Hknown Hrun Hlen.
  { simpl in Hrun. injection Hrun as <-. exists 0. split; [lia|].
    rewrite drop_ge_nil by lia. constructor. }
  rewrite l_loop_S in Hrun. destruct (trace !! i) as [[pid page]|] eqn:Hr.
  2:{ injection Hrun as <-. exists 0. split; [lia|].
      rewrite drop_ge_nil by (apply lookup_ge_None; exact Hr). constructor. }
  apply bind_Ok in Hrun. destruct Hrun as (vm1 & H1 & Hrest). simpl in H1.
  apply l_handleAccess_Ok in H1; [|exact Hc]. destruct H1 as [Hv Hstep].
  pose proof (l_step_consistent _ _ _ _ _ _ _ Hc Hv Hstep) as Hc1.
  pose proof (l_step_fixed _ _ _ _ _ _ _ Hstep) as (Hp & _ & Hn).
  destruct (IH (S i) vm1 Hc1) as (c1 & Hg1 & Hs1); [congruence | exact Hrest | lia |].
  rewrite Hn in Hs1. rewrite (drop_lookup_cons _ _ _ Hr).
  destruct (l_step_union _ _ _ _ _ _ _ Hc Hv Hknown Hstep)
    as [(Hin & HS & Hg)|(Hout & Hsub & Hin & Hsz & Hg)].
  - exists c1. split; [lia|]. apply schedule_hit; [exact I | exact Hin |].
    rewrite <- HS. exact Hs1.
  - exists (S c1). split; [lia|].
    eapply schedule_miss; eauto. exact I.
Qed.

End LocalCache.

(** ** The states after each record of the trace *)

Module GlobalAfter.
Import Global GlobalSteps GlobalInv GlobalRuns GlobalCounts.

Lemma g_after_S (rand : nat -> nat) (nf : Z) (policy : string) (trace : list (Z * N))
    (n : nat) :
  after rand nf policy trace (S n) =
  let* vm := after rand nf policy trace n in
  match trace !! n with
  | None => Ok vm
  | Some r => handleAccess rand r.1 r.2 trace n vm
  end.
Proof.
  unfold after. destruct (VirtualMemoryManager_new nf policy) as [vm0|e]; [|reflexivity].
  cbn [bind]. rewrite g_loop_snoc. reflexivity.
Qed.

Lemma g_after_consistent (rand : nat -> nat) (nf : Z) (policy : string)
    (trace : list (Z * N)) (n : nat) (vm : VirtualMemoryManager) :
  (1 <= nf)%Z -> after rand nf policy trace n = Ok vm ->
  consistent vm /\ replacement_policy vm = policy /\
  memoryFrames (frame_status vm) = Z.to_nat nf.
Proof.
  intros Hnf Hrun. unfold after in Hrun.
  destruct (g_new_consistent nf policy Hnf) as (vm0 & H0 & Hc0 & Hp0 & _ & Hn0 & _).
  rewrite H0 in Hrun. simpl in Hrun.
  destruct (g_loop_Ok _ _ _ _ _ _ Hc0 Hrun) as (Hc & Hp & Hn).
  split; [exact Hc|]. split; congruence.
Qed.

Lemma g_after_total (rand : nat -> nat) (nf : Z) (policy : string)
    (trace : list (Z * N)) (n : nat) :
  (1 <= nf)%Z -> valid_trace trace ->
  exists vm, after rand nf policy trace n = Ok vm.
Proof.
  intros Hnf Hall. unfold after.
  destruct (g_new_consistent nf policy Hnf) as (vm0 & H0 & Hc0 & _).
  rewrite H0. simpl. apply g_loop_total; assumption.
Qed.

Lemma g_after_Err (rand : nat -> nat) (nf : Z) (policy : string)
    (trace : list (Z * N)) (n : nat) (e : error) :
  (1 <= nf)%Z -> after rand nf policy trace n = Err e -> e = BadProcess.
Proof.
  intros Hnf Hrun. unfold after in Hrun.
  destruct (g_new_consistent nf policy Hnf) as (vm0 & H0 & Hc0 & _).
  rewrite H0 in Hrun. simpl in Hrun. eapply g_loop_Err; eauto.
Qed.

Lemma g_new_counters (nf : Z) (policy : string) (vm : VirtualMemoryManager) :
  VirtualMemoryManager_new nf policy = Ok vm ->
  global_page_fault_count vm = 0 /\ fault_sum (page_tables vm) = 0 /\
  forall P, faults_of (page_tables vm) P = 0.
Proof.
  unfold VirtualMemoryManager_new. intros H. apply bind_Ok in H.
  destruct H as (fs & _ & [= <-]). simpl. repeat split.
  intros P. unfold faults_of. destruct P as [|[|[|[|k]]]]; reflexivity.
Qed.

(** The state after [n] records, and before it the state after each shorter
    prefix. *)
Lemma g_after_prefix (rand : nat -> nat) (nf : Z) (policy : string)
    (trace : list (Z * N)) (n : nat) (vm' : VirtualMemoryManager) :
  after rand nf policy trace (S n) = Ok vm' ->
  exists vm, after rand nf policy trace n = Ok vm /\
    match trace !! n with
    | None => vm' = vm
    | Some r => handleAccess rand r.1 r.2 trace n vm = Ok vm'
    end.
Proof.
  rewrite g_after_S. intros H. apply bind_Ok in H. destruct H as (vm & Hvm & H).
  exists vm. split; [exact Hvm|]. destruct (trace !! n); [exact H | congruence].
Qed.

Lemma g_after_conserved (rand : nat -> nat) (nf : Z) (policy : string)
    (trace : list (Z * N)) (n : nat) (vm : VirtualMemoryManager) :
  after rand nf policy trace n = Ok vm ->
  global_page_fault_count vm = fault_sum (page_tables vm).
Proof.
  revert vm. induction n as [|n IH]; intros vm Hrun.
  - unfold after in Hrun. apply bind_Ok in Hrun. destruct Hrun as (vm0 & H0 & [= <-]).
    apply g_new_counters in H0. destruct H0 as (-> & -> & _). reflexivity.
  - apply g_after_prefix in Hrun. destruct Hrun as (vm0 & H0 & Hstep).
    specialize (IH vm0 H0). destruct (trace !! n) as [r|]; [|congruence].
    apply g_handleAccess_counted in Hstep. eapply counted_sum; eauto.
Qed.

Lemma g_after_monotone (rand : nat -> nat) (nf : Z) (policy : string)
    (trace : list (Z * N)) (n m : nat) (vm : VirtualMemoryManager) :
  after rand nf policy trace n = Ok vm -> m <= n ->
  exists vm0, after rand nf policy trace m = Ok vm0 /\
    global_page_fault_count vm0 <= global_page_fault_count vm /\
    forall P, faults_of (page_tables vm0) P <= faults_of (page_tables vm) P.
Proof.
  revert vm. induction n as [|n IH]; intros vm Hrun Hle.
  - replace m with 0 by lia. exists vm. split; [exact Hrun|]. split; [lia|]. intros P. lia.
  - destruct (decide (m = S n)) as [->|Hne].
    { exists vm. split; [exact Hrun|]. split; [lia|]. intros P. lia. }
    apply g_after_prefix in Hrun. destruct Hrun as (vm1 & H1 & Hstep).
    destruct (IH vm1 H1) as (vm0 & H0 & Hg & Hf); [lia|].
    exists vm0. split; [exact H0|].
    destruct (trace !! n) as [r|]; [|subst vm; auto].
    apply g_handleAccess_counted in Hstep. apply counted_le in Hstep.
    destruct Hstep as [Hg' Hf']. split; [lia|]. intros P.
    specialize (Hf P). specialize (Hf' P). lia.
Qed.

End GlobalAfter.

Module LocalAfter.
Import Local LocalSteps LocalInv LocalRuns LocalCounts.

Lemma l_after_S (rand : nat -> nat) (nf : Z) (policy : string) (trace : list (Z * N))
    (n : nat) :
  after rand nf policy trace (S n) =
  let* vm := after rand nf policy trace n in
  match trace !! n with
  | None => Ok vm
  | Some r => handleAccess rand r.1 r.2 trace n vm
  end.
Proof.
  unfold after. destruct (VirtualMemoryManager_new nf policy) as [vm0|e]; [|reflexivity].
  cbn [bind]. rewrite l_loop_snoc. reflexivity.
Qed.

Lemma l_after_consistent (rand : nat -> nat) (nf : Z) (policy : string)
    (trace : list (Z * N)) (n : nat) (vm : VirtualMemoryManager) :
  (4 <= nf)%Z -> after rand nf policy trace n = Ok vm ->
  consistent vm /\ replacement_policy vm = policy /\
  memoryFramesPerProcess (frame_status vm) = Z.to_nat (nf ÷ 4).
Proof.
  intros Hnf Hrun. unfold after in Hrun.
  destruct (l_new_consistent nf policy Hnf) as (vm0 & H0 & Hc0 & Hp0 & _ & Hn0 & _).
  rewrite H0 in Hrun. simpl in Hrun.
  destruct (l_loop_Ok _ _ _ _ _ _ Hc0 Hrun) as (Hc & Hp & Hn).
  split; [exact Hc|]. split; congruence.
Qed.

Lemma l_after_total (rand : nat -> nat) (nf : Z) (policy : string)
    (trace : list (Z * N)) (n : nat) :
  (4 <= nf)%Z -> valid_trace trace ->
  exists vm, after rand nf policy trace n = Ok vm.
Proof.
  intros Hnf Hall. unfold after.
  destruct (l_new_consistent nf policy Hnf) as (vm0 & H0 & Hc0 & _).
  rewrite H0. simpl. apply l_loop_total; assumption.
Qed.

Lemma l_after_Err (rand : nat -> nat) (nf : Z) (policy : string)
    (trace : list (Z * N)) (n : nat) (e : error) :
  (4 <= nf)%Z -> after rand nf policy trace n = Err e -> e = BadProcess.
Proof.
  intros Hnf Hrun. unfold after in Hrun.
  destruct (l_new_consistent nf policy Hnf) as (vm0 & H0 & Hc0 & _).
  rewrite H0 in Hrun. simpl in Hrun. eapply l_loop_Err; eauto.
Qed.

Lemma l_new_counters (nf : Z) (policy : string) (vm : VirtualMemoryManager) :
  VirtualMemoryManager_new nf policy = Ok vm ->
  global_page_fault_count vm = 0 /\ fault_sum (page_tables vm) = 0 /\
  forall P, faults_of (page_tables vm) P = 0.
Proof.
  unfold VirtualMemoryManager_new. intros H. apply bind_Ok in H.
  destruct H as (fs & _ & [= <-]). simpl. repeat split.
  intros P. unfold faults_of. destruct P as [|[|[|[|k]]]]; reflexivity.
Qed.

(** The state after [n] records, and before it the state after each shorter
    prefix. *)
Lemma l_after_prefix (rand : nat -> nat) (nf : Z) (policy : string)
    (trace : list (Z * N)) (n : nat) (vm' : VirtualMemoryManager) :
  after rand nf policy trace (S n) = Ok vm' ->
  exists vm, after rand nf policy trace n = Ok vm /\
    match trace !! n with
    | None => vm' = vm
    | Some r => handleAccess rand r.1 r.2 trace n vm = Ok vm'
    end.
Proof.
  rewrite l_after_S. intros H. apply bind_Ok in H. destruct H as (vm & Hvm & H).
  exists vm. split; [exact Hvm|]. destruct (trace !! n); [exact H | congruence].
Qed.

Lemma l_after_conserved (rand : nat -> nat) (nf : Z) (policy : string)
    (trace : list (Z * N)) (n : nat) (vm : VirtualMemoryManager) :
  after rand nf policy trace n = Ok vm ->
  global_page_fault_count vm = fault_sum (page_tables vm).
Proof.
  revert vm. induction n as [|n IH]; intros vm Hrun.
  - unfold after in Hrun. apply bind_Ok in Hrun. destruct Hrun as (vm0 & H0 & [= <-]).
    apply l_new_counters in H0. destruct H0 as (-> & -> & _). reflexivity.
  - apply l_after_prefix in Hrun. destruct Hrun as (vm0 & H0 & Hstep).
    specialize (IH vm0 H0). destruct (trace !! n) as [r|]; [|congruence].
    apply l_handleAccess_counted in Hstep. eapply counted_sum; eauto.
Qed.

Lemma l_after_monotone (rand : nat -> nat) (nf : Z) (policy : string)
    (trace : list (Z * N)) (n m : nat) (vm : VirtualMemoryManager) :
  after rand nf policy trace n = Ok vm -> m <= n ->
  exists vm0, after rand nf policy trace m = Ok vm0 /\
    global_page_fault_count vm0 <= global_page_fault_count vm /\
    forall P, faults_of (page_tables vm0) P <= faults_of (page_tables vm) P.
Proof.
  revert vm. induction n as [|n IH]; intros vm Hrun Hle.
  - replace m with 0 by lia. exists vm. split; [exact Hrun|]. split; [lia|]. intros P. lia.
  - destruct (decide (m = S n)) as [->|Hne].
    { exists vm. split; [exact Hrun|]. split; [lia|]. intros P. lia. }
    apply l_after_prefix in Hrun. destruct Hrun as (vm1 & H1 & Hstep).
    destruct (IH vm1 H1) as (vm0 & H0 & Hg & Hf); [lia|].
    exists vm0. split; [exact H0|].
    destruct (trace !! n) as [r|]; [|subst vm; auto].
    apply l_handleAccess_counted in Hstep. apply counted_le in Hstep.
    destruct Hstep as [Hg' Hf']. split; [lia|]. intros P.
    specialize (Hf P). specialize (Hf' P). lia.
Qed.

End LocalAfter.

(** ** The age of the frames under [fifo] *)

Lemma aged_later (mem : list (Z * N)) (c n : nat) (times : list (option nat)) :
  aged mem c n times -> aged mem c (S n) times.
Proof.
  intros (Hlen & Hocc & Hlt & Hord). repeat split; try assumption; try apply Hocc.
  intros f t Hf. specialize (Hlt f t Hf). lia.
Qed.

(** The page that enters the frame at the cursor is the youngest, and the
    cursor moves on to the oldest. *)
Lemma aged_rotate (mem : list (Z * N)) (c n : nat) (times : list (option nat))
    (new : Z * N) :
  aged mem c n times -> c < length mem -> is_free new = false ->
  (forall f, c < f -> f < length mem -> occupied mem f -> occupied mem c) ->
  aged (<[c := new]> mem) ((c + 1) mod length mem) (S n) (<[c := Some n]> times).
Proof.
  intros (Hlen & Hocc & Hlt & Hord) Hc Hnew Hwrap.
  assert (Hstamp : forall f t, <[c := Some n]> times !! f = Some (Some t) ->
            (f = c /\ t = n) \/ (f <> c /\ times !! f = Some (Some t))).
  { intros f t Hf. destruct (decide (f = c)) as [->|Hne].
    - rewrite list_lookup_insert_eq in Hf by lia. left. split; congruence.
    - rewrite list_lookup_insert_ne in Hf by congruence. auto. }
  split; [rewrite !length_insert; exact Hlen|]. split; [|split].
  - intros f. rewrite occupied_insert by assumption. rewrite Hocc. split.
    + intros [->|[t Ht]].
      * exists n. rewrite list_lookup_insert_eq by lia. reflexivity.
      * destruct (decide (f = c)) as [->|Hne].
        -- exists n. rewrite list_lookup_insert_eq by lia. reflexivity.
        -- exists t. rewrite list_lookup_insert_ne by congruence. exact Ht.
    + intros [t Ht]. apply Hstamp in Ht. destruct Ht as [[-> _]|[_ Ht]]; eauto.
  - intros f t Hf. apply Hstamp in Hf. destruct Hf as [[_ ->]|[_ Hf]]; [lia|].
    specialize (Hlt f t Hf). lia.
  - intros f g tf tg Hf Hg Hbefore.
    assert (Hfl : f < length mem).
    { apply lookup_lt_Some in Hf. rewrite length_insert in Hf. lia. }
    assert (Hgl : g < length mem).
    { apply lookup_lt_Some in Hg. rewrite length_insert in Hg. lia. }
    assert (Hnext : (c + 1 = length mem /\ (c + 1) mod length mem = 0) \/
                    (c + 1 < length mem /\ (c + 1) mod length mem = c + 1)).
    { destruct (decide (c + 1 = length mem)) as [E|E].
      - left. split; [exact E|]. rewrite E. apply Nat.Div0.mod_same.
      - right. split; [lia|]. apply Nat.mod_small. lia. }
    apply Hstamp in Hf. apply Hstamp in Hg.
    destruct Hg as [[-> ->]|[Hgc Hg]].
    + destruct Hf as [[-> _]|[Hfc Hf]].
      * exfalso. unfold before in Hbefore. lia.
      * apply (Hlt f tf Hf).
    + destruct Hf as [[-> ->]|[Hfc Hf]].
      * exfalso. unfold before in Hbefore. lia.
      * apply (Hord f g tf tg Hf Hg). unfold before in *. lia.
Qed.

(** While a region fills from frame 0 with its cursor at 0, each new page is
    the youngest. *)
Lemma aged_fill (mem : list (Z * N)) (n f : nat) (times : list (option nat))
    (new : Z * N) :
  aged mem 0 n times -> first_free mem f -> is_free new = false ->
  (forall g, g < length mem -> (occupied mem g <-> g < f)) ->
  aged (<[f := new]> mem) 0 (S n) (<[f := Some n]> times).
Proof.
  intros (Hlen & Hocc & Hlt & Hord) Hff Hnew Hpre.
  pose proof (LocalSteps.first_free_lt mem f Hff) as Hf.
  assert (Hstamp : forall g t, <[f := Some n]> times !! g = Some (Some t) ->
            (g = f /\ t = n) \/ (g < f /\ times !! g = Some (Some t))).
  { intros g t Hg. destruct (decide (g = f)) as [->|Hne].
    - rewrite list_lookup_insert_eq in Hg by lia. left. split; congruence.
    - rewrite list_lookup_insert_ne in Hg by congruence. right. split; [|exact Hg].
      assert (Hgl : g < length mem) by (apply lookup_lt_Some in Hg; lia).
      assert (Ho : occupied mem g) by (apply Hocc; eauto).
      apply (Hpre g Hgl) in Ho. exact Ho. }
  split; [rewrite !length_insert; exact Hlen|]. split; [|split].
  - intros g. rewrite occupied_insert by assumption. rewrite Hocc. split.
    + intros [->|[t Ht]].
      * exists n. rewrite list_lookup_insert_eq by lia. reflexivity.
      * destruct (decide (g = f)) as [->|Hne].
        -- exists n. rewrite list_lookup_insert_eq by lia. reflexivity.
        -- exists t. rewrite list_lookup_insert_ne by congruence. exact Ht.
    + intros [t Ht]. apply Hstamp in Ht. destruct Ht as [[-> _]|[_ Ht]]; eauto.
  - intros g t Hg. apply Hstamp in Hg. destruct Hg as [[_ ->]|[_ Hg]]; [lia|].
    specialize (Hlt g t Hg). lia.
  - intros a b ta tb Ha Hb Hbefore.
    apply Hstamp in Ha. apply Hstamp in Hb.
    destruct Hb as [[-> ->]|[Hbf Hb]].
    + destruct Ha as [[-> _]|[Haf Ha]].
      * exfalso. unfold before in Hbefore. lia.
      * apply (Hlt a ta Ha).
    + destruct Ha as [[-> ->]|[Haf Ha]].
      * exfalso. unfold before in Hbefore. lia.
      * apply (Hord a b ta tb Ha Hb). exact Hbefore.
Qed.

(** In a full region every frame is stamped, and the frame at the cursor
    was assigned before every other one. *)
Lemma aged_oldest (mem : list (Z * N)) (c n : nat) (times : list (option nat)) :
  aged mem c n times -> full mem -> c < length mem ->
  exists tc, times !! c = Some (Some tc) /\
    forall f, f < length mem -> f <> c ->
      exists t, times !! f = Some (Some t) /\ tc < t.
Proof.
  intros (Hlen & Hocc & Hlt & Hord) Hfull Hc.
  destruct (proj1 (Hocc c) (Hfull c Hc)) as [tc Htc].
  exists tc. split; [exact Htc|]. intros f Hf Hne.
  destruct (proj1 (Hocc f) (Hfull f Hf)) as [t Ht].
  exists t. split; [exact Ht|].
  apply (Hord c f tc t Htc Ht). unfold before. lia.
Qed.

Lemma installed_frame_hit (pts pts' : list PageTable) (r : Z * N) (f : nat) :
  lookup_page pts r.1 r.2 = Some f -> installed_frame pts pts' r = None.
Proof. unfold installed_frame. intros ->. reflexivity. Qed.

Lemma installed_frame_miss (pts pts' : list PageTable) (pid : Z) (page : N) (f : nat)
    (old : option (Z * N)) :
  lookup_page pts pid page = None -> installed pts pts' pid page f old ->
  installed_frame pts pts' (pid, page) = Some f.
Proof.
  unfold installed_frame. simpl. intros -> Hi. rewrite (Hi pid page).
  destruct (decide (pid = pid /\ page = page)) as [_|Hn]; [reflexivity|].
  exfalso. apply Hn. auto.
Qed.

Module GlobalAge.
Import Global GlobalSteps GlobalInv GlobalRuns GlobalAfter.

Lemma g_step_aged (rand : nat -> nat) (pid : Z) (page : N) (trace : list (Z * N))
    (ci n : nat) (vm vm' : VirtualMemoryManager) (times : list (option nat)) :
  consistent vm -> valid_pid pid -> replacement_policy vm = "fifo" ->
  step rand pid page trace ci vm vm' ->
  aged (memory (frame_status vm)) (nextFrame (frame_status vm)) n times ->
  aged (memory (frame_status vm')) (nextFrame (frame_status vm')) (S n)
    (match installed_frame (page_tables vm) (page_tables vm') (pid, page) with
     | Some f => <[f := Some n]> times
     | None => times
     end).
Proof.
  intros Hc Hv Hfifo Hstep Haged.
  pose proof (cons_size vm Hc) as Hsize.
  pose proof (cons_cursor vm Hc) as Hcur.
  pose proof (valid_pid_occupies pid page Hv) as Hnew.
  destruct Hstep as [f Hlook | e pts' Hlook He Hfree _ Hi
                    | f old next lru calls pts' Hlook Hfull Hch Hold _ Hi
                    | pts' Hlook Hfull Hunk _ _].
  - rewrite Hfifo. simpl. rewrite (installed_frame_hit _ _ (pid, page) f Hlook).
    apply aged_later. exact Haged.
  - simpl. rewrite (installed_frame_miss _ _ _ _ _ _ Hlook Hi). rewrite <- Hsize.
    apply aged_rotate; [exact Haged | lia | exact Hnew |].
    intros f Hcf Hf Hocc. exfalso.
    destruct (cons_shape vm Hc) as [Hfull|Hpre].
    + destruct (Hfull (nextFrame (frame_status vm))) as (e' & He' & Ho); [lia | congruence].
    + apply Hpre in Hocc; lia.
  - destruct Hch as [E|g rest E Hl'|g E Hvict|E]; try congruence.
    simpl. rewrite (installed_frame_miss _ _ _ _ _ _ Hlook Hi). rewrite <- Hsize.
    apply aged_rotate; [exact Haged | lia | exact Hnew |].
    intros f _ _ _. apply Hfull. lia.
  - exfalso. apply Hunk. left. exact Hfifo.
Qed.

Lemma g_new_pool (nf : Z) (policy : string) (vm : VirtualMemoryManager) :
  VirtualMemoryManager_new nf policy = Ok vm ->
  memory (frame_status vm) = replicate (Z.to_nat nf) free_frame.
Proof.
  unfold VirtualMemoryManager_new, FrameStatus_new. destruct (nf <? 0)%Z; [discriminate|].
  simpl. intros [= <-]. reflexivity.
Qed.

Theorem g_after_aged (rand : nat -> nat) (nf : Z) (trace : list (Z * N)) (n : nat)
    (vm : VirtualMemoryManager) :
  (1 <= nf)%Z -> after rand nf "fifo" trace n = Ok vm ->
  aged (memory (frame_status vm)) (nextFrame (frame_status vm)) n
    (assignment_times rand nf "fifo" trace n).
Proof.
  intros Hnf. revert vm. induction n as [|n IH]; intros vm Hrun.
  - unfold after in Hrun. apply bind_Ok in Hrun. destruct Hrun as (vm0 & H0 & [= <-]).
    pose proof (g_new_pool nf "fifo" vm0 H0) as Hm.
    simpl. rewrite Hm. split; [rewrite !length_replicate; reflexivity|].
    split; [|split].
    + intros f. split.
      * intros (e & He & Hocc). apply lookup_replicate in He. destruct He as [-> _].
        discriminate.
      * intros (t & Ht). apply lookup_replicate in Ht. destruct Ht as [[=] _].
    + intros f t Ht. apply lookup_replicate in Ht. destruct Ht as [[=] _].
    + intros f g tf tg Hf. apply lookup_replicate in Hf. destruct Hf as [[=] _].
  - pose proof Hrun as Hnext. apply g_after_prefix in Hrun.
    destruct Hrun as (vm0 & H0 & Hstep). specialize (IH vm0 H0).
    destruct (g_after_consistent _ _ _ _ _ _ Hnf H0) as (Hc & Hp & _).
    simpl. rewrite H0, Hnext. destruct (trace !! n) as [[pid page]|] eqn:Hr.
    + simpl in Hstep. apply g_handleAccess_Ok in Hstep; [|exact Hc].
      destruct Hstep as [Hv Hstep].
      apply (g_step_aged rand pid page trace n n vm0 vm _ Hc Hv Hp Hstep IH).
    + subst vm. apply aged_later. exact IH.
Qed.

End GlobalAge.

Module LocalAge.
Import Local LocalSteps LocalInv LocalRuns LocalAfter.

Lemma l_step_aged (rand : nat -> nat) (pid : Z) (page : N) (trace : list (Z * N))
    (ci n : nat) (vm vm' : VirtualMemoryManager) (P : Z) (times : list (option nat)) :
  consistent vm -> valid_pid pid -> valid_pid P -> replacement_policy vm = "fifo" ->
  step rand pid page trace ci vm vm' ->
  aged (partition (frame_status vm) P) (cursor (frame_status vm) P) n times ->
  aged (partition (frame_status vm') P) (cursor (frame_status vm') P) (S n)
    (if decide (pid = P)
     then match installed_frame (page_tables vm) (page_tables vm') (pid, page) with
          | Some f => <[f := Some n]> times
          | None => times
          end
     else times).
Proof.
  intros Hc Hv HP Hfifo Hstep Haged.
  pose proof (cons_rows vm Hc) as Hrows.
  pose proof (cons_cursors vm Hc) as Hcursors.
  pose proof (cons_size vm Hc pid Hv) as Hsize.
  pose proof (cons_cursor vm Hc pid Hv) as Hcur.
  pose proof (valid_pid_occupies pid page Hv) as Hnew.
  destruct Hstep as [f Hlook | f pts' Hlook Hff _ Hi
                    | f old next lru calls pts' Hlook Hfull Hch Hold _ Hi
                    | pts' Hlook Hfull Hunk _ _].
  - rewrite Hfifo. simpl. rewrite (installed_frame_hit _ _ (pid, page) f Hlook).
    destruct (decide (pid = P)); apply aged_later; exact Haged.
  - simpl. rewrite (installed_frame_miss _ _ _ _ _ _ Hlook Hi).
    rewrite l_partition_placed, l_cursor_placed by assumption.
    destruct (decide (pid = P)) as [<-|Hne].
    + destruct (decide (pid = pid)) as [_|]; [|contradiction].
      destruct (l_filling vm pid f Hc Hv Hff) as [Hzero Hpre].
      rewrite Hzero in *. apply aged_fill; [exact Haged | exact Hff | exact Hnew |].
      intros g Hg. apply Hpre. lia.
    + destruct (decide (P = pid)) as [->|_]; [contradiction|].
      apply aged_later. exact Haged.
  - destruct Hch as [E|g rest E Hl'|g E Hvict|E]; try congruence.
    simpl. rewrite (installed_frame_miss _ _ _ _ _ _ Hlook Hi).
    rewrite l_partition_placed, l_cursor_placed by assumption.
    destruct (decide (pid = P)) as [<-|Hne].
    + destruct (decide (pid = pid)) as [_|]; [|contradiction].
      rewrite <- Hsize.
      apply aged_rotate; [exact Haged | lia | exact Hnew |].
      intros f _ _ _. apply Hfull. lia.
    + destruct (decide (P = pid)) as [->|_]; [contradiction|].
      apply aged_later. exact Haged.
  - exfalso. apply Hunk. left. exact Hfifo.
Qed.

Theorem l_after_aged (rand : nat -> nat) (nf : Z) (trace : list (Z * N)) (P : Z)
    (n : nat) (vm : VirtualMemoryManager) :
  (4 <= nf)%Z -> valid_pid P -> after rand nf "fifo" trace n = Ok vm ->
  aged (partition (frame_status vm) P) (cursor (frame_status vm) P) n
    (assignment_times rand nf "fifo" trace P n).
Proof.
  intros Hnf HP. revert vm. induction n as [|n IH]; intros vm Hrun.
  - unfold after in Hrun. apply bind_Ok in Hrun. destruct Hrun as (vm0 & H0 & [= <-]).
    destruct (l_new_consistent nf "fifo" Hnf) as (vm1 & H1 & _ & _ & _ & _ & _ & _ & _ & Hpart).
    assert (vm1 = vm0) by congruence. subst vm1.
    simpl. rewrite (Hpart P HP). split; [rewrite !length_replicate; reflexivity|].
    split; [|split].
    + intros f. split.
      * intros (e & He & Hocc). apply lookup_replicate in He. destruct He as [-> _].
        discriminate.
      * intros (t & Ht). apply lookup_replicate in Ht. destruct Ht as [[=] _].
    + intros f t Ht. apply lookup_replicate in Ht. destruct Ht as [[=] _].
    + intros f g tf tg Hf. apply lookup_replicate in Hf. destruct Hf as [[=] _].
  - pose proof Hrun as Hnext. apply l_after_prefix in Hrun.
    destruct Hrun as (vm0 & H0 & Hstep). specialize (IH vm0 H0).
    destruct (l_after_consistent _ _ _ _ _ _ Hnf H0) as (Hc & Hp & _).
    simpl. rewrite H0, Hnext. destruct (trace !! n) as [[pid page]|] eqn:Hr.
    + simpl in Hstep. apply l_handleAccess_Ok in Hstep; [|exact Hc].
      destruct Hstep as [Hv Hstep]. simpl.
      apply (l_step_aged rand pid page trace n n vm0 vm P _ Hc Hv HP Hp Hstep IH).
    + subst vm. apply aged_later. exact IH.
Qed.

End LocalAge.

(** ** Whole runs as cache schedules *)

Lemma content_free (n : nat) : content (replicate n free_frame) = ∅.
Proof.
  apply set_eq. intros x. rewrite elem_of_content. split.
  - intros (f & Hf & Hocc). apply lookup_replicate in Hf. destruct Hf as [-> _]. discriminate.
  - intros Hx. apply not_elem_of_empty in Hx. contradiction.
Qed.

Lemma schedule_capacity {K : Type} {EqK : EqDecision K} {CntK : Countable K}
    (mine : K -> Prop) (cap cap' : nat) (S : gset K) (t : list K) (c : nat) :
  cap <= cap' -> schedule mine cap S t c -> schedule mine cap' S t c.
Proof.
  intros Hle Hs. induction Hs.
  - constructor.
  - apply schedule_skip; assumption.
  - apply schedule_hit; assumption.
  - eapply schedule_miss; eauto. lia.
Qed.

Lemma fault_sum_four (pts : list PageTable) :
  length pts = 4 ->
  fault_sum pts = faults_of pts 0 + faults_of pts 1 + faults_of pts 2 + faults_of pts 3.
Proof.
  intros Hlen. destruct pts as [|a [|b [|c [|d [|e pts]]]]]; try discriminate.
  unfold fault_sum, faults_of. simpl. lia.
Qed.

Lemma int_max_guard (trace : list (Z * N)) :
  (Z.of_nat (length trace) <= INT_MAX)%Z ->
  (INT_MAX <? Z.of_nat (length trace))%Z = false.
Proof. intros H. apply Z.ltb_ge. exact H. Qed.

Module GlobalWhole.
Import Global GlobalSteps GlobalInv GlobalRuns GlobalAfter GlobalCache.

Lemma g_new_memory (nf : Z) (policy : string) (vm : VirtualMemoryManager) :
  VirtualMemoryManager_new nf policy = Ok vm ->
  memory (frame_status vm) = replicate (Z.to_nat nf) free_frame /\
  global_page_fault_count vm = 0.
Proof.
  unfold VirtualMemoryManager_new, FrameStatus_new. destruct (nf <? 0)%Z; [discriminate|].
  simpl. intros [= <-]. auto.
Qed.

(** What [runSimulation] reports is the global counter after the whole
    trace, and the run of a valid trace is a schedule of the shared pool. *)
Lemma g_run_schedule (rand : nat -> nat) (nf : Z) (policy : string)
    (trace : list (Z * N)) :
  (1 <= nf)%Z -> valid_trace trace -> (Z.of_nat (length trace) <= INT_MAX)%Z ->
  exists vm,
    after rand nf policy trace (length trace) = Ok vm /\
    runSimulation rand nf policy trace =
    Ok (global_page_fault_count vm, map page_fault_count (page_tables vm)) /\
    (known_policy policy ->
     schedule everyone (Z.to_nat nf) ∅ trace (global_page_fault_count vm)) /\
    (policy = "optimal" ->
     clairvoyant everyone (Z.to_nat nf) ∅ trace (global_page_fault_count vm)).
Proof.
  intros Hnf Hvalid Hlen.
  destruct (g_after_total rand nf policy trace (length trace) Hnf Hvalid) as [vm Hvm].
  exists vm. split; [exact Hvm|]. split.
  { unfold runSimulation. rewrite (int_max_guard trace Hlen), Hvm. reflexivity. }
  unfold after in Hvm.
  destruct (g_new_consistent nf policy Hnf) as (vm0 & H0 & Hc0 & Hp0 & _ & Hn0 & _).
  rewrite H0 in Hvm. simpl in Hvm.
  destruct (g_new_memory nf policy vm0 H0) as [Hm0 Hg0].
  split.
  - intros Hknown. rewrite <- Hp0 in Hknown.
    destruct (g_loop_schedule rand trace (length trace) 0 vm0 vm Hc0 Hknown Hvm)
      as (c & Hg & Hs); [lia|].
    rewrite Hn0, Hm0, content_free in Hs. simpl in Hs.
    replace (global_page_fault_count vm) with c by lia. exact Hs.
  - intros Hopt. rewrite <- Hp0 in Hopt.
    destruct (g_loop_clairvoyant rand trace (length trace) 0 vm0 vm Hc0 Hopt Hvm)
      as (c & Hg & Hs); [lia|].
    rewrite Hn0, Hm0, content_free in Hs. simpl in Hs.
    replace (global_page_fault_count vm) with c by lia. exact Hs.
Qed.

End GlobalWhole.

Module LocalWhole.
Import Local LocalSteps LocalInv LocalRuns LocalAfter LocalCache.

Lemma l_new_resident (nf : Z) (policy : string) :
  (4 <= nf)%Z ->
  exists vm, VirtualMemoryManager_new nf policy = Ok vm /\ consistent vm /\
             replacement_policy vm = policy /\
             memoryFramesPerProcess (frame_status vm) = Z.to_nat (nf ÷ 4) /\
             global_page_fault_count vm = 0 /\
             (forall P, faults_of (page_tables vm) P = 0) /\
             (forall P, valid_pid P -> content (partition (frame_status vm) P) = ∅) /\
             resident (frame_status vm) = ∅.
Proof.
  intros Hnf.
  destruct (l_new_consistent nf policy Hnf)
    as (vm & H0 & Hc & Hp & _ & Hk & Hg & Hf & _ & Hpart).
  exists vm. repeat (split; [assumption|]).
  assert (Hempty : forall P, valid_pid P -> content (partition (frame_status vm) P) = ∅).
  { intros P HP. rewrite (Hpart P HP). apply content_free. }
  split; [exact Hempty|]. unfold resident.
  rewrite !Hempty by (unfold valid_pid; lia). set_solver.
Qed.

Lemma l_run_schedule (rand : nat -> nat) (nf : Z) (policy : string)
    (trace : list (Z * N)) :
  (4 <= nf)%Z -> valid_trace trace -> (Z.of_nat (length trace) <= INT_MAX)%Z ->
  exists vm,
    after rand nf policy trace (length trace) = Ok vm /\
    runSimulation rand nf policy trace =
    Ok (global_page_fault_count vm, map page_fault_count (page_tables vm)) /\
    global_page_fault_count vm =
    faults_of (page_tables vm) 0 + faults_of (page_tables vm) 1 +
    faults_of (page_tables vm) 2 + faults_of (page_tables vm) 3 /\
    (known_policy policy ->
     schedule everyone (4 * Z.to_nat (nf ÷ 4)) ∅ trace (global_page_fault_count vm) /\
     forall P, valid_pid P ->
       schedule (owned_by P) (Z.to_nat (nf ÷ 4)) ∅ trace
         (faults_of (page_tables vm) (Z.to_nat P))) /\
    (policy = "optimal" ->
     forall P, valid_pid P ->
       clairvoyant (owned_by P) (Z.to_nat (nf ÷ 4)) ∅ trace
         (faults_of (page_tables vm) (Z.to_nat P))).
Proof.
  intros Hnf Hvalid Hlen.
  destruct (l_after_total rand nf policy trace (length trace) Hnf Hvalid) as [vm Hvm].
  exists vm. split; [exact Hvm|]. split.
  { unfold runSimulation. rewrite (int_max_guard trace Hlen), Hvm. reflexivity. }
  split.
  { rewrite (l_after_conserved _ _ _ _ _ _ Hvm). apply fault_sum_four.
    destruct (l_after_consistent _ _ _ _ _ _ Hnf Hvm) as (Hc & _).
    apply (cons_tables vm Hc). }
  unfold after in Hvm.
  destruct (l_new_resident nf policy Hnf)
    as (vm0 & H0 & Hc0 & Hp0 & Hk0 & Hg0 & Hf0 & Hempty & Hres).
  rewrite H0 in Hvm. simpl in Hvm.
  split.
  - intros Hknown. rewrite <- Hp0 in Hknown. split.
    + destruct (l_loop_union rand trace (length trace) 0 vm0 vm Hc0 Hknown Hvm)
        as (c & Hg & Hs); [lia|].
      rewrite Hk0, Hres in Hs. simpl in Hs.
      replace (global_page_fault_count vm) with c by lia. exact Hs.
    + intros P HP.
      destruct (l_loop_schedule rand trace P (length trace) 0 vm0 vm Hc0 HP Hknown Hvm)
        as (c & Hg & Hs); [lia|].
      rewrite Hk0, (Hempty P HP) in Hs. simpl in Hs. rewrite Hf0 in Hg.
      replace (faults_of (page_tables vm) (Z.to_nat P)) with c by lia. exact Hs.
  - intros Hopt P HP. rewrite <- Hp0 in Hopt.
    destruct (l_loop_clairvoyant rand trace P (length trace) 0 vm0 vm Hc0 HP Hopt Hvm)
      as (c & Hg & Hs); [lia|].
    rewrite Hk0, (Hempty P HP) in Hs. simpl in Hs. rewrite Hf0 in Hg.
    replace (faults_of (page_tables vm) (Z.to_nat P)) with c by lia. exact Hs.
Qed.

End LocalWhole.

Lemma known_optimal : known_policy "optimal".
Proof. right. right. left. reflexivity. Qed.

(** * The claims of the specification *)

Lemma valid_traceb_sound (trace : list (Z * N)) :
  valid_traceb trace = true -> valid_trace trace.
Proof.
  unfold valid_traceb, valid_trace. intros H. apply Forall_forall. intros r Hr.
  rewrite forallb_forall in H. apply list_elem_of_In in Hr. apply H in Hr.
  apply andb_true_iff in Hr. destruct Hr as [H0 H4].
  apply Z.leb_le in H0. apply Z.ltb_lt in H4. unfold valid_pid. lia.
Qed.

Lemma g_bijection_exclusive (vm : Global.VirtualMemoryManager) :
  Global.bijection vm -> Global.exclusive vm.
Proof.
  intros Hbij P p P' p' f H1 H2. apply Hbij in H1. apply Hbij in H2.
  destruct H1 as [H1 _], H2 as [H2 _]. rewrite H1 in H2. injection H2 as -> ->. auto.
Qed.

Lemma l_bijection_exclusive (vm : Local.VirtualMemoryManager) :
  Local.bijection vm -> Local.exclusive vm.
Proof.
  intros Hbij P p P' p' f H1 H2 <-. apply Hbij in H1. apply Hbij in H2.
  destruct H1 as [_ H1], H2 as [_ H2]. rewrite H1 in H2. injection H2 as ->. reflexivity.
Qed.

(** C1. Occupancy bijection after every step: with at least one frame in the
    shared pool, and at least four frames for the four partitions, the page
    tables and the frames agree after each access record, for every trace,
    policy string and sequence of random draws: [PageTable[P]] maps [p] to
    [f] exactly when frame [f] of the region of [P] holds [(P, p)], and no
    frame is referenced by two entries.  The run is defined at least for the
    traces that name the four processes only. *)
Theorem C1_occupancy_bijection (rand : nat -> nat) (policy : string)
    (trace : list (Z * N)) (n : nat) (nfG nfL : Z) :
  (1 <= nfG)%Z -> (4 <= nfL)%Z ->
  ((forall vm, Global.after rand nfG policy trace n = Ok vm ->
               Global.bijection vm /\ Global.exclusive vm) /\
   (valid_trace trace -> exists vm, Global.after rand nfG policy trace n = Ok vm)) /\
  ((forall vm, Local.after rand nfL policy trace n = Ok vm ->
               Local.bijection vm /\ Local.exclusive vm) /\
   (valid_trace trace -> exists vm, Local.after rand nfL policy trace n = Ok vm)).
Proof.
  intros HG HL. split; split.
  - intros vm Hrun.
    destruct (GlobalAfter.g_after_consistent _ _ _ _ _ _ HG Hrun) as (Hc & _).
    pose proof (Global.cons_bij vm Hc) as Hbij.
    split; [exact Hbij | apply g_bijection_exclusive; exact Hbij].
  - intros Hvalid. apply GlobalAfter.g_after_total; assumption.
  - intros vm Hrun.
    destruct (LocalAfter.l_after_consistent _ _ _ _ _ _ HL Hrun) as (Hc & _).
    pose proof (Local.cons_bij vm Hc) as Hbij.
    split; [exact Hbij | apply l_bijection_exclusive; exact Hbij].
  - intros Hvalid. apply LocalAfter.l_after_total; assumption.
Qed.

Lemma C1_witness :
  (1 <= 3)%Z /\ (4 <= 8)%Z /\
  exists vmG vmL,
    Global.after (fun _ => 0) 3 "lru" crowding_trace 5 = Ok vmG /\
    Global.bijection vmG /\ Global.exclusive vmG /\
    Local.after (fun _ => 0) 8 "lru" crowding_trace 5 = Ok vmL /\
    Local.bijection vmL /\ Local.exclusive vmL.
Proof.
  assert (HG : (1 <= 3)%Z) by lia. assert (HL : (4 <= 8)%Z) by lia.
  assert (Hvalid : valid_trace crowding_trace) by (apply valid_traceb_sound; reflexivity).
  split; [exact HG|]. split; [exact HL|].
  destruct (C1_occupancy_bijection (fun _ => 0) "lru" crowding_trace 5 3 8 HG HL)
    as [[HGinv HGrun] [HLinv HLrun]].
  destruct (HGrun Hvalid) as [vmG HvmG]. destruct (HLrun Hvalid) as [vmL HvmL].
  exists vmG, vmL.
  destruct (HGinv vmG HvmG) as [HbG HeG]. destruct (HLinv vmL HvmL) as [HbL HeL].
  exact (conj HvmG (conj HbG (conj HeG (conj HvmL (conj HbL HeL))))).
Defined.

(** C2. Fault-count conservation and monotonicity: after every prefix of
    every trace, in both engines and for every policy string, the global
    fault count is the sum of the per-process counts; an access that misses
    adds one to the global count and to the count of its process, an access
    that hits changes no counter, and so no counter ever decreases. *)
Theorem C2_fault_conservation (rand : nat -> nat) (nf : Z) (policy : string)
    (trace : list (Z * N)) (n : nat) :
  (forall vm, Global.after rand nf policy trace n = Ok vm ->
     Global.global_page_fault_count vm = fault_sum (Global.page_tables vm) /\
     (forall m, m <= n ->
        exists vm0, Global.after rand nf policy trace m = Ok vm0 /\
          Global.global_page_fault_count vm0 <= Global.global_page_fault_count vm /\
          forall P, faults_of (Global.page_tables vm0) P
                    <= faults_of (Global.page_tables vm) P) /\
     (forall r vm', trace !! n = Some r ->
        Global.after rand nf policy trace (S n) = Ok vm' ->
        counted r.1 r.2 (Global.page_tables vm) (Global.page_tables vm')
          (Global.global_page_fault_count vm) (Global.global_page_fault_count vm'))) /\
  (forall vm, Local.after rand nf policy trace n = Ok vm ->
     Local.global_page_fault_count vm = fault_sum (Local.page_tables vm) /\
     (forall m, m <= n ->
        exists vm0, Local.after rand nf policy trace m = Ok vm0 /\
          Local.global_page_fault_count vm0 <= Local.global_page_fault_count vm /\
          forall P, faults_of (Local.page_tables vm0) P
                    <= faults_of (Local.page_tables vm) P) /\
     (forall r vm', trace !! n = Some r ->
        Local.after rand nf policy trace (S n) = Ok vm' ->
        counted r.1 r.2 (Local.page_tables vm) (Local.page_tables vm')
          (Local.global_page_fault_count vm) (Local.global_page_fault_count vm'))).
Proof.
  split; intros vm Hrun; (split; [|split]).
  - eapply GlobalAfter.g_after_conserved; eauto.
  - intros m Hm. eapply GlobalAfter.g_after_monotone; eauto.
  - intros r vm' Hr Hnext. apply GlobalAfter.g_after_prefix in Hnext.
    destruct Hnext as (vm0 & H0 & Hstep). rewrite Hr in Hstep.
    assert (vm0 = vm) by congruence. subst vm0.
    eapply GlobalCounts.g_handleAccess_counted; eauto.
  - eapply LocalAfter.l_after_conserved; eauto.
  - intros m Hm. eapply LocalAfter.l_after_monotone; eauto.
  - intros r vm' Hr Hnext. apply LocalAfter.l_after_prefix in Hnext.
    destruct Hnext as (vm0 & H0 & Hstep). rewrite Hr in Hstep.
    assert (vm0 = vm) by congruence. subst vm0.
    eapply LocalCounts.l_handleAccess_counted; eauto.
Qed.

Lemma C2_witness :
  exists vmG vmL,
    Global.after (fun _ => 0) 3 "fifo" crowding_trace 6 = Ok vmG /\
    Global.global_page_fault_count vmG = fault_sum (Global.page_tables vmG) /\
    Local.after (fun _ => 0) 4 "fifo" crowding_trace 6 = Ok vmL /\
    Local.global_page_fault_count vmL = fault_sum (Local.page_tables vmL).
Proof.
  assert (Hvalid : valid_trace crowding_trace) by (apply valid_traceb_sound; reflexivity).
  destruct (GlobalAfter.g_after_total (fun _ => 0) 3 "fifo" crowding_trace 6
              ltac:(lia) Hvalid) as [vmG HvmG].
  destruct (LocalAfter.l_after_total (fun _ => 0) 4 "fifo" crowding_trace 6
              ltac:(lia) Hvalid) as [vmL HvmL].
  destruct (C2_fault_conservation (fun _ => 0) 3 "fifo" crowding_trace 6) as [HG _].
  destruct (C2_fault_conservation (fun _ => 0) 4 "fifo" crowding_trace 6) as [_ HL].
  exists vmG, vmL.
  destruct (HG vmG HvmG) as [HsG _]. destruct (HL vmL HvmL) as [HsL _].
  exact (conj HvmG (conj HsG (conj HvmL HsL))).
Defined.

(** C3. Allocate contract: in every state that a run reaches,
    [allocateFrame] returns the free frame of the region reachable by the
    process (the whole pool in the shared-pool engine, the partition of the
    process in the partitioned engine) that comes first in ascending index
    from the rotation cursor, and stores the page there; it returns no frame
    exactly when the region has no free frame, and then changes nothing. *)
Theorem C3_allocate_contract :
  (forall vm pid page, Global.reachable vm ->
     exists fs' r,
       Global.allocateFrame pid page (Global.frame_status vm) = Ok (fs', r) /\
       r = allocate_spec (Global.memory (Global.frame_status vm))
             (Global.nextFrame (Global.frame_status vm)) /\
       (r = None <-> full (Global.memory (Global.frame_status vm))) /\
       match r with
       | Some f =>
           free_at (Global.memory (Global.frame_status vm)) f = true /\
           Global.memory fs' = <[f := (pid, page)]> (Global.memory (Global.frame_status vm))
       | None => fs' = Global.frame_status vm
       end) /\
  (forall vm pid page, Local.reachable vm -> valid_pid pid ->
     exists fs' r,
       Local.allocateFrame pid page (Local.frame_status vm) = Ok (fs', r) /\
       r = allocate_spec (Local.partition (Local.frame_status vm) pid)
             (Local.cursor (Local.frame_status vm) pid) /\
       (r = None <-> full (Local.partition (Local.frame_status vm) pid)) /\
       match r with
       | Some f =>
           free_at (Local.partition (Local.frame_status vm) pid) f = true /\
           Local.partition fs' pid =
           <[f := (pid, page)]> (Local.partition (Local.frame_status vm) pid)
       | None => fs' = Local.frame_status vm
       end).
Proof.
  split.
  - intros vm pid page Hreach.
    pose proof (GlobalRuns.g_reachable_consistent vm Hreach) as Hc.
    pose proof (Global.cons_size vm Hc) as Hsize.
    pose proof (Global.cons_cursor vm Hc) as Hcur.
    destruct (lookup_lt_is_Some_2 (Global.memory (Global.frame_status vm))
                (Global.nextFrame (Global.frame_status vm))) as [e He]; [lia|].
    destruct (is_free e) eqn:Hfree.
    + eexists. exists (Some (Global.nextFrame (Global.frame_status vm))).
      split; [apply (GlobalSteps.g_allocate_free pid page _ e He Hfree); lia|].
      split; [symmetry; eapply allocate_spec_cursor; eauto|]. split.
      * split; [discriminate|]. intros Hfull.
        destruct (Hfull (Global.nextFrame (Global.frame_status vm))) as (e' & He' & Hocc);
          [lia | congruence].
      * split; [apply free_at_true; eauto | reflexivity].
    + pose proof (GlobalInv.g_full_at_cursor vm e Hc He Hfree) as Hfull.
      exists (Global.frame_status vm), None.
      split; [apply (GlobalSteps.g_allocate_full pid page _ e He Hfree)|].
      split; [symmetry; apply allocate_spec_full; [lia | exact Hfull]|].
      split; [tauto | reflexivity].
  - intros vm pid page Hreach Hv.
    pose proof (LocalRuns.l_reachable_consistent vm Hreach) as Hc.
    pose proof (Local.cons_rows vm Hc) as Hrows.
    pose proof (Local.cons_cursors vm Hc) as Hcursors.
    pose proof (Local.cons_lists vm Hc) as Hlists.
    pose proof (Local.cons_size vm Hc pid Hv) as Hsize.
    pose proof (Local.cons_cursor vm Hc pid Hv) as Hcur.
    destruct (LocalSteps.first_free_or_full (Local.partition (Local.frame_status vm) pid))
      as [[f Hff]|Hfull].
    + destruct (LocalInv.l_filling vm pid f Hc Hv Hff) as [Hc0 _].
      eexists. exists (Some f).
      split; [apply LocalSteps.l_allocate_free; assumption|].
      split; [rewrite Hc0; symmetry; apply allocate_spec_first_free; exact Hff|]. split.
      * split; [discriminate|]. intros Hfull. exfalso.
        eapply LocalSteps.first_free_not_full; eauto.
      * split; [apply free_at_true; apply Hff|].
        rewrite LocalInv.l_partition_placed by assumption.
        destruct (decide (pid = pid)) as [_|]; [reflexivity | contradiction].
    + exists (Local.frame_status vm), None.
      split; [apply LocalSteps.l_allocate_full; assumption|].
      split; [symmetry; apply allocate_spec_full; [lia | exact Hfull]|].
      split; [tauto | reflexivity].
Qed.

Lemma C3_witness :
  exists vmG vmL fsG fsL,
    Global.after (fun _ => 0) 3 "fifo" crowding_trace 2 = Ok vmG /\
    Global.allocateFrame 1 9 (Global.frame_status vmG) = Ok (fsG, Some 2) /\
    Local.after (fun _ => 0) 8 "fifo" crowding_trace 2 = Ok vmL /\
    Local.allocateFrame 1 9 (Local.frame_status vmL) = Ok (fsL, Some 1).
Proof.
  destruct C3_allocate_contract as [HG HL].
  eexists. eexists.
  assert (HvmG : Global.after (fun _ => 0) 3 "fifo" crowding_trace 2 = Ok ?[vmG])
    by (vm_compute; reflexivity).
  assert (HvmL : Local.after (fun _ => 0) 8 "fifo" crowding_trace 2 = Ok ?[vmL])
    by (vm_compute; reflexivity).
  destruct (HG _ 1%Z 9%N
              (ex_intro _ (fun _ => 0) (ex_intro _ 3%Z (ex_intro _ "fifo"
                 (ex_intro _ crowding_trace (ex_intro _ 2
                    (conj (ltac:(lia) : (1 <= 3)%Z) HvmG)))))))
    as (fsG & rG & HaG & HrG & _).
  destruct (HL _ 1%Z 9%N
              (ex_intro _ (fun _ => 0) (ex_intro _ 8%Z (ex_intro _ "fifo"
                 (ex_intro _ crowding_trace (ex_intro _ 2
                    (conj (ltac:(lia) : (4 <= 8)%Z) HvmL))))))
              (ltac:(unfold valid_pid; lia) : valid_pid 1))
    as (fsL & rL & HaL & HrL & _).
  vm_compute in HrG. vm_compute in HrL. subst rG rL.
  exists fsG, fsL. exact (conj HvmG (conj HaG (conj HvmL HaL))).
Defined.

(** C4. FIFO eviction: on a miss with the reachable region full and the
    policy [fifo], the frame at the rotation cursor of the region is the one
    evicted, and it is the frame of the region whose page was assigned the
    longest ago; the new page is installed in that frame, the displaced
    process, page and frame are returned (and the displaced page leaves its
    page table), and the cursor advances by one modulo the size of the
    region. *)
Theorem C4_fifo_eviction (rand : nat -> nat) (nf : Z) (trace : list (Z * N)) (n : nat)
    (pid : Z) (page : N) (ci : nat) :
  (forall vm, (1 <= nf)%Z -> Global.after rand nf "fifo" trace n = Ok vm ->
     valid_pid pid ->
     lookup_page (Global.page_tables vm) pid page = None ->
     full (Global.memory (Global.frame_status vm)) ->
     let fs := Global.frame_status vm in
     let c := Global.nextFrame fs in
     let times := Global.assignment_times rand nf "fifo" trace n in
     exists old pts' t,
       Global.memory fs !! c = Some old /\
       times !! c = Some (Some t) /\
       (forall f, f < length (Global.memory fs) -> f <> c ->
          exists t', times !! f = Some (Some t') /\ t < t') /\
       let fs' := Global.mkFrameStatus (Global.memoryFrames fs)
                    (<[c := (pid, page)]> (Global.memory fs))
                    ((c + 1) mod length (Global.memory fs))
                    (list_remove c (Global.lru_list fs)) in
       Global.fifoReplacement pid page fs = Ok (fs', (old.1, old.2, c)) /\
       Global.handleAccess rand pid page trace ci vm =
       Ok (Global.mkVMM (Global.num_frames vm) (Global.replacement_policy vm) pts' fs'
             (S (Global.global_page_fault_count vm)) (Global.rand_calls vm)) /\
       installed (Global.page_tables vm) pts' pid page c (Some old)) /\
  (forall vm, (4 <= nf)%Z -> Local.after rand nf "fifo" trace n = Ok vm ->
     valid_pid pid ->
     lookup_page (Local.page_tables vm) pid page = None ->
     full (Local.partition (Local.frame_status vm) pid) ->
     let fs := Local.frame_status vm in
     let c := Local.cursor fs pid in
     let times := Local.assignment_times rand nf "fifo" trace pid n in
     exists old pts' t,
       Local.partition fs pid !! c = Some old /\
       times !! c = Some (Some t) /\
       (forall f, f < length (Local.partition fs pid) -> f <> c ->
          exists t', times !! f = Some (Some t') /\ t < t') /\
       let fs' := Local.placed fs pid page c
                    ((c + 1) mod length (Local.partition fs pid))
                    (list_remove c (Local.recency fs pid)) in
       Local.fifoReplacement pid page fs = Ok (fs', (old.1, old.2, c)) /\
       Local.handleAccess rand pid page trace ci vm =
       Ok (Local.mkVMM (Local.num_frames vm) (Local.replacement_policy vm) pts' fs'
             (S (Local.global_page_fault_count vm)) (Local.rand_calls vm)) /\
       installed (Local.page_tables vm) pts' pid page c (Some old)).
Proof.
  split.
  - intros vm Hnf Hrun Hv Hmiss Hfull fs c times. subst fs c times. cbv zeta.
    destruct (GlobalAfter.g_after_consistent _ _ _ _ _ _ Hnf Hrun) as (Hc & Hfifo & _).
    pose proof (Global.cons_size vm Hc) as Hsize.
    pose proof (Global.cons_cursor vm Hc) as Hcur.
    destruct (aged_oldest _ _ _ _ (GlobalAge.g_after_aged rand nf trace n vm Hnf Hrun) Hfull)
      as (t & Ht & Hold_t); [lia|].
    destruct (GlobalInv.g_handleAccess_step rand pid page trace ci vm Hc Hv)
      as (vm' & Heq & Hstep).
    destruct Hstep as [f Hlook | e pts' Hlook He Hfree _ _
                      | f old next lru calls pts' Hlook _ Hch Hold _ Hi
                      | pts' Hlook _ Hunk _ _].
    + congruence.
    + exfalso. destruct (Hfull (Global.nextFrame (Global.frame_status vm)))
        as (e' & He' & Hocc); [eapply lookup_lt_Some; eauto | congruence].
    + destruct Hch as [E|g rest E Hl'|g E Hvict|E]; try congruence.
      exists old, pts', t. rewrite Hsize.
      split; [exact Hold|]. split; [exact Ht|].
      split; [rewrite <- Hsize; exact Hold_t|].
      split; [|split; [exact Heq | exact Hi]].
      apply GlobalSteps.g_fifo_eq; [exact Hold | lia].
    + exfalso. apply Hunk. left. exact Hfifo.
  - intros vm Hnf Hrun Hv Hmiss Hfull fs c times. subst fs c times. cbv zeta.
    destruct (LocalAfter.l_after_consistent _ _ _ _ _ _ Hnf Hrun) as (Hc & Hfifo & _).
    pose proof (Local.cons_rows vm Hc) as Hrows.
    pose proof (Local.cons_cursors vm Hc) as Hcursors.
    pose proof (Local.cons_lists vm Hc) as Hlists.
    pose proof (Local.cons_positive vm Hc) as Hpos.
    pose proof (Local.cons_size vm Hc pid Hv) as Hsize.
    pose proof (Local.cons_cursor vm Hc pid Hv) as Hcur.
    destruct (aged_oldest _ _ _ _ (LocalAge.l_after_aged rand nf trace pid n vm Hnf Hv Hrun)
                Hfull) as (t & Ht & Hold_t); [lia|].
    destruct (LocalInv.l_handleAccess_step rand pid page trace ci vm Hc Hv)
      as (vm' & Heq & Hstep).
    destruct Hstep as [f Hlook | f pts' Hlook Hff _ _
                      | f old next lru calls pts' Hlook _ Hch Hold _ Hi
                      | pts' Hlook _ Hunk _ _].
    + congruence.
    + exfalso. eapply LocalSteps.first_free_not_full; eauto.
    + destruct Hch as [E|g rest E Hl'|g E Hvict|E]; try congruence.
      exists old, pts', t. rewrite Hsize.
      split; [exact Hold|]. split; [exact Ht|].
      split; [rewrite <- Hsize; exact Hold_t|].
      split; [|split; [exact Heq | exact Hi]].
      apply LocalSteps.l_fifo_eq; try assumption. lia.
    + exfalso. apply Hunk. left. exact Hfifo.
Qed.

Lemma C4_witness :
  exists vmG vmG' vmL vmL',
    Global.after (fun _ => 0) 2 "fifo" crowding_trace 2 = Ok vmG /\
    Global.assignment_times (fun _ => 0) 2 "fifo" crowding_trace 2 = [Some 0; Some 1] /\
    Global.handleAccess (fun _ => 0) 1 2 crowding_trace 2 vmG = Ok vmG' /\
    Global.memory (Global.frame_status vmG') = [(1%Z, 2%N); (1%Z, 1%N)] /\
    Global.nextFrame (Global.frame_status vmG') = 1 /\
    Local.after (fun _ => 0) 8 "fifo" crowding_trace 3 = Ok vmL /\
    Local.assignment_times (fun _ => 0) 8 "fifo" crowding_trace 1 3 = [Some 1; Some 2] /\
    Local.handleAccess (fun _ => 0) 1 3 crowding_trace 3 vmL = Ok vmL' /\
    Local.partition (Local.frame_status vmL') 1 = [(1%Z, 3%N); (1%Z, 2%N)] /\
    Local.cursor (Local.frame_status vmL') 1 = 1.
Proof.
  destruct (C4_fifo_eviction (fun _ => 0) 2 crowding_trace 2 1 2 2) as [HG _].
  destruct (C4_fifo_eviction (fun _ => 0) 8 crowding_trace 3 1 3 3) as [_ HL].
  assert (Hv : valid_pid 1) by (unfold valid_pid; lia).
  assert (Hvalid : valid_trace crowding_trace) by (apply valid_traceb_sound; reflexivity).
  destruct (GlobalAfter.g_after_total (fun _ => 0) 2 "fifo" crowding_trace 2
              ltac:(lia) Hvalid) as [vmG HvmG].
  destruct (LocalAfter.l_after_total (fun _ => 0) 8 "fifo" crowding_trace 3
              ltac:(lia) Hvalid) as [vmL HvmL].
  pose proof HvmG as HcG. vm_compute in HcG. injection HcG as HcG.
  pose proof HvmL as HcL. vm_compute in HcL. injection HcL as HcL.
  destruct (HG vmG ltac:(lia) HvmG Hv) as (oldG & ptsG & tG & _ & _ & _ & _ & HaG & _).
  { rewrite <- HcG. vm_compute. reflexivity. }
  { rewrite <- HcG. intros f Hf. simpl in Hf.
    assert (f = 0 \/ f = 1) as [-> | ->] by lia; eexists; split; reflexivity. }
  destruct (HL vmL ltac:(lia) HvmL Hv) as (oldL & ptsL & tL & _ & _ & _ & _ & HaL & _).
  { rewrite <- HcL. vm_compute. reflexivity. }
  { rewrite <- HcL. intros f Hf. simpl in Hf.
    assert (f = 0 \/ f = 1) as [-> | ->] by lia; eexists; split; reflexivity. }
  eexists vmG, _, vmL, _.
  split; [exact HvmG|]. split; [vm_compute; reflexivity|]. split; [exact HaG|].
  split; [rewrite <- HcG; reflexivity|]. split; [rewrite <- HcG; reflexivity|].
  split; [exact HvmL|]. split; [vm_compute; reflexivity|]. split; [exact HaL|].
  split; [rewrite <- HcL; reflexivity | rewrite <- HcL; reflexivity].
Defined.

(** C5. Optimal eviction with its short cut: on a miss with the reachable
    region full and the policy [optimal], the frame that is evicted is
    determined by the whole trace: it is the first frame, in ascending index
    of the region, whose page has no future access at all (even when a later
    frame has none either); when every frame's page is accessed again, it is
    the frame whose next access is the farthest.  The new page is installed
    in that frame and the displaced page leaves its page table. *)
Theorem C5_optimal_eviction (rand : nat -> nat) (pid : Z) (page : N)
    (trace : list (Z * N)) (ci : nat) :
  (forall vm, Global.reachable vm -> valid_pid pid ->
     Global.replacement_policy vm = "optimal" ->
     lookup_page (Global.page_tables vm) pid page = None ->
     full (Global.memory (Global.frame_status vm)) ->
     let fs := Global.frame_status vm in
     exists v old pts',
       optimal_victim (Global.memory fs) trace ci v /\
       (forall w, optimal_victim (Global.memory fs) trace ci w -> w = v) /\
       Global.memory fs !! v = Some old /\
       let fs' := Global.mkFrameStatus (Global.memoryFrames fs)
                    (<[v := (pid, page)]> (Global.memory fs)) (Global.nextFrame fs)
                    (list_remove v (Global.lru_list fs)) in
       Global.optimalReplacement pid page trace ci fs = Ok (fs', (old.1, old.2, v)) /\
       Global.handleAccess rand pid page trace ci vm =
       Ok (Global.mkVMM (Global.num_frames vm) (Global.replacement_policy vm) pts' fs'
             (S (Global.global_page_fault_count vm)) (Global.rand_calls vm)) /\
       installed (Global.page_tables vm) pts' pid page v (Some old)) /\
  (forall vm, Local.reachable vm -> valid_pid pid ->
     Local.replacement_policy vm = "optimal" ->
     lookup_page (Local.page_tables vm) pid page = None ->
     full (Local.partition (Local.frame_status vm) pid) ->
     let fs := Local.frame_status vm in
     exists v old pts',
       optimal_victim (Local.partition fs pid) trace ci v /\
       (forall w, optimal_victim (Local.partition fs pid) trace ci w -> w = v) /\
       Local.partition fs pid !! v = Some old /\
       let fs' := Local.placed fs pid page v (Local.cursor fs pid)
                    (list_remove v (Local.recency fs pid)) in
       Local.optimalReplacement pid page trace ci fs = Ok (fs', (old.1, old.2, v)) /\
       Local.handleAccess rand pid page trace ci vm =
       Ok (Local.mkVMM (Local.num_frames vm) (Local.replacement_policy vm) pts' fs'
             (S (Local.global_page_fault_count vm)) (Local.rand_calls vm)) /\
       installed (Local.page_tables vm) pts' pid page v (Some old)).
Proof.
  split.
  - intros vm Hreach Hv Hopt Hmiss Hfull fs. subst fs. cbv zeta.
    pose proof (GlobalRuns.g_reachable_consistent vm Hreach) as Hc.
    pose proof (Global.cons_size vm Hc) as Hsize.
    pose proof (Global.cons_cursor vm Hc) as Hcur.
    destruct (GlobalInv.g_handleAccess_step rand pid page trace ci vm Hc Hv)
      as (vm' & Heq & Hstep).
    destruct Hstep as [f Hlook | e pts' Hlook He Hfree _ _
                      | f old next lru calls pts' Hlook _ Hch Hold _ Hi
                      | pts' Hlook _ Hunk _ _].
    + congruence.
    + exfalso. destruct (Hfull (Global.nextFrame (Global.frame_status vm)))
        as (e' & He' & Hocc); [eapply lookup_lt_Some; eauto | congruence].
    + destruct Hch as [E|g rest E Hl'|g E Hvict|E]; try congruence.
      exists g, old, pts'. split; [exact Hvict|].
      split; [intros w Hw; eapply optimal_victim_unique; eauto|].
      split; [exact Hold|]. split; [|split; [exact Heq | exact Hi]].
      destruct (optimal_scan_ok (Global.memory (Global.frame_status vm)) trace ci)
        as (acc & Hscan & v0 & old0 & Hv0 & Hold0 & Hop & Hog & Hvict0); [lia|].
      assert (v0 = g) by (eapply optimal_victim_unique; eauto). subst v0.
      assert (old0 = old) by congruence. subst old0.
      rewrite Hsize in Hscan.
      rewrite (GlobalSteps.g_optimal_eq pid page trace ci _ acc g Hscan Hv0)
        by (eapply lookup_lt_Some; eauto).
      rewrite Hop, Hog. reflexivity.
    + exfalso. apply Hunk. right. right. left. exact Hopt.
  - intros vm Hreach Hv Hopt Hmiss Hfull fs. subst fs. cbv zeta.
    pose proof (LocalRuns.l_reachable_consistent vm Hreach) as Hc.
    pose proof (Local.cons_rows vm Hc) as Hrows.
    pose proof (Local.cons_cursors vm Hc) as Hcursors.
    pose proof (Local.cons_lists vm Hc) as Hlists.
    pose proof (Local.cons_positive vm Hc) as Hpos.
    pose proof (Local.cons_size vm Hc pid Hv) as Hsize.
    destruct (LocalInv.l_handleAccess_step rand pid page trace ci vm Hc Hv)
      as (vm' & Heq & Hstep).
    destruct Hstep as [f Hlook | f pts' Hlook Hff _ _
                      | f old next lru calls pts' Hlook _ Hch Hold _ Hi
                      | pts' Hlook _ Hunk _ _].
    + congruence.
    + exfalso. eapply LocalSteps.first_free_not_full; eauto.
    + destruct Hch as [E|g rest E Hl'|g E Hvict|E]; try congruence.
      exists g, old, pts'. split; [exact Hvict|].
      split; [intros w Hw; eapply optimal_victim_unique; eauto|].
      split; [exact Hold|]. split; [|split; [exact Heq | exact Hi]].
      destruct (optimal_scan_ok (Local.partition (Local.frame_status vm) pid) trace ci)
        as (acc & Hscan & v0 & old0 & Hv0 & Hold0 & Hop & Hog & Hvict0); [lia|].
      assert (v0 = g) by (eapply optimal_victim_unique; eauto). subst v0.
      assert (old0 = old) by congruence. subst old0.
      rewrite Hsize in Hscan.
      rewrite (LocalSteps.l_optimal_eq (Local.frame_status vm) pid page) with (acc := acc) (v := g);
        try assumption; [|eapply lookup_lt_Some; eauto].
      rewrite Hop, Hog. reflexivity.
    + exfalso. apply Hunk. right. right. left. exact Hopt.
Qed.

Lemma C5_witness :
  exists vmG vmG' vmL vmL',
    Global.after (fun _ => 0) 2 "optimal" crowding_trace 2 = Ok vmG /\
    Global.handleAccess (fun _ => 0) 1 2 crowding_trace 2 vmG = Ok vmG' /\
    Global.memory (Global.frame_status vmG') = [(0%Z, 7%N); (1%Z, 2%N)] /\
    Local.after (fun _ => 0) 4 "optimal" crowding_trace 2 = Ok vmL /\
    Local.handleAccess (fun _ => 0) 1 2 crowding_trace 2 vmL = Ok vmL' /\
    Local.partition (Local.frame_status vmL') 1 = [(1%Z, 2%N)].
Proof.
  destruct (C5_optimal_eviction (fun _ => 0) 1 2 crowding_trace 2) as [HG HL].
  assert (Hv : valid_pid 1) by (unfold valid_pid; lia).
  assert (Hvalid : valid_trace crowding_trace) by (apply valid_traceb_sound; reflexivity).
  destruct (GlobalAfter.g_after_total (fun _ => 0) 2 "optimal" crowding_trace 2
              ltac:(lia) Hvalid) as [vmG HvmG].
  destruct (LocalAfter.l_after_total (fun _ => 0) 4 "optimal" crowding_trace 2
              ltac:(lia) Hvalid) as [vmL HvmL].
  assert (HrG : Global.reachable vmG).
  { exists (fun _ => 0), 2%Z, "optimal", crowding_trace, 2. split; [lia | exact HvmG]. }
  assert (HrL : Local.reachable vmL).
  { exists (fun _ => 0), 4%Z, "optimal", crowding_trace, 2. split; [lia | exact HvmL]. }
  pose proof HvmG as HcG. vm_compute in HcG. injection HcG as HcG.
  pose proof HvmL as HcL. vm_compute in HcL. injection HcL as HcL.
  destruct (HG vmG HrG Hv) as (vG & oldG & ptsG & HvictG & _ & _ & _ & HaG & _).
  { rewrite <- HcG. reflexivity. }
  { rewrite <- HcG. vm_compute. reflexivity. }
  { rewrite <- HcG. intros f Hf. simpl in Hf.
    assert (f = 0 \/ f = 1) as [-> | ->] by lia; eexists; split; reflexivity. }
  destruct (HL vmL HrL Hv) as (vL & oldL & ptsL & HvictL & _ & _ & _ & HaL & _).
  { rewrite <- HcL. reflexivity. }
  { rewrite <- HcL. vm_compute. reflexivity. }
  { rewrite <- HcL. intros f Hf. simpl in Hf. assert (f = 0) by lia. subst f.
    eexists. split; reflexivity. }
  assert (HvG : vG = 1).
  { eapply optimal_victim_unique; [exact HvictG|]. rewrite <- HcG.
    left. split; [simpl; lia|]. split; [vm_compute; reflexivity|].
    intros f Hf. assert (f = 0) by lia. subst f. vm_compute. discriminate. }
  assert (HvL : vL = 0).
  { eapply optimal_victim_unique; [exact HvictL|]. rewrite <- HcL.
    left. split; [simpl; lia|]. split; [vm_compute; reflexivity|].
    intros f Hf. lia. }
  subst vG vL.
  eexists vmG, _, vmL, _.
  split; [exact HvmG|]. split; [exact HaG|].
  split; [rewrite <- HcG; reflexivity|].
  split; [exact HvmL|]. split; [exact HaL|].
  rewrite <- HcL. reflexivity.
Defined.

(** C6. Unrecognized policy: when the policy string is none of [fifo],
    [lru], [optimal] and [random], an access that misses while the reachable
    region is full runs no eviction: the frame pool is left as it is and no
    page table gains or loses a mapping, so the faulting page is mapped
    nowhere; only the two fault counters have moved. *)
Theorem C6_unrecognized_policy (rand : nat -> nat) (pid : Z) (page : N)
    (trace : list (Z * N)) (ci : nat) :
  (forall vm, Global.reachable vm -> valid_pid pid ->
     ~ known_policy (Global.replacement_policy vm) ->
     lookup_page (Global.page_tables vm) pid page = None ->
     full (Global.memory (Global.frame_status vm)) ->
     exists pts',
       Global.handleAccess rand pid page trace ci vm =
       Ok (Global.mkVMM (Global.num_frames vm) (Global.replacement_policy vm) pts'
             (Global.frame_status vm) (S (Global.global_page_fault_count vm))
             (Global.rand_calls vm)) /\
       (forall P p, lookup_page pts' P p = lookup_page (Global.page_tables vm) P p) /\
       (forall P, lookup_page pts' P page <> None ->
                  lookup_page (Global.page_tables vm) P page <> None) /\
       lookup_page pts' pid page = None /\
       faulted (Global.page_tables vm) pts' pid) /\
  (forall vm, Local.reachable vm -> valid_pid pid ->
     ~ known_policy (Local.replacement_policy vm) ->
     lookup_page (Local.page_tables vm) pid page = None ->
     full (Local.partition (Local.frame_status vm) pid) ->
     exists pts',
       Local.handleAccess rand pid page trace ci vm =
       Ok (Local.mkVMM (Local.num_frames vm) (Local.replacement_policy vm) pts'
             (Local.frame_status vm) (S (Local.global_page_fault_count vm))
             (Local.rand_calls vm)) /\
       (forall P p, lookup_page pts' P p = lookup_page (Local.page_tables vm) P p) /\
       (forall P, lookup_page pts' P page <> None ->
                  lookup_page (Local.page_tables vm) P page <> None) /\
       lookup_page pts' pid page = None /\
       faulted (Local.page_tables vm) pts' pid).
Proof.
  split.
  - intros vm Hreach Hv Hunk Hmiss Hfull.
    pose proof (GlobalRuns.g_reachable_consistent vm Hreach) as Hc.
    destruct (GlobalInv.g_handleAccess_step rand pid page trace ci vm Hc Hv)
      as (vm' & Heq & Hstep).
    destruct Hstep as [f Hlook | e pts' Hlook He Hfree _ _
                      | f old next lru calls pts' Hlook _ Hch _ _ _
                      | pts' Hlook _ _ Hfl Hsame].
    + congruence.
    + exfalso. destruct (Hfull (Global.nextFrame (Global.frame_status vm)))
        as (e' & He' & Hocc); [eapply lookup_lt_Some; eauto | congruence].
    + exfalso. apply Hunk. unfold known_policy. destruct Hch; auto.
    + exists pts'. split; [exact Heq|]. split; [exact Hsame|].
      split; [intros P; rewrite Hsame; auto|]. split; [rewrite Hsame; exact Hmiss | exact Hfl].
  - intros vm Hreach Hv Hunk Hmiss Hfull.
    pose proof (LocalRuns.l_reachable_consistent vm Hreach) as Hc.
    destruct (LocalInv.l_handleAccess_step rand pid page trace ci vm Hc Hv)
      as (vm' & Heq & Hstep).
    destruct Hstep as [f Hlook | f pts' Hlook Hff _ _
                      | f old next lru calls pts' Hlook _ Hch _ _ _
                      | pts' Hlook _ _ Hfl Hsame].
    + congruence.
    + exfalso. eapply LocalSteps.first_free_not_full; eauto.
    + exfalso. apply Hunk. unfold known_policy. destruct Hch; auto.
    + exists pts'. split; [exact Heq|]. split; [exact Hsame|].
      split; [intros P; rewrite Hsame; auto|]. split; [rewrite Hsame; exact Hmiss | exact Hfl].
Qed.

Lemma C6_witness :
  exists vmG vmG' vmL vmL',
    Global.after (fun _ => 0) 1 "clock" crowding_trace 1 = Ok vmG /\
    Global.handleAccess (fun _ => 0) 1 1 crowding_trace 1 vmG = Ok vmG' /\
    Global.frame_status vmG' = Global.frame_status vmG /\
    lookup_page (Global.page_tables vmG') 1 1 = None /\
    Local.after (fun _ => 0) 4 "clock" crowding_trace 2 = Ok vmL /\
    Local.handleAccess (fun _ => 0) 1 2 crowding_trace 2 vmL = Ok vmL' /\
    Local.frame_status vmL' = Local.frame_status vmL /\
    lookup_page (Local.page_tables vmL') 1 2 = None.
Proof.
  destruct (C6_unrecognized_policy (fun _ => 0) 1 1 crowding_trace 1) as [HG _].
  destruct (C6_unrecognized_policy (fun _ => 0) 1 2 crowding_trace 2) as [_ HL].
  assert (Hv : valid_pid 1) by (unfold valid_pid; lia).
  assert (Hvalid : valid_trace crowding_trace) by (apply valid_traceb_sound; reflexivity).
  destruct (GlobalAfter.g_after_total (fun _ => 0) 1 "clock" crowding_trace 1
              ltac:(lia) Hvalid) as [vmG HvmG].
  destruct (LocalAfter.l_after_total (fun _ => 0) 4 "clock" crowding_trace 2
              ltac:(lia) Hvalid) as [vmL HvmL].
  assert (HrG : Global.reachable vmG).
  { exists (fun _ => 0), 1%Z, "clock", crowding_trace, 1. split; [lia | exact HvmG]. }
  assert (HrL : Local.reachable vmL).
  { exists (fun _ => 0), 4%Z, "clock", crowding_trace, 2. split; [lia | exact HvmL]. }
  pose proof HvmG as HcG. vm_compute in HcG. injection HcG as HcG.
  pose proof HvmL as HcL. vm_compute in HcL. injection HcL as HcL.
  destruct (HG vmG HrG Hv) as (ptsG & HaG & _ & _ & HlG & _).
  { rewrite <- HcG. simpl. intros [H|[H|[H|H]]]; discriminate. }
  { rewrite <- HcG. vm_compute. reflexivity. }
  { rewrite <- HcG. intros f Hf. simpl in Hf. assert (f = 0) by lia. subst f.
    eexists. split; reflexivity. }
  destruct (HL vmL HrL Hv) as (ptsL & HaL & _ & _ & HlL & _).
  { rewrite <- HcL. simpl. intros [H|[H|[H|H]]]; discriminate. }
  { rewrite <- HcL. vm_compute. reflexivity. }
  { rewrite <- HcL. intros f Hf. simpl in Hf. assert (f = 0) by lia. subst f.
    eexists. split; reflexivity. }
  eexists vmG, _, vmL, _.
  exact (conj HvmG (conj HaG (conj eq_refl (conj HlG
           (conj HvmL (conj HaL (conj eq_refl HlL))))))).
Defined.

(** C7. FIFO reproduces Belady's anomaly: in the shared-pool engine under
    [fifo], one process that accesses the pages 1,2,3,4,1,2,5,1,2,3,4,5
    faults 9 times with 3 frames and 10 times with 4 frames. *)
Theorem C7_fifo_belady_anomaly (rand : nat -> nat) (pid : Z) :
  valid_pid pid ->
  exists per3 per4,
    Global.runSimulation rand 3 "fifo" (single_process pid belady_pages) = Ok (9, per3) /\
    Global.runSimulation rand 4 "fifo" (single_process pid belady_pages) = Ok (10, per4).
Proof.
  intros Hv.
  assert (pid = 0 \/ pid = 1 \/ pid = 2 \/ pid = 3)%Z as [-> | [-> | [-> | ->]]]
    by (unfold valid_pid in Hv; lia);
    eexists; eexists; split; vm_compute; reflexivity.
Qed.

Lemma C7_witness :
  valid_pid 0 /\
  Global.runSimulation (fun _ => 0) 3 "fifo" (single_process 0 belady_pages)
    = Ok (9, [9; 0; 0; 0]) /\
  Global.runSimulation (fun _ => 0) 4 "fifo" (single_process 0 belady_pages)
    = Ok (10, [10; 0; 0; 0]).
Proof.
  assert (Hv : valid_pid 0) by (unfold valid_pid; lia).
  split; [exact Hv|].
  destruct (C7_fifo_belady_anomaly (fun _ => 0) 0 Hv) as (per3 & per4 & H3 & H4).
  vm_compute in H3. vm_compute in H4.
  injection H3 as <-. injection H4 as <-.
  split; vm_compute; reflexivity.
Defined.

(** C8. Optimal minimality: on every trace of the four processes and for
    every frame count that the engine admits, the global fault count under
    [optimal] is at most the global fault count of the same engine under
    [fifo], under [lru], and under [random] whatever the random draws. *)
Theorem C8_optimal_minimality (rand rand' : nat -> nat) (policy : string)
    (trace : list (Z * N)) (nfG nfL : Z) :
  known_policy policy -> valid_trace trace ->
  (Z.of_nat (length trace) <= INT_MAX)%Z -> (1 <= nfG)%Z -> (4 <= nfL)%Z ->
  (exists c_opt per_opt c per,
     Global.runSimulation rand nfG "optimal" trace = Ok (c_opt, per_opt) /\
     Global.runSimulation rand' nfG policy trace = Ok (c, per) /\
     c_opt <= c) /\
  (exists c_opt per_opt c per,
     Local.runSimulation rand nfL "optimal" trace = Ok (c_opt, per_opt) /\
     Local.runSimulation rand' nfL policy trace = Ok (c, per) /\
     c_opt <= c).
Proof.
  intros Hknown Hvalid Hlen HG HL. split.
  - destruct (GlobalWhole.g_run_schedule rand nfG "optimal" trace HG Hvalid Hlen)
      as (vmo & _ & Hro & _ & Hclair).
    destruct (GlobalWhole.g_run_schedule rand' nfG policy trace HG Hvalid Hlen)
      as (vm & _ & Hr & Hsched & _).
    eexists _, _, _, _. split; [exact Hro|]. split; [exact Hr|].
    eapply (clairvoyant_least everyone (Z.to_nat nfG) ∅ trace); eauto.
    + rewrite size_empty. lia.
    + intros y Hy. exact I.
  - destruct (LocalWhole.l_run_schedule rand nfL "optimal" trace HL Hvalid Hlen)
      as (vmo & _ & Hro & Hsumo & _ & Hclair).
    destruct (LocalWhole.l_run_schedule rand' nfL policy trace HL Hvalid Hlen)
      as (vm & _ & Hr & Hsum & Hsched & _).
    eexists _, _, _, _. split; [exact Hro|]. split; [exact Hr|].
    destruct (Hsched Hknown) as [_ Hper].
    assert (Hle : forall P, valid_pid P ->
              faults_of (Local.page_tables vmo) (Z.to_nat P)
              <= faults_of (Local.page_tables vm) (Z.to_nat P)).
    { intros P HP.
      eapply (clairvoyant_least (owned_by P) (Z.to_nat (nfL ÷ 4)) ∅ trace); eauto.
      - rewrite size_empty. lia.
      - intros y Hy. apply not_elem_of_empty in Hy. contradiction. }
    pose proof (Hle 0%Z ltac:(unfold valid_pid; lia)) as H0.
    pose proof (Hle 1%Z ltac:(unfold valid_pid; lia)) as H1.
    pose proof (Hle 2%Z ltac:(unfold valid_pid; lia)) as H2.
    pose proof (Hle 3%Z ltac:(unfold valid_pid; lia)) as H3.
    change (Z.to_nat 0) with 0 in H0. change (Z.to_nat 1) with 1 in H1.
    change (Z.to_nat 2) with 2 in H2. change (Z.to_nat 3) with 3 in H3.
    rewrite Hsumo, Hsum. lia.
Qed.

Lemma C8_witness :
  known_policy "fifo" /\ valid_trace crowding_trace /\
  (Z.of_nat (length crowding_trace) <= INT_MAX)%Z /\ (1 <= 4)%Z /\ (4 <= 4)%Z /\
  (exists c_opt per_opt c per,
     Global.runSimulation (fun _ => 0) 4 "optimal" crowding_trace = Ok (c_opt, per_opt) /\
     Global.runSimulation (fun n => n) 4 "fifo" crowding_trace = Ok (c, per) /\
     c_opt <= c) /\
  (exists c_opt per_opt c per,
     Local.runSimulation (fun _ => 0) 4 "optimal" crowding_trace = Ok (c_opt, per_opt) /\
     Local.runSimulation (fun n => n) 4 "fifo" crowding_trace = Ok (c, per) /\
     c_opt <= c).
Proof.
  assert (Hk : known_policy "fifo") by (left; reflexivity).
  assert (Hvalid : valid_trace crowding_trace) by (apply valid_traceb_sound; reflexivity).
  assert (Hlen : (Z.of_nat (length crowding_trace) <= INT_MAX)%Z) by (vm_compute; discriminate).
  assert (HG : (1 <= 4)%Z) by lia. assert (HL : (4 <= 4)%Z) by lia.
  split; [exact Hk|]. split; [exact Hvalid|]. split; [exact Hlen|].
  split; [exact HG|]. split; [exact HL|].
  exact (C8_optimal_minimality (fun _ => 0) (fun n => n) "fifo" crowding_trace 4 4
           Hk Hvalid Hlen HG HL).
Defined.

(** C9, as the specification states it, fails: under [lru] (and under
    [fifo]) with four frames, the shared pool faults six times on a trace on
    which the four partitions fault five times. *)
Lemma C9_counterexample :
  Global.runSimulation (fun _ => 0) 4 "lru" crowding_trace = Ok (6, [2; 4; 0; 0]) /\
  Local.runSimulation (fun _ => 0) 4 "lru" crowding_trace = Ok (5, [1; 4; 0; 0]) /\
  Global.runSimulation (fun _ => 0) 4 "fifo" crowding_trace = Ok (6, [2; 4; 0; 0]) /\
  Local.runSimulation (fun _ => 0) 4 "fifo" crowding_trace = Ok (5, [1; 4; 0; 0]) /\
  ~ (forall policy, policy = "fifo" \/ policy = "lru" \/ policy = "optimal" ->
     forall (trace : list (Z * N)) (nf : Z) cg perg cl perl,
       Global.runSimulation (fun _ => 0) nf policy trace = Ok (cg, perg) ->
       Local.runSimulation (fun _ => 0) nf policy trace = Ok (cl, perl) ->
       cg <= cl).
Proof.
  assert (HG : Global.runSimulation (fun _ => 0) 4 "lru" crowding_trace = Ok (6, [2; 4; 0; 0]))
    by (vm_compute; reflexivity).
  assert (HL : Local.runSimulation (fun _ => 0) 4 "lru" crowding_trace = Ok (5, [1; 4; 0; 0]))
    by (vm_compute; reflexivity).
  split; [exact HG|]. split; [exact HL|].
  split; [vm_compute; reflexivity|]. split; [vm_compute; reflexivity|].
  intros Hall.
  pose proof (Hall "lru" ltac:(auto) crowding_trace 4%Z _ _ _ _ HG HL). lia.
Qed.

(** C9, amended. Global-vs-Local dominance under the optimal policy: on
    every trace of the four processes and for every total frame count of at
    least four, the global fault count of the shared-pool engine under
    [optimal] is at most that of the partitioned engine under [optimal]. *)
Theorem C9_optimal_dominance (rand rand' : nat -> nat) (trace : list (Z * N)) (nf : Z) :
  valid_trace trace -> (Z.of_nat (length trace) <= INT_MAX)%Z -> (4 <= nf)%Z ->
  exists cg perg cl perl,
    Global.runSimulation rand nf "optimal" trace = Ok (cg, perg) /\
    Local.runSimulation rand' nf "optimal" trace = Ok (cl, perl) /\
    cg <= cl.
Proof.
  intros Hvalid Hlen Hnf.
  destruct (GlobalWhole.g_run_schedule rand nf "optimal" trace ltac:(lia) Hvalid Hlen)
    as (vmg & _ & Hrg & _ & Hclair).
  destruct (LocalWhole.l_run_schedule rand' nf "optimal" trace Hnf Hvalid Hlen)
    as (vml & _ & Hrl & _ & Hsched & _).
  eexists _, _, _, _. split; [exact Hrg|]. split; [exact Hrl|].
  destruct (Hsched known_optimal) as [Hunion _].
  eapply (clairvoyant_least everyone (Z.to_nat nf) ∅ trace); eauto.
  - eapply schedule_capacity; [|exact Hunion].
    assert (4 * (nf ÷ 4) <= nf)%Z by (apply Z.mul_quot_le; lia).
    assert (0 <= nf ÷ 4)%Z by (apply Z.quot_pos; lia). lia.
  - rewrite size_empty. lia.
  - intros y Hy. exact I.
Qed.

Lemma C9_witness :
  valid_trace crowding_trace /\ (Z.of_nat (length crowding_trace) <= INT_MAX)%Z /\
  (4 <= 4)%Z /\
  exists cg perg cl perl,
    Global.runSimulation (fun _ => 0) 4 "optimal" crowding_trace = Ok (cg, perg) /\
    Local.runSimulation (fun _ => 0) 4 "optimal" crowding_trace = Ok (cl, perl) /\
    cg <= cl.
Proof.
  assert (Hvalid : valid_trace crowding_trace) by (apply valid_traceb_sound; reflexivity).
  assert (Hlen : (Z.of_nat (length crowding_trace) <= INT_MAX)%Z) by (vm_compute; discriminate).
  assert (Hnf : (4 <= 4)%Z) by lia.
  split; [exact Hvalid|]. split; [exact Hlen|]. split; [exact Hnf|].
  exact (C9_optimal_dominance (fun _ => 0) (fun _ => 0) crowding_trace 4 Hvalid Hlen Hnf).
Defined.

(** C10. In-bounds safety of the partitioned engine: with at least four
    frames every partition has [num_frames / 4 >= 1] frames, and then, for
    every trace, policy string and sequence of random draws, every frame
    index that the engine uses lies in its partition: the run never stops on
    an index out of bounds, on a zero modulus or on an empty recency list
    (a run can only stop on a record that names none of the four processes),
    the cursors, the recency lists and the page tables hold indices below
    the partition size only, and [allocateFrame] and the four replacement
    functions, called as [handleAccess] calls them, return a frame index
    below the partition size.  The precondition is needed: with three frames
    the partitions are empty and the first access under each of the four
    policies stops on such an error. *)
Theorem C10_local_in_bounds :
  (forall (rand : nat -> nat) (nf : Z) (policy : string) (trace : list (Z * N)) (n : nat),
     (4 <= nf)%Z ->
     (forall e, Local.after rand nf policy trace n = Err e ->
                e = BadProcess /\ ~ valid_trace trace) /\
     (valid_trace trace -> exists vm, Local.after rand nf policy trace n = Ok vm) /\
     (forall vm, Local.after rand nf policy trace n = Ok vm ->
        let fs := Local.frame_status vm in
        Local.memoryFramesPerProcess fs = Z.to_nat (nf ÷ 4) /\
        1 <= Local.memoryFramesPerProcess fs /\
        forall P, valid_pid P ->
          length (Local.partition fs P) = Local.memoryFramesPerProcess fs /\
          Local.cursor fs P < Local.memoryFramesPerProcess fs /\
          (policy = "lru" ->
           forall f, f ∈ Local.recency fs P -> f < Local.memoryFramesPerProcess fs) /\
          (forall p f, lookup_page (Local.page_tables vm) P p = Some f ->
                       f < Local.memoryFramesPerProcess fs) /\
          (forall page, exists fs' r,
             Local.allocateFrame P page fs = Ok (fs', r) /\
             forall f, r = Some f -> f < Local.memoryFramesPerProcess fs) /\
          (forall page, exists fs' old f,
             Local.fifoReplacement P page fs = Ok (fs', (old.1, old.2, f)) /\
             f < Local.memoryFramesPerProcess fs) /\
          (policy = "lru" -> full (Local.partition fs P) ->
           forall page, exists fs' old f,
             Local.lruReplacement P page fs = Ok (fs', (old.1, old.2, f)) /\
             f < Local.memoryFramesPerProcess fs) /\
          (forall page ci, exists fs' old f,
             Local.optimalReplacement P page trace ci fs = Ok (fs', (old.1, old.2, f)) /\
             f < Local.memoryFramesPerProcess fs) /\
          (forall page draw, exists fs' old f,
             Local.randomReplacement draw P page fs = Ok (fs', (old.1, old.2, f)) /\
             f < Local.memoryFramesPerProcess fs))) /\
  (forall rand : nat -> nat,
     Local.runSimulation rand 3 "fifo" [(0%Z, 1%N)] = Err OutOfBounds /\
     Local.runSimulation rand 3 "lru" [(0%Z, 1%N)] = Err EmptyList /\
     Local.runSimulation rand 3 "optimal" [(0%Z, 1%N)] = Err OutOfBounds /\
     Local.runSimulation rand 3 "random" [(0%Z, 1%N)] = Err DivByZero).
Proof.
  split.
  - intros rand nf policy trace n Hnf. split; [|split].
    + intros e Herr. split; [eapply LocalAfter.l_after_Err; eauto|].
      intros Hvalid.
      destruct (LocalAfter.l_after_total rand nf policy trace n Hnf Hvalid) as [vm Hvm].
      congruence.
    + intros Hvalid. apply LocalAfter.l_after_total; assumption.
    + intros vm Hrun fs. subst fs.
      destruct (LocalAfter.l_after_consistent _ _ _ _ _ _ Hnf Hrun) as (Hc & Hp & Hk).
      split; [exact Hk|]. split; [apply (Local.cons_positive vm Hc)|].
      intros P HP. split; [apply (Local.cons_size vm Hc P HP)|].
      pose proof (Local.cons_rows vm Hc) as Hrows.
      pose proof (Local.cons_cursors vm Hc) as Hcursors.
      pose proof (Local.cons_lists vm Hc) as Hlists.
      pose proof (Local.cons_positive vm Hc) as Hpos.
      pose proof (Local.cons_size vm Hc P HP) as Hsize.
      pose proof (Local.cons_cursor vm Hc P HP) as Hcur.
      split; [exact Hcur|]. split; [|split; [|split; [|split; [|split; [|split]]]]].
      * intros Hlru f Hf. rewrite <- Hp in Hlru.
        destruct (Local.cons_lru vm Hc Hlru P HP) as [_ Hmem].
        apply Hmem in Hf. destruct Hf as (e & He & _).
        rewrite <- Hsize. eapply lookup_lt_Some; eauto.
      * intros p f Hf. apply (Local.cons_bij vm Hc) in Hf. destruct Hf as [_ Hf].
        rewrite <- Hsize. eapply lookup_lt_Some; eauto.
      * intros page.
        destruct (LocalSteps.first_free_or_full (Local.partition (Local.frame_status vm) P))
          as [[f Hff]|Hfull].
        -- eexists. exists (Some f).
           split; [apply LocalSteps.l_allocate_free; assumption|].
           intros g [= <-]. rewrite <- Hsize. apply LocalSteps.first_free_lt. exact Hff.
        -- exists (Local.frame_status vm), None.
           split; [apply LocalSteps.l_allocate_full; assumption | discriminate].
      * intros page.
        destruct (lookup_lt_is_Some_2 (Local.partition (Local.frame_status vm) P)
                    (Local.cursor (Local.frame_status vm) P)) as [old Hold]; [lia|].
        eexists. exists old, (Local.cursor (Local.frame_status vm) P).
        split; [apply LocalSteps.l_fifo_eq; try assumption; lia | exact Hcur].
      * intros Hlru Hfull page. rewrite <- Hp in Hlru.
        destruct (Local.cons_lru vm Hc Hlru P HP) as [_ Hmem].
        destruct (Local.recency (Local.frame_status vm) P) as [|f rest] eqn:El.
        { exfalso. assert (H0 : 0 ∈ @nil nat) by (apply Hmem, Hfull; lia).
          apply elem_of_nil in H0. exact H0. }
        destruct (proj1 (Hmem f) ltac:(left)) as (old & Hold & _).
        eexists. exists old, f.
        split; [apply (LocalSteps.l_lru_eq _ _ page) with (rest := rest); assumption|].
        rewrite <- Hsize. eapply lookup_lt_Some; eauto.
      * intros page ci.
        destruct (optimal_scan_ok (Local.partition (Local.frame_status vm) P) trace ci)
          as (acc & Hscan & v & old & Hv & Hold & Hop & Hog & _); [lia|].
        rewrite Hsize in Hscan. pose proof (lookup_lt_Some _ _ _ Hold) as Hlt.
        eexists. exists old, v. rewrite <- Hop, <- Hog.
        split; [apply LocalSteps.l_optimal_eq; assumption | lia].
      * intros page draw.
        assert (Hlt : draw mod Local.memoryFramesPerProcess (Local.frame_status vm)
                      < Local.memoryFramesPerProcess (Local.frame_status vm))
          by (apply Nat.mod_upper_bound; lia).
        destruct (lookup_lt_is_Some_2 (Local.partition (Local.frame_status vm) P)
                    (draw mod Local.memoryFramesPerProcess (Local.frame_status vm)))
          as [old Hold]; [lia|].
        eexists.
        exists old, (draw mod Local.memoryFramesPerProcess (Local.frame_status vm)).
        split; [apply LocalSteps.l_random_eq; try assumption; lia | exact Hlt].
  - intros rand. repeat split; vm_compute; reflexivity.
Qed.

Lemma C10_witness :
  (4 <= 9)%Z /\
  exists vm,
    Local.after (fun n => n) 9 "random" crowding_trace 6 = Ok vm /\
    Local.memoryFramesPerProcess (Local.frame_status vm) = 2 /\
    Local.cursor (Local.frame_status vm) 1 < 2.
Proof.
  assert (Hnf : (4 <= 9)%Z) by lia. split; [exact Hnf|].
  assert (Hvalid : valid_trace crowding_trace) by (apply valid_traceb_sound; reflexivity).
  destruct C10_local_in_bounds as [Hsafe _].
  destruct (Hsafe (fun n => n) 9%Z "random" crowding_trace 6 Hnf) as (_ & Hrun & Hin).
  destruct (Hrun Hvalid) as [vm Hvm]. exists vm.
  destruct (Hin vm Hvm) as (Hk & _ & Hparts).
  destruct (Hparts 1%Z ltac:(unfold valid_pid; lia)) as (_ & Hcur & _).
  change (Z.to_nat (9 ÷ 4)) with 2 in Hk. rewrite Hk in Hcur.
  exact (conj Hvm (conj Hk Hcur)).
Defined.

(** * Further properties of the simulators *)

(** X1. In-bounds safety of the shared-pool engine: with at least one frame,
    for every trace, policy string and sequence of random draws, a run can
    only stop on a record that names none of the four processes; the cursor,
    the recency list and the page tables hold indices below the pool size,
    and [allocateFrame] and the four replacement functions return a frame
    index below the pool size.  With no frame at all the first access reads
    [memory[0]] of an empty vector, whatever the policy. *)
Theorem X1_global_in_bounds :
  (forall (rand : nat -> nat) (nf : Z) (policy : string) (trace : list (Z * N)) (n : nat),
     (1 <= nf)%Z ->
     (forall e, Global.after rand nf policy trace n = Err e ->
                e = BadProcess /\ ~ valid_trace trace) /\
     (forall vm, Global.after rand nf policy trace n = Ok vm ->
        let fs := Global.frame_status vm in
        Global.memoryFrames fs = Z.to_nat nf /\
        length (Global.memory fs) = Global.memoryFrames fs /\
        Global.nextFrame fs < Global.memoryFrames fs /\
        (policy = "lru" -> forall f, f ∈ Global.lru_list fs -> f < Global.memoryFrames fs) /\
        (forall P p f, lookup_page (Global.page_tables vm) P p = Some f ->
                       f < Global.memoryFrames fs) /\
        (forall pid page, exists fs' r,
           Global.allocateFrame pid page fs = Ok (fs', r) /\
           forall f, r = Some f -> f < Global.memoryFrames fs) /\
        (forall pid page, exists fs' old f,
           Global.fifoReplacement pid page fs = Ok (fs', (old.1, old.2, f)) /\
           f < Global.memoryFrames fs) /\
        (policy = "lru" -> full (Global.memory fs) ->
         forall pid page, exists fs' old f,
           Global.lruReplacement pid page fs = Ok (fs', (old.1, old.2, f)) /\
           f < Global.memoryFrames fs) /\
        (forall pid page ci, exists fs' old f,
           Global.optimalReplacement pid page trace ci fs = Ok (fs', (old.1, old.2, f)) /\
           f < Global.memoryFrames fs) /\
        (forall pid page draw, exists fs' old f,
           Global.randomReplacement draw pid page fs = Ok (fs', (old.1, old.2, f)) /\
           f < Global.memoryFrames fs))) /\
  (forall (rand : nat -> nat) (policy : string) (pid : Z) (page : N)
          (rest : list (Z * N)) (n : nat),
     valid_pid pid ->
     Global.after rand 0 policy ((pid, page) :: rest) (S n) = Err OutOfBounds).
Proof.
  split.
  - intros rand nf policy trace n Hnf. split.
    + intros e Herr. split; [eapply GlobalAfter.g_after_Err; eauto|].
      intros Hvalid.
      destruct (GlobalAfter.g_after_total rand nf policy trace n Hnf Hvalid) as [vm Hvm].
      congruence.
    + intros vm Hrun fs. subst fs.
      destruct (GlobalAfter.g_after_consistent _ _ _ _ _ _ Hnf Hrun) as (Hc & Hp & Hk).
      pose proof (Global.cons_size vm Hc) as Hsize.
      pose proof (Global.cons_cursor vm Hc) as Hcur.
      split; [exact Hk|]. split; [exact Hsize|]. split; [exact Hcur|].
      split; [|split; [|split; [|split; [|split; [|split]]]]].
      * intros Hlru f Hf. rewrite <- Hp in Hlru.
        destruct (Global.cons_lru vm Hc Hlru) as [_ Hmem].
        apply Hmem in Hf. destruct Hf as (e & He & _).
        rewrite <- Hsize. eapply lookup_lt_Some; eauto.
      * intros P p f Hf. apply (Global.cons_bij vm Hc) in Hf. destruct Hf as [Hf _].
        rewrite <- Hsize. eapply lookup_lt_Some; eauto.
      * intros pid page.
        destruct (lookup_lt_is_Some_2 (Global.memory (Global.frame_status vm))
                    (Global.nextFrame (Global.frame_status vm))) as [e He]; [lia|].
        destruct (is_free e) eqn:Hfree.
        -- eexists. exists (Some (Global.nextFrame (Global.frame_status vm))).
           split; [apply (GlobalSteps.g_allocate_free pid page _ e He Hfree); lia|].
           intros f [= <-]. exact Hcur.
        -- exists (Global.frame_status vm), None.
           split; [apply (GlobalSteps.g_allocate_full pid page _ e He Hfree) | discriminate].
      * intros pid page.
        destruct (lookup_lt_is_Some_2 (Global.memory (Global.frame_status vm))
                    (Global.nextFrame (Global.frame_status vm))) as [old Hold]; [lia|].
        eexists. exists old, (Global.nextFrame (Global.frame_status vm)).
        split; [apply GlobalSteps.g_fifo_eq; [exact Hold | lia] | exact Hcur].
      * intros Hlru Hfull pid page. rewrite <- Hp in Hlru.
        destruct (Global.cons_lru vm Hc Hlru) as [_ Hmem].
        destruct (Global.lru_list (Global.frame_status vm)) as [|f rest] eqn:El.
        { exfalso. assert (H0 : 0 ∈ @nil nat) by (apply Hmem, Hfull; lia).
          apply elem_of_nil in H0. exact H0. }
        destruct (proj1 (Hmem f) ltac:(left)) as (old & Hold & _).
        eexists. exists old, f.
        split; [apply (GlobalSteps.g_lru_eq pid page _ f rest old El Hold)|].
        rewrite <- Hsize. eapply lookup_lt_Some; eauto.
      * intros pid page ci.
        destruct (optimal_scan_ok (Global.memory (Global.frame_status vm)) trace ci)
          as (acc & Hscan & v & old & Hv & Hold & Hop & Hog & _); [lia|].
        rewrite Hsize in Hscan. pose proof (lookup_lt_Some _ _ _ Hold) as Hlt.
        eexists. exists old, v. rewrite <- Hop, <- Hog.
        split; [apply GlobalSteps.g_optimal_eq; assumption | lia].
      * intros pid page draw.
        assert (Hlt : draw mod Global.memoryFrames (Global.frame_status vm)
                      < Global.memoryFrames (Global.frame_status vm))
          by (apply Nat.mod_upper_bound; lia).
        destruct (lookup_lt_is_Some_2 (Global.memory (Global.frame_status vm))
                    (draw mod Global.memoryFrames (Global.frame_status vm)))
          as [old Hold]; [lia|].
        eexists.
        exists old, (draw mod Global.memoryFrames (Global.frame_status vm)).
        split; [apply GlobalSteps.g_random_eq; [lia | exact Hold] | exact Hlt].
  - intros rand policy pid page rest n Hv.
    unfold Global.after. simpl.
    assert (pid = 0 \/ pid = 1 \/ pid = 2 \/ pid = 3)%Z as [-> | [-> | [-> | ->]]]
      by (unfold valid_pid in Hv; lia);
      unfold Global.handleAccess; simpl; rewrite lookup_empty; reflexivity.
Qed.

Lemma X1_witness :
  exists vm,
    Global.after (fun n => n) 2 "random" crowding_trace 6 = Ok vm /\
    Global.nextFrame (Global.frame_status vm) < 2 /\
    Global.after (fun n => n) 0 "random" crowding_trace 6 = Err OutOfBounds.
Proof.
  destruct X1_global_in_bounds as [Hsafe Hzero].
  assert (Hvalid : valid_trace crowding_trace) by (apply valid_traceb_sound; reflexivity).
  destruct (GlobalAfter.g_after_total (fun n => n) 2 "random" crowding_trace 6
              ltac:(lia) Hvalid) as [vm Hvm].
  destruct (Hsafe (fun n => n) 2%Z "random" crowding_trace 6 ltac:(lia)) as [_ Hin].
  destruct (Hin vm Hvm) as (Hk & _ & Hcur & _).
  change (Z.to_nat 2) with 2 in Hk. rewrite Hk in Hcur.
  exists vm. split; [exact Hvm|]. split; [exact Hcur|].
  apply (Hzero (fun n => n) "random" 0%Z 7%N _ 5). unfold valid_pid. lia.
Defined.

Lemma valid_trace_take_S (trace : list (Z * N)) (n : nat) :
  valid_trace (take (S n) trace) <->
  valid_trace (take n trace) /\ forall r, trace !! n = Some r -> valid_pid r.1.
Proof.
  unfold valid_trace. destruct (trace !! n) as [r|] eqn:Hr.
  - rewrite (take_S_r _ _ _ Hr), Forall_app, Forall_singleton. split.
    + intros [H1 H2]. split; [exact H1|]. intros r' [= <-]. exact H2.
    + intros [H1 H2]. split; [exact H1 | apply H2; reflexivity].
  - apply lookup_ge_None in Hr. rewrite !take_ge by lia. split.
    + intros H. split; [exact H | discriminate].
    + tauto.
Qed.

(** X2. A run stops exactly on the first record that names none of the four
    processes: with at least one frame in the shared pool (four for the
    partitions), the state after [n] records exists exactly when the first
    [n] records name processes 0..3 only, and otherwise the run has stopped
    on the out-of-range [page_tables[process_id]]. *)
Theorem X2_stops_at_bad_process (rand : nat -> nat) (policy : string)
    (trace : list (Z * N)) (n : nat) (nfG nfL : Z) :
  (1 <= nfG)%Z -> (4 <= nfL)%Z ->
  ((exists vm, Global.after rand nfG policy trace n = Ok vm) <->
   valid_trace (take n trace)) /\
  (Global.after rand nfG policy trace n = Err BadProcess <->
   ~ valid_trace (take n trace)) /\
  ((exists vm, Local.after rand nfL policy trace n = Ok vm) <->
   valid_trace (take n trace)) /\
  (Local.after rand nfL policy trace n = Err BadProcess <->
   ~ valid_trace (take n trace)).
Proof.
  intros HG HL.
  assert (HGok : (exists vm, Global.after rand nfG policy trace n = Ok vm) <->
                 valid_trace (take n trace)).
  { induction n as [|n IH].
    - rewrite take_0. split; [intros _; apply Forall_nil_2|]. intros _.
      destruct (GlobalRuns.g_new_consistent nfG policy HG) as (vm0 & H0 & _).
      exists vm0. unfold Global.after. rewrite H0. reflexivity.
    - rewrite valid_trace_take_S, <- IH. split.
      + intros [vm' Hrun]. apply GlobalAfter.g_after_prefix in Hrun.
        destruct Hrun as (vm & Hvm & Hstep). split; [eauto|].
        intros r Hr. rewrite Hr in Hstep.
        destruct (GlobalAfter.g_after_consistent _ _ _ _ _ _ HG Hvm) as (Hc & _).
        apply GlobalRuns.g_handleAccess_Ok in Hstep; [tauto | exact Hc].
      + intros [[vm Hvm] Hpid]. rewrite GlobalAfter.g_after_S, Hvm. cbn [bind].
        destruct (trace !! n) as [r|]; [|eauto].
        destruct (GlobalAfter.g_after_consistent _ _ _ _ _ _ HG Hvm) as (Hc & _).
        destruct (GlobalInv.g_handleAccess_step rand r.1 r.2 trace n vm Hc (Hpid r eq_refl))
          as (vm' & Heq & _).
        exists vm'. exact Heq. }
  assert (HLok : (exists vm, Local.after rand nfL policy trace n = Ok vm) <->
                 valid_trace (take n trace)).
  { clear HGok. induction n as [|n IH].
    - rewrite take_0. split; [intros _; apply Forall_nil_2|]. intros _.
      destruct (LocalRuns.l_new_consistent nfL policy HL) as (vm0 & H0 & _).
      exists vm0. unfold Local.after. rewrite H0. reflexivity.
    - rewrite valid_trace_take_S, <- IH. split.
      + intros [vm' Hrun]. apply LocalAfter.l_after_prefix in Hrun.
        destruct Hrun as (vm & Hvm & Hstep). split; [eauto|].
        intros r Hr. rewrite Hr in Hstep.
        destruct (LocalAfter.l_after_consistent _ _ _ _ _ _ HL Hvm) as (Hc & _).
        apply LocalRuns.l_handleAccess_Ok in Hstep; [tauto | exact Hc].
      + intros [[vm Hvm] Hpid]. rewrite LocalAfter.l_after_S, Hvm. cbn [bind].
        destruct (trace !! n) as [r|]; [|eauto].
        destruct (LocalAfter.l_after_consistent _ _ _ _ _ _ HL Hvm) as (Hc & _).
        destruct (LocalInv.l_handleAccess_step rand r.1 r.2 trace n vm Hc (Hpid r eq_refl))
          as (vm' & Heq & _).
        exists vm'. exact Heq. }
  split; [exact HGok|]. split; [|split; [exact HLok|]].
  - rewrite <- HGok. split.
    + intros Herr [vm Hvm]. congruence.
    + intros Hno. destruct (Global.after rand nfG policy trace n) as [vm|e] eqn:E.
      * exfalso. apply Hno. eauto.
      * f_equal. eapply GlobalAfter.g_after_Err; eauto.
  - rewrite <- HLok. split.
    + intros Herr [vm Hvm]. congruence.
    + intros Hno. destruct (Local.after rand nfL policy trace n) as [vm|e] eqn:E.
      * exfalso. apply Hno. eauto.
      * f_equal. eapply LocalAfter.l_after_Err; eauto.
Qed.

Lemma X2_witness :
  (1 <= 2)%Z /\ (4 <= 4)%Z /\
  (exists vm, Global.after (fun _ => 0) 2 "lru" [(0%Z, 1%N); (4%Z, 1%N)] 1 = Ok vm) /\
  Global.after (fun _ => 0) 2 "lru" [(0%Z, 1%N); (4%Z, 1%N)] 2 = Err BadProcess /\
  Local.after (fun _ => 0) 4 "lru" [(0%Z, 1%N); ((-1)%Z, 1%N)] 2 = Err BadProcess.
Proof.
  assert (HG : (1 <= 2)%Z) by lia. assert (HL : (4 <= 4)%Z) by lia.
  split; [exact HG|]. split; [exact HL|].
  destruct (X2_stops_at_bad_process (fun _ => 0) "lru" [(0%Z, 1%N); (4%Z, 1%N)] 1 2 4 HG HL)
    as (H1 & _).
  destruct (X2_stops_at_bad_process (fun _ => 0) "lru" [(0%Z, 1%N); (4%Z, 1%N)] 2 2 4 HG HL)
    as (_ & H2 & _).
  destruct (X2_stops_at_bad_process (fun _ => 0) "lru" [(0%Z, 1%N); ((-1)%Z, 1%N)] 2 2 4 HG HL)
    as (_ & _ & _ & H3).
  split; [apply H1; apply valid_traceb_sound; reflexivity|].
  split.
  - apply H2. intros Hv. unfold valid_trace in Hv. simpl in Hv.
    apply Forall_cons in Hv. destruct Hv as [_ Hv]. apply Forall_cons in Hv.
    destruct Hv as [Hv _]. unfold valid_pid in Hv. simpl in Hv. lia.
  - apply H3. intros Hv. unfold valid_trace in Hv. simpl in Hv.
    apply Forall_cons in Hv. destruct Hv as [_ Hv]. apply Forall_cons in Hv.
    destruct Hv as [Hv _]. unfold valid_pid in Hv. simpl in Hv. lia.
Defined.

(** X3. Isolation of the partitions: in the partitioned engine an access of
    process [pid] leaves every other process as it was: the frames of its
    partition, its cursor, its recency list, the mappings of its page table
    and its fault counter.  In particular the page that an eviction displaces
    is a page of [pid] itself. *)
Theorem X3_local_isolation (rand : nat -> nat) (pid : Z) (page : N)
    (trace : list (Z * N)) (ci : nat) (vm vm' : Local.VirtualMemoryManager) :
  Local.reachable vm ->
  Local.handleAccess rand pid page trace ci vm = Ok vm' ->
  forall P, valid_pid P -> P <> pid ->
    Local.partition (Local.frame_status vm') P = Local.partition (Local.frame_status vm) P /\
    Local.cursor (Local.frame_status vm') P = Local.cursor (Local.frame_status vm) P /\
    Local.recency (Local.frame_status vm') P = Local.recency (Local.frame_status vm) P /\
    (forall p, lookup_page (Local.page_tables vm') P p
               = lookup_page (Local.page_tables vm) P p) /\
    faults_of (Local.page_tables vm') (Z.to_nat P)
    = faults_of (Local.page_tables vm) (Z.to_nat P).
Proof.
  intros Hreach Hrun P HP Hne.
  pose proof (LocalRuns.l_reachable_consistent vm Hreach) as Hc.
  apply LocalRuns.l_handleAccess_Ok in Hrun; [|exact Hc]. destruct Hrun as [Hv Hstep].
  pose proof (Local.cons_rows vm Hc) as Hrows.
  pose proof (Local.cons_cursors vm Hc) as Hcursors.
  pose proof (Local.cons_lists vm Hc) as Hlists.
  destruct (LocalCache.l_step_other rand pid page trace ci vm vm' P Hc Hv HP Hne Hstep)
    as [Hpart Hfaults].
  split; [exact Hpart|].
  assert (Hq : Z.to_nat pid <> Z.to_nat P).
  { intros Heq. apply Hne. apply LocalInv.valid_pid_inj; auto. }
  assert (Hpair : forall p, ~ (P = pid /\ p = page)) by (intros p [H _]; contradiction).
  destruct Hstep as [f Hlook | f pts' Hlook Hff _ Hi
                    | f old next lru calls pts' Hlook Hfull Hch Hold _ Hi
                    | pts' Hlook Hfull Hunk _ Hsame].
  - destruct (String.eqb (Local.replacement_policy vm) "lru"); simpl.
    + split; [reflexivity|]. split; [|split; [reflexivity | exact Hfaults]].
      unfold Local.recency, Local.row_set. simpl.
      rewrite list_lookup_insert_ne by exact Hq. reflexivity.
    + split; [reflexivity|]. split; [reflexivity|]. split; [reflexivity | exact Hfaults].
  - simpl in *. rewrite LocalInv.l_cursor_placed, LocalInv.l_recency_placed by assumption.
    destruct (decide (P = pid)) as [|_]; [contradiction|].
    split; [reflexivity|]. split; [reflexivity|]. split; [|exact Hfaults].
    intros p. rewrite (Hi P p).
    destruct (decide (P = pid /\ p = page)) as [H|_]; [destruct (Hpair p H)|].
    destruct (decide (None = Some (P, p))) as [H|_]; [discriminate | reflexivity].
  - simpl in *. rewrite LocalInv.l_cursor_placed, LocalInv.l_recency_placed by assumption.
    destruct (decide (P = pid)) as [|_]; [contradiction|].
    split; [reflexivity|]. split; [reflexivity|]. split; [|exact Hfaults].
    intros p. rewrite (Hi P p).
    destruct (decide (P = pid /\ p = page)) as [H|_]; [destruct (Hpair p H)|].
    destruct (decide (Some old = Some (P, p))) as [[= ->]|_]; [|reflexivity].
    exfalso. apply Hne.
    destruct (Hfull f) as (e & He & Hocc); [eapply lookup_lt_Some; eauto|].
    assert (e = (P, p)) by congruence. subst e.
    apply (Local.cons_own vm Hc pid f (P, p) Hv Hold Hocc).
  - simpl in *. split; [reflexivity|]. split; [reflexivity|].
    split; [intros p; apply Hsame | exact Hfaults].
Qed.

Lemma X3_witness :
  exists vm vm',
    Local.after (fun _ => 0) 4 "fifo" crowding_trace 2 = Ok vm /\
    Local.handleAccess (fun _ => 0) 1 2 crowding_trace 2 vm = Ok vm' /\
    Local.partition (Local.frame_status vm') 0 = [(0%Z, 7%N)] /\
    Local.partition (Local.frame_status vm') 0 = Local.partition (Local.frame_status vm) 0 /\
    lookup_page (Local.page_tables vm') 0 7 = lookup_page (Local.page_tables vm) 0 7.
Proof.
  assert (Hvalid : valid_trace crowding_trace) by (apply valid_traceb_sound; reflexivity).
  destruct (LocalAfter.l_after_total (fun _ => 0) 4 "fifo" crowding_trace 2
              ltac:(lia) Hvalid) as [vm Hvm].
  destruct (LocalAfter.l_after_total (fun _ => 0) 4 "fifo" crowding_trace 3
              ltac:(lia) Hvalid) as [vm' Hvm'].
  assert (Hr : Local.reachable vm).
  { exists (fun _ => 0), 4%Z, "fifo", crowding_trace, 2. split; [lia | exact Hvm]. }
  assert (Hstep : Local.handleAccess (fun _ => 0) 1 2 crowding_trace 2 vm = Ok vm').
  { rewrite LocalAfter.l_after_S, Hvm in Hvm'. exact Hvm'. }
  destruct (X3_local_isolation (fun _ => 0) 1 2 crowding_trace 2 vm vm' Hr Hstep 0%Z)
    as (Hpart & _ & _ & Hlook & _); [unfold valid_pid; lia | lia |].
  pose proof Hvm' as Hc'. vm_compute in Hc'. injection Hc' as Hc'.
  exists vm, vm'. split; [exact Hvm|]. split; [exact Hstep|].
  split; [rewrite <- Hc'; reflexivity|]. split; [exact Hpart | apply Hlook].
Defined.

(** ** What an access reads: the draws and the trace *)

Module GlobalReads.
Import Global.

Lemma g_remap_fixed (vm vm' : VirtualMemoryManager) (pid : Z) (page : N) (calls : nat)
    (r : FrameStatus * (Z * N * nat)) :
  remap vm pid page calls r = Ok vm' ->
  replacement_policy vm' = replacement_policy vm /\ num_frames vm' = num_frames vm.
Proof.
  destruct r as [fs [[op og] ef]]. unfold remap. intros H.
  inv_bind H. inv_bind H. injection H as <-. auto.
Qed.

(** An access changes neither the policy nor the configured frame count. *)
Lemma g_access_fixed (rand : nat -> nat) (pid : Z) (page : N)
    (trace : list (Z * N)) (ci : nat) (vm vm' : VirtualMemoryManager) :
  handleAccess rand pid page trace ci vm = Ok vm' ->
  replacement_policy vm' = replacement_policy vm /\ num_frames vm' = num_frames vm.
Proof.
  unfold handleAccess. intros H. inv_bind H.
  destruct (page_to_frame a !! page) as [f|].
  { destruct (String.eqb (replacement_policy vm) "lru"); injection H as <-; auto. }
  inv_bind H. simpl in H. inv_bind H. destruct a1 as [fs frame]. destruct frame as [f|].
  { inv_bind H. injection H as <-. auto. }
  repeat match type of H with
         | (if ?b then _ else _) = _ => destruct b
         end;
    try (inv_bind H; apply g_remap_fixed in H; exact H).
  injection H as <-. auto.
Qed.

Lemma g_access_rand (rand rand' : nat -> nat) (pid : Z) (page : N)
    (trace : list (Z * N)) (ci : nat) (vm : VirtualMemoryManager) :
  replacement_policy vm <> "random" ->
  handleAccess rand pid page trace ci vm = handleAccess rand' pid page trace ci vm.
Proof.
  intros Hp. unfold handleAccess.
  destruct (table_get (page_tables vm) pid) as [t|]; [|reflexivity]. simpl.
  destruct (page_to_frame t !! page); [reflexivity|].
  destruct (table_fault pid (page_tables vm)) as [pts|]; [|reflexivity]. simpl.
  destruct (allocateFrame pid page (frame_status vm)) as [[fs [f|]]|]; try reflexivity.
  simpl. destruct (String.eqb (replacement_policy vm) "fifo"); [reflexivity|].
  destruct (String.eqb (replacement_policy vm) "lru"); [reflexivity|].
  destruct (String.eqb (replacement_policy vm) "optimal"); [reflexivity|].
  destruct (String.eqb (replacement_policy vm) "random") eqn:E; [|reflexivity].
  apply String.eqb_eq in E. contradiction.
Qed.

Lemma g_access_trace (rand : nat -> nat) (pid : Z) (page : N)
    (trace trace' : list (Z * N)) (ci ci' : nat) (vm : VirtualMemoryManager) :
  replacement_policy vm <> "optimal" ->
  handleAccess rand pid page trace ci vm = handleAccess rand pid page trace' ci' vm.
Proof.
  intros Hp. unfold handleAccess.
  destruct (table_get (page_tables vm) pid) as [t|]; [|reflexivity]. simpl.
  destruct (page_to_frame t !! page); [reflexivity|].
  destruct (table_fault pid (page_tables vm)) as [pts|]; [|reflexivity]. simpl.
  destruct (allocateFrame pid page (frame_status vm)) as [[fs [f|]]|]; try reflexivity.
  simpl. destruct (String.eqb (replacement_policy vm) "fifo"); [reflexivity|].
  destruct (String.eqb (replacement_policy vm) "lru"); [reflexivity|].
  destruct (String.eqb (replacement_policy vm) "optimal") eqn:E; [|reflexivity].
  apply String.eqb_eq in E. contradiction.
Qed.

Lemma g_loop_rand (rand rand' : nat -> nat) (trace : list (Z * N)) (fuel i : nat)
    (vm : VirtualMemoryManager) :
  replacement_policy vm <> "random" ->
  access_loop rand trace fuel i vm = access_loop rand' trace fuel i vm.
Proof.
  revert i vm. induction fuel as [|fuel IH]; intros i vm Hp; [reflexivity|].
  simpl. destruct (trace !! i) as [r|]; [|reflexivity].
  rewrite (g_access_rand rand rand') by exact Hp.
  destruct (handleAccess rand' r.1 r.2 trace i vm) as [vm1|] eqn:E; [|reflexivity].
  simpl. apply IH. apply g_access_fixed in E. destruct E as [-> _]. exact Hp.
Qed.

Lemma g_loop_trace (rand : nat -> nat) (t t' : list (Z * N)) (fuel i : nat)
    (vm : VirtualMemoryManager) :
  replacement_policy vm <> "optimal" -> i + fuel <= length t ->
  access_loop rand (t ++ t') fuel i vm = access_loop rand t fuel i vm.
Proof.
  revert i vm. induction fuel as [|fuel IH]; intros i vm Hp Hlen; [reflexivity|].
  simpl. rewrite lookup_app_l by lia. destruct (t !! i) as [r|]; [|reflexivity].
  rewrite (g_access_trace rand r.1 r.2 (t ++ t') t i i) by exact Hp.
  destruct (handleAccess rand r.1 r.2 t i vm) as [vm1|] eqn:E; [|reflexivity].
  simpl. apply IH; [|lia]. apply g_access_fixed in E. destruct E as [-> _]. exact Hp.
Qed.

Lemma g_new_policy (nf : Z) (policy : string) (vm : VirtualMemoryManager) :
  VirtualMemoryManager_new nf policy = Ok vm -> replacement_policy vm = policy.
Proof.
  unfold VirtualMemoryManager_new. intros H. inv_bind H. injection H as <-. reflexivity.
Qed.

End GlobalReads.

Module LocalReads.
Import Local.

Lemma l_remap_fixed (vm vm' : VirtualMemoryManager) (pid : Z) (page : N) (calls : nat)
    (r : FrameStatus * (Z * N * nat)) :
  remap vm pid page calls r = Ok vm' ->
  replacement_policy vm' = replacement_policy vm /\ num_frames vm' = num_frames vm.
Proof.
  destruct r as [fs [[op og] ef]]. unfold remap. intros H.
  inv_bind H. inv_bind H. injection H as <-. auto.
Qed.

Lemma l_access_fixed (rand : nat -> nat) (pid : Z) (page : N)
    (trace : list (Z * N)) (ci : nat) (vm vm' : VirtualMemoryManager) :
  handleAccess rand pid page trace ci vm = Ok vm' ->
  replacement_policy vm' = replacement_policy vm /\ num_frames vm' = num_frames vm.
Proof.
  unfold handleAccess. intros H. inv_bind H.
  destruct (page_to_frame a !! page) as [f|].
  { destruct (String.eqb (replacement_policy vm) "lru"); [inv_bind H|];
      injection H as <-; auto. }
  inv_bind H. simpl in H. inv_bind H. destruct a1 as [fs frame]. destruct frame as [f|].
  { inv_bind H. injection H as <-. auto. }
  repeat match type of H with
         | (if ?b then _ else _) = _ => destruct b
         end;
    try (inv_bind H; apply l_remap_fixed in H; exact H).
  injection H as <-. auto.
Qed.

Lemma l_access_rand (rand rand' : nat -> nat) (pid : Z) (page : N)
    (trace : list (Z * N)) (ci : nat) (vm : VirtualMemoryManager) :
  replacement_policy vm <> "random" ->
  handleAccess rand pid page trace ci vm = handleAccess rand' pid page trace ci vm.
Proof.
  intros Hp. unfold handleAccess.
  destruct (table_get (page_tables vm) pid) as [t|]; [|reflexivity]. simpl.
  destruct (page_to_frame t !! page); [reflexivity|].
  destruct (table_fault pid (page_tables vm)) as [pts|]; [|reflexivity]. simpl.
  destruct (allocateFrame pid page (frame_status vm)) as [[fs [f|]]|]; try reflexivity.
  simpl. destruct (String.eqb (replacement_policy vm) "fifo"); [reflexivity|].
  destruct (String.eqb (replacement_policy vm) "lru"); [reflexivity|].
  destruct (String.eqb (replacement_policy vm) "optimal"); [reflexivity|].
  destruct (String.eqb (replacement_policy vm) "random") eqn:E; [|reflexivity].
  apply String.eqb_eq in E. contradiction.
Qed.

Lemma l_access_trace (rand : nat -> nat) (pid : Z) (page : N)
    (trace trace' : list (Z * N)) (ci ci' : nat) (vm : VirtualMemoryManager) :
  replacement_policy vm <> "optimal" ->
  handleAccess rand pid page trace ci vm = handleAccess rand pid page trace' ci' vm.
Proof.
  intros Hp. unfold handleAccess.
  destruct (table_get (page_tables vm) pid) as [t|]; [|reflexivity]. simpl.
  destruct (page_to_frame t !! page); [reflexivity|].
  destruct (table_fault pid (page_tables vm)) as [pts|]; [|reflexivity]. simpl.
  destruct (allocateFrame pid page (frame_status vm)) as [[fs [f|]]|]; try reflexivity.
  simpl. destruct (String.eqb (replacement_policy vm) "fifo"); [reflexivity|].
  destruct (String.eqb (replacement_policy vm) "lru"); [reflexivity|].
  destruct (String.eqb (replacement_policy vm) "optimal") eqn:E; [|reflexivity].
  apply String.eqb_eq in E. contradiction.
Qed.

Lemma l_loop_rand (rand rand' : nat -> nat) (trace : list (Z * N)) (fuel i : nat)
    (vm : VirtualMemoryManager) :
  replacement_policy vm <> "random" ->
  access_loop rand trace fuel i vm = access_loop rand' trace fuel i vm.
Proof.
  revert i vm. induction fuel as [|fuel IH]; intros i vm Hp; [reflexivity|].
  simpl. destruct (trace !! i) as [r|]; [|reflexivity].
  rewrite (l_access_rand rand rand') by exact Hp.
  destruct (handleAccess rand' r.1 r.2 trace i vm) as [vm1|] eqn:E; [|reflexivity].
  simpl. apply IH. apply l_access_fixed in E. destruct E as [-> _]. exact Hp.
Qed.

Lemma l_loop_trace (rand : nat -> nat) (t t' : list (Z * N)) (fuel i : nat)
    (vm : VirtualMemoryManager) :
  replacement_policy vm <> "optimal" -> i + fuel <= length t ->
  access_loop rand (t ++ t') fuel i vm = access_loop rand t fuel i vm.
Proof.
  revert i vm. induction fuel as [|fuel IH]; intros i vm Hp Hlen; [reflexivity|].
  simpl. rewrite lookup_app_l by lia. destruct (t !! i) as [r|]; [|reflexivity].
  rewrite (l_access_trace rand r.1 r.2 (t ++ t') t i i) by exact Hp.
  destruct (handleAccess rand r.1 r.2 t i vm) as [vm1|] eqn:E; [|reflexivity].
  simpl. apply IH; [|lia]. apply l_access_fixed in E. destruct E as [-> _]. exact Hp.
Qed.

Lemma l_new_policy (nf : Z) (policy : string) (vm : VirtualMemoryManager) :
  VirtualMemoryManager_new nf policy = Ok vm -> replacement_policy vm = policy.
Proof.
  unfold VirtualMemoryManager_new. intros H. inv_bind H. injection H as <-. reflexivity.
Qed.

End LocalReads.

(** X4. Only the random policy reads the random draws: under every other
    policy string the two engines report the same fault counts whatever the
    sequence of draws, for every trace and frame count. *)
Theorem X4_draws_only_random (rand rand' : nat -> nat) (nf : Z) (policy : string)
    (trace : list (Z * N)) :
  policy <> "random" ->
  Global.runSimulation rand nf policy trace = Global.runSimulation rand' nf policy trace /\
  Local.runSimulation rand nf policy trace = Local.runSimulation rand' nf policy trace.
Proof.
  intros Hp. unfold Global.runSimulation, Local.runSimulation, Global.after, Local.after.
  split.
  - destruct (Global.VirtualMemoryManager_new nf policy) as [vm0|] eqn:E0; [|reflexivity].
    simpl. rewrite (GlobalReads.g_loop_rand rand rand'); [reflexivity|].
    rewrite (GlobalReads.g_new_policy _ _ _ E0). exact Hp.
  - destruct (Local.VirtualMemoryManager_new nf policy) as [vm0|] eqn:E0; [|reflexivity].
    simpl. rewrite (LocalReads.l_loop_rand rand rand'); [reflexivity|].
    rewrite (LocalReads.l_new_policy _ _ _ E0). exact Hp.
Qed.

Lemma X4_witness :
  "lru" <> "random" /\
  Global.runSimulation (fun _ => 0) 2 "lru" crowding_trace
  = Global.runSimulation (fun n => n) 2 "lru" crowding_trace /\
  Local.runSimulation (fun _ => 0) 8 "lru" crowding_trace
  = Local.runSimulation (fun n => n) 8 "lru" crowding_trace.
Proof.
  assert (Hp : "lru" <> "random") by discriminate.
  split; [exact Hp|].
  split.
  - exact (proj1 (X4_draws_only_random (fun _ => 0) (fun n => n) 2 "lru" crowding_trace Hp)).
  - exact (proj2 (X4_draws_only_random (fun _ => 0) (fun n => n) 8 "lru" crowding_trace Hp)).
Defined.

(** X5. The policies other than [optimal] are online: the state after the
    first [n] records does not depend on the records that follow.  Only
    [optimalReplacement] reads the trace beyond the current record. *)
Theorem X5_online_policies (rand : nat -> nat) (nf : Z) (policy : string)
    (t t' : list (Z * N)) (n : nat) :
  policy <> "optimal" -> n <= length t ->
  Global.after rand nf policy (t ++ t') n = Global.after rand nf policy t n /\
  Local.after rand nf policy (t ++ t') n = Local.after rand nf policy t n.
Proof.
  intros Hp Hn. unfold Global.after, Local.after. split.
  - destruct (Global.VirtualMemoryManager_new nf policy) as [vm0|] eqn:E0; [|reflexivity].
    simpl. apply GlobalReads.g_loop_trace; [|lia].
    rewrite (GlobalReads.g_new_policy _ _ _ E0). exact Hp.
  - destruct (Local.VirtualMemoryManager_new nf policy) as [vm0|] eqn:E0; [|reflexivity].
    simpl. apply LocalReads.l_loop_trace; [|lia].
    rewrite (LocalReads.l_new_policy _ _ _ E0). exact Hp.
Qed.

Lemma X5_witness :
  "fifo" <> "optimal" /\ 3 <= length (take 3 crowding_trace) /\
  Global.after (fun _ => 0) 2 "fifo" crowding_trace 3
  = Global.after (fun _ => 0) 2 "fifo" (take 3 crowding_trace) 3.
Proof.
  assert (Hp : "fifo" <> "optimal") by discriminate.
  assert (Hn : 3 <= length (take 3 crowding_trace)) by (simpl; lia).
  split; [exact Hp|]. split; [exact Hn|].
  exact (proj1 (X5_online_policies (fun _ => 0) 2 "fifo" (take 3 crowding_trace)
                  (drop 3 crowding_trace) 3 Hp Hn)).
Defined.

(** X6. An access under one of the four policies leaves its page resident:
    after the access the page table of the process maps the page to a frame
    that holds exactly this page, so that accessing the same page again at
    once is a hit, which moves no fault counter and changes neither the page
    tables nor the frames. *)
Theorem X6_access_makes_resident (rand : nat -> nat) (pid : Z) (page : N)
    (trace : list (Z * N)) (ci : nat) :
  (forall vm vm', Global.reachable vm -> known_policy (Global.replacement_policy vm) ->
     Global.handleAccess rand pid page trace ci vm = Ok vm' ->
     exists f,
       lookup_page (Global.page_tables vm') pid page = Some f /\
       Global.memory (Global.frame_status vm') !! f = Some (pid, page) /\
       forall trace2 ci2, exists vm'',
         Global.handleAccess rand pid page trace2 ci2 vm' = Ok vm'' /\
         Global.global_page_fault_count vm'' = Global.global_page_fault_count vm' /\
         Global.page_tables vm'' = Global.page_tables vm' /\
         Global.memory (Global.frame_status vm'') = Global.memory (Global.frame_status vm')) /\
  (forall vm vm', Local.reachable vm -> known_policy (Local.replacement_policy vm) ->
     Local.handleAccess rand pid page trace ci vm = Ok vm' ->
     exists f,
       lookup_page (Local.page_tables vm') pid page = Some f /\
       Local.partition (Local.frame_status vm') pid !! f = Some (pid, page) /\
       forall trace2 ci2, exists vm'',
         Local.handleAccess rand pid page trace2 ci2 vm' = Ok vm'' /\
         Local.global_page_fault_count vm'' = Local.global_page_fault_count vm' /\
         Local.page_tables vm'' = Local.page_tables vm' /\
         Local.memory (Local.frame_status vm'') = Local.memory (Local.frame_status vm')).
Proof.
  split.
  - intros vm vm' Hreach Hknown Hrun.
    pose proof (GlobalRuns.g_reachable_consistent vm Hreach) as Hc.
    apply GlobalRuns.g_handleAccess_Ok in Hrun; [|exact Hc]. destruct Hrun as [Hv Hstep].
    pose proof (GlobalInv.g_step_consistent _ _ _ _ _ _ _ Hc Hv Hstep) as Hc'.
    assert (Hres : exists f, lookup_page (Global.page_tables vm') pid page = Some f).
    { destruct Hstep as [f Hlook | e pts' Hlook He Hfree _ Hi
                        | f old next lru calls pts' Hlook Hfull Hch Hold _ Hi
                        | pts' Hlook Hfull Hunk _ _].
      - exists f. destruct (String.eqb (Global.replacement_policy vm) "lru"); exact Hlook.
      - eexists. simpl. rewrite (Hi pid page).
        destruct (decide (pid = pid /\ page = page)) as [_|H]; [reflexivity | tauto].
      - eexists. simpl. rewrite (Hi pid page).
        destruct (decide (pid = pid /\ page = page)) as [_|H]; [reflexivity | tauto].
      - contradiction. }
    destruct Hres as [f Hf]. exists f. split; [exact Hf|].
    split; [apply (Global.cons_bij vm' Hc'); exact Hf|].
    intros trace2 ci2. eexists.
    split; [apply GlobalSteps.g_access_hit; exact Hf|].
    destruct (String.eqb (Global.replacement_policy vm') "lru"); simpl; auto.
  - intros vm vm' Hreach Hknown Hrun.
    pose proof (LocalRuns.l_reachable_consistent vm Hreach) as Hc.
    apply LocalRuns.l_handleAccess_Ok in Hrun; [|exact Hc]. destruct Hrun as [Hv Hstep].
    pose proof (LocalInv.l_step_consistent _ _ _ _ _ _ _ Hc Hv Hstep) as Hc'.
    assert (Hres : exists f, lookup_page (Local.page_tables vm') pid page = Some f).
    { destruct Hstep as [f Hlook | f pts' Hlook Hff _ Hi
                        | f old next lru calls pts' Hlook Hfull Hch Hold _ Hi
                        | pts' Hlook Hfull Hunk _ _].
      - exists f. destruct (String.eqb (Local.replacement_policy vm) "lru"); exact Hlook.
      - eexists. simpl. rewrite (Hi pid page).
        destruct (decide (pid = pid /\ page = page)) as [_|H]; [reflexivity | tauto].
      - eexists. simpl. rewrite (Hi pid page).
        destruct (decide (pid = pid /\ page = page)) as [_|H]; [reflexivity | tauto].
      - contradiction. }
    destruct Hres as [f Hf]. exists f. split; [exact Hf|].
    split; [apply (Local.cons_bij vm' Hc'); exact Hf|].
    intros trace2 ci2.
    rewrite (LocalSteps.l_access_hit rand pid page trace2 ci2 vm' Hv
               (Local.cons_tables vm' Hc') (Local.cons_rows vm' Hc')
               (Local.cons_cursors vm' Hc') (Local.cons_lists vm' Hc') f Hf).
    eexists. split; [reflexivity|].
    destruct (String.eqb (Local.replacement_policy vm') "lru"); simpl; auto.
Qed.

Lemma X6_witness :
  exists vm vm' vm'',
    Global.after (fun _ => 0) 1 "fifo" crowding_trace 1 = Ok vm /\
    Global.handleAccess (fun _ => 0) 1 1 crowding_trace 1 vm = Ok vm' /\
    lookup_page (Global.page_tables vm') 1 1 = Some 0 /\
    Global.handleAccess (fun _ => 0) 1 1 crowding_trace 2 vm' = Ok vm'' /\
    Global.global_page_fault_count vm'' = Global.global_page_fault_count vm'.
Proof.
  assert (Hvalid : valid_trace crowding_trace) by (apply valid_traceb_sound; reflexivity).
  destruct (GlobalAfter.g_after_total (fun _ => 0) 1 "fifo" crowding_trace 1
              ltac:(lia) Hvalid) as [vm Hvm].
  destruct (GlobalAfter.g_after_total (fun _ => 0) 1 "fifo" crowding_trace 2
              ltac:(lia) Hvalid) as [vm' Hvm'].
  assert (Hr : Global.reachable vm).
  { exists (fun _ => 0), 1%Z, "fifo", crowding_trace, 1. split; [lia | exact Hvm]. }
  assert (Hstep : Global.handleAccess (fun _ => 0) 1 1 crowding_trace 1 vm = Ok vm').
  { rewrite GlobalAfter.g_after_S, Hvm in Hvm'. exact Hvm'. }
  pose proof Hvm as Hc. vm_compute in Hc. injection Hc as Hc.
  pose proof Hvm' as Hc'. vm_compute in Hc'. injection Hc' as Hc'.
  destruct (X6_access_makes_resident (fun _ => 0) 1 1 crowding_trace 1) as [HG _].
  destruct (HG vm vm' Hr) as (f & Hf & _ & Hagain); [|exact Hstep|].
  { rewrite <- Hc. left. reflexivity. }
  destruct (Hagain crowding_trace 2) as (vm'' & H2 & Hg & _).
  exists vm, vm', vm''. split; [exact Hvm|]. split; [exact Hstep|].
  split; [rewrite <- Hc'; vm_compute; reflexivity|]. split; [exact H2 | exact Hg].
Defined.

(** ** The recency list under [lru] *)

Lemma list_remove_head (f : nat) (l : list nat) :
  list_remove f (f :: l) = list_remove f l.
Proof. unfold list_remove. rewrite filter_cons_False by auto. reflexivity. Qed.

Lemma StronglySorted_filter_keep {A : Type} (R : A -> A -> Prop) (P : A -> Prop)
    `{forall x, Decision (P x)} (l : list A) :
  StronglySorted R l -> StronglySorted R (filter P l).
Proof.
  induction 1 as [|x l Hs IH Hall]; [constructor|].
  destruct (decide (P x)).
  - rewrite filter_cons_True by assumption. constructor; [exact IH|].
    rewrite Forall_forall in *. intros y Hy. apply list_elem_of_filter in Hy. apply Hall, Hy.
  - rewrite filter_cons_False by assumption. exact IH.
Qed.

Lemma StronglySorted_within {A : Type} (R R' : A -> A -> Prop) (l : list A) :
  StronglySorted R l -> (forall a b, a ∈ l -> b ∈ l -> R a b -> R' a b) ->
  StronglySorted R' l.
Proof.
  induction 1 as [|x l Hs IH Hall]; intros Himp; [constructor|].
  constructor.
  - apply IH. intros a b Ha Hb. apply Himp; right; assumption.
  - rewrite Forall_forall in *. intros y Hy. apply Himp; [left | right; exact Hy | auto].
Qed.

Lemma recent_later (lru : list nat) (n : nat) (times : list (option nat)) :
  recent lru n times -> recent lru (S n) times.
Proof.
  intros (Hmem & Hlt & Hs). split; [exact Hmem|]. split; [|exact Hs].
  intros f t Hf. specialize (Hlt f t Hf). lia.
Qed.

(** The frame that an access touches becomes the most recently used. *)
Lemma recent_touch (lru : list nat) (n : nat) (times : list (option nat)) (f : nat) :
  recent lru n times -> f < length times ->
  recent (list_remove f lru ++ [f]) (S n) (<[f := Some n]> times).
Proof.
  intros (Hmem & Hlt & Hs) Hf.
  assert (Hstamp : forall g t, <[f := Some n]> times !! g = Some (Some t) ->
            (g = f /\ t = n) \/ (g <> f /\ times !! g = Some (Some t))).
  { intros g t Hg. destruct (decide (g = f)) as [->|Hne].
    - rewrite list_lookup_insert_eq in Hg by lia. left. split; congruence.
    - rewrite list_lookup_insert_ne in Hg by congruence. auto. }
  split; [|split].
  - intros g. rewrite elem_of_app, list_remove_elem, list_elem_of_singleton, Hmem. split.
    + intros [[Hne [t Ht]]| ->].
      * exists t. rewrite list_lookup_insert_ne by congruence. exact Ht.
      * exists n. rewrite list_lookup_insert_eq by lia. reflexivity.
    + intros [t Ht]. apply Hstamp in Ht. destruct Ht as [[-> _]|[Hne Ht]]; [right; reflexivity|].
      left. split; [exact Hne | eauto].
  - intros g t Hg. apply Hstamp in Hg. destruct Hg as [[_ ->]|[_ Hg]]; [lia|].
    specialize (Hlt g t Hg). lia.
  - apply StronglySorted_app. split; [|split].
    + intros g h Hg Hh tg th Htg Hth.
      apply list_elem_of_singleton in Hh. subst h.
      apply list_remove_elem in Hg. destruct Hg as [Hne _].
      rewrite list_lookup_insert_eq in Hth by lia. injection Hth as <-.
      rewrite list_lookup_insert_ne in Htg by congruence. apply (Hlt g tg Htg).
    + apply (StronglySorted_within (older times)).
      * apply StronglySorted_filter_keep. exact Hs.
      * intros a b Ha Hb Hab ta tb Hta Htb.
        apply list_remove_elem in Ha. apply list_remove_elem in Hb.
        rewrite list_lookup_insert_ne in Hta by (destruct Ha; congruence).
        rewrite list_lookup_insert_ne in Htb by (destruct Hb; congruence).
        apply (Hab ta tb Hta Htb).
    + repeat constructor.
Qed.

(** The head of the recency list was touched before every other listed
    frame. *)
Lemma recent_oldest (f : nat) (rest : list nat) (n : nat) (times : list (option nat)) :
  recent (f :: rest) n times ->
  exists t, times !! f = Some (Some t) /\
    forall g, g ∈ rest -> exists t', times !! g = Some (Some t') /\ t < t'.
Proof.
  intros (Hmem & Hlt & Hs).
  destruct (proj1 (Hmem f) ltac:(left)) as [t Ht]. exists t. split; [exact Ht|].
  intros g Hg. destruct (proj1 (Hmem g) ltac:(right; exact Hg)) as [t' Ht'].
  exists t'. split; [exact Ht'|].
  apply StronglySorted_cons in Hs. destruct Hs as [Hall _].
  rewrite Forall_forall in Hall. apply (Hall g Hg t t' Ht Ht').
Qed.

Lemma recent_new (n : nat) : recent [] 0 (replicate n None).
Proof.
  split; [|split].
  - intros f. split.
    + intros H. apply elem_of_nil in H. contradiction.
    + intros (t & Ht). apply lookup_replicate in Ht. destruct Ht as [[=] _].
  - intros f t Ht. apply lookup_replicate in Ht. destruct Ht as [[=] _].
  - constructor.
Qed.

Module GlobalLru.
Import Global GlobalSteps GlobalInv GlobalRuns GlobalAfter.

(** Under [lru] the access moves the frame of its page to the back of the
    recency list. *)
Lemma g_step_touch (rand : nat -> nat) (pid : Z) (page : N) (trace : list (Z * N))
    (ci : nat) (vm vm' : VirtualMemoryManager) :
  consistent vm -> valid_pid pid -> replacement_policy vm = "lru" ->
  step rand pid page trace ci vm vm' ->
  exists f, lookup_page (page_tables vm') pid page = Some f /\
    f < memoryFrames (frame_status vm) /\
    lru_list (frame_status vm') = list_remove f (lru_list (frame_status vm)) ++ [f].
Proof.
  intros Hc Hv Hlru Hstep.
  pose proof (cons_size vm Hc) as Hsize.
  pose proof (cons_cursor vm Hc) as Hcur.
  destruct (cons_lru vm Hc Hlru) as [Hnd Hmem].
  destruct Hstep as [f Hlook | e pts' Hlook He Hfree _ Hi
                    | f old next lru calls pts' Hlook Hfull Hch Hold _ Hi
                    | pts' Hlook Hfull Hunk _ _].
  - exists f. rewrite Hlru. simpl. split; [exact Hlook|]. split; [|reflexivity].
    apply (cons_bij vm Hc) in Hlook. destruct Hlook as [Hf _].
    rewrite <- Hsize. eapply lookup_lt_Some; eauto.
  - exists (nextFrame (frame_status vm)). simpl. split; [|split; [exact Hcur|]].
    + rewrite (Hi pid page).
      destruct (decide (pid = pid /\ page = page)) as [_|H]; [reflexivity | tauto].
    + rewrite list_remove_absent; [reflexivity|].
      intros Hin. apply Hmem in Hin. destruct Hin as (e' & He' & Hocc). congruence.
  - destruct Hch as [E|g rest E Hl'|g E Hvict|E]; try congruence.
    exists g. simpl. split; [|split].
    + rewrite (Hi pid page).
      destruct (decide (pid = pid /\ page = page)) as [_|H]; [reflexivity | tauto].
    + rewrite <- Hsize. eapply lookup_lt_Some; eauto.
    + rewrite Hl', list_remove_head. reflexivity.
  - exfalso. apply Hunk. right. left. exact Hlru.
Qed.

Theorem g_after_recent (rand : nat -> nat) (nf : Z) (trace : list (Z * N)) (n : nat)
    (vm : VirtualMemoryManager) :
  (1 <= nf)%Z -> after rand nf "lru" trace n = Ok vm ->
  length (g_use_times rand nf "lru" trace n) = memoryFrames (frame_status vm) /\
  recent (lru_list (frame_status vm)) n (g_use_times rand nf "lru" trace n).
Proof.
  intros Hnf. revert vm. induction n as [|n IH]; intros vm Hrun.
  - unfold after in Hrun. apply bind_Ok in Hrun. destruct Hrun as (vm0 & H0 & [= <-]).
    unfold VirtualMemoryManager_new, FrameStatus_new in H0.
    destruct (nf <? 0)%Z; [discriminate|]. simpl in H0. injection H0 as <-. simpl.
    split; [apply length_replicate | apply recent_new].
  - pose proof Hrun as Hnext. apply g_after_prefix in Hrun.
    destruct Hrun as (vm0 & H0 & Hstep). destruct (IH vm0 H0) as [Hlen Hrec].
    destruct (g_after_consistent _ _ _ _ _ _ Hnf H0) as (Hc & Hp & _).
    simpl. rewrite H0, Hnext. destruct (trace !! n) as [[pid page]|] eqn:Hr.
    + simpl in Hstep. apply g_handleAccess_Ok in Hstep; [|exact Hc].
      destruct Hstep as [Hv Hstep].
      pose proof (g_step_fixed _ _ _ _ _ _ _ Hstep) as (_ & _ & Hn).
      destruct (g_step_touch rand pid page trace n vm0 vm Hc Hv Hp Hstep)
        as (f & Hf & Hlt & Hl).
      simpl. rewrite Hf, Hl. split; [rewrite length_insert; congruence|].
      apply recent_touch; [exact Hrec | lia].
    + subst vm. split; [exact Hlen | apply recent_later; exact Hrec].
Qed.

End GlobalLru.

Module LocalLru.
Import Local LocalSteps LocalInv LocalRuns LocalAfter.

Lemma l_step_touch (rand : nat -> nat) (pid : Z) (page : N) (trace : list (Z * N))
    (ci : nat) (vm vm' : VirtualMemoryManager) :
  consistent vm -> valid_pid pid -> replacement_policy vm = "lru" ->
  step rand pid page trace ci vm vm' ->
  exists f, lookup_page (page_tables vm') pid page = Some f /\
    f < memoryFramesPerProcess (frame_status vm) /\
    recency (frame_status vm') pid = list_remove f (recency (frame_status vm) pid) ++ [f] /\
    forall P, valid_pid P -> P <> pid ->
      recency (frame_status vm') P = recency (frame_status vm) P.
Proof.
  intros Hc Hv Hlru Hstep.
  pose proof (cons_rows vm Hc) as Hrows.
  pose proof (cons_cursors vm Hc) as Hcursors.
  pose proof (cons_lists vm Hc) as Hlists.
  pose proof (cons_size vm Hc pid Hv) as Hsize.
  destruct (cons_lru vm Hc Hlru pid Hv) as [Hnd Hmem].
  destruct (valid_pid_lt pid Hv) as [_ Hq].
  assert (Hother : forall (l : list nat) P, valid_pid P -> P <> pid ->
            default [] (row_set (lru_list (frame_status vm)) pid l !! Z.to_nat P)
            = recency (frame_status vm) P).
  { intros l P HP Hne. unfold row_set, recency.
    rewrite list_lookup_insert_ne; [reflexivity|].
    intros Heq. apply Hne. symmetry. apply valid_pid_inj; assumption. }
  assert (Hself : forall (l : list nat),
            default [] (row_set (lru_list (frame_status vm)) pid l !! Z.to_nat pid) = l).
  { intros l. unfold row_set. rewrite list_lookup_insert_eq by lia. reflexivity. }
  destruct Hstep as [f Hlook | f pts' Hlook Hff _ Hi
                    | f old next lru calls pts' Hlook Hfull Hch Hold _ Hi
                    | pts' Hlook Hfull Hunk _ _].
  - exists f. rewrite Hlru. simpl. split; [exact Hlook|]. split; [|split].
    + apply (cons_bij vm Hc) in Hlook. destruct Hlook as [_ Hf].
      rewrite <- Hsize. eapply lookup_lt_Some; eauto.
    + unfold recency at 1. simpl. apply Hself.
    + intros P HP Hne. unfold recency at 1. simpl. apply Hother; assumption.
  - exists f. simpl. split; [|split; [|split]].
    + rewrite (Hi pid page).
      destruct (decide (pid = pid /\ page = page)) as [_|H]; [reflexivity | tauto].
    + rewrite <- Hsize. apply first_free_lt. exact Hff.
    + rewrite l_recency_placed by assumption.
      destruct (decide (pid = pid)) as [_|]; [|contradiction].
      rewrite list_remove_absent; [reflexivity|].
      intros Hin. apply Hmem in Hin. destruct Hin as (e' & He' & Hocc).
      destruct Hff as [(e & He & Hfree) _]. congruence.
    + intros P HP Hne. rewrite l_recency_placed by assumption.
      destruct (decide (P = pid)); [contradiction | reflexivity].
  - destruct Hch as [E|g rest E Hl'|g E Hvict|E]; try congruence.
    exists g. simpl. split; [|split; [|split]].
    + rewrite (Hi pid page).
      destruct (decide (pid = pid /\ page = page)) as [_|H]; [reflexivity | tauto].
    + rewrite <- Hsize. eapply lookup_lt_Some; eauto.
    + rewrite l_recency_placed by assumption.
      destruct (decide (pid = pid)) as [_|]; [|contradiction].
      rewrite Hl', list_remove_head. reflexivity.
    + intros P HP Hne. rewrite l_recency_placed by assumption.
      destruct (decide (P = pid)); [contradiction | reflexivity].
  - exfalso. apply Hunk. right. left. exact Hlru.
Qed.

Theorem l_after_recent (rand : nat -> nat) (nf : Z) (trace : list (Z * N)) (P : Z)
    (n : nat) (vm : VirtualMemoryManager) :
  (4 <= nf)%Z -> valid_pid P -> after rand nf "lru" trace n = Ok vm ->
  length (l_use_times rand nf "lru" trace P n) = memoryFramesPerProcess (frame_status vm) /\
  recent (recency (frame_status vm) P) n (l_use_times rand nf "lru" trace P n).
Proof.
  intros Hnf HP. revert vm. induction n as [|n IH]; intros vm Hrun.
  - destruct (l_after_consistent _ _ _ _ _ _ Hnf Hrun) as (Hc & _ & Hk).
    unfold after in Hrun. apply bind_Ok in Hrun. destruct Hrun as (vm0 & H0 & [= <-]).
    simpl. rewrite length_replicate. split; [symmetry; exact Hk|].
    replace (recency (frame_status vm0) P) with (@nil nat); [apply recent_new|].
    unfold VirtualMemoryManager_new in H0. apply bind_Ok in H0.
    destruct H0 as (fs & Hfs & [= <-]). unfold FrameStatus_new in Hfs.
    destruct (decide (4 = 0)); [discriminate|].
    destruct (_ <? 0)%Z; [discriminate|]. injection Hfs as <-.
    unfold recency. simpl. destruct (valid_pid_lt P HP) as [_ Hq].
    destruct (Z.to_nat P) as [|[|[|[|k]]]]; reflexivity.
  - pose proof Hrun as Hnext. apply l_after_prefix in Hrun.
    destruct Hrun as (vm0 & H0 & Hstep). destruct (IH vm0 H0) as [Hlen Hrec].
    destruct (l_after_consistent _ _ _ _ _ _ Hnf H0) as (Hc & Hp & _).
    simpl. rewrite H0, Hnext. destruct (trace !! n) as [[pid page]|] eqn:Hr.
    + simpl in Hstep. apply l_handleAccess_Ok in Hstep; [|exact Hc].
      destruct Hstep as [Hv Hstep].
      pose proof (l_step_fixed _ _ _ _ _ _ _ Hstep) as Hfix.
      assert (Hn : memoryFramesPerProcess (frame_status vm)
                   = memoryFramesPerProcess (frame_status vm0)) by tauto.
      destruct (l_step_touch rand pid page trace n vm0 vm Hc Hv Hp Hstep)
        as (f & Hf & Hlt & Hl & Hothers).
      simpl. destruct (decide (pid = P)) as [->|Hne].
      * rewrite Hf, Hl. split; [rewrite length_insert; congruence|].
        apply recent_touch; [exact Hrec | lia].
      * rewrite (Hothers P HP) by congruence.
        split; [congruence | apply recent_later; exact Hrec].
    + subst vm. split; [exact Hlen | apply recent_later; exact Hrec].
Qed.

End LocalLru.

(** X7. LRU eviction: on a miss with the reachable region full and the
    policy [lru], the frame at the front of the recency list is the one
    evicted, and it is the frame of the region that was touched (hit or
    assigned) the longest ago; the new page is installed in that frame, the
    displaced process, page and frame are returned, and the frame moves to
    the back of the recency list. *)
Theorem X7_lru_eviction (rand : nat -> nat) (nf : Z) (trace : list (Z * N)) (n : nat)
    (pid : Z) (page : N) (ci : nat) :
  (forall vm, (1 <= nf)%Z -> Global.after rand nf "lru" trace n = Ok vm ->
     valid_pid pid ->
     lookup_page (Global.page_tables vm) pid page = None ->
     full (Global.memory (Global.frame_status vm)) ->
     let fs := Global.frame_status vm in
     let times := g_use_times rand nf "lru" trace n in
     exists f rest old pts' t,
       Global.lru_list fs = f :: rest /\
       Global.memory fs !! f = Some old /\
       times !! f = Some (Some t) /\
       (forall g, g < length (Global.memory fs) -> g <> f ->
          exists t', times !! g = Some (Some t') /\ t < t') /\
       let fs' := Global.mkFrameStatus (Global.memoryFrames fs)
                    (<[f := (pid, page)]> (Global.memory fs))
                    (Global.nextFrame fs) (rest ++ [f]) in
       Global.lruReplacement pid page fs = Ok (fs', (old.1, old.2, f)) /\
       Global.handleAccess rand pid page trace ci vm =
       Ok (Global.mkVMM (Global.num_frames vm) (Global.replacement_policy vm) pts' fs'
             (S (Global.global_page_fault_count vm)) (Global.rand_calls vm)) /\
       installed (Global.page_tables vm) pts' pid page f (Some old)) /\
  (forall vm, (4 <= nf)%Z -> Local.after rand nf "lru" trace n = Ok vm ->
     valid_pid pid ->
     lookup_page (Local.page_tables vm) pid page = None ->
     full (Local.partition (Local.frame_status vm) pid) ->
     let fs := Local.frame_status vm in
     let times := l_use_times rand nf "lru" trace pid n in
     exists f rest old pts' t,
       Local.recency fs pid = f :: rest /\
       Local.partition fs pid !! f = Some old /\
       times !! f = Some (Some t) /\
       (forall g, g < length (Local.partition fs pid) -> g <> f ->
          exists t', times !! g = Some (Some t') /\ t < t') /\
       let fs' := Local.placed fs pid page f (Local.cursor fs pid) (rest ++ [f]) in
       Local.lruReplacement pid page fs = Ok (fs', (old.1, old.2, f)) /\
       Local.handleAccess rand pid page trace ci vm =
       Ok (Local.mkVMM (Local.num_frames vm) (Local.replacement_policy vm) pts' fs'
             (S (Local.global_page_fault_count vm)) (Local.rand_calls vm)) /\
       installed (Local.page_tables vm) pts' pid page f (Some old)).
Proof.
  split.
  - intros vm Hnf Hrun Hv Hmiss Hfull fs times. subst fs times. cbv zeta.
    destruct (GlobalAfter.g_after_consistent _ _ _ _ _ _ Hnf Hrun) as (Hc & Hlru & _).
    pose proof (Global.cons_size vm Hc) as Hsize.
    destruct (Global.cons_lru vm Hc Hlru) as [Hnd Hmem].
    destruct (GlobalLru.g_after_recent rand nf trace n vm Hnf Hrun) as [_ Hrec].
    destruct (GlobalInv.g_handleAccess_step rand pid page trace ci vm Hc Hv)
      as (vm' & Heq & Hstep).
    destruct Hstep as [f Hlook | e pts' Hlook He Hfree _ _
                      | f old next lru calls pts' Hlook _ Hch Hold _ Hi
                      | pts' Hlook _ Hunk _ _].
    + congruence.
    + exfalso. destruct (Hfull (Global.nextFrame (Global.frame_status vm)))
        as (e' & He' & Hocc); [eapply lookup_lt_Some; eauto | congruence].
    + destruct Hch as [E|g rest E Hl'|g E Hvict|E]; try congruence.
      rewrite Hl' in Hnd, Hrec, Hmem.
      assert (Hrest : list_remove g rest = rest).
      { apply list_remove_absent. apply NoDup_cons in Hnd. tauto. }
      rewrite Hrest in Heq.
      destruct (recent_oldest g rest n _ Hrec) as (t & Ht & Holder).
      exists g, rest, old, pts', t.
      split; [exact Hl'|]. split; [exact Hold|]. split; [exact Ht|]. split.
      * intros h Hh Hne. apply Holder.
        assert (Hin : h ∈ g :: rest) by (apply Hmem, Hfull; exact Hh).
        apply elem_of_cons in Hin. destruct Hin as [->|Hin]; [contradiction | exact Hin].
      * split; [|split; [exact Heq | exact Hi]].
        rewrite (GlobalSteps.g_lru_eq pid page _ g rest old Hl' Hold), Hrest. reflexivity.
    + exfalso. apply Hunk. right. left. exact Hlru.
  - intros vm Hnf Hrun Hv Hmiss Hfull fs times. subst fs times. cbv zeta.
    destruct (LocalAfter.l_after_consistent _ _ _ _ _ _ Hnf Hrun) as (Hc & Hlru & _).
    pose proof (Local.cons_rows vm Hc) as Hrows.
    pose proof (Local.cons_cursors vm Hc) as Hcursors.
    pose proof (Local.cons_lists vm Hc) as Hlists.
    pose proof (Local.cons_size vm Hc pid Hv) as Hsize.
    destruct (Local.cons_lru vm Hc Hlru pid Hv) as [Hnd Hmem].
    destruct (LocalLru.l_after_recent rand nf trace pid n vm Hnf Hv Hrun) as [_ Hrec].
    destruct (LocalInv.l_handleAccess_step rand pid page trace ci vm Hc Hv)
      as (vm' & Heq & Hstep).
    destruct Hstep as [f Hlook | f pts' Hlook Hff _ _
                      | f old next lru calls pts' Hlook _ Hch Hold _ Hi
                      | pts' Hlook _ Hunk _ _].
    + congruence.
    + exfalso. eapply LocalSteps.first_free_not_full; eauto.
    + destruct Hch as [E|g rest E Hl'|g E Hvict|E]; try congruence.
      rewrite Hl' in Hnd, Hrec, Hmem.
      assert (Hrest : list_remove g rest = rest).
      { apply list_remove_absent. apply NoDup_cons in Hnd. tauto. }
      rewrite Hrest in Heq.
      destruct (recent_oldest g rest n _ Hrec) as (t & Ht & Holder).
      exists g, rest, old, pts', t.
      split; [exact Hl'|]. split; [exact Hold|]. split; [exact Ht|]. split.
      * intros h Hh Hne. apply Holder.
        assert (Hin : h ∈ g :: rest) by (apply Hmem, Hfull; exact Hh).
        apply elem_of_cons in Hin. destruct Hin as [->|Hin]; [contradiction | exact Hin].
      * split; [|split; [exact Heq | exact Hi]].
        rewrite (LocalSteps.l_lru_eq (Local.frame_status vm) pid page)
          with (f := g) (rest := rest) (old := old); try assumption.
        rewrite Hrest. reflexivity.
    + exfalso. apply Hunk. right. left. exact Hlru.
Qed.

Lemma X7_witness :
  exists vmG vmG' vmL vmL',
    Global.after (fun _ => 0) 2 "lru" [(0%Z, 1%N); (0%Z, 2%N); (0%Z, 1%N); (0%Z, 3%N)] 3
      = Ok vmG /\
    g_use_times (fun _ => 0) 2 "lru" [(0%Z, 1%N); (0%Z, 2%N); (0%Z, 1%N); (0%Z, 3%N)] 3
      = [Some 2; Some 1] /\
    Global.handleAccess (fun _ => 0) 0 3 [(0%Z, 1%N); (0%Z, 2%N); (0%Z, 1%N); (0%Z, 3%N)] 3 vmG
      = Ok vmG' /\
    Global.memory (Global.frame_status vmG') = [(0%Z, 1%N); (0%Z, 3%N)] /\
    Local.after (fun _ => 0) 8 "lru" [(0%Z, 1%N); (0%Z, 2%N); (0%Z, 1%N); (0%Z, 3%N)] 3
      = Ok vmL /\
    Local.handleAccess (fun _ => 0) 0 3 [(0%Z, 1%N); (0%Z, 2%N); (0%Z, 1%N); (0%Z, 3%N)] 3 vmL
      = Ok vmL' /\
    Local.partition (Local.frame_status vmL') 0 = [(0%Z, 1%N); (0%Z, 3%N)].
Proof.
  set (tr := [(0%Z, 1%N); (0%Z, 2%N); (0%Z, 1%N); (0%Z, 3%N)]).
  destruct (X7_lru_eviction (fun _ => 0) 2 tr 3 0 3 3) as [HG _].
  destruct (X7_lru_eviction (fun _ => 0) 8 tr 3 0 3 3) as [_ HL].
  assert (Hv : valid_pid 0) by (unfold valid_pid; lia).
  assert (Hvalid : valid_trace tr) by (apply valid_traceb_sound; reflexivity).
  destruct (GlobalAfter.g_after_total (fun _ => 0) 2 "lru" tr 3 ltac:(lia) Hvalid)
    as [vmG HvmG].
  destruct (LocalAfter.l_after_total (fun _ => 0) 8 "lru" tr 3 ltac:(lia) Hvalid)
    as [vmL HvmL].
  pose proof HvmG as HcG. vm_compute in HcG. injection HcG as HcG.
  pose proof HvmL as HcL. vm_compute in HcL. injection HcL as HcL.
  destruct (HG vmG ltac:(lia) HvmG Hv)
    as (fG & restG & oldG & ptsG & tG & HlG & _ & _ & _ & _ & HaG & _).
  { rewrite <- HcG. vm_compute. reflexivity. }
  { rewrite <- HcG. intros f Hf. simpl in Hf.
    assert (f = 0 \/ f = 1) as [-> | ->] by lia; eexists; split; reflexivity. }
  destruct (HL vmL ltac:(lia) HvmL Hv)
    as (fL & restL & oldL & ptsL & tL & HlL & _ & _ & _ & _ & HaL & _).
  { rewrite <- HcL. vm_compute. reflexivity. }
  { rewrite <- HcL. intros f Hf. simpl in Hf.
    assert (f = 0 \/ f = 1) as [-> | ->] by lia; eexists; split; reflexivity. }
  rewrite <- HcG in HlG. simpl in HlG. injection HlG as <- <-.
  rewrite <- HcL in HlL. vm_compute in HlL. injection HlL as <- <-.
  eexists vmG, _, vmL, _.
  split; [exact HvmG|]. split; [vm_compute; reflexivity|]. split; [exact HaG|].
  split; [rewrite <- HcG; reflexivity|].
  split; [exact HvmL|]. split; [exact HaL|].
  rewrite <- HcL. reflexivity.
Defined.

(** X8. Random eviction: on a miss with the reachable region full and the
    policy [random], one draw is read and the frame [draw % size] of the
    region is the one evicted: it lies in the region, the new page is
    installed there and the displaced process, page and frame are returned.
    The cursor is left where it was. *)
Theorem X8_random_eviction (rand : nat -> nat) (pid : Z) (page : N)
    (trace : list (Z * N)) (ci : nat) :
  (forall vm, Global.reachable vm -> valid_pid pid ->
     Global.replacement_policy vm = "random" ->
     lookup_page (Global.page_tables vm) pid page = None ->
     full (Global.memory (Global.frame_status vm)) ->
     let fs := Global.frame_status vm in
     let f := rand (Global.rand_calls vm) mod length (Global.memory fs) in
     exists old pts',
       f < length (Global.memory fs) /\
       Global.memory fs !! f = Some old /\
       let fs' := Global.mkFrameStatus (Global.memoryFrames fs)
                    (<[f := (pid, page)]> (Global.memory fs)) (Global.nextFrame fs)
                    (list_remove f (Global.lru_list fs)) in
       Global.randomReplacement (rand (Global.rand_calls vm)) pid page fs
       = Ok (fs', (old.1, old.2, f)) /\
       Global.handleAccess rand pid page trace ci vm =
       Ok (Global.mkVMM (Global.num_frames vm) (Global.replacement_policy vm) pts' fs'
             (S (Global.global_page_fault_count vm)) (S (Global.rand_calls vm))) /\
       installed (Global.page_tables vm) pts' pid page f (Some old)) /\
  (forall vm, Local.reachable vm -> valid_pid pid ->
     Local.replacement_policy vm = "random" ->
     lookup_page (Local.page_tables vm) pid page = None ->
     full (Local.partition (Local.frame_status vm) pid) ->
     let fs := Local.frame_status vm in
     let f := rand (Local.rand_calls vm) mod length (Local.partition fs pid) in
     exists old pts',
       f < length (Local.partition fs pid) /\
       Local.partition fs pid !! f = Some old /\
       let fs' := Local.placed fs pid page f (Local.cursor fs pid)
                    (list_remove f (Local.recency fs pid)) in
       Local.randomReplacement (rand (Local.rand_calls vm)) pid page fs
       = Ok (fs', (old.1, old.2, f)) /\
       Local.handleAccess rand pid page trace ci vm =
       Ok (Local.mkVMM (Local.num_frames vm) (Local.replacement_policy vm) pts' fs'
             (S (Local.global_page_fault_count vm)) (S (Local.rand_calls vm))) /\
       installed (Local.page_tables vm) pts' pid page f (Some old)).
Proof.
  split.
  - intros vm Hreach Hv Hrandom Hmiss Hfull fs f. subst fs f. cbv zeta.
    pose proof (GlobalRuns.g_reachable_consistent vm Hreach) as Hc.
    pose proof (Global.cons_size vm Hc) as Hsize.
    pose proof (Global.cons_cursor vm Hc) as Hcur.
    destruct (GlobalInv.g_handleAccess_step rand pid page trace ci vm Hc Hv)
      as (vm' & Heq & Hstep).
    destruct Hstep as [f Hlook | e pts' Hlook He Hfree _ _
                      | f old next lru calls pts' Hlook _ Hch Hold _ Hi
                      | pts' Hlook _ Hunk _ _].
    + congruence.
    + exfalso. destruct (Hfull (Global.nextFrame (Global.frame_status vm)))
        as (e' & He' & Hocc); [eapply lookup_lt_Some; eauto | congruence].
    + destruct Hch as [E|g rest E Hl'|g E Hvict|E]; try congruence.
      rewrite Hsize. exists old, pts'.
      split; [apply Nat.mod_upper_bound; lia|].
      split; [exact Hold|]. split; [|split; [exact Heq | exact Hi]].
      apply GlobalSteps.g_random_eq; [lia | exact Hold].
    + exfalso. apply Hunk. right. right. right. exact Hrandom.
  - intros vm Hreach Hv Hrandom Hmiss Hfull fs f. subst fs f. cbv zeta.
    pose proof (LocalRuns.l_reachable_consistent vm Hreach) as Hc.
    pose proof (Local.cons_rows vm Hc) as Hrows.
    pose proof (Local.cons_cursors vm Hc) as Hcursors.
    pose proof (Local.cons_lists vm Hc) as Hlists.
    pose proof (Local.cons_positive vm Hc) as Hpos.
    pose proof (Local.cons_size vm Hc pid Hv) as Hsize.
    destruct (LocalInv.l_handleAccess_step rand pid page trace ci vm Hc Hv)
      as (vm' & Heq & Hstep).
    destruct Hstep as [f Hlook | f pts' Hlook Hff _ _
                      | f old next lru calls pts' Hlook _ Hch Hold _ Hi
                      | pts' Hlook _ Hunk _ _].
    + congruence.
    + exfalso. eapply LocalSteps.first_free_not_full; eauto.
    + destruct Hch as [E|g rest E Hl'|g E Hvict|E]; try congruence.
      rewrite Hsize. exists old, pts'.
      split; [apply Nat.mod_upper_bound; lia|].
      split; [exact Hold|]. split; [|split; [exact Heq | exact Hi]].
      apply LocalSteps.l_random_eq; try assumption. lia.
    + exfalso. apply Hunk. right. right. right. exact Hrandom.
Qed.

Lemma X8_witness :
  exists vmG vmG' vmL vmL',
    Global.after (fun _ => 5) 2 "random" crowding_trace 2 = Ok vmG /\
    Global.handleAccess (fun _ => 5) 1 2 crowding_trace 2 vmG = Ok vmG' /\
    Global.memory (Global.frame_status vmG') = [(0%Z, 7%N); (1%Z, 2%N)] /\
    Global.rand_calls vmG' = 1 /\
    Local.after (fun _ => 5) 8 "random" crowding_trace 3 = Ok vmL /\
    Local.handleAccess (fun _ => 5) 1 3 crowding_trace 3 vmL = Ok vmL' /\
    Local.partition (Local.frame_status vmL') 1 = [(1%Z, 1%N); (1%Z, 3%N)].
Proof.
  destruct (X8_random_eviction (fun _ => 5) 1 2 crowding_trace 2) as [HG _].
  destruct (X8_random_eviction (fun _ => 5) 1 3 crowding_trace 3) as [_ HL].
  assert (Hv : valid_pid 1) by (unfold valid_pid; lia).
  assert (Hvalid : valid_trace crowding_trace) by (apply valid_traceb_sound; reflexivity).
  destruct (GlobalAfter.g_after_total (fun _ => 5) 2 "random" crowding_trace 2
              ltac:(lia) Hvalid) as [vmG HvmG].
  destruct (LocalAfter.l_after_total (fun _ => 5) 8 "random" crowding_trace 3
              ltac:(lia) Hvalid) as [vmL HvmL].
  assert (HrG : Global.reachable vmG).
  { exists (fun _ => 5), 2%Z, "random", crowding_trace, 2. split; [lia | exact HvmG]. }
  assert (HrL : Local.reachable vmL).
  { exists (fun _ => 5), 8%Z, "random", crowding_trace, 3. split; [lia | exact HvmL]. }
  pose proof HvmG as HcG. vm_compute in HcG. injection HcG as HcG.
  pose proof HvmL as HcL. vm_compute in HcL. injection HcL as HcL.
  destruct (HG vmG HrG Hv) as (oldG & ptsG & _ & _ & _ & HaG & _).
  { rewrite <- HcG. reflexivity. }
  { rewrite <- HcG. vm_compute. reflexivity. }
  { rewrite <- HcG. intros f Hf. simpl in Hf.
    assert (f = 0 \/ f = 1) as [-> | ->] by lia; eexists; split; reflexivity. }
  destruct (HL vmL HrL Hv) as (oldL & ptsL & _ & _ & _ & HaL & _).
  { rewrite <- HcL. reflexivity. }
  { rewrite <- HcL. vm_compute. reflexivity. }
  { rewrite <- HcL. intros f Hf. simpl in Hf.
    assert (f = 0 \/ f = 1) as [-> | ->] by lia; eexists; split; reflexivity. }
  eexists vmG, _, vmL, _.
  split; [exact HvmG|]. split; [exact HaG|].
  split; [rewrite <- HcG; reflexivity|]. split; [rewrite <- HcG; reflexivity|].
  split; [exact HvmL|]. split; [exact HaL|].
  rewrite <- HcL. reflexivity.
Defined.

(** ** The order in which the regions fill *)

Lemma occupied_lt (mem : list (Z * N)) (f : nat) : occupied mem f -> f < length mem.
Proof. intros (e & He & _). eapply lookup_lt_Some; eauto. Qed.

Lemma filled_new (n : nat) : filled (replicate n free_frame) 0.
Proof.
  intros f. split; [|simpl; lia].
  intros (e & He & Hocc). apply lookup_replicate in He. destruct He as [-> _]. discriminate.
Qed.

Lemma filled_first_free (mem : list (Z * N)) (count f : nat) (new : Z * N) :
  filled mem count -> first_free mem f -> is_free new = false ->
  filled (<[f := new]> mem) (S count).
Proof.
  intros Hfill [(e & He & Hfree) Hbefore] Hnew.
  pose proof (lookup_lt_Some _ _ _ He) as Hlt.
  assert (Hge : count <= f).
  { destruct (Nat.le_gt_cases count f) as [H|H]; [exact H|]. exfalso.
    assert (Ho : occupied mem f) by (apply Hfill; lia).
    destruct Ho as (e' & He' & Hocc). congruence. }
  assert (Hle : f <= count).
  { destruct (Nat.le_gt_cases f count) as [H|H]; [exact H|]. exfalso.
    pose proof (proj1 (Hfill count) (Hbefore count H)). lia. }
  assert (f = count) by lia. subst f.
  intros g. rewrite length_insert, occupied_insert by assumption. rewrite (Hfill g). lia.
Qed.

Lemma filled_full (mem : list (Z * N)) (count : nat) :
  filled mem count -> full mem -> length mem <= count.
Proof.
  intros Hfill Hfull. destruct (length mem) as [|k] eqn:E; [lia|].
  assert (Ho : occupied mem k) by (apply Hfull; lia).
  apply Hfill in Ho. lia.
Qed.

Lemma filled_replace (mem : list (Z * N)) (count f : nat) (new : Z * N) :
  filled mem count -> full mem -> f < length mem -> is_free new = false ->
  filled (<[f := new]> mem) (S count).
Proof.
  intros Hfill Hfull Hf Hnew g.
  pose proof (filled_full mem count Hfill Hfull) as Hle.
  pose proof (full_insert mem f new Hfull Hf Hnew) as Hfull'.
  rewrite length_insert. split.
  - intros Ho. apply occupied_lt in Ho. rewrite length_insert in Ho. lia.
  - intros Hg. apply Hfull'. rewrite length_insert. lia.
Qed.

Lemma filled_drop (mem : list (Z * N)) (count : nat) :
  filled mem count -> full mem -> filled mem (S count).
Proof.
  intros Hfill Hfull g. pose proof (filled_full mem count Hfill Hfull) as Hle.
  rewrite (Hfill g). lia.
Qed.

Module GlobalFill.
Import Global GlobalSteps GlobalInv GlobalRuns GlobalAfter.

Lemma g_step_filled (rand : nat -> nat) (pid : Z) (page : N) (trace : list (Z * N))
    (ci : nat) (vm vm' : VirtualMemoryManager) :
  consistent vm -> valid_pid pid -> step rand pid page trace ci vm vm' ->
  filled (memory (frame_status vm)) (global_page_fault_count vm) ->
  filled (memory (frame_status vm')) (global_page_fault_count vm').
Proof.
  intros Hc Hv Hstep Hfill.
  pose proof (cons_size vm Hc) as Hsize.
  pose proof (cons_cursor vm Hc) as Hcur.
  pose proof (valid_pid_occupies pid page Hv) as Hnew.
  destruct Hstep as [f Hlook | e pts' Hlook He Hfree _ Hi
                    | f old next lru calls pts' Hlook Hfull Hch Hold _ Hi
                    | pts' Hlook Hfull Hunk _ _].
  - destruct (String.eqb (replacement_policy vm) "lru"); exact Hfill.
  - simpl. apply filled_first_free; [exact Hfill | | exact Hnew].
    split; [eauto|]. intros g Hg.
    destruct (cons_shape vm Hc) as [Hfull|Hpre].
    + apply Hfull. lia.
    + apply Hpre; lia.
  - simpl. apply filled_replace; [exact Hfill | exact Hfull | | exact Hnew].
    eapply lookup_lt_Some; eauto.
  - simpl. apply filled_drop; assumption.
Qed.

Theorem g_after_filled (rand : nat -> nat) (nf : Z) (policy : string)
    (trace : list (Z * N)) (n : nat) (vm : VirtualMemoryManager) :
  (1 <= nf)%Z -> after rand nf policy trace n = Ok vm ->
  filled (memory (frame_status vm)) (global_page_fault_count vm).
Proof.
  intros Hnf. revert vm. induction n as [|n IH]; intros vm Hrun.
  - unfold after in Hrun. apply bind_Ok in Hrun. destruct Hrun as (vm0 & H0 & [= <-]).
    unfold VirtualMemoryManager_new, FrameStatus_new in H0.
    destruct (nf <? 0)%Z; [discriminate|]. simpl in H0. injection H0 as <-. simpl.
    apply filled_new.
  - apply g_after_prefix in Hrun. destruct Hrun as (vm0 & H0 & Hstep).
    specialize (IH vm0 H0).
    destruct (g_after_consistent _ _ _ _ _ _ Hnf H0) as (Hc & _).
    destruct (trace !! n) as [[pid page]|]; [|subst vm; exact IH].
    simpl in Hstep. apply g_handleAccess_Ok in Hstep; [|exact Hc].
    destruct Hstep as [Hv Hstep]. eapply g_step_filled; eauto.
Qed.

End GlobalFill.

Module LocalFill.
Import Local LocalSteps LocalInv LocalRuns LocalAfter.

Lemma l_step_filled (rand : nat -> nat) (pid : Z) (page : N) (trace : list (Z * N))
    (ci : nat) (vm vm' : VirtualMemoryManager) (P : Z) :
  consistent vm -> valid_pid pid -> valid_pid P -> step rand pid page trace ci vm vm' ->
  filled (partition (frame_status vm) P) (faults_of (page_tables vm) (Z.to_nat P)) ->
  filled (partition (frame_status vm') P) (faults_of (page_tables vm') (Z.to_nat P)).
Proof.
  intros Hc Hv HP Hstep Hfill.
  destruct (decide (P = pid)) as [->|Hne].
  2:{ destruct (LocalCache.l_step_other rand pid page trace ci vm vm' P Hc Hv HP Hne Hstep)
        as [-> ->]. exact Hfill. }
  pose proof (cons_rows vm Hc) as Hrows.
  pose proof (cons_size vm Hc pid Hv) as Hsize.
  pose proof (valid_pid_occupies pid page Hv) as Hnew.
  destruct Hstep as [f Hlook | f pts' Hlook Hff Hfl Hi
                    | f old next lru calls pts' Hlook Hfull Hch Hold Hfl Hi
                    | pts' Hlook Hfull Hunk Hfl _].
  - destruct (String.eqb (replacement_policy vm) "lru"); exact Hfill.
  - simpl. rewrite l_partition_placed by assumption.
    destruct (decide (pid = pid)) as [_|]; [|contradiction].
    rewrite (LocalCache.faulted_self _ _ _ Hfl).
    apply filled_first_free; assumption.
  - simpl. rewrite l_partition_placed by assumption.
    destruct (decide (pid = pid)) as [_|]; [|contradiction].
    rewrite (LocalCache.faulted_self _ _ _ Hfl).
    apply filled_replace; [exact Hfill | exact Hfull | | exact Hnew].
    eapply lookup_lt_Some; eauto.
  - simpl. rewrite (LocalCache.faulted_self _ _ _ Hfl). apply filled_drop; assumption.
Qed.

Theorem l_after_filled (rand : nat -> nat) (nf : Z) (policy : string)
    (trace : list (Z * N)) (n : nat) (vm : VirtualMemoryManager) (P : Z) :
  (4 <= nf)%Z -> valid_pid P -> after rand nf policy trace n = Ok vm ->
  filled (partition (frame_status vm) P) (faults_of (page_tables vm) (Z.to_nat P)).
Proof.
  intros Hnf HP. revert vm. induction n as [|n IH]; intros vm Hrun.
  - unfold after in Hrun. apply bind_Ok in Hrun. destruct Hrun as (vm0 & H0 & [= <-]).
    destruct (l_new_consistent nf policy Hnf)
      as (vm1 & H1 & _ & _ & _ & _ & _ & Hf & _ & Hpart).
    assert (vm1 = vm0) by congruence. subst vm1.
    rewrite (Hpart P HP), Hf. apply filled_new.
  - apply l_after_prefix in Hrun. destruct Hrun as (vm0 & H0 & Hstep).
    specialize (IH vm0 H0).
    destruct (l_after_consistent _ _ _ _ _ _ Hnf H0) as (Hc & _).
    destruct (trace !! n) as [[pid page]|]; [|subst vm; exact IH].
    simpl in Hstep. apply l_handleAccess_Ok in Hstep; [|exact Hc].
    destruct Hstep as [Hv Hstep]. eapply l_step_filled; eauto.
Qed.

End LocalFill.

(** X9. The frames fill in index order and are never freed: after every
    prefix, for every policy string, the occupied frames of the shared pool
    are exactly those of index below [min (fault count) (pool size)], and
    the occupied frames of the partition of each process are those of index
    below [min (fault count of the process) (partition size)].  So a frame
    that holds a page after some prefix holds a page after every longer
    one. *)
Theorem X9_fill_order (rand : nat -> nat) (policy : string) (trace : list (Z * N))
    (n : nat) (nfG nfL : Z) :
  (1 <= nfG)%Z -> (4 <= nfL)%Z ->
  (forall vm, Global.after rand nfG policy trace n = Ok vm ->
     (forall f, occupied (Global.memory (Global.frame_status vm)) f <->
                f < min (Global.global_page_fault_count vm) (Z.to_nat nfG)) /\
     (forall m vm0 f, m <= n -> Global.after rand nfG policy trace m = Ok vm0 ->
        occupied (Global.memory (Global.frame_status vm0)) f ->
        occupied (Global.memory (Global.frame_status vm)) f)) /\
  (forall vm, Local.after rand nfL policy trace n = Ok vm ->
     forall P, valid_pid P ->
     (forall f, occupied (Local.partition (Local.frame_status vm) P) f <->
                f < min (faults_of (Local.page_tables vm) (Z.to_nat P))
                        (Z.to_nat (nfL ÷ 4))) /\
     (forall m vm0 f, m <= n -> Local.after rand nfL policy trace m = Ok vm0 ->
        occupied (Local.partition (Local.frame_status vm0) P) f ->
        occupied (Local.partition (Local.frame_status vm) P) f)).
Proof.
  intros HG HL. split.
  - intros vm Hrun.
    destruct (GlobalAfter.g_after_consistent _ _ _ _ _ _ HG Hrun) as (Hc & _ & Hk).
    pose proof (Global.cons_size vm Hc) as Hsize.
    pose proof (GlobalFill.g_after_filled _ _ _ _ _ _ HG Hrun) as Hfill.
    assert (Hocc : forall f, occupied (Global.memory (Global.frame_status vm)) f <->
              f < min (Global.global_page_fault_count vm) (Z.to_nat nfG)).
    { intros f. rewrite (Hfill f), Hsize, Hk. reflexivity. }
    split; [exact Hocc|]. intros m vm0 f Hm H0 Ho.
    destruct (GlobalAfter.g_after_consistent _ _ _ _ _ _ HG H0) as (Hc0 & _ & Hk0).
    pose proof (GlobalFill.g_after_filled _ _ _ _ _ _ HG H0 f) as Hfill0.
    rewrite (Global.cons_size vm0 Hc0), Hk0 in Hfill0. apply Hfill0 in Ho.
    destruct (GlobalAfter.g_after_monotone rand nfG policy trace n m vm Hrun Hm)
      as (vm0' & H0' & Hle & _).
    assert (vm0' = vm0) by congruence. subst vm0'. apply Hocc. lia.
  - intros vm Hrun P HP.
    destruct (LocalAfter.l_after_consistent _ _ _ _ _ _ HL Hrun) as (Hc & _ & Hk).
    pose proof (Local.cons_size vm Hc P HP) as Hsize.
    pose proof (LocalFill.l_after_filled _ _ _ _ _ _ P HL HP Hrun) as Hfill.
    assert (Hocc : forall f, occupied (Local.partition (Local.frame_status vm) P) f <->
              f < min (faults_of (Local.page_tables vm) (Z.to_nat P)) (Z.to_nat (nfL ÷ 4))).
    { intros f. rewrite (Hfill f), Hsize, Hk. reflexivity. }
    split; [exact Hocc|]. intros m vm0 f Hm H0 Ho.
    destruct (LocalAfter.l_after_consistent _ _ _ _ _ _ HL H0) as (Hc0 & _ & Hk0).
    pose proof (LocalFill.l_after_filled _ _ _ _ _ _ P HL HP H0 f) as Hfill0.
    rewrite (Local.cons_size vm0 Hc0 P HP), Hk0 in Hfill0. apply Hfill0 in Ho.
    destruct (LocalAfter.l_after_monotone rand nfL policy trace n m vm Hrun Hm)
      as (vm0' & H0' & _ & Hle).
    assert (vm0' = vm0) by congruence. subst vm0'. apply Hocc.
    specialize (Hle (Z.to_nat P)). lia.
Qed.

Lemma X9_witness :
  (1 <= 3)%Z /\ (4 <= 8)%Z /\
  exists vmG vmL,
    Global.after (fun _ => 0) 3 "clock" crowding_trace 2 = Ok vmG /\
    occupied (Global.memory (Global.frame_status vmG)) 1 /\
    ~ occupied (Global.memory (Global.frame_status vmG)) 2 /\
    Local.after (fun _ => 0) 8 "clock" crowding_trace 2 = Ok vmL /\
    occupied (Local.partition (Local.frame_status vmL) 1) 0 /\
    ~ occupied (Local.partition (Local.frame_status vmL) 1) 1.
Proof.
  assert (HG : (1 <= 3)%Z) by lia. assert (HL : (4 <= 8)%Z) by lia.
  split; [exact HG|]. split; [exact HL|].
  assert (Hvalid : valid_trace crowding_trace) by (apply valid_traceb_sound; reflexivity).
  destruct (GlobalAfter.g_after_total (fun _ => 0) 3 "clock" crowding_trace 2 HG Hvalid)
    as [vmG HvmG].
  destruct (LocalAfter.l_after_total (fun _ => 0) 8 "clock" crowding_trace 2 HL Hvalid)
    as [vmL HvmL].
  destruct (X9_fill_order (fun _ => 0) "clock" crowding_trace 2 3 8 HG HL) as [XG XL].
  destruct (XG vmG HvmG) as [HoG _].
  destruct (XL vmL HvmL 1%Z ltac:(unfold valid_pid; lia)) as [HoL _].
  pose proof HvmG as HcG. vm_compute in HcG. injection HcG as HcG.
  pose proof HvmL as HcL. vm_compute in HcL. injection HcL as HcL.
  exists vmG, vmL. split; [exact HvmG|].
  split; [apply HoG; rewrite <- HcG; simpl; lia|].
  split; [rewrite HoG; rewrite <- HcG; simpl; lia|].
  split; [exact HvmL|].
  split; [apply HoL; rewrite <- HcL; vm_compute; lia|].
  rewrite HoL. rewrite <- HcL. vm_compute. lia.
Defined.

(** ** Compulsory misses *)

Lemma compulsory_new (cap : nat) : compulsory ∅ ∅ 0 0 cap.
Proof. unfold compulsory. rewrite size_empty. repeat split; auto. Qed.

Lemma compulsory_idle (S A : gset (Z * N)) (g n cap : nat) :
  compulsory S A g n cap -> compulsory S A g (Datatypes.S n) cap.
Proof.
  intros (H1 & H2 & H3 & H4). split; [exact H1|]. split; [exact H2|].
  split; [lia | exact H4].
Qed.

Lemma compulsory_hit (S A : gset (Z * N)) (x : Z * N) (g n cap : nat) :
  x ∈ S -> compulsory S A g n cap -> compulsory S (A ∪ {[x]}) g (Datatypes.S n) cap.
Proof.
  intros Hx Hc. assert (HA : A ∪ {[x]} = A).
  { destruct Hc as (Hsub & _). set_solver. }
  rewrite HA. apply compulsory_idle. exact Hc.
Qed.

Lemma size_add_le (A : gset (Z * N)) (x : Z * N) : size (A ∪ {[x]}) <= Datatypes.S (size A).
Proof.
  rewrite size_union_alt.
  assert (size (({[x]} : gset (Z * N)) ∖ A) <= size ({[x]} : gset (Z * N)))
    by (apply subseteq_size; set_solver).
  rewrite size_singleton in *. lia.
Qed.

Lemma size_add_new (A : gset (Z * N)) (x : Z * N) :
  x ∉ A -> size (A ∪ {[x]}) = Datatypes.S (size A).
Proof. intros Hx. rewrite size_union by set_solver. rewrite size_singleton. lia. Qed.

Lemma size_add_ge (A : gset (Z * N)) (x : Z * N) : size A <= size (A ∪ {[x]}).
Proof. apply subseteq_size. set_solver. Qed.

Lemma compulsory_load (S A : gset (Z * N)) (x : Z * N) (g n cap : nat) :
  x ∉ S -> compulsory S A g n cap ->
  compulsory (S ∪ {[x]}) (A ∪ {[x]}) (Datatypes.S g) (Datatypes.S n) cap.
Proof.
  intros Hx (Hsub & Hle & Hn & Hfit).
  pose proof (size_add_le A x). pose proof (size_add_ge A x).
  split; [set_solver|]. split; [lia|]. split; [lia|].
  intros Hcap. destruct Hfit as [Hg HS]; [lia|]. subst S.
  rewrite size_add_new by exact Hx. split; [lia | reflexivity].
Qed.

Lemma compulsory_full (S S' A : gset (Z * N)) (x : Z * N) (g n cap : nat) :
  x ∉ S -> size S = cap -> S' ⊆ S ∪ {[x]} -> compulsory S A g n cap ->
  compulsory S' (A ∪ {[x]}) (Datatypes.S g) (Datatypes.S n) cap.
Proof.
  intros Hx Hsize Hsub' (Hsub & Hle & Hn & Hfit).
  pose proof (size_add_le A x). pose proof (size_add_ge A x).
  split; [set_solver|]. split; [lia|]. split; [lia|].
  intros Hcap. exfalso. destruct Hfit as [Hg HS]; [lia|]. subst S.
  rewrite size_add_new in Hcap by exact Hx. lia.
Qed.

Lemma accessed_S (trace : list (Z * N)) (n : nat) (x : Z * N) :
  trace !! n = Some x -> accessed trace (S n) = accessed trace n ∪ {[x]}.
Proof.
  intros Hx. unfold accessed. rewrite (take_S_r _ _ _ Hx), list_to_set_app_L.
  simpl. set_solver.
Qed.

Lemma accessed_by_S (P : Z) (trace : list (Z * N)) (n : nat) (x : Z * N) :
  trace !! n = Some x ->
  accessed_by P trace (S n) =
  if decide (x.1 = P) then accessed_by P trace n ∪ {[x]} else accessed_by P trace n.
Proof.
  intros Hx. unfold accessed_by. rewrite (take_S_r _ _ _ Hx), filter_app, list_to_set_app_L.
  destruct (decide (x.1 = P)) as [H|H].
  - rewrite filter_cons_True by exact H. rewrite filter_nil. simpl. set_solver.
  - rewrite filter_cons_False by exact H. rewrite filter_nil. simpl. set_solver.
Qed.

Lemma accessed_done (trace : list (Z * N)) (n : nat) :
  trace !! n = None -> accessed trace (S n) = accessed trace n.
Proof.
  intros Hx. apply lookup_ge_None in Hx. unfold accessed. rewrite !take_ge by lia.
  reflexivity.
Qed.

Lemma accessed_by_done (P : Z) (trace : list (Z * N)) (n : nat) :
  trace !! n = None -> accessed_by P trace (S n) = accessed_by P trace n.
Proof.
  intros Hx. apply lookup_ge_None in Hx. unfold accessed_by. rewrite !take_ge by lia.
  reflexivity.
Qed.

Module GlobalMisses.
Import Global GlobalSteps GlobalInv GlobalRuns GlobalAfter GlobalCache.

Lemma g_step_compulsory (rand : nat -> nat) (pid : Z) (page : N) (trace : list (Z * N))
    (ci : nat) (vm vm' : VirtualMemoryManager) (A : gset (Z * N)) (n : nat) :
  consistent vm -> valid_pid pid -> step rand pid page trace ci vm vm' ->
  compulsory (content (memory (frame_status vm))) A (global_page_fault_count vm) n
    (memoryFrames (frame_status vm)) ->
  compulsory (content (memory (frame_status vm'))) (A ∪ {[(pid, page)]})
    (global_page_fault_count vm') (S n) (memoryFrames (frame_status vm)).
Proof.
  intros Hc Hv Hstep Hcomp.
  pose proof (valid_pid_occupies pid page Hv) as Hnew.
  assert (Hmiss : lookup_page (page_tables vm) pid page = None ->
                  (pid, page) ∉ content (memory (frame_status vm))).
  { intros Hl Hin. apply (g_resident_content vm pid page Hc) in Hin.
    destruct Hin as [f Hf]. congruence. }
  destruct Hstep as [f Hlook | e pts' Hlook He Hfree _ _
                    | f old next lru calls pts' Hlook Hfull Hch Hold _ _
                    | pts' Hlook Hfull Hunk _ _].
  - assert (Hin : (pid, page) ∈ content (memory (frame_status vm)))
      by (apply (g_resident_content vm pid page Hc); eauto).
    destruct (String.eqb (replacement_policy vm) "lru"); simpl;
      apply compulsory_hit; assumption.
  - simpl. rewrite (content_insert_free _ _ e _ He Hfree Hnew).
    apply compulsory_load; auto.
  - simpl. apply (compulsory_full (content (memory (frame_status vm)))); auto.
    + apply g_full_size; assumption.
    + apply content_insert_sub; [eapply lookup_lt_Some; eauto | exact Hnew].
  - simpl. apply (compulsory_full (content (memory (frame_status vm)))); auto.
    + apply g_full_size; assumption.
    + set_solver.
Qed.

Theorem g_after_compulsory (rand : nat -> nat) (nf : Z) (policy : string)
    (trace : list (Z * N)) (n : nat) (vm : VirtualMemoryManager) :
  (1 <= nf)%Z -> after rand nf policy trace n = Ok vm ->
  compulsory (content (memory (frame_status vm))) (accessed trace n)
    (global_page_fault_count vm) n (Z.to_nat nf).
Proof.
  intros Hnf. revert vm. induction n as [|n IH]; intros vm Hrun.
  - unfold after in Hrun. apply bind_Ok in Hrun. destruct Hrun as (vm0 & H0 & [= <-]).
    unfold VirtualMemoryManager_new, FrameStatus_new in H0.
    destruct (nf <? 0)%Z; [discriminate|]. simpl in H0. injection H0 as <-. simpl.
    rewrite content_free. apply compulsory_new.
  - apply g_after_prefix in Hrun. destruct Hrun as (vm0 & H0 & Hstep).
    specialize (IH vm0 H0).
    destruct (g_after_consistent _ _ _ _ _ _ Hnf H0) as (Hc & _ & Hk).
    destruct (trace !! n) as [[pid page]|] eqn:Hr.
    + simpl in Hstep. apply g_handleAccess_Ok in Hstep; [|exact Hc].
      destruct Hstep as [Hv Hstep]. rewrite (accessed_S _ _ _ Hr), <- Hk.
      apply (g_step_compulsory rand pid page trace n vm0 vm _ n Hc Hv Hstep).
      rewrite Hk. exact IH.
    + subst vm. rewrite (accessed_done _ _ Hr). apply compulsory_idle. exact IH.
Qed.

End GlobalMisses.

Module LocalMisses.
Import Local LocalSteps LocalInv LocalRuns LocalAfter LocalCache.

Lemma l_step_compulsory (rand : nat -> nat) (pid : Z) (page : N) (trace : list (Z * N))
    (ci : nat) (vm vm' : VirtualMemoryManager) (A : gset (Z * N)) (n : nat) :
  consistent vm -> valid_pid pid -> step rand pid page trace ci vm vm' ->
  compulsory (content (partition (frame_status vm) pid)) A
    (faults_of (page_tables vm) (Z.to_nat pid)) n
    (memoryFramesPerProcess (frame_status vm)) ->
  compulsory (content (partition (frame_status vm') pid)) (A ∪ {[(pid, page)]})
    (faults_of (page_tables vm') (Z.to_nat pid)) (S n)
    (memoryFramesPerProcess (frame_status vm)).
Proof.
  intros Hc Hv Hstep Hcomp.
  pose proof (cons_rows vm Hc) as Hrows.
  pose proof (valid_pid_occupies pid page Hv) as Hnew.
  assert (Hmiss : lookup_page (page_tables vm) pid page = None ->
                  (pid, page) ∉ content (partition (frame_status vm) pid)).
  { intros Hl Hin. apply (l_resident_content vm pid page Hc Hv) in Hin.
    destruct Hin as [f Hf]. congruence. }
  destruct Hstep as [f Hlook | f pts' Hlook Hff Hfl _
                    | f old next lru calls pts' Hlook Hfull Hch Hold Hfl _
                    | pts' Hlook Hfull Hunk Hfl _].
  - assert (Hin : (pid, page) ∈ content (partition (frame_status vm) pid))
      by (apply (l_resident_content vm pid page Hc Hv); eauto).
    destruct (String.eqb (replacement_policy vm) "lru"); simpl;
      apply compulsory_hit; assumption.
  - simpl. rewrite l_partition_placed by assumption.
    destruct (decide (pid = pid)) as [_|]; [|contradiction].
    rewrite (faulted_self _ _ _ Hfl).
    destruct Hff as [(e & He & Hfree) _].
    rewrite (content_insert_free _ _ e _ He Hfree Hnew).
    apply compulsory_load; auto.
  - simpl. rewrite l_partition_placed by assumption.
    destruct (decide (pid = pid)) as [_|]; [|contradiction].
    rewrite (faulted_self _ _ _ Hfl).
    apply (compulsory_full (content (partition (frame_status vm) pid))); auto.
    + apply l_full_size; assumption.
    + apply content_insert_sub; [eapply lookup_lt_Some; eauto | exact Hnew].
  - simpl. rewrite (faulted_self _ _ _ Hfl).
    apply (compulsory_full (content (partition (frame_status vm) pid))); auto.
    + apply l_full_size; assumption.
    + set_solver.
Qed.

Theorem l_after_compulsory (rand : nat -> nat) (nf : Z) (policy : string)
    (trace : list (Z * N)) (n : nat) (vm : VirtualMemoryManager) (P : Z) :
  (4 <= nf)%Z -> valid_pid P -> after rand nf policy trace n = Ok vm ->
  compulsory (content (partition (frame_status vm) P)) (accessed_by P trace n)
    (faults_of (page_tables vm) (Z.to_nat P)) n (Z.to_nat (nf ÷ 4)).
Proof.
  intros Hnf HP. revert vm. induction n as [|n IH]; intros vm Hrun.
  - unfold after in Hrun. apply bind_Ok in Hrun. destruct Hrun as (vm0 & H0 & [= <-]).
    destruct (l_new_consistent nf policy Hnf)
      as (vm1 & H1 & _ & _ & _ & _ & _ & Hf & _ & Hpart).
    assert (vm1 = vm0) by congruence. subst vm1.
    rewrite (Hpart P HP), Hf, content_free. apply compulsory_new.
  - apply l_after_prefix in Hrun. destruct Hrun as (vm0 & H0 & Hstep).
    specialize (IH vm0 H0).
    destruct (l_after_consistent _ _ _ _ _ _ Hnf H0) as (Hc & _ & Hk).
    destruct (trace !! n) as [[pid page]|] eqn:Hr.
    + simpl in Hstep. apply l_handleAccess_Ok in Hstep; [|exact Hc].
      destruct Hstep as [Hv Hstep]. rewrite (accessed_by_S _ _ _ _ Hr). simpl.
      destruct (decide (pid = P)) as [->|Hne].
      * rewrite <- Hk.
        apply (l_step_compulsory rand P page trace n vm0 vm _ n Hc Hv Hstep).
        rewrite Hk. exact IH.
      * destruct (l_step_other rand pid page trace n vm0 vm P Hc Hv HP
                    ltac:(congruence) Hstep) as [-> ->].
        apply compulsory_idle. exact IH.
    + subst vm. rewrite (accessed_by_done _ _ _ Hr). apply compulsory_idle. exact IH.
Qed.

End LocalMisses.

(** X10. Compulsory misses: after [n] records, for every policy string, the
    fault count of the shared pool is at least the number of distinct pages
    accessed so far and at most [n]; when these pages fit in the pool no
    page is ever evicted: every accessed page is resident and the fault
    count is exactly the number of distinct pages.  The same holds for each
    process and its partition in the partitioned engine. *)
Theorem X10_compulsory_misses (rand : nat -> nat) (policy : string)
    (trace : list (Z * N)) (n : nat) (nfG nfL : Z) :
  (1 <= nfG)%Z -> (4 <= nfL)%Z ->
  (forall vm, Global.after rand nfG policy trace n = Ok vm ->
     size (accessed trace n) <= Global.global_page_fault_count vm /\
     Global.global_page_fault_count vm <= n /\
     (size (accessed trace n) <= Z.to_nat nfG ->
      Global.global_page_fault_count vm = size (accessed trace n) /\
      forall P p, (P, p) ∈ accessed trace n <->
                  exists f, lookup_page (Global.page_tables vm) P p = Some f)) /\
  (forall vm P, Local.after rand nfL policy trace n = Ok vm -> valid_pid P ->
     size (accessed_by P trace n) <= faults_of (Local.page_tables vm) (Z.to_nat P) /\
     faults_of (Local.page_tables vm) (Z.to_nat P) <= n /\
     (size (accessed_by P trace n) <= Z.to_nat (nfL ÷ 4) ->
      faults_of (Local.page_tables vm) (Z.to_nat P) = size (accessed_by P trace n) /\
      forall p, (P, p) ∈ accessed_by P trace n <->
                exists f, lookup_page (Local.page_tables vm) P p = Some f)).
Proof.
  intros HG HL. split.
  - intros vm Hrun.
    destruct (GlobalAfter.g_after_consistent _ _ _ _ _ _ HG Hrun) as (Hc & _).
    destruct (GlobalMisses.g_after_compulsory rand nfG policy trace n vm HG Hrun)
      as (_ & Hle & Hn & Hfit).
    split; [exact Hle|]. split; [exact Hn|]. intros Hcap.
    destruct (Hfit Hcap) as [Hg HS]. split; [exact Hg|]. intros P p.
    rewrite <- HS. apply GlobalCache.g_resident_content. exact Hc.
  - intros vm P Hrun HP.
    destruct (LocalAfter.l_after_consistent _ _ _ _ _ _ HL Hrun) as (Hc & _).
    destruct (LocalMisses.l_after_compulsory rand nfL policy trace n vm P HL HP Hrun)
      as (_ & Hle & Hn & Hfit).
    split; [exact Hle|]. split; [exact Hn|]. intros Hcap.
    destruct (Hfit Hcap) as [Hg HS]. split; [exact Hg|]. intros p.
    rewrite <- HS. apply LocalCache.l_resident_content; assumption.
Qed.

Lemma X10_witness :
  (1 <= 5)%Z /\ (4 <= 16)%Z /\
  exists vmG vmL,
    Global.after (fun _ => 0) 5 "fifo" crowding_trace 6 = Ok vmG /\
    Global.global_page_fault_count vmG = 5 /\
    Local.after (fun _ => 0) 16 "fifo" crowding_trace 6 = Ok vmL /\
    faults_of (Local.page_tables vmL) 1 = 4.
Proof.
  assert (HG : (1 <= 5)%Z) by lia. assert (HL : (4 <= 16)%Z) by lia.
  split; [exact HG|]. split; [exact HL|].
  assert (Hvalid : valid_trace crowding_trace) by (apply valid_traceb_sound; reflexivity).
  destruct (GlobalAfter.g_after_total (fun _ => 0) 5 "fifo" crowding_trace 6 HG Hvalid)
    as [vmG HvmG].
  destruct (LocalAfter.l_after_total (fun _ => 0) 16 "fifo" crowding_trace 6 HL Hvalid)
    as [vmL HvmL].
  destruct (X10_compulsory_misses (fun _ => 0) "fifo" crowding_trace 6 5 16 HG HL)
    as [XG XL].
  destruct (XG vmG HvmG) as (_ & _ & HfitG).
  destruct (XL vmL 1%Z HvmL ltac:(unfold valid_pid; lia)) as (_ & _ & HfitL).
  assert (HsG : size (accessed crowding_trace 6) = 5) by (vm_compute; reflexivity).
  assert (HsL : size (accessed_by 1 crowding_trace 6) = 4) by (vm_compute; reflexivity).
  exists vmG, vmL. split; [exact HvmG|].
  split; [rewrite <- HsG; apply HfitG; rewrite HsG; simpl; lia|].
  split; [exact HvmL|].
  destruct HfitL as [HgL _]; [rewrite HsL; vm_compute; lia|].
  rewrite HsL in HgL. exact HgL.
Defined.

(** ** The reference LRU cache and the stack of all pages *)

Lemma filter_out_absent (s : list (Z * N)) (x : Z * N) :
  x ∉ s -> filter (fun y => y <> x) s = s.
Proof.
  induction s as [|y s IH]; intros Hx; [reflexivity|].
  apply not_elem_of_cons in Hx. destruct Hx as [Hne Hx].
  rewrite filter_cons_True by congruence. rewrite IH by exact Hx. reflexivity.
Qed.

Lemma filter_out_length (s : list (Z * N)) (x : Z * N) :
  NoDup s -> x ∈ s -> S (length (filter (fun y => y <> x) s)) = length s.
Proof.
  induction s as [|y s IH]; intros Hnd Hx; [apply elem_of_nil in Hx; contradiction|].
  apply NoDup_cons in Hnd. destruct Hnd as [Hy Hnd].
  destruct (decide (y = x)) as [->|Hne].
  - rewrite filter_cons_False by auto. rewrite filter_out_absent by exact Hy. reflexivity.
  - rewrite filter_cons_True by exact Hne. simpl. f_equal. apply IH; [exact Hnd|].
    apply elem_of_cons in Hx. destruct Hx as [->|Hx]; [contradiction | exact Hx].
Qed.

Lemma stack_touch_NoDup (s : list (Z * N)) (x : Z * N) :
  NoDup s -> NoDup (stack_touch s x).
Proof.
  intros Hnd. unfold stack_touch. apply NoDup_app. split; [apply NoDup_filter; exact Hnd|].
  split; [|apply NoDup_singleton].
  intros y Hy Hx. apply list_elem_of_filter in Hy. apply list_elem_of_singleton in Hx.
  tauto.
Qed.

Lemma lastn_split (n : nat) (s : list (Z * N)) :
  s = take (length s - n) s ++ lastn n s.
Proof. unfold lastn. symmetry. apply take_drop. Qed.

Lemma lastn_length (n : nat) (s : list (Z * N)) : length (lastn n s) = min n (length s).
Proof. unfold lastn. rewrite length_drop. lia. Qed.

Lemma lastn_mono (n m : nat) (s : list (Z * N)) (x : Z * N) :
  n <= m -> x ∈ lastn n s -> x ∈ lastn m s.
Proof.
  intros Hle Hx. unfold lastn in *.
  replace (length s - n) with ((length s - m) + (m - n - (m - length s))) in Hx by lia.
  rewrite <- drop_drop in Hx. eapply subseteq_drop; eauto.
Qed.

Lemma lru_touch_split (n : nat) (a b : list (Z * N)) (x : Z * N) :
  1 <= n -> NoDup (a ++ b) -> length b = min n (length (a ++ b)) ->
  lru_touch n b x =
  drop (length (stack_touch (a ++ b) x) - n) (stack_touch (a ++ b) x).
Proof.
  intros Hn Hnd Hlen. rewrite length_app in Hlen.
  apply NoDup_app in Hnd. destruct Hnd as (Hnda & Hsep & Hndb).
  unfold lru_touch, stack_touch. rewrite filter_app.
  destruct (decide (x ∈ b)) as [Hb|Hb].
  - assert (Hxa : x ∉ a) by (intros H; apply (Hsep x H Hb)).
    rewrite (filter_out_absent a x Hxa).
    pose proof (filter_out_length b x Hndb Hb) as Hfl.
    rewrite <- app_assoc, !length_app. simpl.
    rewrite drop_app_length'; [reflexivity|]. lia.
  - rewrite (filter_out_absent b x Hb).
    destruct (decide (x ∈ a)) as [Hxa|Hxa].
    + pose proof (filter_out_length a x Hnda Hxa) as Hfl.
      assert (Hbn : length b = n) by lia.
      destruct (decide (length b < n)) as [H|_]; [lia|].
      rewrite <- app_assoc, !length_app. simpl.
      replace (length (filter (fun y => y <> x) a) + (length b + 1) - n)
        with (length (filter (fun y => y <> x) a) + 1) by lia.
      rewrite drop_app_add'; [|reflexivity].
      destruct b as [|e b']; [simpl in Hbn; lia|]. reflexivity.
    + rewrite (filter_out_absent a x Hxa).
      destruct (decide (length b < n)) as [Hlt|Hge].
      * assert (length a = 0) by lia. destruct a; [|simpl in *; lia]. simpl.
        rewrite length_app. simpl. replace (length b + 1 - n) with 0 by lia. reflexivity.
      * assert (Hbn : length b = n) by lia.
        rewrite <- app_assoc, !length_app. simpl.
        replace (length a + (length b + 1) - n) with (length a + 1) by lia.
        rewrite drop_app_add'; [|reflexivity].
        destruct b as [|e b']; [simpl in Hbn; lia|]. reflexivity.
Qed.

(** The cache of [n] entries holds the [n] most recently used pages of the
    stack. *)
Lemma lru_touch_lastn (n : nat) (s : list (Z * N)) (x : Z * N) :
  1 <= n -> NoDup s ->
  lru_touch n (lastn n s) x = lastn n (stack_touch s x).
Proof.
  intros Hn Hnd.
  pose proof (lru_touch_split n (take (length s - n) s) (lastn n s) x Hn) as H.
  rewrite <- lastn_split in H. apply H; [exact Hnd | apply lastn_length].
Qed.

Lemma lru_misses_stack (mine : Z * N -> bool) (n : nat) (s t : list (Z * N)) :
  1 <= n -> NoDup s ->
  lru_misses mine n (lastn n s) t = stack_misses mine n s t.
Proof.
  intros Hn. revert s. induction t as [|x t IH]; intros s Hnd; [reflexivity|].
  simpl. destruct (mine x); [|apply IH; exact Hnd].
  rewrite lru_touch_lastn by assumption.
  rewrite IH by (apply stack_touch_NoDup; exact Hnd). reflexivity.
Qed.

Lemma stack_misses_mono (mine : Z * N -> bool) (n m : nat) (s t : list (Z * N)) :
  n <= m -> stack_misses mine m s t <= stack_misses mine n s t.
Proof.
  intros Hle. revert s. induction t as [|x t IH]; intros s; [reflexivity|].
  simpl. destruct (mine x); [|apply IH].
  specialize (IH (stack_touch s x)).
  destruct (decide (x ∈ lastn n s)) as [Hn|Hn].
  - destruct (decide (x ∈ lastn m s)) as [_|Hm]; [exact IH|].
    exfalso. apply Hm. eapply lastn_mono; eauto.
  - destruct (decide (x ∈ lastn m s)); simpl; lia.
Qed.

(** A larger LRU cache never misses more often. *)
Theorem lru_misses_mono (mine : Z * N -> bool) (n m : nat) (t : list (Z * N)) :
  1 <= n -> n <= m -> lru_misses mine m [] t <= lru_misses mine n [] t.
Proof.
  intros Hn Hle.
  change (@nil (Z * N)) with (lastn m []) at 1.
  change (@nil (Z * N)) with (lastn n []) at 2.
  rewrite !lru_misses_stack by (try lia; apply NoDup_nil_2).
  apply stack_misses_mono. exact Hle.
Qed.

(** ** The recency list as the reference LRU cache *)

Lemma NoDup_bounded_length (l : list nat) (n : nat) :
  NoDup l -> (forall f, f ∈ l -> f < n) -> length l <= n.
Proof.
  intros Hnd Hlt. rewrite <- (length_seq n 0). apply submseteq_length.
  apply NoDup_submseteq; [exact Hnd|]. intros f Hf. apply elem_of_seq.
  specialize (Hlt f Hf). lia.
Qed.

Lemma NoDup_covering_length (l : list nat) (n : nat) :
  (forall f, f < n -> f ∈ l) -> n <= length l.
Proof.
  intros Hall. rewrite <- (length_seq n 0). apply submseteq_length.
  apply NoDup_submseteq; [apply NoDup_seq|]. intros f Hf. apply elem_of_seq in Hf.
  apply Hall. lia.
Qed.

Section Region.
Variables (mem : list (Z * N)) (lru : list nat).
Hypothesis Hnd : NoDup lru.
Hypothesis Hmem : forall f, f ∈ lru <-> occupied mem f.
Hypothesis Hinj : forall f g e, is_free e = false ->
  mem !! f = Some e -> mem !! g = Some e -> g = f.

Lemma elem_of_pages (x : Z * N) : x ∈ pages_of mem lru <-> x ∈ content mem.
Proof.
  unfold pages_of. rewrite list_elem_of_fmap, elem_of_content. split.
  - intros (f & -> & Hf). apply Hmem in Hf. destruct Hf as (e & He & Hocc).
    exists f. rewrite He. simpl. auto.
  - intros (f & Hf & Hocc). exists f. rewrite Hf. split; [reflexivity|].
    apply Hmem. exists x. auto.
Qed.

Lemma pages_length : length (pages_of mem lru) = length lru.
Proof. unfold pages_of. apply length_fmap. Qed.

Lemma pages_touch_hit (f : nat) (x : Z * N) :
  mem !! f = Some x -> is_free x = false ->
  pages_of mem (list_remove f lru ++ [f]) =
  filter (fun y => y <> x) (pages_of mem lru) ++ [x].
Proof.
  intros Hf Hocc. unfold pages_of. rewrite fmap_app. simpl. rewrite Hf. simpl. f_equal.
  assert (Hall : forall g, g ∈ lru -> (default free_frame (mem !! g) = x <-> g = f)).
  { intros g Hg. split; [|intros ->; rewrite Hf; reflexivity].
    apply Hmem in Hg. destruct Hg as (e & He & _). rewrite He. simpl. intros ->.
    eapply Hinj; eauto. }
  clear Hnd Hmem. unfold list_remove. induction lru as [|g l IH]; [reflexivity|].
  assert (Hg := Hall g ltac:(left)).
  assert (Hl : forall h, h ∈ l -> default free_frame (mem !! h) = x <-> h = f)
    by (intros h Hh; apply Hall; right; exact Hh).
  simpl. destruct (decide (g = f)) as [->|Hne].
  - rewrite filter_cons_False by auto.
    rewrite (filter_cons_False _ (default free_frame (mem !! f))) by (rewrite Hf; auto).
    apply IH. exact Hl.
  - rewrite filter_cons_True by exact Hne.
    rewrite (filter_cons_True _ (default free_frame (mem !! g))) by (rewrite Hg; exact Hne).
    simpl. f_equal. apply IH. exact Hl.
Qed.

Lemma pages_insert_other (c : nat) (x : Z * N) (l : list nat) :
  c ∉ l -> pages_of (<[c := x]> mem) l = pages_of mem l.
Proof.
  intros Hc. unfold pages_of. apply list_fmap_ext. intros i g Hg.
  rewrite list_lookup_insert_ne; [reflexivity|].
  intros ->. apply Hc. eapply list_elem_of_lookup_2; eauto.
Qed.

(** A hit, a load into the free frame [c] and an eviction of the frame at
    the front of the list are the three moves of the reference cache. *)
Lemma region_hit (f : nat) (x : Z * N) :
  mem !! f = Some x -> is_free x = false ->
  x ∈ pages_of mem lru /\
  pages_of mem (list_remove f lru ++ [f]) = lru_touch (length mem) (pages_of mem lru) x.
Proof.
  intros Hf Hocc.
  assert (Hin : x ∈ pages_of mem lru) by (apply elem_of_pages, elem_of_content; eauto).
  split; [exact Hin|]. unfold lru_touch.
  destruct (decide (x ∈ pages_of mem lru)) as [_|H]; [|contradiction].
  apply pages_touch_hit; assumption.
Qed.

Lemma region_load (c : nat) (e x : Z * N) :
  mem !! c = Some e -> is_free e = true -> x ∉ content mem ->
  (x ∉ pages_of mem lru) /\
  pages_of (<[c := x]> mem) (lru ++ [c]) = lru_touch (length mem) (pages_of mem lru) x.
Proof.
  intros He Hfree Hx. pose proof (lookup_lt_Some _ _ _ He) as Hlt.
  assert (Hout : x ∉ pages_of mem lru) by (rewrite elem_of_pages; exact Hx).
  assert (Hc : c ∉ lru).
  { intros Hin. apply Hmem in Hin. destruct Hin as (e' & He' & Hocc). congruence. }
  split; [exact Hout|]. unfold lru_touch.
  destruct (decide (x ∈ pages_of mem lru)) as [H|_]; [contradiction|].
  assert (Hlen : length lru < length mem).
  { assert (H : length (c :: lru) <= length mem); [|simpl in H; lia].
    apply NoDup_bounded_length; [apply NoDup_cons; auto|].
    intros f Hf. apply elem_of_cons in Hf. destruct Hf as [->|Hf]; [exact Hlt|].
    apply Hmem in Hf. destruct Hf as (e' & He' & _). eapply lookup_lt_Some; eauto. }
  rewrite pages_length. destruct (decide (length lru < length mem)) as [_|H]; [|lia].
  unfold pages_of at 1. rewrite fmap_app. simpl.
  rewrite list_lookup_insert_eq by exact Hlt. simpl. f_equal.
  apply pages_insert_other. exact Hc.
Qed.

Lemma region_evict (f : nat) (rest : list nat) (x : Z * N) :
  lru = f :: rest -> full mem -> x ∉ content mem ->
  (x ∉ pages_of mem lru) /\
  pages_of (<[f := x]> mem) (list_remove f rest ++ [f]) =
  lru_touch (length mem) (pages_of mem lru) x.
Proof.
  intros Hl Hfull Hx.
  assert (Hout : x ∉ pages_of mem lru) by (rewrite elem_of_pages; exact Hx).
  split; [exact Hout|]. unfold lru_touch.
  destruct (decide (x ∈ pages_of mem lru)) as [H|_]; [contradiction|].
  assert (Hlen : length mem <= length lru).
  { apply NoDup_covering_length. intros g Hg. apply Hmem, Hfull. exact Hg. }
  rewrite pages_length. destruct (decide (length lru < length mem)) as [H|_]; [lia|].
  assert (Hf : f < length mem).
  { assert (Ho : occupied mem f) by (apply Hmem; rewrite Hl; left).
    destruct Ho as (e & He & _). eapply lookup_lt_Some; eauto. }
  assert (Hfr : f ∉ rest) by (rewrite Hl in Hnd; apply NoDup_cons in Hnd; tauto).
  rewrite (list_remove_absent f rest Hfr). rewrite Hl.
  unfold pages_of at 1. rewrite fmap_app. simpl.
  rewrite list_lookup_insert_eq by exact Hf. simpl. f_equal.
  rewrite drop_0. apply pages_insert_other. exact Hfr.
Qed.

End Region.

Module GlobalStack.
Import Global GlobalSteps GlobalInv GlobalRuns GlobalAfter GlobalCache.

Lemma g_step_lru (rand : nat -> nat) (pid : Z) (page : N) (trace : list (Z * N))
    (ci : nat) (vm vm' : VirtualMemoryManager) :
  consistent vm -> valid_pid pid -> replacement_policy vm = "lru" ->
  step rand pid page trace ci vm vm' ->
  let s := pages_of (memory (frame_status vm)) (lru_list (frame_status vm)) in
  pages_of (memory (frame_status vm')) (lru_list (frame_status vm'))
  = lru_touch (memoryFrames (frame_status vm)) s (pid, page) /\
  global_page_fault_count vm'
  = global_page_fault_count vm + (if decide ((pid, page) ∈ s) then 0 else 1).
Proof.
  intros Hc Hv Hlru Hstep s. subst s.
  pose proof (cons_size vm Hc) as Hsize.
  pose proof (valid_pid_occupies pid page Hv) as Hnew.
  destruct (cons_lru vm Hc Hlru) as [Hnd Hmem].
  assert (Hinj : forall f g e, is_free e = false ->
            memory (frame_status vm) !! f = Some e ->
            memory (frame_status vm) !! g = Some e -> g = f).
  { intros f g e Ho Hf Hg. eapply g_memory_injective; eauto. }
  assert (Hmiss : lookup_page (page_tables vm) pid page = None ->
                  (pid, page) ∉ content (memory (frame_status vm))).
  { intros Hl Hin. apply (g_resident_content vm pid page Hc) in Hin.
    destruct Hin as [f Hf]. congruence. }
  rewrite <- Hsize.
  destruct Hstep as [f Hlook | e pts' Hlook He Hfree _ _
                    | f old next lru calls pts' Hlook Hfull Hch Hold _ _
                    | pts' Hlook Hfull Hunk _ _].
  - rewrite Hlru. simpl. apply (cons_bij vm Hc) in Hlook. destruct Hlook as [Hf _].
    destruct (region_hit _ _ Hmem Hinj f (pid, page) Hf Hnew) as [Hin Heq].
    split; [exact Heq|].
    destruct (decide ((pid, page) ∈ _)) as [_|H]; [lia | contradiction].
  - simpl.
    destruct (region_load _ _ Hnd Hmem _ e (pid, page) He Hfree (Hmiss Hlook)) as [Hout Heq].
    split; [exact Heq|].
    destruct (decide ((pid, page) ∈ _)) as [H|_]; [contradiction | lia].
  - destruct Hch as [E|g rest E Hl'|g E Hvict|E]; try congruence. simpl.
    destruct (region_evict _ _ Hnd Hmem g rest (pid, page) Hl' Hfull (Hmiss Hlook))
      as [Hout Heq].
    split; [exact Heq|].
    destruct (decide ((pid, page) ∈ _)) as [H|_]; [contradiction | lia].
  - exfalso. apply Hunk. right. left. exact Hlru.
Qed.

Theorem g_loop_lru (rand : nat -> nat) (trace : list (Z * N)) (fuel i : nat)
    (vm vm' : VirtualMemoryManager) :
  consistent vm -> replacement_policy vm = "lru" ->
  access_loop rand trace fuel i vm = Ok vm' -> length trace <= i + fuel ->
  global_page_fault_count vm' =
  global_page_fault_count vm +
  lru_misses everyoneb (memoryFrames (frame_status vm))
    (pages_of (memory (frame_status vm)) (lru_list (frame_status vm))) (drop i trace).
Proof.
  revert i vm. induction fuel as [|fuel IH]; intros i vm Hc Hlru Hrun Hlen.
  { simpl in Hrun. injection Hrun as <-. rewrite drop_ge_nil by lia. simpl. lia. }
  rewrite g_loop_S in Hrun. destruct (trace !! i) as [[pid page]|] eqn:Hr.
  2:{ injection Hrun as <-.
      rewrite drop_ge_nil by (apply lookup_ge_None; exact Hr). simpl. lia. }
  apply bind_Ok in Hrun. destruct Hrun as (vm1 & H1 & Hrest). simpl in H1.
  apply g_handleAccess_Ok in H1; [|exact Hc]. destruct H1 as [Hv Hstep].
  pose proof (g_step_consistent _ _ _ _ _ _ _ Hc Hv Hstep) as Hc1.
  pose proof (g_step_fixed _ _ _ _ _ _ _ Hstep) as (Hp & _ & Hn).
  rewrite (IH (S i) vm1 Hc1 ltac:(congruence) Hrest ltac:(lia)).
  destruct (g_step_lru _ _ _ _ _ _ _ Hc Hv Hlru Hstep) as [Hs Hg].
  rewrite (drop_lookup_cons _ _ _ Hr). simpl. rewrite Hs, Hg, Hn. lia.
Qed.

End GlobalStack.

Module LocalStack.
Import Local LocalSteps LocalInv LocalRuns LocalAfter LocalCache.

Lemma l_step_lru (rand : nat -> nat) (pid : Z) (page : N) (trace : list (Z * N))
    (ci : nat) (vm vm' : VirtualMemoryManager) :
  consistent vm -> valid_pid pid -> replacement_policy vm = "lru" ->
  step rand pid page trace ci vm vm' ->
  let s := pages_of (partition (frame_status vm) pid) (recency (frame_status vm) pid) in
  pages_of (partition (frame_status vm') pid) (recency (frame_status vm') pid)
  = lru_touch (memoryFramesPerProcess (frame_status vm)) s (pid, page) /\
  faults_of (page_tables vm') (Z.to_nat pid)
  = faults_of (page_tables vm) (Z.to_nat pid) + (if decide ((pid, page) ∈ s) then 0 else 1).
Proof.
  intros Hc Hv Hlru Hstep s. subst s.
  pose proof (cons_rows vm Hc) as Hrows.
  pose proof (cons_lists vm Hc) as Hlists.
  pose proof (cons_size vm Hc pid Hv) as Hsize.
  pose proof (valid_pid_occupies pid page Hv) as Hnew.
  destruct (cons_lru vm Hc Hlru pid Hv) as [Hnd Hmem].
  destruct (valid_pid_lt pid Hv) as [_ Hq].
  assert (Hinj : forall f g e, is_free e = false ->
            partition (frame_status vm) pid !! f = Some e ->
            partition (frame_status vm) pid !! g = Some e -> g = f).
  { intros f g e Ho Hf Hg. eapply l_partition_injective; eauto. }
  assert (Hmiss : lookup_page (page_tables vm) pid page = None ->
                  (pid, page) ∉ content (partition (frame_status vm) pid)).
  { intros Hl Hin. apply (l_resident_content vm pid page Hc Hv) in Hin.
    destruct Hin as [f Hf]. congruence. }
  rewrite <- Hsize.
  destruct Hstep as [f Hlook | f pts' Hlook Hff Hfl _
                    | f old next lru calls pts' Hlook Hfull Hch Hold Hfl _
                    | pts' Hlook Hfull Hunk _ _].
  - rewrite Hlru. simpl. apply (cons_bij vm Hc) in Hlook. destruct Hlook as [_ Hf].
    destruct (region_hit _ _ Hmem Hinj f (pid, page) Hf Hnew) as [Hin Heq].
    assert (Hrec : recency
              (mkFrameStatus (memoryFramesPerProcess (frame_status vm))
                 (memory (frame_status vm)) (nextFrame (frame_status vm))
                 (row_set (lru_list (frame_status vm)) pid
                    (list_remove f (recency (frame_status vm) pid) ++ [f]))) pid
              = list_remove f (recency (frame_status vm) pid) ++ [f]).
    { unfold recency at 1, row_set. simpl. rewrite list_lookup_insert_eq by lia.
      reflexivity. }
    rewrite Hrec. split; [exact Heq|].
    destruct (decide ((pid, page) ∈ _)) as [_|H]; [lia | contradiction].
  - simpl. rewrite l_partition_placed, l_recency_placed by assumption.
    destruct (decide (pid = pid)) as [_|]; [|contradiction].
    destruct Hff as [(e & He & Hfree) _].
    destruct (region_load _ _ Hnd Hmem _ e (pid, page) He Hfree (Hmiss Hlook)) as [Hout Heq].
    split; [exact Heq|]. rewrite (faulted_self _ _ _ Hfl).
    destruct (decide ((pid, page) ∈ _)) as [H|_]; [contradiction | lia].
  - destruct Hch as [E|g rest E Hl'|g E Hvict|E]; try congruence. simpl.
    rewrite l_partition_placed, l_recency_placed by assumption.
    destruct (decide (pid = pid)) as [_|]; [|contradiction].
    destruct (region_evict _ _ Hnd Hmem g rest (pid, page) Hl' Hfull (Hmiss Hlook))
      as [Hout Heq].
    split; [exact Heq|]. rewrite (faulted_self _ _ _ Hfl).
    destruct (decide ((pid, page) ∈ _)) as [H|_]; [contradiction | lia].
  - exfalso. apply Hunk. right. left. exact Hlru.
Qed.

Theorem l_loop_lru (rand : nat -> nat) (trace : list (Z * N)) (P : Z) (fuel i : nat)
    (vm vm' : VirtualMemoryManager) :
  consistent vm -> valid_pid P -> replacement_policy vm = "lru" ->
  access_loop rand trace fuel i vm = Ok vm' -> length trace <= i + fuel ->
  faults_of (page_tables vm') (Z.to_nat P) =
  faults_of (page_tables vm) (Z.to_nat P) +
  lru_misses (owned_byb P) (memoryFramesPerProcess (frame_status vm))
    (pages_of (partition (frame_status vm) P) (recency (frame_status vm) P))
    (drop i trace).
Proof.
  intros Hc HP. revert i vm Hc.
  induction fuel as [|fuel IH]; intros i vm Hc Hlru Hrun Hlen.
  { simpl in Hrun. injection Hrun as <-. rewrite drop_ge_nil by lia. simpl. lia. }
  rewrite l_loop_S in Hrun. destruct (trace !! i) as [[pid page]|] eqn:Hr.
  2:{ injection Hrun as <-.
      rewrite drop_ge_nil by (apply lookup_ge_None; exact Hr). simpl. lia. }
  apply bind_Ok in Hrun. destruct Hrun as (vm1 & H1 & Hrest). simpl in H1.
  apply l_handleAccess_Ok in H1; [|exact Hc]. destruct H1 as [Hv Hstep].
  pose proof (l_step_consistent _ _ _ _ _ _ _ Hc Hv Hstep) as Hc1.
  pose proof (l_step_fixed _ _ _ _ _ _ _ Hstep) as (Hp & _ & Hn).
  rewrite (IH (S i) vm1 Hc1 ltac:(congruence) Hrest ltac:(lia)).
  rewrite (drop_lookup_cons _ _ _ Hr). simpl. unfold owned_byb at 2. simpl.
  destruct (Z.eqb_spec pid P) as [->|Hne].
  - destruct (l_step_lru _ _ _ _ _ _ _ Hc Hv Hlru Hstep) as [Hs Hg].
    rewrite Hs, Hg, Hn. lia.
  - destruct (l_step_other _ _ _ _ _ _ _ P Hc Hv HP ltac:(congruence) Hstep) as [Hpart Hf].
    destruct (LocalLru.l_step_touch _ _ _ _ _ _ _ Hc Hv Hlru Hstep) as (_ & _ & _ & _ & Hrec).
    rewrite Hpart, Hf, Hn, (Hrec P HP) by congruence. reflexivity.
Qed.

End LocalStack.

(** X11. No Belady anomaly under LRU: on every trace of the four processes,
    a run of either engine under [lru] with more frames never reports more
    faults than the run with fewer frames. *)
Theorem X11_lru_more_frames (rand rand' : nat -> nat) (trace : list (Z * N))
    (nfG nfG' nfL nfL' : Z) :
  valid_trace trace -> (Z.of_nat (length trace) <= INT_MAX)%Z ->
  (1 <= nfG)%Z -> (nfG <= nfG')%Z -> (4 <= nfL)%Z -> (nfL <= nfL')%Z ->
  (exists c per c' per',
     Global.runSimulation rand nfG "lru" trace = Ok (c, per) /\
     Global.runSimulation rand' nfG' "lru" trace = Ok (c', per') /\
     c' <= c) /\
  (exists c per c' per',
     Local.runSimulation rand nfL "lru" trace = Ok (c, per) /\
     Local.runSimulation rand' nfL' "lru" trace = Ok (c', per') /\
     c' <= c).
Proof.
  intros Hvalid Hlen HG HG' HL HL'. split.
  - assert (Hcount : forall r nf, (1 <= nf)%Z -> exists vm,
              Global.runSimulation r nf "lru" trace =
              Ok (Global.global_page_fault_count vm,
                  map page_fault_count (Global.page_tables vm)) /\
              Global.global_page_fault_count vm
              = lru_misses everyoneb (Z.to_nat nf) [] trace).
    { intros r nf Hnf.
      destruct (GlobalWhole.g_run_schedule r nf "lru" trace Hnf Hvalid Hlen)
        as (vm & Hvm & Hr & _).
      exists vm. split; [exact Hr|]. unfold Global.after in Hvm.
      destruct (GlobalRuns.g_new_consistent nf "lru" Hnf)
        as (vm0 & H0 & Hc0 & Hp0 & _ & Hn0 & Hg0 & _).
      rewrite H0 in Hvm. simpl in Hvm.
      rewrite (GlobalStack.g_loop_lru r trace (length trace) 0 vm0 vm Hc0 Hp0 Hvm)
        by lia.
      rewrite Hg0, Hn0. simpl. f_equal.
      unfold Global.VirtualMemoryManager_new, Global.FrameStatus_new in H0.
      destruct (nf <? 0)%Z; [discriminate|]. simpl in H0. injection H0 as <-. reflexivity. }
    destruct (Hcount rand nfG HG) as (vm & Hr & Hg).
    destruct (Hcount rand' nfG' ltac:(lia)) as (vm' & Hr' & Hg').
    eexists _, _, _, _. split; [exact Hr|]. split; [exact Hr'|].
    rewrite Hg, Hg'. apply lru_misses_mono; lia.
  - assert (Hcount : forall r nf, (4 <= nf)%Z -> exists vm,
              Local.runSimulation r nf "lru" trace =
              Ok (Local.global_page_fault_count vm,
                  map page_fault_count (Local.page_tables vm)) /\
              Local.global_page_fault_count vm
              = lru_misses (owned_byb 0) (Z.to_nat (nf ÷ 4)) [] trace
                + lru_misses (owned_byb 1) (Z.to_nat (nf ÷ 4)) [] trace
                + lru_misses (owned_byb 2) (Z.to_nat (nf ÷ 4)) [] trace
                + lru_misses (owned_byb 3) (Z.to_nat (nf ÷ 4)) [] trace).
    { intros r nf Hnf.
      destruct (LocalWhole.l_run_schedule r nf "lru" trace Hnf Hvalid Hlen)
        as (vm & Hvm & Hr & Hsum & _).
      exists vm. split; [exact Hr|]. unfold Local.after in Hvm.
      destruct (LocalRuns.l_new_consistent nf "lru" Hnf)
        as (vm0 & H0 & Hc0 & Hp0 & _ & Hn0 & _ & Hf0 & _ & Hpart).
      rewrite H0 in Hvm. simpl in Hvm.
      assert (Hper : forall P, valid_pid P ->
                faults_of (Local.page_tables vm) (Z.to_nat P)
                = lru_misses (owned_byb P) (Z.to_nat (nf ÷ 4)) [] trace).
      { intros P HP.
        rewrite (LocalStack.l_loop_lru r trace P (length trace) 0 vm0 vm Hc0 HP Hp0 Hvm)
          by lia.
        rewrite Hf0, Hn0. simpl. f_equal.
        unfold Local.VirtualMemoryManager_new in H0. apply bind_Ok in H0.
        destruct H0 as (fs & Hfs & [= <-]). unfold Local.FrameStatus_new in Hfs.
        destruct (decide (4 = 0)); [discriminate|].
        destruct (_ <? 0)%Z; [discriminate|]. injection Hfs as <-.
        unfold Local.recency. simpl. destruct (LocalSteps.valid_pid_lt P HP) as [_ Hq].
        destruct (Z.to_nat P) as [|[|[|[|k]]]]; reflexivity. }
      rewrite Hsum.
      rewrite <- (Hper 0%Z), <- (Hper 1%Z), <- (Hper 2%Z), <- (Hper 3%Z)
        by (unfold valid_pid; lia).
      reflexivity. }
    destruct (Hcount rand nfL HL) as (vm & Hr & Hg).
    destruct (Hcount rand' nfL' ltac:(lia)) as (vm' & Hr' & Hg').
    eexists _, _, _, _. split; [exact Hr|]. split; [exact Hr'|].
    rewrite Hg, Hg'.
    assert (Hk : 1 <= Z.to_nat (nfL ÷ 4) <= Z.to_nat (nfL' ÷ 4)).
    { assert (1 <= nfL ÷ 4)%Z by (apply Z.quot_le_lower_bound; lia).
      assert (nfL ÷ 4 <= nfL' ÷ 4)%Z by (apply Z.quot_le_mono; lia). lia. }
    pose proof (lru_misses_mono (owned_byb 0) _ _ trace (proj1 Hk) (proj2 Hk)).
    pose proof (lru_misses_mono (owned_byb 1) _ _ trace (proj1 Hk) (proj2 Hk)).
    pose proof (lru_misses_mono (owned_byb 2) _ _ trace (proj1 Hk) (proj2 Hk)).
    pose proof (lru_misses_mono (owned_byb 3) _ _ trace (proj1 Hk) (proj2 Hk)).
    lia.
Qed.

Lemma X11_witness :
  valid_trace (single_process 0 belady_pages) /\
  (Z.of_nat (length (single_process 0 belady_pages)) <= INT_MAX)%Z /\
  (1 <= 3)%Z /\ (3 <= 4)%Z /\ (4 <= 12)%Z /\ (12 <= 16)%Z /\
  (exists c per c' per',
     Global.runSimulation (fun _ => 0) 3 "lru" (single_process 0 belady_pages) = Ok (c, per) /\
     Global.runSimulation (fun _ => 0) 4 "lru" (single_process 0 belady_pages) = Ok (c', per') /\
     c' <= c) /\
  (exists c per c' per',
     Local.runSimulation (fun _ => 0) 12 "lru" (single_process 0 belady_pages) = Ok (c, per) /\
     Local.runSimulation (fun _ => 0) 16 "lru" (single_process 0 belady_pages) = Ok (c', per') /\
     c' <= c).
Proof.
  assert (Hvalid : valid_trace (single_process 0 belady_pages))
    by (apply valid_traceb_sound; reflexivity).
  assert (Hlen : (Z.of_nat (length (single_process 0 belady_pages)) <= INT_MAX)%Z)
    by (vm_compute; discriminate).
  assert (H1 : (1 <= 3)%Z) by lia. assert (H2 : (3 <= 4)%Z) by lia.
  assert (H3 : (4 <= 12)%Z) by lia. assert (H4 : (12 <= 16)%Z) by lia.
  split; [exact Hvalid|]. split; [exact Hlen|]. split; [exact H1|]. split; [exact H2|].
  split; [exact H3|]. split; [exact H4|].
  exact (X11_lru_more_frames (fun _ => 0) (fun _ => 0) (single_process 0 belady_pages)
           3 4 12 16 Hvalid Hlen H1 H2 H3 H4).
Defined.

(** X12. More frames never hurt the optimal policy: on every trace of the
    four processes, the optimal policy with [nf'] frames reports at most as
    many faults as each of the four policies (the optimal one included) with
    [nf <= nf'] frames, in both engines. *)
Theorem X12_optimal_more_frames (rand rand' : nat -> nat) (policy : string)
    (trace : list (Z * N)) (nfG nfG' nfL nfL' : Z) :
  known_policy policy -> valid_trace trace ->
  (Z.of_nat (length trace) <= INT_MAX)%Z ->
  (1 <= nfG)%Z -> (nfG <= nfG')%Z -> (4 <= nfL)%Z -> (nfL <= nfL')%Z ->
  (exists c per c' per',
     Global.runSimulation rand nfG policy trace = Ok (c, per) /\
     Global.runSimulation rand' nfG' "optimal" trace = Ok (c', per') /\
     c' <= c) /\
  (exists c per c' per',
     Local.runSimulation rand nfL policy trace = Ok (c, per) /\
     Local.runSimulation rand' nfL' "optimal" trace = Ok (c', per') /\
     c' <= c).
Proof.
  intros Hknown Hvalid Hlen HG HG' HL HL'. split.
  - destruct (GlobalWhole.g_run_schedule rand nfG policy trace HG Hvalid Hlen)
      as (vm & _ & Hr & Hsched & _).
    destruct (GlobalWhole.g_run_schedule rand' nfG' "optimal" trace ltac:(lia) Hvalid Hlen)
      as (vmo & _ & Hro & _ & Hclair).
    eexists _, _, _, _. split; [exact Hr|]. split; [exact Hro|].
    eapply (clairvoyant_least everyone (Z.to_nat nfG') ∅ trace); eauto.
    + eapply schedule_capacity; [|apply Hsched; exact Hknown]. lia.
    + rewrite size_empty. lia.
    + intros y Hy. exact I.
  - destruct (LocalWhole.l_run_schedule rand nfL policy trace HL Hvalid Hlen)
      as (vm & _ & Hr & Hsum & Hsched & _).
    destruct (LocalWhole.l_run_schedule rand' nfL' "optimal" trace ltac:(lia) Hvalid Hlen)
      as (vmo & _ & Hro & Hsumo & _ & Hclair).
    eexists _, _, _, _. split; [exact Hr|]. split; [exact Hro|].
    destruct (Hsched Hknown) as [_ Hper].
    assert (Hk : Z.to_nat (nfL ÷ 4) <= Z.to_nat (nfL' ÷ 4)).
    { assert (nfL ÷ 4 <= nfL' ÷ 4)%Z by (apply Z.quot_le_mono; lia). lia. }
    assert (Hle : forall P, valid_pid P ->
              faults_of (Local.page_tables vmo) (Z.to_nat P)
              <= faults_of (Local.page_tables vm) (Z.to_nat P)).
    { intros P HP.
      eapply (clairvoyant_least (owned_by P) (Z.to_nat (nfL' ÷ 4)) ∅ trace); eauto.
      - eapply schedule_capacity; [exact Hk | apply Hper; exact HP].
      - rewrite size_empty. lia.
      - intros y Hy. apply not_elem_of_empty in Hy. contradiction. }
    pose proof (Hle 0%Z ltac:(unfold valid_pid; lia)) as H0.
    pose proof (Hle 1%Z ltac:(unfold valid_pid; lia)) as H1.
    pose proof (Hle 2%Z ltac:(unfold valid_pid; lia)) as H2.
    pose proof (Hle 3%Z ltac:(unfold valid_pid; lia)) as H3.
    change (Z.to_nat 0) with 0 in H0. change (Z.to_nat 1) with 1 in H1.
    change (Z.to_nat 2) with 2 in H2. change (Z.to_nat 3) with 3 in H3.
    rewrite Hsumo, Hsum. lia.
Qed.

Lemma X12_witness :
  known_policy "optimal" /\ valid_trace (single_process 0 belady_pages) /\
  (Z.of_nat (length (single_process 0 belady_pages)) <= INT_MAX)%Z /\
  (1 <= 3)%Z /\ (3 <= 4)%Z /\ (4 <= 12)%Z /\ (12 <= 16)%Z /\
  (exists c per c' per',
     Global.runSimulation (fun _ => 0) 3 "optimal" (single_process 0 belady_pages)
       = Ok (c, per) /\
     Global.runSimulation (fun _ => 0) 4 "optimal" (single_process 0 belady_pages)
       = Ok (c', per') /\
     c' <= c).
Proof.
  assert (Hvalid : valid_trace (single_process 0 belady_pages))
    by (apply valid_traceb_sound; reflexivity).
  assert (Hlen : (Z.of_nat (length (single_process 0 belady_pages)) <= INT_MAX)%Z)
    by (vm_compute; discriminate).
  assert (H1 : (1 <= 3)%Z) by lia. assert (H2 : (3 <= 4)%Z) by lia.
  assert (H3 : (4 <= 12)%Z) by lia. assert (H4 : (12 <= 16)%Z) by lia.
  split; [exact known_optimal|]. split; [exact Hvalid|]. split; [exact Hlen|].
  split; [exact H1|]. split; [exact H2|]. split; [exact H3|]. split; [exact H4|].
  exact (proj1 (X12_optimal_more_frames (fun _ => 0) (fun _ => 0) "optimal"
                  (single_process 0 belady_pages) 3 4 12 16
                  known_optimal Hvalid Hlen H1 H2 H3 H4)).
Defined.

(** ** The frames beyond a multiple of four *)

Module LocalSpare.
Import Local.

Lemma l_remap_renumber (nf : Z) (vm : VirtualMemoryManager) (pid : Z) (page : N)
    (calls : nat) (r : result (FrameStatus * (Z * N * nat))) :
  (let* x := r in remap (renumber nf vm) pid page calls x)
  = renumbered nf (let* x := r in remap vm pid page calls x).
Proof.
  destruct r as [[fs [[op og] ef]]|e]; [|reflexivity]. simpl.
  destruct (table_erase op og (page_tables vm)) as [pts1|]; [|reflexivity]. simpl.
  destruct (table_map pid page ef pts1) as [pts2|]; reflexivity.
Qed.

(** [handleAccess] never reads [num_frames]. *)
Lemma l_access_renumber (rand : nat -> nat) (nf : Z) (pid : Z) (page : N)
    (trace : list (Z * N)) (ci : nat) (vm : VirtualMemoryManager) :
  handleAccess rand pid page trace ci (renumber nf vm)
  = renumbered nf (handleAccess rand pid page trace ci vm).
Proof.
  unfold handleAccess. simpl.
  destruct (table_get (page_tables vm) pid) as [t|]; [|reflexivity]. simpl.
  destruct (page_to_frame t !! page).
  { destruct (String.eqb (replacement_policy vm) "lru"); [|reflexivity].
    destruct (row_get (lru_list (frame_status vm)) pid); reflexivity. }
  destruct (table_fault pid (page_tables vm)) as [pts|]; [|reflexivity]. simpl.
  destruct (allocateFrame pid page (frame_status vm)) as [[fs [f|]]|]; try reflexivity.
  { simpl. destruct (table_map pid page f pts); reflexivity. }
  simpl.
  set (vm1 := mkVMM (num_frames vm) (replacement_policy vm) pts (frame_status vm)
                (S (global_page_fault_count vm)) (rand_calls vm)).
  change (mkVMM nf (replacement_policy vm) pts (frame_status vm)
            (S (global_page_fault_count vm)) (rand_calls vm)) with (renumber nf vm1).
  destruct (String.eqb (replacement_policy vm) "fifo"); [apply l_remap_renumber|].
  destruct (String.eqb (replacement_policy vm) "lru"); [apply l_remap_renumber|].
  destruct (String.eqb (replacement_policy vm) "optimal"); [apply l_remap_renumber|].
  destruct (String.eqb (replacement_policy vm) "random"); [apply l_remap_renumber|].
  reflexivity.
Qed.

Lemma l_loop_renumber (rand : nat -> nat) (nf : Z) (trace : list (Z * N)) (fuel i : nat)
    (vm : VirtualMemoryManager) :
  access_loop rand trace fuel i (renumber nf vm)
  = renumbered nf (access_loop rand trace fuel i vm).
Proof.
  revert i vm. induction fuel as [|fuel IH]; intros i vm; [reflexivity|].
  simpl. destruct (trace !! i) as [r|]; [|reflexivity].
  rewrite l_access_renumber.
  destruct (handleAccess rand r.1 r.2 trace i vm) as [vm1|]; [|reflexivity].
  simpl. apply IH.
Qed.

Lemma l_new_renumber (nf nf' : Z) (policy : string) :
  (nf ÷ 4 = nf' ÷ 4)%Z ->
  VirtualMemoryManager_new nf' policy = renumbered nf' (VirtualMemoryManager_new nf policy).
Proof.
  intros Hq. unfold VirtualMemoryManager_new, FrameStatus_new.
  destruct (decide (4 = 0)); [reflexivity|].
  change (Z.of_nat 4) with 4%Z. rewrite Hq.
  destruct (nf' ÷ 4 <? 0)%Z; reflexivity.
Qed.

End LocalSpare.

(** X13. The partitioned engine uses [4 * (num_frames / 4)] frames only: two
    frame counts with the same quotient by four give the same run, for every
    trace, policy string and sequence of draws: the same fault counts, or
    the same error. *)
Theorem X13_spare_frames_unused (rand : nat -> nat) (nf nf' : Z) (policy : string)
    (trace : list (Z * N)) :
  (nf ÷ 4 = nf' ÷ 4)%Z ->
  Local.runSimulation rand nf' policy trace = Local.runSimulation rand nf policy trace.
Proof.
  intros Hq. unfold Local.runSimulation.
  destruct (INT_MAX <? Z.of_nat (length trace))%Z; [reflexivity|].
  unfold Local.after. rewrite (LocalSpare.l_new_renumber nf nf' policy Hq).
  destruct (Local.VirtualMemoryManager_new nf policy) as [vm0|]; [|reflexivity].
  simpl. rewrite LocalSpare.l_loop_renumber.
  destruct (Local.access_loop rand trace (length trace) 0 vm0); reflexivity.
Qed.

Lemma X13_witness :
  (8 ÷ 4 = 11 ÷ 4)%Z /\
  Local.runSimulation (fun _ => 0) 11 "fifo" crowding_trace
  = Local.runSimulation (fun _ => 0) 8 "fifo" crowding_trace.
Proof.
  assert (Hq : (8 ÷ 4 = 11 ÷ 4)%Z) by reflexivity.
  split; [exact Hq|].
  exact (X13_spare_frames_unused (fun _ => 0) 8 11 "fifo" crowding_trace Hq).
Defined.

(** ** One process alone in the partitioned engine *)

Lemma installed_same (pts1 pts1' pts2 pts2' : list PageTable) (pid : Z) (page : N)
    (f : nat) (old : option (Z * N)) :
  (forall Q p, lookup_page pts1 Q p = lookup_page pts2 Q p) ->
  installed pts1 pts1' pid page f old -> installed pts2 pts2' pid page f old ->
  forall Q p, lookup_page pts1' Q p = lookup_page pts2' Q p.
Proof.
  intros Hsame H1 H2 Q p. rewrite (H1 Q p), (H2 Q p), Hsame. reflexivity.
Qed.

Lemma faulted_same (pts1 pts1' pts2 pts2' : list PageTable) (pid : Z) :
  length pts1 = length pts2 ->
  (forall Q, faults_of pts1 Q = faults_of pts2 Q) ->
  faulted pts1 pts1' pid -> faulted pts2 pts2' pid ->
  length pts1' = length pts2' /\ forall Q, faults_of pts1' Q = faults_of pts2' Q.
Proof.
  intros Hlen Hsame [Hl1 Hf1] [Hl2 Hf2]. split; [congruence|].
  intros Q. rewrite Hf1, Hf2, Hsame. reflexivity.
Qed.

Lemma fault_counts_same (pts1 pts2 : list PageTable) :
  length pts1 = length pts2 ->
  (forall Q, faults_of pts1 Q = faults_of pts2 Q) ->
  map page_fault_count pts1 = map page_fault_count pts2.
Proof.
  intros Hlen Hsame. apply list_eq. intros i.
  specialize (Hsame i). unfold faults_of in Hsame.
  change (map page_fault_count pts1 !! i) with ((page_fault_count <$> pts1) !! i).
  change (map page_fault_count pts2 !! i) with ((page_fault_count <$> pts2) !! i).
  rewrite !list_lookup_fmap.
  destruct (pts1 !! i) as [a|] eqn:Ha, (pts2 !! i) as [b|] eqn:Hb; simpl.
  - congruence.
  - apply lookup_lt_Some in Ha. apply lookup_ge_None in Hb. lia.
  - apply lookup_ge_None in Ha. apply lookup_lt_Some in Hb. lia.
  - reflexivity.
Qed.

Module Alone.

Lemma chooses_same (rand : nat -> nat) (trace : list (Z * N)) (ci : nat) (P : Z)
    (g : Global.VirtualMemoryManager) (l : Local.VirtualMemoryManager)
    (f next : nat) (lru : list nat) (calls : nat)
    (f2 next2 : nat) (lru2 : list nat) (calls2 : nat) :
  mirrors P g l -> full (Global.memory (Global.frame_status g)) ->
  Global.chooses rand trace ci (Global.replacement_policy g) (Global.frame_status g)
    (Global.rand_calls g) f next lru calls ->
  Local.chooses rand trace ci (Local.replacement_policy l) (Local.frame_status l) P
    (Local.rand_calls l) f2 next2 lru2 calls2 ->
  f2 = f /\ lru2 = lru /\ calls2 = calls /\
  (Global.replacement_policy g = "fifo" -> next2 = next) /\
  (Global.replacement_policy g <> "fifo" ->
   next = Global.nextFrame (Global.frame_status g) /\
   next2 = Local.cursor (Local.frame_status l) P).
Proof.
  intros (Hp & Hn & Hm & Hl & Hcur & Hg & Hcalls & _) Hfull HG HL.
  specialize (Hcur Hfull).
  destruct HG as [E|a rest E Hla|a E Hva|E];
    destruct HL as [E2|b rest2 E2 Hlb|b E2 Hvb|E2];
    try (exfalso; rewrite Hp, E2 in E; discriminate).
  - rewrite <- Hcur, <- Hl, <- Hn, <- Hcalls.
    split; [reflexivity|]. split; [reflexivity|]. split; [reflexivity|].
    split; [reflexivity | intros Hne; contradiction].
  - assert (a = b /\ rest = rest2) as [-> ->] by (rewrite Hl, Hlb in Hla; split; congruence).
    rewrite <- Hcalls.
    split; [reflexivity|]. split; [reflexivity|]. split; [reflexivity|].
    split; [intros Hf; congruence | intros _; split; reflexivity].
  - assert (b = a) by (rewrite <- Hm in Hvb; eapply optimal_victim_unique; eauto).
    subst b. rewrite <- Hl, <- Hcalls.
    split; [reflexivity|]. split; [reflexivity|]. split; [reflexivity|].
    split; [intros Hf; congruence | intros _; split; reflexivity].
  - rewrite <- Hcalls, <- Hn, <- Hl.
    split; [reflexivity|]. split; [reflexivity|]. split; [reflexivity|].
    split; [intros Hf; congruence | intros _; split; reflexivity].
Qed.

(** The same access takes mirrored managers to mirrored managers. *)
Lemma step_mirrors (rand : nat -> nat) (P : Z) (page : N) (trace : list (Z * N))
    (ci : nat) (g g' : Global.VirtualMemoryManager) (l l' : Local.VirtualMemoryManager) :
  Global.consistent g -> Local.consistent l -> valid_pid P -> mirrors P g l ->
  Global.step rand P page trace ci g g' -> Local.step rand P page trace ci l l' ->
  mirrors P g' l'.
Proof.
  intros HcG HcL HP Hmir HG HL.
  pose proof Hmir as (Hp & Hn & Hm & Hl & Hcur & Hg & Hcalls & Hlook & Hlen & Hfaults).
  pose proof (Local.cons_rows l HcL) as Hrows.
  pose proof (Local.cons_cursors l HcL) as Hcursors.
  pose proof (Local.cons_lists l HcL) as Hlists.
  pose proof (Global.cons_size g HcG) as Hsize.
  pose proof (Global.cons_cursor g HcG) as Hcursor.
  pose proof (valid_pid_occupies P page HP) as Hnew.
  destruct (LocalSteps.valid_pid_lt P HP) as [_ Hq].
  destruct HG as [f Hlk | e pts' Hlk He Hfree Hfl Hi
                 | f old next lru calls pts' Hlk Hfull Hch Hold Hfl Hi
                 | pts' Hlk Hfull Hunk Hfl Hsame];
    destruct HL as [f2 Hlk2 | f2 pts2 Hlk2 Hff2 Hfl2 Hi2
                   | f2 old2 next2 lru2 calls2 pts2 Hlk2 Hfull2 Hch2 Hold2 Hfl2 Hi2
                   | pts2 Hlk2 Hfull2 Hunk2 Hfl2 Hsame2];
    try (exfalso; rewrite Hlook in Hlk; congruence).
  - (* hit, hit *)
    assert (f2 = f) by (rewrite Hlook in Hlk; congruence). subst f2.
    rewrite <- Hp. destruct (String.eqb (Global.replacement_policy g) "lru"); [|exact Hmir].
    unfold mirrors. simpl. repeat split; auto.
    unfold Local.recency at 1, Local.row_set. simpl.
    rewrite list_lookup_insert_eq by lia. simpl. rewrite Hl. reflexivity.
  - (* free, free *)
    assert (Hfirst : first_free (Global.memory (Global.frame_status g))
                       (Global.nextFrame (Global.frame_status g))).
    { split; [eauto|]. intros h Hh.
      destruct (Global.cons_shape g HcG) as [Hfull|Hpre]; [apply Hfull; lia|].
      apply Hpre; lia. }
    assert (f2 = Global.nextFrame (Global.frame_status g)).
    { rewrite Hm in Hfirst. eapply LocalSteps.first_free_unique; eauto. }
    subst f2.
    destruct (LocalInv.l_filling l P _ HcL HP Hff2) as [Hzero _].
    destruct (faulted_same _ _ _ _ _ Hlen Hfaults Hfl Hfl2) as [Hlen' Hfaults'].
    unfold mirrors. simpl.
    rewrite LocalInv.l_partition_placed, LocalInv.l_cursor_placed,
      LocalInv.l_recency_placed by assumption.
    destruct (decide (P = P)) as [_|]; [|contradiction].
    split; [exact Hp|]. split; [exact Hn|]. split; [rewrite Hm; reflexivity|].
    split; [rewrite Hl; reflexivity|]. split.
    { intros Hfull'. rewrite Hzero.
      assert (Hlast : Global.nextFrame (Global.frame_status g) + 1
                      = Global.memoryFrames (Global.frame_status g)).
      { destruct (decide (Global.nextFrame (Global.frame_status g) + 1
                          = Global.memoryFrames (Global.frame_status g))) as [E|E];
          [exact E|]. exfalso.
        assert (Ho : occupied (<[Global.nextFrame (Global.frame_status g) := (P, page)]>
                                 (Global.memory (Global.frame_status g)))
                       (Global.nextFrame (Global.frame_status g) + 1)).
        { apply Hfull'. rewrite length_insert. lia. }
        apply occupied_insert in Ho; [|lia | exact Hnew].
        destruct Ho as [Ho|Ho]; [lia|].
        destruct Hfirst as [(e0 & He0 & Hfree0) _].
        destruct (Global.cons_shape g HcG) as [Hfull|Hpre].
        - destruct (Hfull (Global.nextFrame (Global.frame_status g))) as (e1 & He1 & Ho1);
            [lia | congruence].
        - apply Hpre in Ho; lia. }
      rewrite Hlast. apply Nat.Div0.mod_same. }
    split; [congruence|]. split; [exact Hcalls|].
    split; [eapply installed_same; eauto|]. split; [exact Hlen' | exact Hfaults'].
  - (* free, evict *)
    exfalso. rewrite <- Hm in Hfull2.
    destruct (Hfull2 (Global.nextFrame (Global.frame_status g))) as (e1 & He1 & Ho1);
      [lia | congruence].
  - (* free, dropped *)
    exfalso. rewrite <- Hm in Hfull2.
    destruct (Hfull2 (Global.nextFrame (Global.frame_status g))) as (e1 & He1 & Ho1);
      [lia | congruence].
  - (* evict, free *)
    exfalso. rewrite <- Hm in Hff2. eapply LocalSteps.first_free_not_full; eauto.
  - (* evict, evict *)
    destruct (chooses_same _ _ _ _ _ _ _ _ _ _ _ _ _ _ Hmir Hfull Hch Hch2)
      as (-> & -> & -> & Hfifo & Hother).
    assert (old2 = old) by (rewrite <- Hm in Hold2; congruence). subst old2.
    destruct (faulted_same _ _ _ _ _ Hlen Hfaults Hfl Hfl2) as [Hlen' Hfaults'].
    unfold mirrors. simpl.
    rewrite LocalInv.l_partition_placed, LocalInv.l_cursor_placed,
      LocalInv.l_recency_placed by assumption.
    destruct (decide (P = P)) as [_|]; [|contradiction].
    split; [exact Hp|]. split; [exact Hn|]. split; [rewrite Hm; reflexivity|].
    split; [reflexivity|]. split.
    { intros _. destruct (decide (Global.replacement_policy g = "fifo")) as [E|E].
      - symmetry. apply Hfifo. exact E.
      - destruct (Hother E) as [-> ->]. apply Hcur. exact Hfull. }
    split; [congruence|]. split; [reflexivity|].
    split; [eapply installed_same; eauto|]. split; [exact Hlen' | exact Hfaults'].
  - (* evict, dropped *)
    exfalso. apply Hunk2. rewrite <- Hp. unfold known_policy. destruct Hch; auto.
  - (* dropped, free *)
    exfalso. rewrite <- Hm in Hff2. eapply LocalSteps.first_free_not_full; eauto.
  - (* dropped, evict *)
    exfalso. apply Hunk. rewrite Hp. unfold known_policy. destruct Hch2; auto.
  - (* dropped, dropped *)
    destruct (faulted_same _ _ _ _ _ Hlen Hfaults Hfl Hfl2) as [Hlen' Hfaults'].
    unfold mirrors. simpl. repeat split; auto.
    intros Q p. rewrite Hsame, Hsame2. apply Hlook.
Qed.

Lemma loop_mirrors (rand : nat -> nat) (P : Z) (trace : list (Z * N)) (fuel i : nat)
    (g : Global.VirtualMemoryManager) (l : Local.VirtualMemoryManager) :
  Global.consistent g -> Local.consistent l -> valid_pid P ->
  Forall (fun r => r.1 = P) trace -> mirrors P g l ->
  exists g' l',
    Global.access_loop rand trace fuel i g = Ok g' /\
    Local.access_loop rand trace fuel i l = Ok l' /\
    mirrors P g' l'.
Proof.
  intros HcG HcL HP Hall. revert i g l HcG HcL.
  induction fuel as [|fuel IH]; intros i g l HcG HcL Hmir; simpl.
  { exists g, l. auto. }
  destruct (trace !! i) as [[pid page]|] eqn:Hr; [|exists g, l; auto].
  assert (pid = P).
  { rewrite Forall_forall in Hall. apply (Hall (pid, page)).
    eapply list_elem_of_lookup_2; eauto. }
  subst pid. simpl.
  destruct (GlobalInv.g_handleAccess_step rand P page trace i g HcG HP)
    as (g1 & HG1 & HsG).
  destruct (LocalInv.l_handleAccess_step rand P page trace i l HcL HP)
    as (l1 & HL1 & HsL).
  rewrite HG1, HL1. simpl. apply IH.
  - eapply GlobalInv.g_step_consistent; eauto.
  - eapply LocalInv.l_step_consistent; eauto.
  - eapply step_mirrors; eauto.
Qed.

Lemma new_mirrors (nf : Z) (policy : string) (P : Z) :
  (4 <= nf)%Z -> valid_pid P ->
  exists g l,
    Global.VirtualMemoryManager_new (nf ÷ 4) policy = Ok g /\
    Local.VirtualMemoryManager_new nf policy = Ok l /\
    Global.consistent g /\ Local.consistent l /\ mirrors P g l.
Proof.
  intros Hnf HP.
  assert (Hk : (1 <= nf ÷ 4)%Z) by (apply Z.quot_le_lower_bound; lia).
  destruct (GlobalRuns.g_new_consistent (nf ÷ 4) policy Hk)
    as (g & HG & HcG & HpG & _ & HnG & HgG & HfG & HlG).
  destruct (LocalRuns.l_new_consistent nf policy Hnf)
    as (l & HL & HcL & HpL & _ & HnL & HgL & HfL & HlL & Hpart).
  exists g, l. split; [exact HG|]. split; [exact HL|].
  split; [exact HcG|]. split; [exact HcL|].
  destruct (GlobalWhole.g_new_memory _ _ _ HG) as [Hmem _].
  unfold Global.VirtualMemoryManager_new, Global.FrameStatus_new in HG.
  destruct (nf ÷ 4 <? 0)%Z; [discriminate|]. simpl in HG. injection HG as <-.
  unfold Local.VirtualMemoryManager_new in HL. apply bind_Ok in HL.
  destruct HL as (fs & Hfs & [= <-]). unfold Local.FrameStatus_new in Hfs.
  destruct (decide (4 = 0)); [discriminate|].
  destruct (_ <? 0)%Z; [discriminate|]. injection Hfs as <-.
  destruct (LocalSteps.valid_pid_lt P HP) as [_ Hq].
  unfold mirrors. simpl.
  split; [reflexivity|]. split; [reflexivity|].
  split; [unfold Local.partition; simpl;
          destruct (Z.to_nat P) as [|[|[|[|k]]]]; try reflexivity; lia|].
  split; [unfold Local.recency; simpl;
          destruct (Z.to_nat P) as [|[|[|[|k]]]]; reflexivity|].
  split; [intros _; unfold Local.cursor; simpl;
          destruct (Z.to_nat P) as [|[|[|[|k]]]]; reflexivity|].
  repeat split; reflexivity.
Qed.

End Alone.

(** X14. One process alone: when every record of the trace names the same
    process, the partitioned engine with [num_frames >= 4] frames behaves as
    the shared-pool engine with [num_frames / 4] frames: under every policy
    string and sequence of draws the two report the same global and
    per-process fault counts. *)
Theorem X14_one_process_alone (rand : nat -> nat) (nf : Z) (policy : string)
    (P : Z) (trace : list (Z * N)) :
  (4 <= nf)%Z -> valid_pid P -> Forall (fun r => r.1 = P) trace ->
  Local.runSimulation rand nf policy trace
  = Global.runSimulation rand (nf ÷ 4) policy trace.
Proof.
  intros Hnf HP Hall. unfold Local.runSimulation, Global.runSimulation.
  destruct (INT_MAX <? Z.of_nat (length trace))%Z; [reflexivity|].
  unfold Local.after, Global.after.
  destruct (Alone.new_mirrors nf policy P Hnf HP) as (g & l & HG & HL & HcG & HcL & Hmir).
  rewrite HG, HL. simpl.
  destruct (Alone.loop_mirrors rand P trace (length trace) 0 g l HcG HcL HP Hall Hmir)
    as (g' & l' & HG' & HL' & Hmir').
  rewrite HG', HL'. simpl.
  destruct Hmir' as (_ & _ & _ & _ & _ & Hg & _ & _ & Hlen & Hfaults).
  rewrite Hg, (fault_counts_same _ _ Hlen Hfaults). reflexivity.
Qed.

Lemma X14_witness :
  (4 <= 12)%Z /\ valid_pid 2 /\
  Local.runSimulation (fun _ => 0) 12 "fifo" (single_process 2 belady_pages)
  = Ok (9, [0; 0; 9; 0]).
Proof.
  assert (Hnf : (4 <= 12)%Z) by lia.
  assert (HP : valid_pid 2) by (unfold valid_pid; lia).
  split; [exact Hnf|]. split; [exact HP|].
  rewrite (X14_one_process_alone (fun _ => 0) 12 "fifo" 2 (single_process 2 belady_pages)
             Hnf HP).
  - vm_compute. reflexivity.
  - unfold single_process. apply Forall_forall. intros r Hr.
    change (map (fun p => (2%Z, p)) belady_pages) with ((fun p => (2%Z, p)) <$> belady_pages)
      in Hr.
    apply list_elem_of_fmap in Hr. destruct Hr as (p & -> & _). reflexivity.
Defined.

(** ** Where [fifo] places the pages *)

Lemma filled_first_free_index (mem : list (Z * N)) (count f : nat) :
  filled mem count -> first_free mem f -> f = count.
Proof.
  intros Hfill [(e & He & Hfree) Hbefore].
  pose proof (lookup_lt_Some _ _ _ He) as Hlt.
  assert (Hge : count <= f).
  { destruct (Nat.le_gt_cases count f) as [H|H]; [exact H|]. exfalso.
    assert (Ho : occupied mem f) by (apply Hfill; lia).
    destruct Ho as (e' & He' & Hocc). congruence. }
  destruct (Nat.le_gt_cases f count) as [H|H]; [lia|]. exfalso.
  pose proof (proj1 (Hfill count) (Hbefore count H)). lia.
Qed.

Module GlobalFifo.
Import Global GlobalSteps GlobalInv GlobalRuns GlobalAfter.

Lemma g_step_cursor (rand : nat -> nat) (pid : Z) (page : N) (trace : list (Z * N))
    (ci : nat) (vm vm' : VirtualMemoryManager) :
  consistent vm -> replacement_policy vm = "fifo" ->
  step rand pid page trace ci vm vm' ->
  nextFrame (frame_status vm)
  = global_page_fault_count vm mod memoryFrames (frame_status vm) ->
  nextFrame (frame_status vm')
  = global_page_fault_count vm' mod memoryFrames (frame_status vm) /\
  (lookup_page (page_tables vm) pid page = None ->
   lookup_page (page_tables vm') pid page = Some (nextFrame (frame_status vm))).
Proof.
  intros Hc Hfifo Hstep Hcur.
  destruct Hstep as [f Hlook | e pts' Hlook He Hfree _ Hi
                    | f old next lru calls pts' Hlook Hfull Hch Hold _ Hi
                    | pts' Hlook Hfull Hunk _ _].
  - rewrite Hfifo. simpl. split; [exact Hcur | congruence].
  - simpl. split.
    + rewrite Hcur, Nat.Div0.add_mod_idemp_l.
      replace (global_page_fault_count vm + 1) with (S (global_page_fault_count vm)) by lia.
      reflexivity.
    + intros _. rewrite (Hi pid page).
      destruct (decide (pid = pid /\ page = page)) as [_|H]; [reflexivity | tauto].
  - destruct Hch as [E|g rest E Hl'|g E Hvict|E]; try congruence. simpl. split.
    + rewrite Hcur, Nat.Div0.add_mod_idemp_l.
      replace (global_page_fault_count vm + 1) with (S (global_page_fault_count vm)) by lia.
      reflexivity.
    + intros _. rewrite (Hi pid page).
      destruct (decide (pid = pid /\ page = page)) as [_|H]; [reflexivity | tauto].
  - exfalso. apply Hunk. left. exact Hfifo.
Qed.

Theorem g_after_cursor (rand : nat -> nat) (nf : Z) (trace : list (Z * N)) (n : nat)
    (vm : VirtualMemoryManager) :
  (1 <= nf)%Z -> after rand nf "fifo" trace n = Ok vm ->
  nextFrame (frame_status vm) = global_page_fault_count vm mod Z.to_nat nf.
Proof.
  intros Hnf. revert vm. induction n as [|n IH]; intros vm Hrun.
  - unfold after in Hrun. apply bind_Ok in Hrun. destruct Hrun as (vm0 & H0 & [= <-]).
    unfold VirtualMemoryManager_new, FrameStatus_new in H0.
    destruct (nf <? 0)%Z; [discriminate|]. simpl in H0. injection H0 as <-. simpl.
    symmetry. apply Nat.Div0.mod_0_l.
  - apply g_after_prefix in Hrun. destruct Hrun as (vm0 & H0 & Hstep).
    specialize (IH vm0 H0).
    destruct (g_after_consistent _ _ _ _ _ _ Hnf H0) as (Hc & Hp & Hk).
    destruct (trace !! n) as [[pid page]|]; [|subst vm; exact IH].
    simpl in Hstep. apply g_handleAccess_Ok in Hstep; [|exact Hc].
    destruct Hstep as [Hv Hstep].
    destruct (g_step_cursor rand pid page trace n vm0 vm Hc Hp Hstep) as [Hcur _].
    + rewrite Hk. exact IH.
    + rewrite Hk in Hcur. exact Hcur.
Qed.

End GlobalFifo.

Module LocalFifo.
Import Local LocalSteps LocalInv LocalRuns LocalAfter LocalCache.

Lemma l_step_cursor (rand : nat -> nat) (pid : Z) (page : N) (trace : list (Z * N))
    (ci : nat) (vm vm' : VirtualMemoryManager) (P : Z) :
  consistent vm -> valid_pid pid -> valid_pid P -> replacement_policy vm = "fifo" ->
  step rand pid page trace ci vm vm' ->
  filled (partition (frame_status vm) pid) (faults_of (page_tables vm) (Z.to_nat pid)) ->
  turning (cursor (frame_status vm) P) (faults_of (page_tables vm) (Z.to_nat P))
    (memoryFramesPerProcess (frame_status vm)) ->
  turning (cursor (frame_status vm') P) (faults_of (page_tables vm') (Z.to_nat P))
    (memoryFramesPerProcess (frame_status vm)).
Proof.
  intros Hc Hv HP Hfifo Hstep Hfill Hturn.
  pose proof (cons_rows vm Hc) as Hrows.
  pose proof (cons_cursors vm Hc) as Hcursors.
  pose proof (cons_positive vm Hc) as Hpos.
  pose proof (cons_size vm Hc pid Hv) as Hsize.
  destruct (decide (P = pid)) as [->|Hne].
  2:{ destruct (l_step_other rand pid page trace ci vm vm' P Hc Hv HP Hne Hstep) as [_ ->].
      assert (Hsame : cursor (frame_status vm') P = cursor (frame_status vm) P).
      { destruct Hstep as [f Hlook | f pts' Hlook Hff _ _
                          | f old next lru calls pts' Hlook Hfull Hch Hold _ _
                          | pts' Hlook Hfull Hunk _ _]; simpl.
        - destruct (String.eqb (replacement_policy vm) "lru"); reflexivity.
        - rewrite l_cursor_placed by assumption.
          destruct (decide (P = pid)); [contradiction | reflexivity].
        - rewrite l_cursor_placed by assumption.
          destruct (decide (P = pid)); [contradiction | reflexivity].
        - reflexivity. }
      rewrite Hsame. exact Hturn. }
  unfold turning in *.
  destruct Hstep as [f Hlook | f pts' Hlook Hff Hfl _
                    | f old next lru calls pts' Hlook Hfull Hch Hold Hfl _
                    | pts' Hlook Hfull Hunk _ _].
  - rewrite Hfifo. simpl. exact Hturn.
  - simpl. rewrite l_cursor_placed by assumption.
    destruct (decide (pid = pid)) as [_|]; [|contradiction].
    rewrite (faulted_self _ _ _ Hfl).
    pose proof (filled_first_free_index _ _ _ Hfill Hff) as Hf.
    pose proof (first_free_lt _ _ Hff) as Hlt. rewrite Hsize in Hlt.
    destruct (l_filling vm pid f Hc Hv Hff) as [Hzero _]. rewrite Hzero.
    destruct (Nat.ltb_spec (S (faults_of (page_tables vm) (Z.to_nat pid)))
                (memoryFramesPerProcess (frame_status vm))) as [H|H]; [reflexivity|].
    assert (E : S (faults_of (page_tables vm) (Z.to_nat pid))
                = memoryFramesPerProcess (frame_status vm)) by lia.
    rewrite E. symmetry. apply Nat.Div0.mod_same.
  - destruct Hch as [E|g rest E Hl'|g E Hvict|E]; try congruence. simpl.
    rewrite l_cursor_placed by assumption.
    destruct (decide (pid = pid)) as [_|]; [|contradiction].
    rewrite (faulted_self _ _ _ Hfl).
    pose proof (filled_full _ _ Hfill Hfull) as Hle. rewrite Hsize in Hle.
    destruct (Nat.ltb_spec (faults_of (page_tables vm) (Z.to_nat pid))
                (memoryFramesPerProcess (frame_status vm))) as [H|_]; [lia|].
    destruct (Nat.ltb_spec (S (faults_of (page_tables vm) (Z.to_nat pid)))
                (memoryFramesPerProcess (frame_status vm))) as [H|_]; [lia|].
    rewrite Hturn, Nat.Div0.add_mod_idemp_l.
    replace (faults_of (page_tables vm) (Z.to_nat pid) + 1)
      with (S (faults_of (page_tables vm) (Z.to_nat pid))) by lia.
    reflexivity.
  - exfalso. apply Hunk. left. exact Hfifo.
Qed.

Theorem l_after_cursor (rand : nat -> nat) (nf : Z) (trace : list (Z * N)) (n : nat)
    (vm : VirtualMemoryManager) (P : Z) :
  (4 <= nf)%Z -> valid_pid P -> after rand nf "fifo" trace n = Ok vm ->
  turning (cursor (frame_status vm) P) (faults_of (page_tables vm) (Z.to_nat P))
    (Z.to_nat (nf ÷ 4)).
Proof.
  intros Hnf HP. revert vm. induction n as [|n IH]; intros vm Hrun.
  - destruct (l_after_consistent _ _ _ _ _ _ Hnf Hrun) as (Hc & _ & Hk).
    pose proof (cons_positive vm Hc) as Hpos.
    unfold after in Hrun. apply bind_Ok in Hrun. destruct Hrun as (vm0 & H0 & [= <-]).
    destruct (l_new_consistent nf "fifo" Hnf)
      as (vm1 & H1 & _ & _ & _ & _ & _ & Hf & _).
    assert (vm1 = vm0) by congruence. subst vm1. unfold turning. rewrite Hf.
    destruct (Nat.ltb_spec 0 (Z.to_nat (nf ÷ 4))) as [_|H]; [|lia].
    unfold VirtualMemoryManager_new in H0. apply bind_Ok in H0.
    destruct H0 as (fs & Hfs & [= <-]). unfold FrameStatus_new in Hfs.
    destruct (decide (4 = 0)); [discriminate|].
    destruct (_ <? 0)%Z; [discriminate|]. injection Hfs as <-.
    unfold cursor. simpl. destruct (Z.to_nat P) as [|[|[|[|k]]]]; reflexivity.
  - apply l_after_prefix in Hrun. destruct Hrun as (vm0 & H0 & Hstep).
    specialize (IH vm0 H0).
    destruct (l_after_consistent _ _ _ _ _ _ Hnf H0) as (Hc & Hp & Hk).
    destruct (trace !! n) as [[pid page]|]; [|subst vm; exact IH].
    simpl in Hstep. apply l_handleAccess_Ok in Hstep; [|exact Hc].
    destruct Hstep as [Hv Hstep]. rewrite <- Hk.
    apply (l_step_cursor rand pid page trace n vm0 vm P Hc Hv HP Hp Hstep).
    + eapply LocalFill.l_after_filled; eauto.
    + rewrite Hk. exact IH.
Qed.

End LocalFifo.

(** X15. FIFO is a round robin over the frames: in a run under [fifo], the
    page that a miss brings in is placed in the frame whose index is the
    number of faults so far modulo the size of the region (of the faults of
    the process and of its partition, in the partitioned engine). *)
Theorem X15_fifo_placement (rand : nat -> nat) (nf : Z) (trace : list (Z * N)) (n : nat)
    (pid : Z) (page : N) (ci : nat) :
  (forall vm vm', (1 <= nf)%Z -> Global.after rand nf "fifo" trace n = Ok vm ->
     lookup_page (Global.page_tables vm) pid page = None ->
     Global.handleAccess rand pid page trace ci vm = Ok vm' ->
     Global.nextFrame (Global.frame_status vm)
     = Global.global_page_fault_count vm mod Z.to_nat nf /\
     lookup_page (Global.page_tables vm') pid page
     = Some (Global.global_page_fault_count vm mod Z.to_nat nf)) /\
  (forall vm vm', (4 <= nf)%Z -> Local.after rand nf "fifo" trace n = Ok vm ->
     lookup_page (Local.page_tables vm) pid page = None ->
     Local.handleAccess rand pid page trace ci vm = Ok vm' ->
     lookup_page (Local.page_tables vm') pid page
     = Some (faults_of (Local.page_tables vm) (Z.to_nat pid) mod Z.to_nat (nf ÷ 4))).
Proof.
  split.
  - intros vm vm' Hnf Hrun Hmiss Hacc.
    destruct (GlobalAfter.g_after_consistent _ _ _ _ _ _ Hnf Hrun) as (Hc & Hp & Hk).
    pose proof (GlobalFifo.g_after_cursor rand nf trace n vm Hnf Hrun) as Hcur.
    split; [exact Hcur|].
    apply GlobalRuns.g_handleAccess_Ok in Hacc; [|exact Hc]. destruct Hacc as [Hv Hstep].
    destruct (GlobalFifo.g_step_cursor rand pid page trace ci vm vm' Hc Hp Hstep)
      as [_ Hplace]; [rewrite Hk; exact Hcur|].
    rewrite (Hplace Hmiss), Hcur. reflexivity.
  - intros vm vm' Hnf Hrun Hmiss Hacc.
    destruct (LocalAfter.l_after_consistent _ _ _ _ _ _ Hnf Hrun) as (Hc & Hp & Hk).
    apply LocalRuns.l_handleAccess_Ok in Hacc; [|exact Hc]. destruct Hacc as [Hv Hstep].
    pose proof (LocalFifo.l_after_cursor rand nf trace n vm pid Hnf Hv Hrun) as Hturn.
    pose proof (LocalFill.l_after_filled rand nf "fifo" trace n vm pid Hnf Hv Hrun) as Hfill.
    pose proof (Local.cons_size vm Hc pid Hv) as Hsize.
    unfold turning in Hturn. rewrite <- Hk.
    destruct Hstep as [f Hlook | f pts' Hlook Hff _ Hi
                      | f old next lru calls pts' Hlook Hfull Hch Hold _ Hi
                      | pts' Hlook Hfull Hunk _ _].
    + congruence.
    + simpl. rewrite (Hi pid page).
      destruct (decide (pid = pid /\ page = page)) as [_|H]; [|tauto].
      pose proof (filled_first_free_index _ _ _ Hfill Hff) as Hf.
      pose proof (LocalSteps.first_free_lt _ _ Hff) as Hlt. rewrite Hsize in Hlt.
      rewrite Nat.mod_small by lia. congruence.
    + destruct Hch as [E|g rest E Hl'|g E Hvict|E]; try congruence. simpl.
      rewrite (Hi pid page).
      destruct (decide (pid = pid /\ page = page)) as [_|H]; [|tauto].
      pose proof (filled_full _ _ Hfill Hfull) as Hle. rewrite Hsize in Hle.
      rewrite Hturn, Hk.
      destruct (Nat.ltb_spec (faults_of (Local.page_tables vm) (Z.to_nat pid))
                  (Z.to_nat (nf ÷ 4))) as [H|_]; [lia | reflexivity].
    + exfalso. apply Hunk. left. exact Hp.
Qed.

Lemma X15_witness :
  exists vmG vmG' vmL vmL',
    Global.after (fun _ => 0) 3 "fifo" crowding_trace 4 = Ok vmG /\
    Global.handleAccess (fun _ => 0) 1 4 crowding_trace 4 vmG = Ok vmG' /\
    lookup_page (Global.page_tables vmG') 1 4 = Some 1 /\
    Local.after (fun _ => 0) 8 "fifo" crowding_trace 4 = Ok vmL /\
    Local.handleAccess (fun _ => 0) 1 4 crowding_trace 4 vmL = Ok vmL' /\
    lookup_page (Local.page_tables vmL') 1 4 = Some 1.
Proof.
  assert (Hvalid : valid_trace crowding_trace) by (apply valid_traceb_sound; reflexivity).
  destruct (GlobalAfter.g_after_total (fun _ => 0) 3 "fifo" crowding_trace 4
              ltac:(lia) Hvalid) as [vmG HvmG].
  destruct (GlobalAfter.g_after_total (fun _ => 0) 3 "fifo" crowding_trace 5
              ltac:(lia) Hvalid) as [vmG' HvmG'].
  destruct (LocalAfter.l_after_total (fun _ => 0) 8 "fifo" crowding_trace 4
              ltac:(lia) Hvalid) as [vmL HvmL].
  destruct (LocalAfter.l_after_total (fun _ => 0) 8 "fifo" crowding_trace 5
              ltac:(lia) Hvalid) as [vmL' HvmL'].
  assert (HsG : Global.handleAccess (fun _ => 0) 1 4 crowding_trace 4 vmG = Ok vmG').
  { rewrite GlobalAfter.g_after_S, HvmG in HvmG'. exact HvmG'. }
  assert (HsL : Local.handleAccess (fun _ => 0) 1 4 crowding_trace 4 vmL = Ok vmL').
  { rewrite LocalAfter.l_after_S, HvmL in HvmL'. exact HvmL'. }
  pose proof HvmG as HcG. vm_compute in HcG. injection HcG as HcG.
  pose proof HvmL as HcL. vm_compute in HcL. injection HcL as HcL.
  destruct (X15_fifo_placement (fun _ => 0) 3 crowding_trace 4 1 4 4) as [XG _].
  destruct (X15_fifo_placement (fun _ => 0) 8 crowding_trace 4 1 4 4) as [_ XL].
  destruct (XG vmG vmG' ltac:(lia) HvmG) as [_ HpG]; [|exact HsG|].
  { rewrite <- HcG. vm_compute. reflexivity. }
  pose proof (XL vmL vmL' ltac:(lia) HvmL) as HpL.
  rewrite <- HcG in HpG. rewrite <- HcL in HpL.
  exists vmG, vmG', vmL, vmL'.
  split; [exact HvmG|]. split; [exact HsG|]. split; [exact HpG|].
  split; [exact HvmL|]. split; [exact HsL|].
  apply HpL; [vm_compute; reflexivity | rewrite HcL; exact HsL].
Defined.

(** ** A policy name that the managers do not know *)

Lemma unknown_not_lru (policy : string) :
  ~ known_policy policy -> String.eqb policy "lru" = false.
Proof.
  intros Hunk. destruct (String.eqb_spec policy "lru") as [->|_]; [|reflexivity].
  exfalso. apply Hunk. right. left. reflexivity.
Qed.

Lemma window_S (trace : list (Z * N)) (n d : nat) :
  take (S d) (drop n trace)
  = take d (drop n trace) ++ match trace !! (n + d) with Some r => [r] | None => [] end.
Proof.
  destruct (trace !! (n + d)) as [r|] eqn:E.
  - apply take_S_r. rewrite lookup_drop. exact E.
  - apply lookup_ge_None in E. rewrite app_nil_r.
    rewrite !take_ge; [reflexivity | |]; rewrite length_drop; lia.
Qed.

Lemma misses_in_snoc (pts : list PageTable) (records : list (Z * N)) (r : Z * N) :
  misses_in pts (records ++ [r])
  = misses_in pts records + match lookup_page pts r.1 r.2 with None => 1 | Some _ => 0 end.
Proof.
  unfold misses_in. rewrite filter_app, length_app. f_equal.
  rewrite filter_cons, filter_nil.
  destruct (lookup_page pts r.1 r.2) as [f|] eqn:E.
  - rewrite decide_False by discriminate. reflexivity.
  - rewrite decide_True by reflexivity. reflexivity.
Qed.

Module GlobalFrozen.
Import Global GlobalSteps GlobalInv GlobalRuns GlobalAfter.

Lemma g_step_frozen (rand : nat -> nat) (pid : Z) (page : N) (trace : list (Z * N))
    (ci : nat) (vm vm' : VirtualMemoryManager) :
  ~ known_policy (replacement_policy vm) -> full (memory (frame_status vm)) ->
  step rand pid page trace ci vm vm' ->
  frame_status vm' = frame_status vm /\
  global_page_fault_count vm'
  = global_page_fault_count vm
    + match lookup_page (page_tables vm) pid page with None => 1 | Some _ => 0 end.
Proof.
  intros Hunk Hfull Hstep.
  destruct Hstep as [f Hlook | e pts' Hlook He Hfree _ _
                    | f old next lru calls pts' Hlook _ Hch _ _ _
                    | pts' Hlook _ _ _ _].
  - rewrite (unknown_not_lru _ Hunk), Hlook. split; [reflexivity | lia].
  - exfalso. destruct (Hfull (nextFrame (frame_status vm))) as (e' & He' & Hocc).
    + eapply lookup_lt_Some; eauto.
    + congruence.
  - exfalso. apply Hunk. unfold known_policy.
    destruct Hch as [E|g rest E _|g E _|E]; rewrite E; tauto.
  - simpl. rewrite Hlook. split; [reflexivity | lia].
Qed.

Lemma g_lookup_of_frames (vm vm' : VirtualMemoryManager) :
  consistent vm -> consistent vm' -> frame_status vm' = frame_status vm ->
  forall P p, lookup_page (page_tables vm') P p = lookup_page (page_tables vm) P p.
Proof.
  intros Hc Hc' Hfs P p.
  pose proof (cons_bij vm Hc P p) as Hb. pose proof (cons_bij vm' Hc' P p) as Hb'.
  rewrite Hfs in Hb'.
  destruct (lookup_page (page_tables vm') P p) as [f|] eqn:E'.
  - symmetry. apply (Hb f). apply (Hb' f). reflexivity.
  - destruct (lookup_page (page_tables vm) P p) as [f|] eqn:E; [|reflexivity].
    apply (Hb' f). apply (Hb f). reflexivity.
Qed.

Lemma g_after_frozen (rand : nat -> nat) (nf : Z) (policy : string)
    (trace : list (Z * N)) (n d : nat) (vm vm' : VirtualMemoryManager) :
  (1 <= nf)%Z -> ~ known_policy policy ->
  after rand nf policy trace n = Ok vm -> full (memory (frame_status vm)) ->
  after rand nf policy trace (n + d) = Ok vm' ->
  frame_status vm' = frame_status vm /\
  global_page_fault_count vm'
  = global_page_fault_count vm + misses_in (page_tables vm) (take d (drop n trace)).
Proof.
  intros Hnf Hunk Hrun Hfull.
  destruct (g_after_consistent _ _ _ _ _ _ Hnf Hrun) as (Hc0 & _ & _).
  revert vm'. induction d as [|d IH]; intros vm' Hrun'.
  - rewrite Nat.add_0_r in Hrun'. assert (vm' = vm) by congruence. subst vm'.
    split; [reflexivity|]. unfold misses_in. simpl. lia.
  - replace (n + S d) with (S (n + d)) in Hrun' by lia.
    apply g_after_prefix in Hrun'. destruct Hrun' as (vm1 & H1 & Hstep).
    destruct (IH vm1 H1) as [Hfs Hcount].
    destruct (g_after_consistent _ _ _ _ _ _ Hnf H1) as (Hc & Hp & _).
    rewrite window_S.
    destruct (trace !! (n + d)) as [[pid page]|].
    2:{ subst vm'. rewrite app_nil_r. split; assumption. }
    simpl in Hstep. apply g_handleAccess_Ok in Hstep; [|exact Hc].
    destruct Hstep as [_ Hstep].
    destruct (g_step_frozen rand pid page trace (n + d) vm1 vm') as [Hfs' Hcount'].
    + rewrite Hp. exact Hunk.
    + rewrite Hfs. exact Hfull.
    + exact Hstep.
    + split; [congruence|].
      rewrite misses_in_snoc, Hcount', Hcount. simpl.
      rewrite (g_lookup_of_frames vm vm1 Hc0 Hc Hfs pid page). lia.
Qed.

End GlobalFrozen.

Module LocalFrozen.
Import Local LocalSteps LocalInv LocalRuns LocalAfter LocalCache.

Lemma l_step_frozen (rand : nat -> nat) (pid : Z) (page : N) (trace : list (Z * N))
    (ci : nat) (vm vm' : VirtualMemoryManager) (P : Z) :
  consistent vm -> valid_pid pid -> valid_pid P ->
  ~ known_policy (replacement_policy vm) -> full (partition (frame_status vm) P) ->
  step rand pid page trace ci vm vm' ->
  partition (frame_status vm') P = partition (frame_status vm) P /\
  faults_of (page_tables vm') (Z.to_nat P)
  = faults_of (page_tables vm) (Z.to_nat P)
    + if decide (pid = P)
      then match lookup_page (page_tables vm) pid page with None => 1 | Some _ => 0 end
      else 0.
Proof.
  intros Hc Hv HP Hunk Hfull Hstep.
  destruct (decide (pid = P)) as [->|Hne].
  2:{ destruct (l_step_other rand pid page trace ci vm vm' P Hc Hv HP) as [Hpart Hf];
        [congruence | exact Hstep |].
      split; [exact Hpart | lia]. }
  destruct Hstep as [f Hlook | f pts' Hlook Hff _ _
                    | f old next lru calls pts' Hlook _ Hch _ _ _
                    | pts' Hlook _ _ [_ Hf] _].
  - rewrite (unknown_not_lru _ Hunk), Hlook. split; [reflexivity | lia].
  - exfalso. exact (first_free_not_full _ _ Hff Hfull).
  - exfalso. apply Hunk. unfold known_policy.
    destruct Hch as [E|g rest E _|g E _|E]; rewrite E; tauto.
  - simpl. rewrite Hlook. split; [reflexivity|].
    rewrite (Hf (Z.to_nat P)).
    destruct (decide (Z.to_nat P = Z.to_nat P)) as [_|]; [lia | contradiction].
Qed.

Lemma l_lookup_of_frames (vm vm' : VirtualMemoryManager) (P : Z) :
  consistent vm -> consistent vm' ->
  partition (frame_status vm') P = partition (frame_status vm) P ->
  forall p, lookup_page (page_tables vm') P p = lookup_page (page_tables vm) P p.
Proof.
  intros Hc Hc' Hfs p.
  pose proof (cons_bij vm Hc P p) as Hb. pose proof (cons_bij vm' Hc' P p) as Hb'.
  rewrite Hfs in Hb'.
  destruct (lookup_page (page_tables vm') P p) as [f|] eqn:E'.
  - symmetry. apply (Hb f). apply (Hb' f). reflexivity.
  - destruct (lookup_page (page_tables vm) P p) as [f|] eqn:E; [|reflexivity].
    apply (Hb' f). apply (Hb f). reflexivity.
Qed.

Lemma l_after_frozen (rand : nat -> nat) (nf : Z) (policy : string)
    (trace : list (Z * N)) (n d : nat) (vm vm' : VirtualMemoryManager) (P : Z) :
  (4 <= nf)%Z -> ~ known_policy policy -> valid_pid P ->
  after rand nf policy trace n = Ok vm -> full (partition (frame_status vm) P) ->
  after rand nf policy trace (n + d) = Ok vm' ->
  partition (frame_status vm') P = partition (frame_status vm) P /\
  faults_of (page_tables vm') (Z.to_nat P)
  = faults_of (page_tables vm) (Z.to_nat P)
    + misses_in (page_tables vm) (filter (fun r => r.1 = P) (take d (drop n trace))).
Proof.
  intros Hnf Hunk HP Hrun Hfull.
  destruct (l_after_consistent _ _ _ _ _ _ Hnf Hrun) as (Hc0 & _ & _).
  revert vm'. induction d as [|d IH]; intros vm' Hrun'.
  - rewrite Nat.add_0_r in Hrun'. assert (vm' = vm) by congruence. subst vm'.
    split; [reflexivity|]. unfold misses_in. simpl. lia.
  - replace (n + S d) with (S (n + d)) in Hrun' by lia.
    apply l_after_prefix in Hrun'. destruct Hrun' as (vm1 & H1 & Hstep).
    destruct (IH vm1 H1) as [Hfs Hcount].
    destruct (l_after_consistent _ _ _ _ _ _ Hnf H1) as (Hc & Hp & _).
    rewrite window_S.
    destruct (trace !! (n + d)) as [[pid page]|].
    2:{ subst vm'. rewrite app_nil_r. split; assumption. }
    simpl in Hstep. apply l_handleAccess_Ok in Hstep; [|exact Hc].
    destruct Hstep as [Hv Hstep].
    destruct (l_step_frozen rand pid page trace (n + d) vm1 vm' P Hc Hv HP)
      as [Hfs' Hcount'].
    + rewrite Hp. exact Hunk.
    + rewrite Hfs. exact Hfull.
    + exact Hstep.
    + split; [congruence|].
      rewrite filter_app, filter_cons, filter_nil, Hcount', Hcount. simpl.
      destruct (decide (pid = P)) as [->|Hne].
      * rewrite misses_in_snoc. simpl.
        rewrite (l_lookup_of_frames vm vm1 P Hc0 Hc Hfs page). lia.
      * rewrite app_nil_r. lia.
Qed.

End LocalFrozen.

(** X16. A policy name other than the four known ones is not refused, and
    the run never evicts.  From the moment the pool (a partition, in the
    partitioned engine) is full, its frames and the mappings of the page
    tables are the same after every longer prefix, and each later access to
    a page that was not resident at that moment counts a fault: the fault
    count grows by the number of these accesses. *)
Theorem X16_unknown_policy_never_evicts (rand : nat -> nat) (nf : Z) (policy : string)
    (trace : list (Z * N)) (n m : nat) :
  ~ known_policy policy -> n <= m ->
  (forall vm vm', (1 <= nf)%Z ->
     Global.after rand nf policy trace n = Ok vm ->
     full (Global.memory (Global.frame_status vm)) ->
     Global.after rand nf policy trace m = Ok vm' ->
     Global.frame_status vm' = Global.frame_status vm /\
     (forall P p, lookup_page (Global.page_tables vm') P p
                  = lookup_page (Global.page_tables vm) P p) /\
     Global.global_page_fault_count vm'
     = Global.global_page_fault_count vm
       + misses_in (Global.page_tables vm) (take (m - n) (drop n trace))) /\
  (forall vm vm' P, (4 <= nf)%Z -> valid_pid P ->
     Local.after rand nf policy trace n = Ok vm ->
     full (Local.partition (Local.frame_status vm) P) ->
     Local.after rand nf policy trace m = Ok vm' ->
     Local.partition (Local.frame_status vm') P = Local.partition (Local.frame_status vm) P /\
     (forall p, lookup_page (Local.page_tables vm') P p
                = lookup_page (Local.page_tables vm) P p) /\
     faults_of (Local.page_tables vm') (Z.to_nat P)
     = faults_of (Local.page_tables vm) (Z.to_nat P)
       + misses_in (Local.page_tables vm)
           (filter (fun r => r.1 = P) (take (m - n) (drop n trace)))).
Proof.
  intros Hunk Hnm. split.
  - intros vm vm' Hnf Hrun Hfull Hrun'.
    replace m with (n + (m - n)) in Hrun' by lia.
    destruct (GlobalFrozen.g_after_frozen rand nf policy trace n (m - n) vm vm'
                Hnf Hunk Hrun Hfull Hrun') as [Hfs Hcount].
    destruct (GlobalAfter.g_after_consistent _ _ _ _ _ _ Hnf Hrun) as (Hc & _ & _).
    destruct (GlobalAfter.g_after_consistent _ _ _ _ _ _ Hnf Hrun') as (Hc' & _ & _).
    split; [exact Hfs|]. split; [|exact Hcount].
    exact (GlobalFrozen.g_lookup_of_frames vm vm' Hc Hc' Hfs).
  - intros vm vm' P Hnf HP Hrun Hfull Hrun'.
    replace m with (n + (m - n)) in Hrun' by lia.
    destruct (LocalFrozen.l_after_frozen rand nf policy trace n (m - n) vm vm' P
                Hnf Hunk HP Hrun Hfull Hrun') as [Hfs Hcount].
    destruct (LocalAfter.l_after_consistent _ _ _ _ _ _ Hnf Hrun) as (Hc & _ & _).
    destruct (LocalAfter.l_after_consistent _ _ _ _ _ _ Hnf Hrun') as (Hc' & _ & _).
    split; [exact Hfs|]. split; [|exact Hcount].
    exact (LocalFrozen.l_lookup_of_frames vm vm' P Hc Hc' Hfs).
Qed.

Lemma X16_witness :
  exists vm vm',
    Global.after (fun _ => 0) 3 "clock" (single_process 0 belady_pages) 3 = Ok vm /\
    Global.after (fun _ => 0) 3 "clock" (single_process 0 belady_pages) 12 = Ok vm' /\
    Global.memory (Global.frame_status vm') = [(0%Z, 1%N); (0%Z, 2%N); (0%Z, 3%N)] /\
    Global.global_page_fault_count vm' = 7.
Proof.
  assert (Hvalid : valid_trace (single_process 0 belady_pages))
    by (apply valid_traceb_sound; reflexivity).
  assert (Hunk : ~ known_policy "clock").
  { intros [H|[H|[H|H]]]; discriminate H. }
  destruct (GlobalAfter.g_after_total (fun _ => 0) 3 "clock" (single_process 0 belady_pages) 3
              ltac:(lia) Hvalid) as [vm Hvm].
  destruct (GlobalAfter.g_after_total (fun _ => 0) 3 "clock" (single_process 0 belady_pages) 12
              ltac:(lia) Hvalid) as [vm' Hvm'].
  pose proof Hvm as Hc. vm_compute in Hc. injection Hc as Hc.
  destruct (X16_unknown_policy_never_evicts (fun _ => 0) 3 "clock"
              (single_process 0 belady_pages) 3 12 Hunk ltac:(lia)) as [XG _].
  destruct (XG vm vm' ltac:(lia) Hvm) as (Hfs & _ & Hcount); [|exact Hvm'|].
  { rewrite <- Hc. intros f Hf. simpl in Hf.
    destruct f as [|[|[|f]]]; [| | |lia]; eexists; split; reflexivity. }
  exists vm, vm'. split; [exact Hvm|]. split; [exact Hvm'|].
  split; [rewrite Hfs, <- Hc; reflexivity|].
  rewrite Hcount, <- Hc. vm_compute. reflexivity.
Defined.

